(** * ASF-B*-tree placement engine (src/data_struct/ASFBStarTree.cpp)

    A shallow embedding of the packing pipeline of [ASFBStarTree]:
    the contour (skyline) list, B*-tree packing, compaction, the symmetry
    axis, the projection of symmetric modules, validation and the
    construction of the initial tree, followed by the properties proved
    about them.

    Conventions of the embedding.
    - C++ [int] is [Z].  The sums that [updateContour] and
      [optimizeModulePositions] form from arguments that nothing in the
      code bounds (the edges [x + width] and [y + height], the shift of a
      placement with a negative coordinate) are wrapped to 32 bits with
      [wrapInt], as the compiled code does; the theorems about them state
      the range they need.  The other sums add coordinates and dimensions
      of placed modules and are kept in [Z]: what is proved of them is
      proved of placements that fit in 32 bits.
    - C++ [double] is [Q].  Apart from [numeric_limits<double>::min()],
      every double the code computes is obtained from int coordinates by
      halving at most twice, so it is a multiple of 1/4 and is represented
      exactly in binary64; [Q] arithmetic is then the arithmetic of the
      code.  The one sum that involves [numeric_limits<double>::min()] is
      rounded as binary64 rounds it ([addOne]).
    - [modules] (name -> shared_ptr<Module>) is a [gmap string ModuleT];
      [modules[name]->...] on a name that is absent dereferences a null
      pointer, which the embedding renders as [None].
    - [representativeModules], [repToPairMap] and [selfSymmetricModules] are
      lists in iteration order; the local hash maps of [compactPlacement]
      are [gmap]s, iterated in the order of [map_to_list] (C++ leaves the
      iteration order of an [unordered_map] open). *)

From Stdlib Require Import ZArith QArith Qround Qabs Qminmax Lqa Lia Sorted.
From stdpp Require Import gmap strings list fin_maps sorting.

Local Open Scope Z_scope.

(** ** Machine integers *)

(** [std::numeric_limits<int>::max()] and [::min()]. *)
Definition INT_MAX : Z := 2147483647.
Definition INT_MIN : Z := -2147483648.

(** The [int] that holds the exact result [z] of an addition, a subtraction
    or a negation of ints: [z] itself when it fits in 32 bits, and its
    two's-complement wrap-around when it does not (the C++ standard leaves
    the overflow undefined; this is what the compiled code computes). *)
Definition wrapInt (z : Z) : Z := (z - INT_MIN) mod 2 ^ 32 + INT_MIN.

(** ** Contour *)

(** [struct ContourPoint { int x; int height; ContourPoint* next; }]: the
    singly linked list headed by [contourHead] is the list of its points. *)
Record ContourPoint := mkContourPoint { cp_x : Z; cp_height : Z }.

Abbreviation Contour := (list ContourPoint).

Definition cp_lt (p q : ContourPoint) : Prop := cp_x p < cp_x q.

(** The first [while] of [updateContour]: points left of the module are
    skipped ([prev] ends as the last skipped point, [curr] as the first
    point with [x] at or beyond the left edge). *)
Fixpoint skipLeft (x : Z) (c : Contour) : Contour * Contour :=
  match c with
  | [] => ([], [])
  | p :: c' =>
      if cp_x p <? x
      then let '(pre, curr) := skipLeft x c' in (p :: pre, curr)
      else ([], c)
  end.

(** The second [while] of [updateContour]: up to the right edge, a point
    whose height is at most [top] is unlinked and deleted, a higher point
    is kept (and becomes [prev]). *)
Fixpoint dropCovered (right top : Z) (c : Contour) : Contour * Contour :=
  match c with
  | [] => ([], [])
  | p :: c' =>
      if cp_x p <? right
      then let '(kept, curr) := dropCovered right top c' in
           if cp_height p <=? top then (kept, curr) else (p :: kept, curr)
      else ([], c)
  end.

(** [prev ? prev->height : 0] *)
Definition prevHeight (pre : Contour) : Z :=
  match last pre with Some p => cp_height p | None => 0 end.

(** "Handle case where we need to insert a point at x": a new point at the
    left edge is linked after [prev], or the existing point at [x] is raised;
    in both cases that point becomes [prev]. *)
Definition linkLeftEdge (x top : Z) (pre curr : Contour) : Contour * Contour :=
  match curr with
  | [] => (pre ++ [mkContourPoint x top], [])
  | p :: tl =>
      if cp_x p >? x then (pre ++ [mkContourPoint x top], curr)
      else if cp_x p =? x
           then (pre ++ [mkContourPoint (cp_x p) (Z.max (cp_height p) top)], tl)
           else (pre, curr)
  end.

(** "Handle the right edge point": a new point at [right] carrying the
    height of [prev], or the existing point at [right] raised to it. *)
Definition linkRightEdge (right : Z) (pre curr : Contour) : Contour :=
  match curr with
  | [] => pre ++ [mkContourPoint right (prevHeight pre)]
  | p :: tl =>
      if cp_x p >? right
      then pre ++ mkContourPoint right (prevHeight pre) :: curr
      else if cp_x p =? right
           then pre ++ mkContourPoint (cp_x p) (Z.max (cp_height p) (prevHeight pre)) :: tl
           else pre ++ curr
  end.

Definition updateContour (x y width height : Z) (c : Contour) : Contour :=
  let right := wrapInt (x + width) in
  let top := wrapInt (y + height) in
  match c with
  | [] => [mkContourPoint x top; mkContourPoint right 0]
  | _ =>
      let '(pre, curr) := skipLeft x c in
      let '(pre1, curr1) := linkLeftEdge x top pre curr in
      let '(kept, curr2) := dropCovered right top curr1 in
      linkRightEdge right (pre1 ++ kept) curr2
  end.

(** Modelled from the spec: [clearContour] is not in the source file; the
    spec's [reset()] drops all points, producing the empty contour. *)
Definition clearContour : Contour := [].

(** Modelled from the spec: [getContourHeight] is not in the source file.
    The spec's [heightAt(x)] is the height of the skyline at [x]: between
    adjacent points [(x_i, h_i)] and [(x_(i+1), h_(i+1))] the height is
    [h_i], and it is 0 where the contour is not defined. *)
Fixpoint heightAt (c : Contour) (x : Z) : Z :=
  match c with
  | p :: ((q :: _) as c') =>
      if (cp_x p <=? x) && (x <? cp_x q) then cp_height p else heightAt c' x
  | _ => 0
  end.

(** Spec 4.3, [maxHeightOver(x, width)]: the maximum height across the
    half-open interval [[x, x+width)], 0 if the interval is empty.  Contour
    points have integer abscissas, so the maximum is reached at an integer. *)
Definition maxHeightOver (heightOf : Contour → Z → Z)
    (c : Contour) (x width : Z) : Z :=
  foldr (λ currX acc, Z.max (heightOf c currX) acc) 0 (seqZ x width).

(** ** Modules and the symmetry group *)

Inductive SymmetryType := VERTICAL | HORIZONTAL.

(** The [Module] objects behind the [shared_ptr]s of the module table; the
    projections carry the names of the C++ getters. *)
Record ModuleT := mkModule {
  getWidth : Z;
  getHeight : Z;
  getX : Z;
  getY : Z;
  getRotated : bool
}.

Definition setPosition (x y : Z) (m : ModuleT) : ModuleT :=
  {| getWidth := getWidth m; getHeight := getHeight m;
     getX := x; getY := y; getRotated := getRotated m |}.

(** Modelled from the spec: [Module::rotate] is declared in Module.hpp, which
    is not in the source tree.  "Rotation swaps width and height"; after the
    swap the projector's partner has [rotated = true]. *)
Definition rotate (m : ModuleT) : ModuleT :=
  {| getWidth := getHeight m; getHeight := getWidth m;
     getX := getX m; getY := getY m; getRotated := true |}.

(** Modelled from the spec: [Module::setRotation] is declared in Module.hpp;
    the projector uses it to "propagate [rep.rotated] into [sym.rotated]". *)
Definition setRotation (r : bool) (m : ModuleT) : ModuleT :=
  {| getWidth := getWidth m; getHeight := getHeight m;
     getX := getX m; getY := getY m; getRotated := r |}.

(** [symmetryGroup]: its type and the axis position stored on it. *)
Record SymmetryGroup := mkGroup {
  getType : SymmetryType;
  axisPosition : Q
}.

(** ** The tree *)

(** A value of [BStarNode*]: [nullptr], or a node with its module name and
    its two child pointers. *)
Inductive BStarNode :=
| nullptr
| mkNode (moduleName : string) (left right : BStarNode).

Fixpoint nodeCount (t : BStarNode) : nat :=
  match t with
  | nullptr => O
  | mkNode _ l r => S (nodeCount l + nodeCount r)
  end.

(** Modelled from the spec: [preorder] and [inorder] are not in the source
    file; they fill the traversal vectors with the node names, parents before
    children (pre-order) and left subtree, node, right subtree (in-order). *)
Fixpoint preorder (t : BStarNode) : list string :=
  match t with
  | nullptr => []
  | mkNode n l r => n :: preorder l ++ preorder r
  end.

Fixpoint inorder (t : BStarNode) : list string :=
  match t with
  | nullptr => []
  | mkNode n l r => inorder l ++ n :: inorder r
  end.

(** The chain reached from the root by following [right] (resp. [left]). *)
Fixpoint rightBranch (t : BStarNode) : list string :=
  match t with
  | nullptr => []
  | mkNode n _ r => n :: rightBranch r
  end.

Fixpoint leftBranch (t : BStarNode) : list string :=
  match t with
  | nullptr => []
  | mkNode n l _ => n :: leftBranch l
  end.

(** ** The engine state *)

Record ASFBStarTree := mkEngine {
  modules : gmap string ModuleT;
  symmetryGroup : SymmetryGroup;
  representativeModules : list string;     (* keys, in iteration order *)
  repToPairMap : list (string * string);   (* (rep, partner), in iteration order *)
  selfSymmetricModules : list string;
  root : BStarNode;
  contourHead : Contour;
  symmetryAxisPosition : Q;
  preorderTraversal : list string;
  inorderTraversal : list string
}.

Definition withModules (ms : gmap string ModuleT) (s : ASFBStarTree) :=
  mkEngine ms (symmetryGroup s) (representativeModules s) (repToPairMap s)
    (selfSymmetricModules s) (root s) (contourHead s)
    (symmetryAxisPosition s) (preorderTraversal s) (inorderTraversal s).

Definition withContour (c : Contour) (s : ASFBStarTree) :=
  mkEngine (modules s) (symmetryGroup s) (representativeModules s)
    (repToPairMap s) (selfSymmetricModules s) (root s) c
    (symmetryAxisPosition s) (preorderTraversal s) (inorderTraversal s).

(** [symmetryAxisPosition = a; symmetryGroup->setAxisPosition(a)] *)
Definition withAxis (a : Q) (s : ASFBStarTree) :=
  mkEngine (modules s) (mkGroup (getType (symmetryGroup s)) a)
    (representativeModules s) (repToPairMap s) (selfSymmetricModules s)
    (root s) (contourHead s) a (preorderTraversal s) (inorderTraversal s).

Definition withTraversals (pre ino : list string) (s : ASFBStarTree) :=
  mkEngine (modules s) (symmetryGroup s) (representativeModules s)
    (repToPairMap s) (selfSymmetricModules s) (root s) (contourHead s)
    (symmetryAxisPosition s) pre ino.

Definition withRoot (t : BStarNode) (s : ASFBStarTree) :=
  mkEngine (modules s) (symmetryGroup s) (representativeModules s)
    (repToPairMap s) (selfSymmetricModules s) t (contourHead s)
    (symmetryAxisPosition s) (preorderTraversal s) (inorderTraversal s).

(** [std::numeric_limits<double>::min()], the smallest positive normal
    double, 2^-1022 (not the most negative double). *)
Definition DBL_MIN : Q := 1 # (2 ^ 1022).

(** [minAxisPosition + 1.0] in binary64.  [minAxisPosition] is a running
    maximum that starts from [DBL_MIN]: either a pair has raised it to a
    multiple of 1/4 (below 2^33 in magnitude), and the sum is exact, or it
    is still [DBL_MIN], and the sum rounds to 1.0, because 2^-1022 is far
    less than half the distance 2^-52 between 1.0 and the next double. *)
Definition addOne (minAxisPosition : Q) : Q :=
  if Qeq_bool minAxisPosition DBL_MIN then 1%Q else (minAxisPosition + 1)%Q.

(** [a < b] on doubles. *)
Definition Qltb (a b : Q) : bool := negb (Qle_bool b a).

(** [static_cast<int>(std::round(q))]: to the nearest integer, halves away
    from zero. *)
Definition round (q : Q) : Z :=
  if Qle_bool 0 q then Qfloor (q + (1 # 2)) else (- Qfloor (- q + (1 # 2)))%Z.

(** [std::sort] with the comparator [key a < key b].  The order of elements
    with equal keys is left open by C++; the embedding keeps them in their
    original order (insertion sort). *)
Fixpoint insertBy {A} (key : A → Z) (a : A) (l : list A) : list A :=
  match l with
  | [] => [a]
  | b :: l' => if key b <? key a then b :: insertBy key a l' else a :: l
  end.

Definition sortBy {A} (key : A → Z) (l : list A) : list A :=
  foldr (insertBy key) [] l.

(** A [for] loop over [l] whose body [f] may fail on a missing module: the
    state is threaded through the iterations and a failure ends the run. *)
Definition foldOption {A B} (f : B → A → option B) (l : list A) (b : B)
    : option B :=
  foldl (λ acc a, b' ← acc; f b' a) (Some b) l.

(** The coordinate and the extent along which a group is mirrored: x and
    width for VERTICAL, y and height for HORIZONTAL.  The source spells the
    two cases out in two branches that differ only by this exchange. *)
Definition axisCoord (ty : SymmetryType) (m : ModuleT) : Z :=
  match ty with VERTICAL => getX m | HORIZONTAL => getY m end.

Definition axisExtent (ty : SymmetryType) (m : ModuleT) : Z :=
  match ty with VERTICAL => getWidth m | HORIZONTAL => getHeight m end.

(** ** Packing *)

Section Packing.

(** [getContourHeight] is declared in ASFBStarTree.hpp and defined outside
    the source file: the packer is parameterised by it (the spec's reading
    of it is [heightAt]). *)
Variable getContourHeight : Contour → Z → Z.

Definition hasContourOverlap (c : Contour) (x y width height : Z) : bool :=
  existsb (λ currX, getContourHeight c currX >? y) (seqZ x width).

(** [modules[name]->setPosition(x, y)] followed by
    [updateContour(x, y, modules[name]->getWidth(), modules[name]->getHeight())]. *)
Definition placeAt (name : string) (x y : Z) (s : ASFBStarTree)
    : option ASFBStarTree :=
  m ← modules s !! name;
  let m' := setPosition x y m in
  Some (withContour
          (updateContour x y (getWidth m') (getHeight m') (contourHead s))
          (withModules (<[name := m']> (modules s)) s)).

(** The y coordinate chosen for a left child: the contour height at
    [leftX], replaced by the parent's y when the child does not pierce the
    contour there. *)
Definition leftChildY (c : Contour) (leftX nodeY width height : Z) : Z :=
  let leftY := getContourHeight c leftX in
  if negb (hasContourOverlap c leftX nodeY width height) then nodeY else leftY.

(** [if (node->left) { ... }]: returns the new state and the entry pushed
    on the queue, if any. *)
Definition placeLeftChild (name : string) (nodeX nodeY : Z) (l : BStarNode)
    (s : ASFBStarTree) : option (ASFBStarTree * list (BStarNode * (Z * Z))) :=
  match l with
  | nullptr => Some (s, [])
  | mkNode lname _ _ =>
      m ← modules s !! name;
      lm ← modules s !! lname;
      let leftX := nodeX + getWidth m in
      let leftY := leftChildY (contourHead s) leftX nodeY (getWidth lm) (getHeight lm) in
      s' ← placeAt lname leftX leftY s;
      Some (s', [(l, (leftX, leftY))])
  end.

(** [if (node->right) { ... }] *)
Definition placeRightChild (name : string) (nodeX nodeY : Z) (r : BStarNode)
    (s : ASFBStarTree) : option (ASFBStarTree * list (BStarNode * (Z * Z))) :=
  match r with
  | nullptr => Some (s, [])
  | mkNode rname _ _ =>
      m ← modules s !! name;
      let rightX := nodeX in
      let rightY := nodeY + getHeight m in
      s' ← placeAt rname rightX rightY s;
      Some (s', [(r, (rightX, rightY))])
  end.

(** The body of [while (!bfsQueue.empty())]; a queue entry carries the
    node together with its entry of [nodePositions].  Each iteration pops
    one node, so [nodeCount] of the queued subtrees bounds the number of
    iterations. *)
Fixpoint bfsLoop (fuel : nat) (queue : list (BStarNode * (Z * Z)))
    (s : ASFBStarTree) : option ASFBStarTree :=
  match queue with
  | [] => Some s
  | (node, (nodeX, nodeY)) :: queue' =>
      match fuel with
      | O => None
      | S fuel' =>
          match node with
          | nullptr => bfsLoop fuel' queue' s
          | mkNode name l r =>
              '(s1, q1) ← placeLeftChild name nodeX nodeY l s;
              '(s2, q2) ← placeRightChild name nodeX nodeY r s1;
              bfsLoop fuel' (queue' ++ q1 ++ q2) s2
          end
      end
  end.

(** *** Compaction *)

(** [positions] and [dimensions], the two local hash maps. *)
Definition collectPositions (s : ASFBStarTree)
    : option (gmap string (Z * Z) * gmap string (Z * Z)) :=
  foldOption (λ '(positions, dimensions) name,
                m ← modules s !! name;
                Some (<[name := (getX m, getY m)]> positions,
                      <[name := (getWidth m, getHeight m)]> dimensions))
             (representativeModules s) (∅, ∅).

Definition minXY (positions : gmap string (Z * Z)) : Z * Z :=
  foldr (λ '(_, (x, y)) '(minX, minY), (Z.min minX x, Z.min minY y))
        (INT_MAX, INT_MAX) (map_to_list positions).

(** "Shift all modules to ensure positive coordinates" *)
Definition translateToOrigin (positions : gmap string (Z * Z))
    : gmap string (Z * Z) :=
  let '(minX, minY) := minXY positions in
  if (minX >? 0) || (minY >? 0)
  then (λ '(x, y), (x - minX, y - minY)) <$> positions
  else positions.

(** One iteration of the outer loop of the X compaction: the module
    [currModule] against the modules before it in [modulesByX]. *)
Definition shiftLeft (dimensions : gmap string (Z * Z))
    (positions : gmap string (Z * Z)) (prevs : list string)
    (currModule : string) : gmap string (Z * Z) :=
  let '(currX, currY) := positions !!! currModule in
  let '(currWidth, currHeight) := dimensions !!! currModule in
  let maxLeftShift :=
    foldl (λ maxLeftShift prevModule,
             let '(prevX, prevY) := positions !!! prevModule in
             let '(prevWidth, prevHeight) := dimensions !!! prevModule in
             let yOverlap :=
               negb ((prevY + prevHeight <=? currY) || (currY + currHeight <=? prevY)) in
             if yOverlap
             then Z.min maxLeftShift (currX - (prevX + prevWidth))
             else maxLeftShift)
          currX prevs in
  if maxLeftShift >? 0
  then <[currModule := (currX - maxLeftShift, currY)]> positions
  else positions.

(** The same for the Y compaction. *)
Definition shiftDown (dimensions : gmap string (Z * Z))
    (positions : gmap string (Z * Z)) (prevs : list string)
    (currModule : string) : gmap string (Z * Z) :=
  let '(currX, currY) := positions !!! currModule in
  let '(currWidth, currHeight) := dimensions !!! currModule in
  let maxDownShift :=
    foldl (λ maxDownShift prevModule,
             let '(prevX, prevY) := positions !!! prevModule in
             let '(prevWidth, prevHeight) := dimensions !!! prevModule in
             let xOverlap :=
               negb ((prevX + prevWidth <=? currX) || (currX + currWidth <=? prevX)) in
             if xOverlap
             then Z.min maxDownShift (currY - (prevY + prevHeight))
             else maxDownShift)
          currY prevs in
  if maxDownShift >? 0
  then <[currModule := (currX, currY - maxDownShift)]> positions
  else positions.

(** [for (size_t i = 1; i < order.size(); i++)], with [prevs] the elements
    of [order] before index [i]. *)
Fixpoint compactLoop
    (shift : gmap string (Z * Z) → list string → string → gmap string (Z * Z))
    (prevs todo : list string) (positions : gmap string (Z * Z))
    : gmap string (Z * Z) :=
  match todo with
  | [] => positions
  | currModule :: todo' =>
      compactLoop shift (prevs ++ [currModule]) todo'
        (shift positions prevs currModule)
  end.

Definition compactScan
    (shift : gmap string (Z * Z) → list string → string → gmap string (Z * Z))
    (order : list string) (positions : gmap string (Z * Z))
    : gmap string (Z * Z) :=
  match order with
  | [] => positions
  | first :: rest => compactLoop shift [first] rest positions
  end.

(** Sort the keys of [positions] by x, then compact in X. *)
Definition compactX (dimensions positions : gmap string (Z * Z))
    : gmap string (Z * Z) :=
  let modulesByX :=
    sortBy (λ a, (positions !!! a).1) (map_to_list positions).*1 in
  compactScan (shiftLeft dimensions) modulesByX positions.

Definition compactY (dimensions positions : gmap string (Z * Z))
    : gmap string (Z * Z) :=
  let modulesByY :=
    sortBy (λ a, (positions !!! a).2) (map_to_list positions).*1 in
  compactScan (shiftDown dimensions) modulesByY positions.

(** "Update module positions": [modules[name]->setPosition(pos)] for every
    entry of [positions]. *)
Definition writeBack (positions : gmap string (Z * Z))
    (ms : gmap string ModuleT) : option (gmap string ModuleT) :=
  foldOption (λ ms' '(moduleName, (x, y)),
                m ← ms' !! moduleName;
                Some (<[moduleName := setPosition x y m]> ms'))
             (map_to_list positions) ms.

Definition compactPlacement (s : ASFBStarTree) : option ASFBStarTree :=
  '(positions0, dimensions) ← collectPositions s;
  let positions1 := translateToOrigin positions0 in
  let positions2 :=
    match getType (symmetryGroup s) with
    | VERTICAL => compactY dimensions (compactX dimensions positions1)
    | HORIZONTAL => compactX dimensions (compactY dimensions positions1)
    end in
  ms ← writeBack positions2 (modules s);
  Some (withModules ms s).

(** [packBStarTree] up to the call of [compactPlacement]: the contour is
    cleared, the root is placed at (0,0) and the queue is run. *)
Definition placeNodes (s : ASFBStarTree) : option ASFBStarTree :=
  let s0 := withContour clearContour s in
  match root s0 with
  | nullptr => Some s0
  | mkNode name _ _ =>
      s' ← placeAt name 0 0 s0;
      bfsLoop (nodeCount (root s0)) [(root s0, (0, 0))] s'
  end.

Definition packBStarTree (s : ASFBStarTree) : option ASFBStarTree :=
  s1 ← placeNodes s;
  compactPlacement s1.

End Packing.

(** ** Symmetry axis *)

(** First pass of the pair case: [maxRepRightEdge] (bottom edge for
    HORIZONTAL), starting from [numeric_limits<double>::min()]. *)
Definition maxRepEdge (ty : SymmetryType) (ms : gmap string ModuleT)
    (pairs : list (string * string)) : option Q :=
  foldOption (λ maxRepRightEdge '(repName, _),
                repModule ← ms !! repName;
                let repRightEdge : Q :=
                  inject_Z (axisCoord ty repModule + axisExtent ty repModule) in
                Some (Qmax maxRepRightEdge repRightEdge))
             pairs DBL_MIN.

(** [(repCenterX + symModule->getWidth() / 2.0) / 2.0] *)
Definition minAxisForPositiveCoords (ty : SymmetryType)
    (repModule symModule : ModuleT) : Q :=
  let repCenter : Q :=
    (inject_Z (axisCoord ty repModule) + inject_Z (axisExtent ty repModule) / 2)%Q in
  ((repCenter + inject_Z (axisExtent ty symModule) / 2) / 2)%Q.

(** Second pass of the pair case: [minAxisPosition]. *)
Definition minAxisOverPairs (ty : SymmetryType) (ms : gmap string ModuleT)
    (start : Q) (pairs : list (string * string)) : option Q :=
  foldOption (λ minAxisPosition '(repName, symName),
                repModule ← ms !! repName;
                symModule ← ms !! symName;
                Some (Qmax minAxisPosition
                           (minAxisForPositiveCoords ty repModule symModule)))
             pairs start.

(** The case without pairs: [maxX] over the representatives (the unused
    [minX] is omitted) and the largest extent of a self-symmetric module. *)
Definition maxRepFarEdge (ty : SymmetryType) (ms : gmap string ModuleT)
    (reps : list string) : option Z :=
  foldOption (λ maxX name,
                module ← ms !! name;
                Some (Z.max maxX (axisCoord ty module + axisExtent ty module)))
             reps INT_MIN.

Definition maxSelfSymExtent (ty : SymmetryType) (ms : gmap string ModuleT)
    (names : list string) : option Z :=
  foldOption (λ maxSelfSymWidth moduleName,
                module ← ms !! moduleName;
                Some (Z.max maxSelfSymWidth (axisExtent ty module)))
             names 0.

Definition calculateSymmetryAxisPosition (s : ASFBStarTree)
    : option ASFBStarTree :=
  let ty := getType (symmetryGroup s) in
  match repToPairMap s with
  | _ :: _ =>
      maxRepRightEdge ← maxRepEdge ty (modules s) (repToPairMap s);
      minAxisPosition ←
        minAxisOverPairs ty (modules s) maxRepRightEdge (repToPairMap s);
      Some (withAxis (addOne minAxisPosition) s)
  | [] =>
      match selfSymmetricModules s with
      | _ :: _ =>
          maxX ← maxRepFarEdge ty (modules s) (representativeModules s);
          maxSelfSymWidth ←
            maxSelfSymExtent ty (modules s) (selfSymmetricModules s);
          Some (withAxis
                  (inject_Z maxX + inject_Z maxSelfSymWidth / 2 + 1)%Q s)
      | [] => Some (withAxis (symmetryAxisPosition s) s)
      end
  end.

(** ** Projection of the symmetric modules *)

(** The value of the flag [needsRotation] at the end of the dimension
    check: the dimensions of the pair differ and a 90° swap of the partner
    makes them match. *)
Definition needsRotation (repModule symModule : ModuleT) : bool :=
  (negb (getWidth repModule =? getWidth symModule)
   || negb (getHeight repModule =? getHeight symModule))
  && (getWidth repModule =? getHeight symModule)
  && (getHeight repModule =? getWidth symModule).

(** The body of the loop over [repToPairMap].  Every access goes through
    the table, so that a name used twice denotes one [Module] object. *)
Definition updatePair (ty : SymmetryType) (axis : Q)
    (ms : gmap string ModuleT) (pair : string * string)
    : option (gmap string ModuleT) :=
  let '(repName, symName) := pair in
  repModule ← ms !! repName;
  symModule ← ms !! symName;
  let needsRotation := needsRotation repModule symModule in
  let ms1 := if needsRotation then <[symName := rotate symModule]> ms else ms in
  repModule ← ms1 !! repName;
  symModule ← ms1 !! symName;
  let repCenter : Q :=
    (inject_Z (axisCoord ty repModule) + inject_Z (axisExtent ty repModule) / 2)%Q in
  let symCenter : Q := (2 * axis - repCenter)%Q in
  let symPos : Q := (symCenter - inject_Z (axisExtent ty symModule) / 2)%Q in
  let symPosInt := round symPos in
  let ms2 :=
    match ty with
    | VERTICAL => <[symName := setPosition symPosInt (getY repModule) symModule]> ms1
    | HORIZONTAL => <[symName := setPosition (getX repModule) symPosInt symModule]> ms1
    end in
  if needsRotation then Some ms2
  else
    repModule ← ms2 !! repName;
    symModule ← ms2 !! symName;
    Some (<[symName := setRotation (getRotated repModule) symModule]> ms2).

(** The position of a self-symmetric module along the mirrored coordinate:
    round [axis - extent/2], then probe the two neighbours when the centre
    is off by more than 0.25. *)
Definition selfSymmetricPosition (axis : Q) (extent : Z) : Z :=
  let exactLeft : Q := (axis - inject_Z extent / 2)%Q in
  let moduleX := round exactLeft in
  let centerError : Q := Qabs (inject_Z moduleX + inject_Z extent / 2 - axis) in
  if Qltb (1 # 4) centerError
  then
    let altX1 := moduleX - 1 in
    let altX2 := moduleX + 1 in
    let altError1 : Q := Qabs (inject_Z altX1 + inject_Z extent / 2 - axis) in
    let altError2 : Q := Qabs (inject_Z altX2 + inject_Z extent / 2 - axis) in
    if Qltb altError1 centerError && Qltb altError1 altError2 then altX1
    else if Qltb altError2 centerError then altX2
    else moduleX
  else moduleX.

(** The body of the loop over [selfSymmetricModules]. *)
Definition updateSelfSymmetric (ty : SymmetryType) (axis : Q)
    (ms : gmap string ModuleT) (moduleName : string)
    : option (gmap string ModuleT) :=
  module ← ms !! moduleName;
  let p := selfSymmetricPosition axis (axisExtent ty module) in
  Some (match ty with
        | VERTICAL => <[moduleName := setPosition p (getY module) module]> ms
        | HORIZONTAL => <[moduleName := setPosition (getX module) p module]> ms
        end).

Definition updateSymmetricModulePositions (s : ASFBStarTree)
    : option ASFBStarTree :=
  s1 ← (if Qltb (symmetryAxisPosition s) 0
        then calculateSymmetryAxisPosition s else Some s);
  let ty := getType (symmetryGroup s1) in
  let axis := symmetryAxisPosition s1 in
  ms1 ← foldOption (updatePair ty axis) (repToPairMap s1) (modules s1);
  ms2 ← foldOption (updateSelfSymmetric ty axis) (selfSymmetricModules s1) ms1;
  Some (withModules ms2 s1).

(** ** Validation *)

Definition centerX (m : ModuleT) : Q := (inject_Z (getX m) + inject_Z (getWidth m) / 2)%Q.
Definition centerY (m : ModuleT) : Q := (inject_Z (getY m) + inject_Z (getHeight m) / 2)%Q.

Definition hasNegativeCoordinates (m : ModuleT) : bool :=
  (getX m <? 0) || (getY m <? 0).

(** The check of one pair; [true] means the pair is accepted.  A pair with a
    module missing from the table is skipped. *)
Definition pairOk (ty : SymmetryType) (axis : Q) (ms : gmap string ModuleT)
    (pair : string * string) : bool :=
  match ms !! pair.1, ms !! pair.2 with
  | Some repModule, Some symModule =>
      let expectedSum : Q := (2 * axis)%Q in
      match ty with
      | VERTICAL =>
          let error := Qabs (expectedSum - (centerX repModule + centerX symModule)) in
          let yError := Qabs (centerY repModule - centerY symModule) in
          negb (Qltb 1 error || Qltb 1 yError)
      | HORIZONTAL =>
          let error := Qabs (expectedSum - (centerY repModule + centerY symModule)) in
          let xError := Qabs (centerX repModule - centerX symModule) in
          negb (Qltb 1 error || Qltb 1 xError)
      end
  | _, _ => true
  end.

Definition selfSymmetricOk (ty : SymmetryType) (axis : Q)
    (ms : gmap string ModuleT) (moduleName : string) : bool :=
  match ms !! moduleName with
  | Some module =>
      match ty with
      | VERTICAL => negb (Qltb 1 (Qabs (centerX module - axis)))
      | HORIZONTAL => negb (Qltb 1 (Qabs (centerY module - axis)))
      end
  | None => true
  end.

Definition validateSymmetry (s : ASFBStarTree) : bool :=
  let ty := getType (symmetryGroup s) in
  let axis := symmetryAxisPosition s in
  forallb (λ '(_, module), negb (hasNegativeCoordinates module))
          (map_to_list (modules s))
  && forallb (pairOk ty axis (modules s)) (repToPairMap s)
  && forallb (selfSymmetricOk ty axis (modules s)) (selfSymmetricModules s).

(** ** pack *)

Definition pack (getContourHeight : Contour → Z → Z) (s : ASFBStarTree)
    : option (bool * ASFBStarTree) :=
  let s0 := withTraversals (preorder (root s)) (inorder (root s)) s in
  s1 ← packBStarTree getContourHeight s0;
  s2 ← calculateSymmetryAxisPosition s1;
  s3 ← updateSymmetricModulePositions s2;
  Some (validateSymmetry s3, s3).

(** ** Construction of the initial tree *)

(** [buildInitialBStarTree] creates one node per representative, keeps the
    nodes in [nodeMap] and links them in place through [currentNode],
    [rightmost] and [target].  A node pointer is rendered as the name of its
    node ([None] for [nullptr]); the store maps each node to its two child
    pointers. *)
Record NodeCell := mkCell {
  cell_left : option string;
  cell_right : option string
}.

Inductive Side := Left | Right.

Definition opposite (d : Side) : Side :=
  match d with Left => Right | Right => Left end.

Definition child (d : Side) (c : NodeCell) : option string :=
  match d with Left => cell_left c | Right => cell_right c end.

(** [nodeMap[name] = new BStarNode(name)] for every representative. *)
Definition createNodes (repModuleNames : list string) : gmap string NodeCell :=
  foldl (λ nodeMap name, <[name := mkCell None None]> nodeMap) ∅ repModuleNames.

(** [nodeMap[name]]: the node of a representative; for any other name
    [operator[]] yields a null pointer. *)
Definition nodeMapAt (st : gmap string NodeCell) (name : string) : option string :=
  match st !! name with Some _ => Some name | None => None end.

(** [p->left = q] or [p->right = q]; undefined when [p] is null. *)
Definition setChild (d : Side) (p q : option string) (st : gmap string NodeCell)
    : option (gmap string NodeCell) :=
  name ← p;
  cell ← st !! name;
  Some (<[name := match d with
                  | Left => mkCell q (cell_right cell)
                  | Right => mkCell (cell_left cell) q
                  end]> st).

(** [while (rightmost->right != nullptr) rightmost = rightmost->right;]
    (and its mirror image).  The walk does not end on a cyclic chain, which
    is the exhaustion of [fuel]. *)
Fixpoint branchEnd (fuel : nat) (d : Side) (st : gmap string NodeCell)
    (p : string) : option string :=
  cell ← st !! p;
  match child d cell with
  | None => Some p
  | Some q => match fuel with O => None | S fuel' => branchEnd fuel' d st q end
  end.

(** The closures [findOpenRightSlot] ([d = Right]) and [findOpenLeftSlot]
    ([d = Left]): the first node without a [d] child, searching the other
    subtree first.  The result is the captured [target]. *)
Fixpoint findOpenSlot (fuel : nat) (d : Side) (st : gmap string NodeCell)
    (node : option string) : option (option string) :=
  match node with
  | None => Some None
  | Some n =>
      match fuel with
      | O => None
      | S fuel' =>
          cell ← st !! n;
          match child d cell with
          | None => Some (Some n)
          | Some _ =>
              target ← findOpenSlot fuel' d st (child (opposite d) cell);
              match target with
              | Some _ => Some target
              | None => findOpenSlot fuel' d st (child d cell)
              end
          end
      end
  end.

(** The loop that chains the self-symmetric modules on the boundary branch:
    [currentNode->right = nodeMap[name]; currentNode = currentNode->right;]. *)
Fixpoint chainSelfSymmetric (primary : Side) (names : list string)
    (currentNode : option string) (st : gmap string NodeCell)
    : option (option string * gmap string NodeCell) :=
  match names with
  | [] => Some (currentNode, st)
  | name :: names' =>
      st' ← setChild primary currentNode (nodeMapAt st name) st;
      chainSelfSymmetric primary names' (nodeMapAt st name) st'
  end.

(** One iteration of the loop over the remaining non-self-symmetric
    modules, [i] being its index. *)
Definition insertNonSelfSymmetric (primary : Side) (root : option string)
    (i : nat) (moduleName : string) (currentNode : option string)
    (st : gmap string NodeCell)
    : option (option string * gmap string NodeCell) :=
  let new := nodeMapAt st moduleName in
  if (i =? 0)%nat then
    r ← root;
    rootCell ← st !! r;
    match child primary rootCell with
    | None =>
        st' ← setChild primary root new st;
        Some (new, st')
    | Some _ =>
        last ← branchEnd (size st) primary st r;
        st' ← setChild primary (Some last) new st;
        Some (new, st')
    end
  else
    let d := if Nat.even i then primary else opposite primary in
    c ← currentNode;
    currentCell ← st !! c;
    match child d currentCell with
    | None =>
        st' ← setChild d currentNode new st;
        Some (new, st')
    | Some _ =>
        target ← findOpenSlot (S (size st)) d st root;
        match target with
        | Some _ =>
            st' ← setChild d target new st;
            Some (new, st')
        | None => Some (currentNode, st)
        end
    end.

Fixpoint insertAll (primary : Side) (root : option string) (i : nat)
    (names : list string) (currentNode : option string)
    (st : gmap string NodeCell)
    : option (option string * gmap string NodeCell) :=
  match names with
  | [] => Some (currentNode, st)
  | moduleName :: names' =>
      '(currentNode', st') ←
        insertNonSelfSymmetric primary root i moduleName currentNode st;
      insertAll primary root (S i) names' currentNode' st'
  end.

(** The tree hanging from a node pointer of the store; a cyclic structure
    has no such tree ([fuel] runs out). *)
Fixpoint reify (fuel : nat) (st : gmap string NodeCell) (p : option string)
    : option BStarNode :=
  match p with
  | None => Some nullptr
  | Some n =>
      match fuel with
      | O => None
      | S fuel' =>
          cell ← st !! n;
          l ← reify fuel' st (cell_left cell);
          r ← reify fuel' st (cell_right cell);
          Some (mkNode n l r)
      end
  end.

(** Modelled from the spec: [isSelfSymmetric] is not in the source file; a
    representative is self-symmetric when it is one of the group's
    self-symmetric module names. *)
Definition isSelfSymmetric (s : ASFBStarTree) (name : string) : bool :=
  bool_decide (name ∈ selfSymmetricModules s).

(** [std::sort] of the non-self-symmetric names by height (VERTICAL) or
    width (HORIZONTAL).  The comparator reads the module table; it is not
    called on fewer than two names. *)
Definition sortByMinorDimension (ty : SymmetryType) (ms : gmap string ModuleT)
    (names : list string) : option (list string) :=
  match names with
  | [] | [_] => Some names
  | _ =>
      keyed ← mapM (λ name, m ← ms !! name;
                      Some (name, match ty with
                                  | VERTICAL => getHeight m
                                  | HORIZONTAL => getWidth m
                                  end)) names;
      Some (sortBy snd keyed).*1
  end.

Section InitialTree.

(** The two validators called at the end are defined outside the source
    file; the construction is parameterised by them. *)
Variable validateTreeStructure : BStarNode → bool.
Variable validateSymmetryConstraints : ASFBStarTree → bool.

(** [None] stands for every way of not completing: a thrown
    [runtime_error], a null dereference, a walk that does not end. *)
Definition buildInitialBStarTree (s : ASFBStarTree) : option ASFBStarTree :=
  let ty := getType (symmetryGroup s) in
  let primary := match ty with VERTICAL => Right | HORIZONTAL => Left end in
  let repModuleNames := representativeModules s in
  let selfSymModules := selfSymmetricModules s in
  nonSelfSymModules ←
    sortByMinorDimension ty (modules s)
      (List.filter (λ name, negb (isSelfSymmetric s name)) repModuleNames);
  let nodeMap := createNodes repModuleNames in
  '(rootPtr, st) ←
    match repModuleNames with
    | [] => Some (None, nodeMap)
    | _ :: _ =>
        '(rootName, nonSelfSymModules', selfSymModules') ←
          match nonSelfSymModules, selfSymModules with
          | name :: rest, _ => Some (name, rest, selfSymModules)
          | [], name :: rest => Some (name, [], rest)
          | [], [] => None
          end;
        let rootPtr := nodeMapAt nodeMap rootName in
        '(currentNode, st1) ←
          chainSelfSymmetric primary selfSymModules' rootPtr nodeMap;
        '(_, st2) ←
          insertAll primary rootPtr 0 nonSelfSymModules' currentNode st1;
        Some (rootPtr, st2)
    end;
  t ← reify (S (size st)) st rootPtr;
  let s' := withRoot t s in
  if negb (validateTreeStructure t) then None
  else if negb (validateSymmetryConstraints s') then None
  else Some s'.

End InitialTree.

(** ** Specification-side notions *)

(** The centre of a module is within one half of a vertical axis. *)
Definition centredOnX (axis : Q) (m : ModuleT) : Prop :=
  (Qabs (centerX m - axis) <= 1 # 2)%Q.

(** The interiors of the placed rectangles [[x, x+width) × [y, y+height)]
    of two modules meet. *)
Definition interiorsOverlap (a b : ModuleT) : Prop :=
  getX a < getX b + getWidth b ∧ getX b < getX a + getWidth a ∧
  getY a < getY b + getHeight b ∧ getY b < getY a + getHeight a.

(** ** Example states *)

Definition moduleTable (l : list (string * ModuleT)) : gmap string ModuleT :=
  list_to_map l.

(** A VERTICAL group with the self-symmetric module c (6×2) and the pair
    (d, d') of 2×2 modules; c is the root and d its left child. *)
Definition exampleSelfRoot : ASFBStarTree :=
  mkEngine
    (moduleTable [("c", mkModule 6 2 0 0 false); ("d", mkModule 2 2 0 0 false);
                  ("d'", mkModule 2 2 0 0 false)])
    (mkGroup VERTICAL 0) ["c"; "d"] [("d", "d'")] ["c"]
    (mkNode "c" (mkNode "d" nullptr nullptr) nullptr) [] 0 [] [].

(** The same group once the representatives are packed (c at (0,0), d at
    (6,0)) and the axis is computed (x = 9). *)
Definition exampleSelfRootPacked : ASFBStarTree :=
  mkEngine
    (moduleTable [("c", mkModule 6 2 0 0 false); ("d", mkModule 2 2 6 0 false);
                  ("d'", mkModule 2 2 0 0 false)])
    (mkGroup VERTICAL 9) ["c"; "d"] [("d", "d'")] ["c"]
    (mkNode "c" (mkNode "d" nullptr nullptr) nullptr) [] 9 [] [].

Definition exampleSelfRootProjected : ASFBStarTree :=
  default exampleSelfRootPacked
    (updateSymmetricModulePositions exampleSelfRootPacked).


(** A single 2×2 representative standing at (-1, 0). *)
Definition exampleNegative : ASFBStarTree :=
  mkEngine (moduleTable [("r", mkModule 2 2 (-1) 0 false)])
    (mkGroup VERTICAL 0) ["r"] [] []
    (mkNode "r" nullptr nullptr) [] 0 [] [].


(** A VERTICAL group after the representatives are packed: the pair
    representative d (2×2) at (0,0) and the self-symmetric representative c
    (6×2) stacked on it at (0,2). *)
Definition exampleStacked : ASFBStarTree :=
  mkEngine
    (moduleTable [("c", mkModule 6 2 0 2 false); ("d", mkModule 2 2 0 0 false);
                  ("d'", mkModule 2 2 0 0 false)])
    (mkGroup VERTICAL 0) ["c"; "d"] [("d", "d'")] ["c"]
    (mkNode "d" nullptr (mkNode "c" nullptr nullptr)) [] 0 [] [].

(** The group of [exampleStacked] with a wider self-symmetric module c
    (8×2), as it is handed to [buildInitialBStarTree]: no tree yet, every
    module at the origin. *)
Definition exampleWideSelfGroup : ASFBStarTree :=
  mkEngine
    (moduleTable [("c", mkModule 8 2 0 0 false); ("d", mkModule 2 2 0 0 false);
                  ("d'", mkModule 2 2 0 0 false)])
    (mkGroup VERTICAL 0) ["c"; "d"] [("d", "d'")] ["c"]
    nullptr [] 0 [] [].

(** Spec 4.5, case A, word for word: [A] is the maximum over the pairs of
    [(rep_center_x + sym_width/2) / 2], [R] the maximum over the
    representatives of [rep_x + rep_width], and the axis is
    [max(A, R) + 1.0]. *)
Definition Qmaximum (l : list Q) : option Q :=
  match l with
  | [] => None
  | q :: l' => Some (foldl Qmax q l')
  end.

Definition specAxisVertical (s : ASFBStarTree) : option Q :=
  pairAxes ← mapM (λ '(repName, symName),
                     repModule ← modules s !! repName;
                     symModule ← modules s !! symName;
                     Some (minAxisForPositiveCoords VERTICAL repModule symModule))
                  (repToPairMap s);
  repEdges ← mapM (λ name,
                     repModule ← modules s !! name;
                     Some (inject_Z (getX repModule + getWidth repModule)))
                  (representativeModules s);
  A ← Qmaximum pairAxes;
  R ← Qmaximum repEdges;
  Some (Qmax A R + 1)%Q.


(** What a pair contributes to the two passes of the axis computation: the
    far edge of its representative, and the least axis that keeps its
    partner at a non-negative coordinate. *)
Definition pairEdge (ty : SymmetryType) (ms : gmap string ModuleT)
    (pair : string * string) : option Q :=
  repModule ← ms !! pair.1;
  Some (inject_Z (axisCoord ty repModule + axisExtent ty repModule)).

Definition pairAxis (ty : SymmetryType) (ms : gmap string ModuleT)
    (pair : string * string) : option Q :=
  repModule ← ms !! pair.1;
  symModule ← ms !! pair.2;
  Some (minAxisForPositiveCoords ty repModule symModule).


(** What [validateSymmetry] accepts, in the words of spec 4.8: a pair is
    within tolerance when the centres of its two modules sum to twice the
    axis up to 1.0 along the mirrored coordinate and differ by at most 1.0
    along the other one; a self-symmetric module when its centre is within
    1.0 of the axis. *)
Definition pairWithinTolerance (ty : SymmetryType) (axis : Q)
    (repModule symModule : ModuleT) : Prop :=
  match ty with
  | VERTICAL =>
      (Qabs (2 * axis - (centerX repModule + centerX symModule)) <= 1 ∧
       Qabs (centerY repModule - centerY symModule) <= 1)%Q
  | HORIZONTAL =>
      (Qabs (2 * axis - (centerY repModule + centerY symModule)) <= 1 ∧
       Qabs (centerX repModule - centerX symModule) <= 1)%Q
  end.

Definition selfWithinTolerance (ty : SymmetryType) (axis : Q)
    (module : ModuleT) : Prop :=
  match ty with
  | VERTICAL => (Qabs (centerX module - axis) <= 1)%Q
  | HORIZONTAL => (Qabs (centerY module - axis) <= 1)%Q
  end.

Definition nonNegative (m : ModuleT) : Prop := 0 ≤ getX m ∧ 0 ≤ getY m.

(** Five representatives without symmetry relations, in the tree
    r(left L1(right T), right R1(left Q)). *)
Definition nodeQ : BStarNode := mkNode "Q" nullptr nullptr.
Definition nodeT : BStarNode := mkNode "T" nullptr nullptr.
Definition nodeL1 : BStarNode := mkNode "L1" nullptr nodeT.
Definition nodeR1 : BStarNode := mkNode "R1" nodeQ nullptr.

Definition exampleStaggered : ASFBStarTree :=
  mkEngine
    (moduleTable [("r", mkModule 2 2 0 0 false); ("L1", mkModule 2 2 0 0 false);
                  ("R1", mkModule 1 2 0 0 false); ("T", mkModule 2 5 0 0 false);
                  ("Q", mkModule 3 1 0 0 false)])
    (mkGroup VERTICAL 0) ["r"; "L1"; "R1"; "T"; "Q"] [] []
    (mkNode "r" nodeL1 nodeR1) [] 0 [] [].

(** The state of the packer on [exampleStaggered] when R1 is popped from the
    queue: r, L1, R1 and T are placed, Q is not yet. *)
Definition exampleStaggeredAtR1 : option ASFBStarTree :=
  s1 ← placeAt "r" 0 0 (withContour clearContour exampleStaggered);
  '(s2, _) ← placeLeftChild heightAt "r" 0 0 nodeL1 s1;
  '(s3, _) ← placeRightChild "r" 0 0 nodeR1 s2;
  '(s4, _) ← placeRightChild "L1" 2 0 nodeT s3;
  Some s4.


(** The chain of the tree that follows the children on side [d]. *)
Definition branchOf (d : Side) (t : BStarNode) : list string :=
  match d with Right => rightBranch t | Left => leftBranch t end.

(** In the node store: the node [n] is reached from the pointer [p] by
    following the [d] children. *)
Inductive onBranch (d : Side) (st : gmap string NodeCell)
    : option string → string → Prop :=
| onBranch_here n cell :
    st !! n = Some cell → onBranch d st (Some n) n
| onBranch_step a cell n :
    st !! a = Some cell → onBranch d st (child d cell) n →
    onBranch d st (Some a) n.

(** The boundary branch of a group: the rightmost branch for VERTICAL, the
    leftmost for HORIZONTAL. *)
Definition boundarySide (ty : SymmetryType) : Side :=
  match ty with VERTICAL => Right | HORIZONTAL => Left end.

(** A VERTICAL and a HORIZONTAL group with two self-symmetric modules (c,
    c2) among seven representatives. *)
Definition exampleGroupModules : gmap string ModuleT :=
  moduleTable [("c", mkModule 6 2 0 0 false); ("d", mkModule 2 2 0 0 false);
               ("d'", mkModule 2 2 0 0 false); ("e", mkModule 3 1 0 0 false);
               ("f", mkModule 1 4 0 0 false); ("g", mkModule 2 3 0 0 false);
               ("h", mkModule 5 5 0 0 false); ("c2", mkModule 4 4 0 0 false)].

Definition exampleGroup (ty : SymmetryType) : ASFBStarTree :=
  mkEngine exampleGroupModules (mkGroup ty 0)
    ["c"; "d"; "e"; "f"; "g"; "h"; "c2"] [("d", "d'")] ["c"; "c2"]
    nullptr [] 0 [] [].


(** ** Notions used to compare two runs of [pack] *)

Definition dimsEq (m m' : ModuleT) : Prop :=
  getWidth m = getWidth m' ∧ getHeight m = getHeight m'.

Definition posEq (m m' : ModuleT) : Prop :=
  getX m = getX m' ∧ getY m = getY m'.

(** Two module tables hold the same names with the same dimensions, and
    the same positions for the names in [P]. *)
Definition agree (P : string → Prop) (ms ms' : gmap string ModuleT) : Prop :=
  ∀ k, match ms !! k, ms' !! k with
       | Some m, Some m' => dimsEq m m' ∧ (P k → posEq m m')
       | None, None => True
       | _, _ => False
       end.

(** Both runs fail, or both succeed with related results. *)
Definition optRel {A B} (R : A → B → Prop) (o : option A) (o' : option B)
    : Prop :=
  match o, o' with
  | Some a, Some b => R a b
  | None, None => True
  | _, _ => False
  end.

(** The part of the state that [pack] only reads. *)
Definition sameGroup (s t : ASFBStarTree) : Prop :=
  getType (symmetryGroup s) = getType (symmetryGroup t) ∧
  representativeModules s = representativeModules t ∧
  repToPairMap s = repToPairMap t ∧
  selfSymmetricModules s = selfSymmetricModules t ∧
  root s = root t.

Definition related (P : string → Prop) (s t : ASFBStarTree) : Prop :=
  sameGroup s t ∧ contourHead s = contourHead t ∧
  agree P (modules s) (modules t).

(** One run: the state [s'] comes from [s] by writing positions (or
    rotation flags) of the modules named in [W] only. *)
Definition evolves (W : list string) (s s' : ASFBStarTree) : Prop :=
  sameGroup s s' ∧ symmetryAxisPosition s = symmetryAxisPosition s' ∧
  agree (λ k, k ∉ W) (modules s) (modules s').

Definition rootNames (t : BStarNode) : list string :=
  match t with nullptr => [] | mkNode n _ _ => [n] end.

Definition descendants (t : BStarNode) : list string :=
  match t with nullptr => [] | mkNode _ l r => preorder l ++ preorder r end.

(** The names the packing loop will still place: the descendants of the
    queued nodes. *)
Definition queueChildren (queue : list (BStarNode * (Z * Z))) : list string :=
  concat ((λ entry, descendants entry.1) <$> queue).

(** No partner is rotated by the projection: for every pair the dimension
    check of [updateSymmetricModulePositions] leaves [needsRotation] false. *)
Definition noRotation (pairs : list (string * string))
    (ms : gmap string ModuleT) : Prop :=
  ∀ repName symName repModule symModule,
    (repName, symName) ∈ pairs →
    ms !! repName = Some repModule → ms !! symName = Some symModule →
    needsRotation repModule symModule = false.

(** A pair whose partner e' (10×1) has to be rotated to match its
    representative e (1×10). *)
Definition exampleRotation : ASFBStarTree :=
  mkEngine
    (moduleTable [("e", mkModule 1 10 0 0 false); ("e'", mkModule 10 1 0 0 false)])
    (mkGroup VERTICAL 0) ["e"] [("e", "e'")] []
    (mkNode "e" nullptr nullptr) [] 0 [] [].


(** The group data of an engine state is well formed: every representative
    has a node in the tree, the representative of every pair is a
    representative module, and so is every self-symmetric module. *)
Definition wellFormedGroup (s : ASFBStarTree) : Prop :=
  (∀ name, name ∈ representativeModules s → name ∈ preorder (root s)) ∧
  (∀ repName symName,
     (repName, symName) ∈ repToPairMap s → repName ∈ representativeModules s) ∧
  (∀ name, name ∈ selfSymmetricModules s → name ∈ representativeModules s).


(** The number of nodes still to pop: the nodes of the queued subtrees. *)
Definition queueCount (queue : list (BStarNode * (Z * Z))) : nat :=
  sum_list_with (λ entry, nodeCount entry.1) queue.

(** ** Notions used to state what the projection achieves *)

(** The centre of a module along the mirrored coordinate, and its
    coordinate along the other one. *)
Definition axisCenter (ty : SymmetryType) (m : ModuleT) : Q :=
  (inject_Z (axisCoord ty m) + inject_Z (axisExtent ty m) / 2)%Q.

Definition crossCoord (ty : SymmetryType) (m : ModuleT) : Z :=
  match ty with VERTICAL => getY m | HORIZONTAL => getX m end.

(** The partner is the mirror image of the representative up to the
    rounding of its coordinate: the two centres sum to twice the axis up to
    one half, and the other coordinate is the same. *)
Definition pairMirrored (ty : SymmetryType) (axis : Q)
    (repModule symModule : ModuleT) : Prop :=
  match ty with
  | VERTICAL =>
      (Qabs (2 * axis - (centerX repModule + centerX symModule)) <= 1 # 2)%Q ∧
      getY symModule = getY repModule
  | HORIZONTAL =>
      (Qabs (2 * axis - (centerY repModule + centerY symModule)) <= 1 # 2)%Q ∧
      getX symModule = getX repModule
  end.

(** Every module plays one role in the group: the partners are pairwise
    distinct, no representative of a pair is a partner, and no
    self-symmetric module belongs to a pair. *)
Definition disjointRoles (s : ASFBStarTree) : Prop :=
  NoDup ((repToPairMap s).*2) ∧
  (∀ name, name ∈ (repToPairMap s).*1 → name ∉ ((repToPairMap s).*2)) ∧
  (∀ name, name ∈ selfSymmetricModules s →
           (name ∉ (repToPairMap s).*1) ∧ (name ∉ (repToPairMap s).*2)).

(** The partner of every pair has the dimensions of its representative,
    as it stands or turned by 90°. *)
Definition compatibleDims (s : ASFBStarTree) : Prop :=
  ∀ repName symName repModule symModule,
    (repName, symName) ∈ repToPairMap s →
    modules s !! repName = Some repModule →
    modules s !! symName = Some symModule →
    dimsEq repModule symModule ∨
    (getWidth repModule = getHeight symModule ∧
     getHeight repModule = getWidth symModule).

(** What one iteration of the loop over the pairs makes of the partner
    [symModule0], given the representative [repModule]: the partner is
    rotated when the dimension check asks for it, its mirrored coordinate is
    the rounded reflection of the centre of the representative, and its
    other coordinate is that of the representative. *)
Definition projectedFrom (ty : SymmetryType) (axis : Q)
    (repModule symModule0 symModule : ModuleT) : Prop :=
  getWidth symModule
  = getWidth (if needsRotation repModule symModule0
              then rotate symModule0 else symModule0) ∧
  getHeight symModule
  = getHeight (if needsRotation repModule symModule0
               then rotate symModule0 else symModule0) ∧
  axisCoord ty symModule
  = round (2 * axis - axisCenter ty repModule
           - inject_Z (axisExtent ty symModule) / 2)%Q ∧
  crossCoord ty symModule = crossCoord ty repModule.

(** A HORIZONTAL group after the representatives are packed and the axis is
    set to y = 4: the self-symmetric module c (2×5) and the pair (d, d') of
    2×2 modules. *)
Definition exampleHorizontalPacked : ASFBStarTree :=
  mkEngine
    (moduleTable [("c", mkModule 2 5 0 0 false); ("d", mkModule 2 2 2 0 false);
                  ("d'", mkModule 2 2 0 0 false)])
    (mkGroup HORIZONTAL 4) ["c"; "d"] [("d", "d'")] ["c"]
    (mkNode "c" (mkNode "d" nullptr nullptr) nullptr) [] 4 [] [].

Definition exampleHorizontalProjected : ASFBStarTree :=
  default exampleHorizontalPacked
    (updateSymmetricModulePositions exampleHorizontalPacked).

Definition exampleRotationProjected : ASFBStarTree :=
  default exampleRotation (updateSymmetricModulePositions exampleRotation).

(** [exampleStacked] once the axis is computed (x = 3), and once the
    symmetric modules are projected. *)
Definition exampleStackedAxis : ASFBStarTree :=
  default exampleStacked (calculateSymmetryAxisPosition exampleStacked).

Definition exampleStackedProjected : ASFBStarTree :=
  default exampleStackedAxis (updateSymmetricModulePositions exampleStackedAxis).

(** A VERTICAL group of two self-symmetric modules and no pair, after the
    representatives are packed: a (4×2) at (0,0) and b (2×2) at (4,0). *)
Definition exampleSelfOnly : ASFBStarTree :=
  mkEngine
    (moduleTable [("a", mkModule 4 2 0 0 false); ("b", mkModule 2 2 4 0 false)])
    (mkGroup VERTICAL 0) ["a"; "b"] [] ["a"; "b"]
    (mkNode "a" (mkNode "b" nullptr nullptr) nullptr) [] 0 [] [].

Definition exampleSelfOnlyAxis : ASFBStarTree :=
  default exampleSelfOnly (calculateSymmetryAxisPosition exampleSelfOnly).

Definition exampleSelfOnlyProjected : ASFBStarTree :=
  default exampleSelfOnlyAxis
    (updateSymmetricModulePositions exampleSelfOnlyAxis).

(** In the node store: the node [n] is reached from the pointer [p] by
    following child pointers. *)
Inductive reachable (st : gmap string NodeCell)
    : option string → string → Prop :=
| reachable_here n cell :
    st !! n = Some cell → reachable st (Some n) n
| reachable_step a cell d n :
    st !! a = Some cell → reachable st (child d cell) n →
    reachable st (Some a) n.

(** The dimension by which [buildInitialBStarTree] sorts: the height for a
    VERTICAL group, the width for a HORIZONTAL one. *)
Definition minorDimension (ty : SymmetryType) (m : ModuleT) : Z :=
  match ty with VERTICAL => getHeight m | HORIZONTAL => getWidth m end.

(** A node store in which a has the right child b. *)
Definition exampleStore : gmap string NodeCell :=
  <["a" := mkCell None (Some "b")]> (createNodes ["a"; "b"]).

(** The nodes of a tree, each with the subtree hanging from it. *)
Fixpoint subtrees (t : BStarNode) : list BStarNode :=
  match t with
  | nullptr => []
  | mkNode _ l r => t :: subtrees l ++ subtrees r
  end.

(** The names of the nodes queued or still to be queued: the nodes of the
    queued subtrees. *)
Definition queueNames (queue : list (BStarNode * (Z * Z))) : list string :=
  concat ((λ entry, preorder entry.1) <$> queue).

(** The module of every queued node already stands at the position queued
    with it. *)
Definition queuePlaced (queue : list (BStarNode * (Z * Z)))
    (ms : gmap string ModuleT) : Prop :=
  ∀ name l r x y, (mkNode name l r, (x, y)) ∈ queue →
    ∃ m, ms !! name = Some m ∧ getX m = x ∧ getY m = y.

(** The B*-tree relations between a placed module and its children: the
    right child stands on top of it at the same x, the left child starts at
    its right edge. *)
Definition childrenPlaced (ms : gmap string ModuleT) (t : BStarNode) : Prop :=
  match t with
  | nullptr => True
  | mkNode name l r =>
      ∃ m, ms !! name = Some m ∧
        match r with
        | nullptr => True
        | mkNode rname _ _ =>
            ∃ rm, ms !! rname = Some rm ∧
                  getX rm = getX m ∧ getY rm = getY m + getHeight m
        end ∧
        match l with
        | nullptr => True
        | mkNode lname _ _ =>
            ∃ lm, ms !! lname = Some lm ∧ getX lm = getX m + getWidth m
        end
  end.

(** [pos] comes from [orig] by moving entries towards the origin: the two
    maps have the same keys, and each coordinate of an entry is unchanged
    or has decreased to a non-negative value. *)
Definition compacted (orig pos : gmap string (Z * Z)) : Prop :=
  ∀ k, match orig !! k, pos !! k with
       | Some (x0, y0), Some (x, y) =>
           (x = x0 ∨ 0 ≤ x < x0) ∧ (y = y0 ∨ 0 ≤ y < y0)
       | None, None => True
       | _, _ => False
       end.

Definition exampleSelfRootCompacted : ASFBStarTree :=
  default exampleSelfRootPacked (compactPlacement exampleSelfRootPacked).

(** The interiors of two rectangles, each given by its position and its
    dimensions, meet. *)
Definition rectsOverlap (pa da pb db : Z * Z) : Prop :=
  pa.1 < pb.1 + db.1 ∧ pb.1 < pa.1 + da.1 ∧
  pa.2 < pb.2 + db.2 ∧ pb.2 < pa.2 + da.2.

(** No two entries of [positions] overlap. *)
Definition noOverlap (dimensions positions : gmap string (Z * Z)) : Prop :=
  ∀ a b pa pb, a ≠ b →
    positions !! a = Some pa → positions !! b = Some pb →
    ¬ rectsOverlap pa (dimensions !!! a) pb (dimensions !!! b).

(** Every entry of [positions] has a positive width and height. *)
Definition positiveDims (dimensions positions : gmap string (Z * Z)) : Prop :=
  ∀ k, is_Some (positions !! k) →
    0 < (dimensions !!! k).1 ∧ 0 < (dimensions !!! k).2.

(** ** optimizeModulePositions *)

(** The minima of x and y over all the modules of the table. *)
Definition minXYModules (ms : gmap string ModuleT) : Z * Z :=
  foldr (λ '(_, module) '(minX, minY),
           (Z.min minX (getX module), Z.min minY (getY module)))
        (INT_MAX, INT_MAX) (map_to_list ms).

(** "Shift all modules to ensure positive coordinates": when a minimum is
    negative, every module of the table is moved by
    [(max(0, -minX), max(0, -minY))]. *)
Definition shiftToPositive (ms : gmap string ModuleT) : gmap string ModuleT :=
  let '(minX, minY) := minXYModules ms in
  if (minX <? 0) || (minY <? 0)
  then
    let shiftX := Z.max 0 (wrapInt (- minX)) in
    let shiftY := Z.max 0 (wrapInt (- minY)) in
    (λ module, setPosition (wrapInt (getX module + shiftX))
                           (wrapInt (getY module + shiftY)) module)
      <$> ms
  else ms.

(** The placement can be shifted without leaving the range of [int]:
    every coordinate lies between [-INT_MAX] and [INT_MAX], and no two
    modules are more than [INT_MAX] apart in x or in y. *)
Definition shiftFits (ms : gmap string ModuleT) : Prop :=
  ∀ k m k' m', ms !! k = Some m → ms !! k' = Some m' →
    - INT_MAX ≤ getX m ≤ INT_MAX ∧ - INT_MAX ≤ getY m ≤ INT_MAX ∧
    getX m - getX m' ≤ INT_MAX ∧ getY m - getY m' ≤ INT_MAX.

(** One iteration of the left-to-right scan: [minPossibleX] is the largest
    right edge of a module before [currModule] that shares a y range with
    it (0 if there is none); the module is moved there when that is left of
    where it stands. *)
Definition pullLeft (dimensions : gmap string (Z * Z))
    (positions : gmap string (Z * Z)) (prevs : list string)
    (currModule : string) : gmap string (Z * Z) :=
  let minPossibleX :=
    foldl (λ minPossibleX prevModule,
             let prevPos := positions !!! prevModule in
             let prevDim := dimensions !!! prevModule in
             let currPos := positions !!! currModule in
             let currDim := dimensions !!! currModule in
             let yOverlap :=
               negb ((prevPos.2 + prevDim.2 <=? currPos.2)
                     || (currPos.2 + currDim.2 <=? prevPos.2)) in
             if yOverlap
             then Z.max minPossibleX (prevPos.1 + prevDim.1)
             else minPossibleX)
          0 prevs in
  if minPossibleX <? (positions !!! currModule).1
  then <[currModule := (minPossibleX, (positions !!! currModule).2)]> positions
  else positions.

(** The same for the bottom-to-top scan. *)
Definition pullDown (dimensions : gmap string (Z * Z))
    (positions : gmap string (Z * Z)) (prevs : list string)
    (currModule : string) : gmap string (Z * Z) :=
  let minPossibleY :=
    foldl (λ minPossibleY prevModule,
             let prevPos := positions !!! prevModule in
             let prevDim := dimensions !!! prevModule in
             let currPos := positions !!! currModule in
             let currDim := dimensions !!! currModule in
             let xOverlap :=
               negb ((prevPos.1 + prevDim.1 <=? currPos.1)
                     || (currPos.1 + currDim.1 <=? prevPos.1)) in
             if xOverlap
             then Z.max minPossibleY (prevPos.2 + prevDim.2)
             else minPossibleY)
          0 prevs in
  if minPossibleY <? (positions !!! currModule).2
  then <[currModule := ((positions !!! currModule).1, minPossibleY)]> positions
  else positions.

(** The two scans run over the representatives, sorted by x and then by y;
    the positions found are written back to the modules. *)
Definition optimizeModulePositions (s : ASFBStarTree) : option ASFBStarTree :=
  let s1 := withModules (shiftToPositive (modules s)) s in
  '(positions0, dimensions) ← collectPositions s1;
  let modulesByX :=
    sortBy (λ a, (positions0 !!! a).1) (representativeModules s) in
  let positions1 := compactScan (pullLeft dimensions) modulesByX positions0 in
  let modulesByY :=
    sortBy (λ a, (positions1 !!! a).2) (representativeModules s) in
  let positions2 := compactScan (pullDown dimensions) modulesByY positions1 in
  ms ← writeBack positions2 (modules s1);
  Some (withModules ms s).

(** Three representatives without symmetry relations: a stands left of the
    origin, b floats right of it, c is away from both. *)
Definition exampleScattered : ASFBStarTree :=
  mkEngine
    (moduleTable [("a", mkModule 2 2 (-3) 0 false); ("b", mkModule 2 2 4 1 false);
                  ("c", mkModule 1 1 9 5 false)])
    (mkGroup VERTICAL 0) ["a"; "b"; "c"] [] []
    (mkNode "a" (mkNode "b" nullptr nullptr) (mkNode "c" nullptr nullptr))
    [] 0 [] [].

Definition exampleScatteredOptimized : ASFBStarTree :=
  default exampleScattered (optimizeModulePositions exampleScattered).

Definition exampleSelfRootOptimized : ASFBStarTree :=
  default exampleSelfRootPacked (optimizeModulePositions exampleSelfRootPacked).

(** Every point of the contour has a height between 0 and [bound]. *)
Definition contourWithin (bound : Z) (c : Contour) : Prop :=
  Forall (λ p, 0 ≤ cp_height p ≤ bound) c.

(** The width and the height that the table gives a name (0 for a name
    without a module), and their sum over a list of names. *)
Definition widthOf (ms : gmap string ModuleT) (name : string) : Z :=
  default 0 (getWidth <$> ms !! name).

Definition heightOf (ms : gmap string ModuleT) (name : string) : Z :=
  default 0 (getHeight <$> ms !! name).

Definition sumOver (f : string → Z) (names : list string) : Z :=
  foldr (λ name acc, f name + acc) 0 names.

(** The module called [name], if there is one, lies in the first quadrant
    and inside the range of [int]. *)
Definition placedInRange (s : ASFBStarTree) (name : string) : Prop :=
  ∀ module, modules s !! name = Some module →
    0 ≤ getX module ∧ getX module + getWidth module ≤ INT_MAX ∧
    0 ≤ getY module ∧ getY module + getHeight module ≤ INT_MAX.

(** No module of the table has a negative width or height. *)
Definition nonNegativeDims (s : ASFBStarTree) : Prop :=
  ∀ name module, modules s !! name = Some module →
    0 ≤ getWidth module ∧ 0 ≤ getHeight module.

Definition exampleStaggeredPacked : ASFBStarTree :=
  default exampleStaggered (packBStarTree heightAt exampleStaggered).

(** Every module of the table has the width and the height that [w] and
    [h] give its name. *)
Definition dimsAs (w h : string → Z) (s : ASFBStarTree) : Prop :=
  ∀ name module, modules s !! name = Some module →
    getWidth module = w name ∧ getHeight module = h name.

(** Two module tables hold the same names, with the same dimensions for
    the names in [D] and the same positions for the names in [P]. *)
Definition agreeOn (D P : string → Prop) (ms ms' : gmap string ModuleT) : Prop :=
  ∀ k, match ms !! k, ms' !! k with
       | Some m, Some m' => (D k → dimsEq m m') ∧ (P k → posEq m m')
       | None, None => True
       | _, _ => False
       end.

Definition relatedOn (D P : string → Prop) (s t : ASFBStarTree) : Prop :=
  sameGroup s t ∧ contourHead s = contourHead t ∧
  agreeOn D P (modules s) (modules t).

(** No partner of a pair has a node in the tree. *)
Definition partnersOutsideTree (s : ASFBStarTree) : Prop :=
  ∀ name, name ∈ (repToPairMap s).*2 → name ∉ preorder (root s).

(** A pair whose partner e' (3×2) has to be rotated to match its
    representative e (2×3), and is not wide enough to raise the axis. *)
Definition exampleRotationKept : ASFBStarTree :=
  mkEngine
    (moduleTable [("e", mkModule 2 3 0 0 false); ("e'", mkModule 3 2 0 0 false)])
    (mkGroup VERTICAL 0) ["e"] [("e", "e'")] []
    (mkNode "e" nullptr nullptr) [] 0 [] [].

(** * Properties *)

(** ** Machine integers *)

Lemma wrapInt_in_range (z : Z) : INT_MIN ≤ z ≤ INT_MAX → wrapInt z = z.
Proof.
  unfold wrapInt, INT_MIN, INT_MAX. intros Hz.
  rewrite Z.mod_small; lia.
Qed.

Lemma wrapInt_range (z : Z) : INT_MIN ≤ wrapInt z ≤ INT_MAX.
Proof.
  unfold wrapInt, INT_MIN, INT_MAX.
  pose proof (Z.mod_pos_bound (z - -2147483648) (2 ^ 32) ltac:(lia)). lia.
Qed.

(** A result that does not exceed [INT_MAX] is not lowered by the
    wrap-around. *)
Lemma wrapInt_ge (z : Z) : z ≤ INT_MAX → z ≤ wrapInt z.
Proof.
  intros Hz. destruct (Z_le_gt_dec INT_MIN z) as [Hlo|Hlo].
  - by rewrite wrapInt_in_range.
  - pose proof (wrapInt_range z). lia.
Qed.

(** ** The contour stays strictly sorted *)

Section ContourSorted.

#[local] Instance cp_lt_trans : Transitive cp_lt.
Proof. intros p q r. unfold cp_lt. lia. Qed.

Lemma skipLeft_spec x c pre curr :
  skipLeft x c = (pre, curr) →
  c = pre ++ curr ∧ Forall (λ p, cp_x p < x) pre ∧
  match curr with [] => True | p :: _ => x ≤ cp_x p end.
Proof.
  revert pre curr. induction c as [|p c IH]; intros pre curr; simpl.
  - intros [= <- <-]. auto.
  - destruct (Z.ltb_spec (cp_x p) x) as [Hlt|Hge].
    + destruct (skipLeft x c) as [pre' curr'] eqn:E.
      intros [= <- <-]. destruct (IH _ _ eq_refl) as (-> & Hall & Hhd).
      repeat split; auto.
    + intros [= <- <-]. repeat split; auto.
Qed.

Lemma dropCovered_spec right top c kept curr :
  dropCovered right top c = (kept, curr) →
  StronglySorted cp_lt c →
  StronglySorted cp_lt kept ∧ StronglySorted cp_lt curr ∧
  Forall (λ p, cp_x p < right ∧ p ∈ c) kept ∧
  Forall (λ p, right ≤ cp_x p) curr.
Proof.
  revert kept curr. induction c as [|p c IH]; intros kept curr; simpl.
  - intros [= <- <-] _. repeat split; constructor.
  - intros Hd Hs. apply StronglySorted_inv in Hs as [Hs Hp].
    destruct (Z.ltb_spec (cp_x p) right) as [Hlt|Hge].
    + destruct (dropCovered right top c) as [kept' curr'] eqn:E.
      destruct (IH _ _ eq_refl Hs) as (Hk & Hc & Hkb & Hcb).
      assert (Hkb' : Forall (λ q, cp_x q < right ∧ q ∈ p :: c) kept').
      { eapply Forall_impl; [exact Hkb|]. intros q [? ?]. split; [done|].
        by apply elem_of_cons; right. }
      destruct (cp_height p <=? top); injection Hd as <- <-.
      * repeat split; auto.
      * repeat split; auto.
        -- constructor; [done|].
           apply Forall_forall. intros q Hq.
           rewrite Forall_forall in Hkb. destruct (Hkb q Hq) as [_ Hin].
           rewrite Forall_forall in Hp. by apply Hp.
        -- constructor; [|done]. split; [done|]. by apply elem_of_cons; left.
    + injection Hd as <- <-. split; [constructor|]. split; [by constructor|].
      split; [constructor|]. constructor; [done|].
      eapply Forall_impl; [exact Hp|]. unfold cp_lt. simpl. intros; lia.
Qed.

(** After the left edge has been linked, everything kept so far lies at or
    left of [x] and everything still to visit lies strictly right of it. *)
Lemma linkLeftEdge_spec x top pre curr pre1 curr1 :
  linkLeftEdge x top pre curr = (pre1, curr1) →
  StronglySorted cp_lt pre → Forall (λ p, cp_x p < x) pre →
  StronglySorted cp_lt curr →
  match curr with [] => True | p :: _ => x ≤ cp_x p end →
  StronglySorted cp_lt pre1 ∧ Forall (λ p, cp_x p ≤ x) pre1 ∧
  StronglySorted cp_lt curr1 ∧ Forall (λ p, x < cp_x p) curr1.
Proof.
  intros Hl Hpre Hlt Hcurr Hhd.
  assert (Hsnoc : ∀ h, StronglySorted cp_lt (pre ++ [mkContourPoint x h]) ∧
                       Forall (λ p, cp_x p ≤ x) (pre ++ [mkContourPoint x h])).
  { intros h. split.
    - apply StronglySorted_app_2; [|done|repeat constructor].
      intros p q Hp Hq. apply list_elem_of_singleton in Hq as ->.
      rewrite Forall_forall in Hlt. unfold cp_lt. simpl. by apply Hlt.
    - apply Forall_app. split.
      + eapply Forall_impl; [exact Hlt|]. simpl. intros; lia.
      + repeat constructor. simpl. lia. }
  unfold linkLeftEdge in Hl. destruct curr as [|p tl].
  - injection Hl as <- <-. destruct (Hsnoc top). repeat split; auto; constructor.
  - apply StronglySorted_inv in Hcurr as [Htl Hp].
    destruct (Z.gtb_spec (cp_x p) x) as [Hgt|Hle].
    + injection Hl as <- <-. destruct (Hsnoc top). repeat split; auto.
      * by constructor.
      * constructor; [lia|]. eapply Forall_impl; [exact Hp|].
        unfold cp_lt. simpl. intros; lia.
    + destruct (Z.eqb_spec (cp_x p) x) as [Heq|Hne]; [|lia].
      injection Hl as <- <-. rewrite Heq.
      destruct (Hsnoc (Z.max (cp_height p) top)). repeat split; auto.
      eapply Forall_impl; [exact Hp|]. unfold cp_lt. simpl. intros; lia.
Qed.

Lemma linkRightEdge_sorted right pre curr :
  StronglySorted cp_lt pre → Forall (λ p, cp_x p < right) pre →
  StronglySorted cp_lt curr → Forall (λ p, right ≤ cp_x p) curr →
  StronglySorted cp_lt (linkRightEdge right pre curr).
Proof.
  intros Hpre Hlt Hcurr Hge. unfold linkRightEdge.
  assert (Hcross : ∀ h (tl : Contour), Forall (λ p, right < cp_x p) tl →
            ∀ p q, p ∈ pre → q ∈ mkContourPoint right h :: tl → cp_lt p q).
  { intros h tl Htl p q Hp Hq. rewrite Forall_forall in Hlt, Htl.
    specialize (Hlt p Hp). unfold cp_lt.
    apply elem_of_cons in Hq as [->|Hq]; simpl; [lia|].
    specialize (Htl q Hq). lia. }
  destruct curr as [|p tl].
  - apply StronglySorted_app_2; [|done|repeat constructor].
    apply (Hcross _ []). constructor.
  - apply StronglySorted_inv in Hcurr as [Htl Hp].
    apply Forall_cons in Hge as [Hge Hgetl].
    destruct (Z.gtb_spec (cp_x p) right) as [Hgt|Hle].
    + assert (Hall : Forall (λ q, right < cp_x q) (p :: tl)).
      { constructor; [lia|]. eapply Forall_impl; [exact Hp|].
        unfold cp_lt. intros; lia. }
      apply StronglySorted_app_2; [by apply Hcross|done|].
      constructor; [by constructor|].
      eapply Forall_impl; [exact Hall|]. unfold cp_lt. simpl. intros; lia.
    + destruct (Z.eqb_spec (cp_x p) right) as [Heq|Hne]; [|lia].
      assert (Hall : Forall (λ q, right < cp_x q) tl).
      { eapply Forall_impl; [exact Hp|]. unfold cp_lt. intros; lia. }
      rewrite Heq.
      apply StronglySorted_app_2; [by apply Hcross|done|].
      constructor; [done|].
      eapply Forall_impl; [exact Hall|]. unfold cp_lt. simpl. intros; lia.
Qed.

(** C7, as the code has it.  [updateContour] preserves strict sortedness
    as long as the right edge is an [int]: when the points of the contour
    are strictly increasing in x, the inserted rectangle has a positive
    width and [x + width] does not exceed [INT_MAX], the points of the
    resulting contour are again strictly increasing in x. *)
Theorem updateContour_sorted (x y width height : Z) (c : Contour) :
  0 < width →
  x + width ≤ INT_MAX →
  Sorted cp_lt c →
  Sorted cp_lt (updateContour x y width height c).
Proof.
  intros Hw Hmax Hs. apply StronglySorted_Sorted.
  apply Sorted_StronglySorted in Hs; [|apply _].
  unfold updateContour.
  pose proof (wrapInt_ge (x + width) Hmax) as Hright.
  set (right := wrapInt (x + width)) in *. set (top := wrapInt (y + height)).
  destruct c as [|p0 c0].
  { repeat constructor. unfold cp_lt. simpl. lia. }
  remember (p0 :: c0) as c eqn:Ec. clear Ec p0 c0.
  destruct (skipLeft x c) as [pre curr] eqn:Esk.
  apply skipLeft_spec in Esk as (-> & Hpre & Hhd).
  apply StronglySorted_app in Hs as (_ & Hspre & Hscurr).
  destruct (linkLeftEdge x top pre curr) as [pre1 curr1] eqn:El.
  destruct (linkLeftEdge_spec _ _ _ _ _ _ El Hspre Hpre Hscurr Hhd)
    as (Hs1 & Hle1 & Hsc1 & Hgt1).
  destruct (dropCovered right top curr1) as [kept curr2] eqn:Ed.
  destruct (dropCovered_spec _ _ _ _ _ Ed Hsc1) as (Hsk & Hsc2 & Hk & Hge2).
  rewrite Forall_forall in Hk, Hle1, Hgt1.
  apply linkRightEdge_sorted; [|apply Forall_app; split|done|done].
  - apply StronglySorted_app_2; [|done|done].
    intros p q Hp Hq. destruct (Hk q Hq) as [_ Hin].
    specialize (Hle1 p Hp). specialize (Hgt1 q Hin). unfold cp_lt. lia.
  - apply Forall_forall. intros p Hp. specialize (Hle1 p Hp). lia.
  - apply Forall_forall. intros p Hp. by destruct (Hk p Hp).
Qed.

Lemma updateContour_sorted_witness :
  Sorted cp_lt
    (updateContour 2 0 2 2 [mkContourPoint 0 2; mkContourPoint 2 0]).
Proof.
  apply (updateContour_sorted 2 0 2 2); [lia|unfold INT_MAX; lia|].
  repeat constructor.
Defined.

(** C7, as stated, fails when the right edge overflows: a rectangle of
    width 1 at [x = INT_MAX] on the empty contour leaves the points
    (2147483647, 1), (-2147483648, 0), the second one left of the first. *)
Lemma updateContour_overflow_unsorted :
  0 < 1 ∧ Sorted cp_lt [] ∧
  updateContour 2147483647 0 1 1 []
  = [mkContourPoint 2147483647 1; mkContourPoint (-2147483648) 0] ∧
  ¬ Sorted cp_lt (updateContour 2147483647 0 1 1 []).
Proof.
  split; [lia|]. split; [constructor|]. split; [reflexivity|].
  intros Hs. change (updateContour 2147483647 0 1 1 [])
    with [mkContourPoint 2147483647 1; mkContourPoint (-2147483648) 0] in Hs.
  apply Sorted_inv in Hs as [_ Hhd]. apply HdRel_inv in Hhd.
  unfold cp_lt in Hhd. simpl in Hhd. lia.
Qed.

End ContourSorted.

(** ** Folding a partial step over a list *)

Section FoldOption.
Context {A B : Type} (f : B → A → option B).

Lemma foldl_option_None (l : list A) :
  foldl (λ acc a, b' ← acc; f b' a) None l = None.
Proof. induction l as [|a l IH]; simpl; auto. Qed.

Lemma foldOption_nil (b : B) : foldOption f [] b = Some b.
Proof. reflexivity. Qed.

Lemma foldOption_cons (a : A) (l : list A) (b : B) :
  foldOption f (a :: l) b = f b a ≫= foldOption f l.
Proof.
  unfold foldOption. simpl. destruct (f b a); simpl; [done|].
  apply foldl_option_None.
Qed.

(** An invariant of the body, on the elements of the list, is an
    invariant of the loop. *)
Lemma foldOption_invariant_in (P : B → Prop) (l : list A) :
  (∀ b a b', a ∈ l → P b → f b a = Some b' → P b') →
  ∀ b b', P b → foldOption f l b = Some b' → P b'.
Proof.
  induction l as [|a l IH]; intros Hstep b b' Hb.
  - rewrite foldOption_nil. by intros [= <-].
  - rewrite foldOption_cons. destruct (f b a) as [b1|] eqn:E; [|done].
    simpl. apply IH.
    + intros b2 a2 b2' Ha2. apply Hstep. by apply elem_of_cons; right.
    + eapply Hstep; [|exact Hb|exact E]. by apply elem_of_cons; left.
Qed.

Lemma foldOption_invariant (P : B → Prop) :
  (∀ b a b', P b → f b a = Some b' → P b') →
  ∀ l b b', P b → foldOption f l b = Some b' → P b'.
Proof.
  intros Hstep l. apply foldOption_invariant_in. intros b a b' _. apply Hstep.
Qed.
End FoldOption.

(** ** Self-symmetric modules are centred within 0.5 *)

Section Rounding.
Local Open Scope Q_scope.

Lemma Qltb_lt (a b : Q) : Qltb a b = true → a < b.
Proof.
  unfold Qltb. intros H. apply negb_true_iff in H.
  destruct (Qlt_le_dec a b) as [Hlt|Hle]; [done|].
  apply Qle_bool_iff in Hle. congruence.
Qed.

Lemma Qltb_ge (a b : Q) : Qltb a b = false → b <= a.
Proof.
  unfold Qltb. intros H. apply negb_false_iff in H. by apply Qle_bool_iff.
Qed.

(** [std::round] is off by at most one half. *)
Lemma round_error (q : Q) : Qabs (inject_Z (round q) - q) <= 1 # 2.
Proof.
  apply Qabs_Qle_condition. unfold round.
  destruct (Qle_bool 0 q).
  - pose proof (Qfloor_le (q + (1 # 2))) as Hlo.
    pose proof (Qlt_floor (q + (1 # 2))) as Hhi.
    rewrite inject_Z_plus in Hhi. change (inject_Z 1) with 1 in Hhi.
    split; lra.
  - pose proof (Qfloor_le (- q + (1 # 2))) as Hlo.
    pose proof (Qlt_floor (- q + (1 # 2))) as Hhi.
    rewrite inject_Z_plus in Hhi. change (inject_Z 1) with 1 in Hhi.
    rewrite inject_Z_opp. split; lra.
Qed.

(** Rounding [axis - extent/2] and probing the two neighbours leaves the
    centre within one half of the axis. *)
Lemma selfSymmetricPosition_centered (axis : Q) (extent : Z) :
  Qabs (inject_Z (selfSymmetricPosition axis extent)
        + inject_Z extent / 2 - axis) <= 1 # 2.
Proof.
  unfold selfSymmetricPosition. cbv zeta.
  set (exactLeft := axis - inject_Z extent / 2).
  set (moduleX := round exactLeft).
  assert (Hc : Qabs (inject_Z moduleX + inject_Z extent / 2 - axis) <= 1 # 2).
  { pose proof (round_error exactLeft) as H. fold moduleX in H.
    assert (E : inject_Z moduleX + inject_Z extent / 2 - axis
                == inject_Z moduleX - exactLeft) by (unfold exactLeft; lra).
    by rewrite E. }
  set (centerError := Qabs (inject_Z moduleX + inject_Z extent / 2 - axis)) in *.
  set (altError1 := Qabs (inject_Z (moduleX - 1) + inject_Z extent / 2 - axis)).
  set (altError2 := Qabs (inject_Z (moduleX + 1) + inject_Z extent / 2 - axis)).
  destruct (Qltb (1 # 4) centerError); [|exact Hc].
  destruct (Qltb altError1 centerError && Qltb altError1 altError2) eqn:E1.
  - apply andb_true_iff in E1 as [E1 _]. apply Qltb_lt in E1.
    fold altError1. lra.
  - destruct (Qltb altError2 centerError) eqn:E2; [|exact Hc].
    apply Qltb_lt in E2. fold altError2. lra.
Qed.

End Rounding.

Section SelfSymmetric.

Lemma calculateSymmetryAxisPosition_withAxis (s s1 : ASFBStarTree) :
  calculateSymmetryAxisPosition s = Some s1 →
  ∃ a, s1 = withAxis a s.
Proof.
  unfold calculateSymmetryAxisPosition.
  destruct (repToPairMap s) as [|pr prs].
  - destruct (selfSymmetricModules s) as [|n ns].
    + intros [= <-]. eauto.
    + destruct (maxRepFarEdge _ _ _); [|done]. simpl.
      destruct (maxSelfSymExtent _ _ _); [|done]. simpl.
      intros [= <-]. eauto.
  - destruct (maxRepEdge _ _ _); [|done]. simpl.
    destruct (minAxisOverPairs _ _ _ _); [|done]. simpl.
    intros [= <-]. eauto.
Qed.

Lemma updateSelfSymmetric_vertical axis ms name ms' :
  updateSelfSymmetric VERTICAL axis ms name = Some ms' →
  ∀ n m, ms' !! n = Some m →
    (n = name → centredOnX axis m) ∧ (n ≠ name → ms !! n = Some m).
Proof.
  unfold updateSelfSymmetric. destruct (ms !! name) as [module|] eqn:E; [|done].
  simpl. intros [= <-] n m Hn. split.
  - intros ->. rewrite lookup_insert_eq in Hn. injection Hn as <-.
    unfold centredOnX, centerX. simpl.
    apply selfSymmetricPosition_centered.
  - intros Hne. by rewrite lookup_insert_ne in Hn.
Qed.

Lemma selfSymmetric_loop_vertical axis (names : list string) :
  ∀ (processed : list string) ms ms',
    (∀ n m, n ∈ processed → ms !! n = Some m → centredOnX axis m) →
    foldOption (updateSelfSymmetric VERTICAL axis) names ms = Some ms' →
    ∀ n m, n ∈ processed ++ names → ms' !! n = Some m → centredOnX axis m.
Proof.
  induction names as [|name names IH]; intros processed ms ms' Hinv.
  - rewrite foldOption_nil. intros [= <-] n m. rewrite app_nil_r. apply Hinv.
  - rewrite foldOption_cons.
    destruct (updateSelfSymmetric VERTICAL axis ms name) as [ms1|] eqn:E; [|done].
    simpl. intros Hfold n m Hn.
    apply (IH (processed ++ [name]) ms1 ms'); [|done|by rewrite <- app_assoc].
    intros n1 m1 Hn1 Hm1.
    destruct (updateSelfSymmetric_vertical _ _ _ _ E n1 m1 Hm1) as [Heq Hne].
    destruct (decide (n1 = name)) as [->|Hd]; [by apply Heq|].
    apply elem_of_app in Hn1 as [Hn1|Hn1].
    + eapply Hinv; [done|]. by apply Hne.
    + apply list_elem_of_singleton in Hn1. done.
Qed.



End SelfSymmetric.

(** ** Compaction *)

Section Compaction.

Lemma elem_of_insertBy {A} (key : A → Z) (a x : A) (l : list A) :
  x ∈ insertBy key a l ↔ x = a ∨ x ∈ l.
Proof.
  induction l as [|b l IH]; simpl.
  - rewrite list_elem_of_singleton, elem_of_nil. tauto.
  - destruct (key b <? key a); rewrite !elem_of_cons; [rewrite IH|]; tauto.
Qed.

Lemma elem_of_sortBy {A} (key : A → Z) (x : A) (l : list A) :
  x ∈ sortBy key l ↔ x ∈ l.
Proof.
  unfold sortBy. induction l as [|a l IH]; simpl; [done|].
  rewrite elem_of_insertBy, IH, elem_of_cons. done.
Qed.

Lemma elem_of_keys {V} (m : gmap string V) (k : string) :
  k ∈ (map_to_list m).*1 ↔ is_Some (m !! k).
Proof.
  rewrite list_elem_of_fmap. split.
  - intros ([k' v] & -> & Hin). apply elem_of_map_to_list in Hin. eauto.
  - intros [v Hv]. exists (k, v). split; [done|]. by apply elem_of_map_to_list.
Qed.

Lemma shiftLeft_other dimensions positions prevs currModule k :
  k ≠ currModule →
  shiftLeft dimensions positions prevs currModule !! k = positions !! k.
Proof.
  intros Hne. unfold shiftLeft.
  destruct (positions !!! currModule) as [currX currY].
  destruct (dimensions !!! currModule) as [currWidth currHeight].
  destruct (_ >? 0); [|done]. by rewrite lookup_insert_ne.
Qed.

Lemma shiftDown_other dimensions positions prevs currModule k :
  k ≠ currModule →
  shiftDown dimensions positions prevs currModule !! k = positions !! k.
Proof.
  intros Hne. unfold shiftDown.
  destruct (positions !!! currModule) as [currX currY].
  destruct (dimensions !!! currModule) as [currWidth currHeight].
  destruct (_ >? 0); [|done]. by rewrite lookup_insert_ne.
Qed.

Section Scan.
Variable shift :
  gmap string (Z * Z) → list string → string → gmap string (Z * Z).
Hypothesis shift_other : ∀ positions prevs currModule k,
  k ≠ currModule → shift positions prevs currModule !! k = positions !! k.

Lemma compactLoop_other todo : ∀ prevs positions k,
  k ∉ todo → compactLoop shift prevs todo positions !! k = positions !! k.
Proof.
  induction todo as [|c todo IH]; intros prevs positions k Hk; simpl; [done|].
  apply not_elem_of_cons in Hk as [Hne Hk].
  rewrite IH by done. by apply shift_other.
Qed.

Lemma compactScan_other order positions k :
  k ∉ order → compactScan shift order positions !! k = positions !! k.
Proof.
  destruct order as [|first rest]; simpl; [done|].
  intros Hk. apply not_elem_of_cons in Hk as [_ Hk].
  by apply compactLoop_other.
Qed.
End Scan.

(** The compaction passes create no entry in [positions]. *)
Lemma compactX_None dimensions positions k :
  positions !! k = None → compactX dimensions positions !! k = None.
Proof.
  intros Hk. unfold compactX.
  rewrite compactScan_other; [done|apply shiftLeft_other|].
  rewrite elem_of_sortBy, elem_of_keys, Hk. by intros [? ?].
Qed.

Lemma compactY_None dimensions positions k :
  positions !! k = None → compactY dimensions positions !! k = None.
Proof.
  intros Hk. unfold compactY.
  rewrite compactScan_other; [done|apply shiftDown_other|].
  rewrite elem_of_sortBy, elem_of_keys, Hk. by intros [? ?].
Qed.

Lemma translateToOrigin_None positions k :
  positions !! k = None → translateToOrigin positions !! k = None.
Proof.
  intros Hk. unfold translateToOrigin. destruct (minXY positions) as [minX minY].
  destruct (_ || _); [|done]. by rewrite lookup_fmap, Hk.
Qed.

(** [positions] has entries for representatives only. *)
Lemma collectPositions_keys s positions dimensions k :
  collectPositions s = Some (positions, dimensions) →
  k ∉ representativeModules s → positions !! k = None.
Proof.
  unfold collectPositions. intros Hc Hk.
  eapply (foldOption_invariant_in _
            (λ pd : gmap string (Z * Z) * gmap string (Z * Z), pd.1 !! k = None))
    in Hc; [exact Hc| |done].
  intros [p d] name b' Hname Hb. destruct (modules s !! name); [|done].
  simpl. intros [= <-]. simpl in *. rewrite lookup_insert_ne; [done|].
  by intros ->.
Qed.

(** [writeBack] touches the modules that have an entry in [positions]. *)
Lemma writeBack_other positions ms ms' k :
  writeBack positions ms = Some ms' →
  positions !! k = None → ms' !! k = ms !! k.
Proof.
  unfold writeBack. intros Hw Hk.
  eapply (foldOption_invariant_in _ (λ m : gmap string ModuleT, m !! k = ms !! k))
    in Hw; [exact Hw| |done].
  intros b [name [x y]] b' Hin Hb. apply elem_of_map_to_list in Hin.
  destruct (b !! name); [|done]. simpl. intros [= <-].
  rewrite lookup_insert_ne; [done|]. intros ->. congruence.
Qed.

(** C10. [compactPlacement] writes positions of representatives only:
    a module of the table that is not a representative (in particular a
    symmetry-pair partner) is exactly the same after [compactPlacement]
    as before. *)
Theorem compactPlacement_frame (s s' : ASFBStarTree) (name : string) :
  compactPlacement s = Some s' →
  name ∉ representativeModules s →
  modules s' !! name = modules s !! name.
Proof.
  unfold compactPlacement. intros Hc Hname.
  destruct (collectPositions s) as [[positions0 dimensions]|] eqn:Ecol; [|done].
  simpl in Hc.
  destruct (writeBack _ _) as [ms|] eqn:Ew; [|done].
  injection Hc as <-. simpl.
  eapply writeBack_other; [exact Ew|].
  pose proof (collectPositions_keys _ _ _ _ Ecol Hname) as H0.
  apply translateToOrigin_None in H0.
  destruct (getType (symmetryGroup s)).
  - by apply compactY_None, compactX_None.
  - by apply compactX_None, compactY_None.
Qed.

Lemma compactPlacement_frame_witness :
  modules (default exampleSelfRootPacked (compactPlacement exampleSelfRootPacked))
    !! "d'"
  = modules exampleSelfRootPacked !! "d'".
Proof.
  apply (compactPlacement_frame exampleSelfRootPacked _ "d'" eq_refl).
  vm_compute. intros H. repeat (apply elem_of_cons in H as [H|H]; [discriminate H|]).
  by apply elem_of_nil in H.
Defined.

(** The running minima of [minXY]: each is below [INT_MAX] and below every
    coordinate, and is [INT_MAX] or one of the coordinates. *)
Lemma minXY_spec (positions : gmap string (Z * Z)) :
  let '(minX, minY) := minXY positions in
  (minX ≤ INT_MAX ∧ minY ≤ INT_MAX) ∧
  (∀ k x y, positions !! k = Some (x, y) → minX ≤ x ∧ minY ≤ y) ∧
  (minX = INT_MAX ∨ ∃ k x y, positions !! k = Some (x, y) ∧ minX = x) ∧
  (minY = INT_MAX ∨ ∃ k x y, positions !! k = Some (x, y) ∧ minY = y).
Proof.
  unfold minXY.
  assert (Hgen : ∀ l : list (string * (Z * Z)),
            let '(minX, minY) :=
              foldr (λ '(_, (x, y)) '(minX, minY), (Z.min minX x, Z.min minY y))
                    (INT_MAX, INT_MAX) l in
            (minX ≤ INT_MAX ∧ minY ≤ INT_MAX) ∧
            (∀ k x y, (k, (x, y)) ∈ l → minX ≤ x ∧ minY ≤ y) ∧
            (minX = INT_MAX ∨ ∃ k x y, (k, (x, y)) ∈ l ∧ minX = x) ∧
            (minY = INT_MAX ∨ ∃ k x y, (k, (x, y)) ∈ l ∧ minY = y)).
  { induction l as [|[k [x y]] l IH]; simpl.
    - split; [lia|]. split; [|by split; left].
      intros ? ? ? H. by apply elem_of_nil in H.
    - destruct (foldr _ _ l) as [minX minY].
      destruct IH as ((Hx & Hy) & Hall & HminX & HminY).
      split; [lia|]. split; [|split].
      + intros k' x' y' [[= -> -> ->]|Hin]%elem_of_cons; [lia|].
        destruct (Hall _ _ _ Hin). lia.
      + destruct (Z.min_spec minX x) as [[_ ->]|[_ ->]].
        * destruct HminX as [?|(k' & x' & y' & Hin & ->)]; [by left|right].
          exists k', x', y'. split; [by apply elem_of_cons; right|done].
        * right. exists k, x, y. split; [by apply elem_of_cons; left|done].
      + destruct (Z.min_spec minY y) as [[_ ->]|[_ ->]].
        * destruct HminY as [?|(k' & x' & y' & Hin & ->)]; [by left|right].
          exists k', x', y'. split; [by apply elem_of_cons; right|done].
        * right. exists k, x, y. split; [by apply elem_of_cons; left|done]. }
  specialize (Hgen (map_to_list positions)).
  destruct (foldr _ _ (map_to_list positions)) as [minX minY].
  destruct Hgen as (Hb & Hall & HminX & HminY). split; [done|]. split; [|split].
  - intros k x y Hk. apply (Hall k). by apply elem_of_map_to_list.
  - destruct HminX as [?|(k & x & y & Hin & ->)]; [by left|right].
    exists k, x, y. split; [by apply elem_of_map_to_list|done].
  - destruct HminY as [?|(k & x & y & Hin & ->)]; [by left|right].
    exists k, x, y. split; [by apply elem_of_map_to_list|done].
Qed.

(** When the guard holds, that is when a minimum is positive, the
    translation step brings both minima to 0 (for a non-empty set of
    positions inside the int range). *)
Lemma translateToOrigin_min_zero (positions : gmap string (Z * Z)) :
  positions ≠ ∅ →
  (∀ k x y, positions !! k = Some (x, y) → x ≤ INT_MAX ∧ y ≤ INT_MAX) →
  (0 < (minXY positions).1 ∨ 0 < (minXY positions).2) →
  minXY (translateToOrigin positions) = (0, 0).
Proof.
  intros Hne Hrange Hguard. unfold translateToOrigin.
  pose proof (minXY_spec positions) as Hspec.
  destruct (minXY positions) as [minX minY]. simpl in Hguard.
  destruct Hspec as (_ & Hall & HminX & HminY).
  assert (Hor : (minX >? 0) || (minY >? 0) = true).
  { apply orb_true_iff. rewrite !Z.gtb_lt. done. }
  rewrite Hor.
  destruct (map_choose _ Hne) as (k0 & [x0 y0] & Hk0).
  assert (HX : ∃ k x y, positions !! k = Some (x, y) ∧ minX = x).
  { destruct HminX as [->|?]; [|done]. exists k0, x0, y0. split; [done|].
    destruct (Hall _ _ _ Hk0), (Hrange _ _ _ Hk0). lia. }
  assert (HY : ∃ k x y, positions !! k = Some (x, y) ∧ minY = y).
  { destruct HminY as [->|?]; [|done]. exists k0, x0, y0. split; [done|].
    destruct (Hall _ _ _ Hk0), (Hrange _ _ _ Hk0). lia. }
  set (shifted := (λ '(x, y), (x - minX, y - minY)) <$> positions).
  assert (Hshift : ∀ k x y, shifted !! k = Some (x, y) →
                     positions !! k = Some (x + minX, y + minY)).
  { intros k x y. unfold shifted. rewrite lookup_fmap.
    destruct (positions !! k) as [[x' y']|]; [|done]. simpl.
    intros [= <- <-]. f_equal. f_equal; lia. }
  assert (Hshift' : ∀ k x y, positions !! k = Some (x, y) →
                      shifted !! k = Some (x - minX, y - minY)).
  { intros k x y Hk. unfold shifted. by rewrite lookup_fmap, Hk. }
  pose proof (minXY_spec shifted) as Hspec'.
  destruct (minXY shifted) as [minX' minY'].
  destruct Hspec' as (_ & Hall' & HminX' & HminY').
  destruct HX as (kx & xx & yx & Hkx & ->), HY as (ky & xy & yy & Hky & ->).
  pose proof (Hall' _ _ _ (Hshift' _ _ _ Hkx)) as [Hx0 _].
  pose proof (Hall' _ _ _ (Hshift' _ _ _ Hky)) as [_ Hy0].
  assert (0 ≤ minX').
  { destruct HminX' as [->|(k & x & y & Hk & ->)]; [done|].
    destruct (Hall _ _ _ (Hshift _ _ _ Hk)). lia. }
  assert (0 ≤ minY').
  { destruct HminY' as [->|(k & x & y & Hk & ->)]; [done|].
    destruct (Hall _ _ _ (Hshift _ _ _ Hk)). lia. }
  f_equal; lia.
Qed.

(** C8, at the failing input: a representative stands at (-1, 0).  The
    minimum x is negative, the guard [minX > 0 || minY > 0] is false and
    the translation step leaves the positions as they are. *)
Theorem translateToOrigin_negative_unchanged :
  ∃ positions dimensions,
    collectPositions exampleNegative = Some (positions, dimensions) ∧
    minXY positions = (-1, 0) ∧
    translateToOrigin positions = positions ∧
    minXY (translateToOrigin positions) ≠ (0, 0).
Proof.
  eexists _, _. split; [vm_compute; reflexivity|].
  split; [vm_compute; reflexivity|].
  split; [vm_compute; reflexivity|].
  vm_compute. discriminate.
Qed.

End Compaction.

(** ** The symmetry axis *)

Section Axis.
Local Open Scope Q_scope.

Lemma Qmax_case (a b : Q) :
  (Qmax a b = a ∧ b <= a) ∨ (Qmax a b = b ∧ a <= b).
Proof.
  unfold Qmax, GenericMinMax.gmax. destruct (a ?= b) eqn:E.
  - left. split; [done|]. apply Qeq_alt in E. rewrite E. apply Qle_refl.
  - right. split; [done|]. apply Qlt_alt in E. by apply Qlt_le_weak.
  - left. split; [done|]. apply Qgt_alt in E. by apply Qlt_le_weak.
Qed.

Lemma DBL_MIN_lt_1 : DBL_MIN < 1.
Proof. reflexivity. Qed.

(** A running maximum: the loop [acc = std::max(acc, g a)]. *)
Section RunningMax.
Context {A : Type} (g : A → option Q) (f : Q → A → option Q).
Hypothesis f_max : ∀ acc a, f acc a = v ← g a; Some (Qmax acc v).

Lemma runningMax_spec (l : list A) : ∀ init res,
  foldOption f l init = Some res →
  init <= res ∧
  (∀ a, a ∈ l → ∃ v, g a = Some v ∧ v <= res) ∧
  (res = init ∨ ∃ a v, a ∈ l ∧ g a = Some v ∧ res = v).
Proof.
  induction l as [|a l IH]; intros init res.
  - rewrite foldOption_nil. intros [= <-]. split; [apply Qle_refl|].
    split; [|by left]. intros a Ha. by apply elem_of_nil in Ha.
  - rewrite foldOption_cons, f_max. destruct (g a) as [v|] eqn:Eg; [|done].
    simpl. intros Hf. destruct (IH _ _ Hf) as (Hle & Hall & Hex).
    assert (Hmax : init <= Qmax init v ∧ v <= Qmax init v).
    { destruct (Qmax_case init v) as [[-> ?]|[-> ?]];
        split; auto using Qle_refl. }
    destruct Hmax as [Hmi Hmv].
    split; [by eapply Qle_trans|]. split.
    + intros a' Ha'. apply elem_of_cons in Ha' as [->|Ha']; [|by apply Hall].
      exists v. split; [done|]. by eapply Qle_trans.
    + destruct Hex as [->|(a' & v' & Ha' & Hg' & ->)].
      * destruct (Qmax_case init v) as [[-> ?]|[-> ?]]; [by left|].
        right. exists a, v. split; [by apply elem_of_cons; left|done].
      * right. exists a', v'. split; [by apply elem_of_cons; right|done].
Qed.
End RunningMax.

(** A multiple of 1/4 that does not exceed [DBL_MIN] is not positive. *)
Lemma quarter_le_DBL_MIN (n : Z) :
  inject_Z n / 4 <= DBL_MIN → inject_Z n / 4 <= 0.
Proof.
  intros Hle.
  assert (Hn : (n ≤ 0)%Z).
  { destruct (Z_le_gt_dec n 0) as [|Hpos]; [done|]. exfalso.
    assert (H1 : 1 <= inject_Z n).
    { change 1 with (inject_Z 1). rewrite <- Zle_Qle. lia. }
    assert (H2 : DBL_MIN < 1 # 4) by reflexivity.
    unfold Qdiv in Hle. change (/ 4) with (1 # 4) in Hle. lra. }
  assert (H0 : inject_Z n <= 0).
  { change 0 with (inject_Z 0). by rewrite <- Zle_Qle. }
  unfold Qdiv. change (/ 4) with (1 # 4). lra.
Qed.

Lemma pairEdge_quarters ty (ms : gmap string ModuleT) pair v :
  pairEdge ty ms pair = Some v → ∃ n, v == inject_Z n / 4.
Proof.
  unfold pairEdge. destruct (ms !! pair.1) as [r|]; [|done].
  intros [= <-]. exists (4 * (axisCoord ty r + axisExtent ty r))%Z.
  rewrite inject_Z_mult. unfold Qdiv. change (/ 4) with (1 # 4).
  change (inject_Z 4) with 4. ring.
Qed.

Lemma pairAxis_quarters ty (ms : gmap string ModuleT) pair v :
  pairAxis ty ms pair = Some v → ∃ n, v == inject_Z n / 4.
Proof.
  unfold pairAxis. destruct (ms !! pair.1) as [r|]; [|done].
  destruct (ms !! pair.2) as [y|]; [|done]. intros [= <-].
  exists (2 * axisCoord ty r + axisExtent ty r + axisExtent ty y)%Z.
  unfold minAxisForPositiveCoords.
  rewrite !inject_Z_plus, inject_Z_mult. unfold Qdiv.
  change (/ 4) with (1 # 4). change (/ 2) with (1 # 2).
  change (inject_Z 2) with 2. ring.
Qed.

(** [addOne] on a running maximum that started from [DBL_MIN]: one more
    than the maximum when a value has raised it, and 1 otherwise. *)
Lemma addOne_cases (v : Q) :
  DBL_MIN <= v →
  (v == DBL_MIN ∧ addOne v = 1) ∨ (DBL_MIN < v ∧ addOne v = v + 1).
Proof.
  intros Hle. unfold addOne. destruct (Qeq_bool v DBL_MIN) eqn:E.
  - left. split; [by apply Qeq_bool_iff|done].
  - right. split; [|done]. apply Qeq_bool_neq in E.
    apply Qle_lteq in Hle as [Hlt|Heq]; [done|]. exfalso. apply E. by symmetry.
Qed.

(** The axis of a group with pairs, as the code computes it: one more than
    the largest of 0, the far edges of the pair representatives and the
    per-pair minima.  The far edges are those of the keys of [repToPairMap]
    only. *)
Lemma axis_with_pairs ty (s s' : ASFBStarTree) :
  getType (symmetryGroup s) = ty →
  repToPairMap s ≠ [] →
  calculateSymmetryAxisPosition s = Some s' →
  (∀ pair, pair ∈ repToPairMap s →
     ∃ edge axis, pairEdge ty (modules s) pair = Some edge ∧
                  pairAxis ty (modules s) pair = Some axis ∧
                  edge <= symmetryAxisPosition s' - 1 ∧
                  axis <= symmetryAxisPosition s' - 1) ∧
  0 <= symmetryAxisPosition s' - 1 ∧
  (symmetryAxisPosition s' - 1 == 0 ∨
   ∃ pair v, pair ∈ repToPairMap s ∧
     (pairEdge ty (modules s) pair = Some v ∨
      pairAxis ty (modules s) pair = Some v) ∧
     symmetryAxisPosition s' - 1 == v).
Proof.
  intros Hty Hne Hcalc.
  unfold calculateSymmetryAxisPosition in Hcalc. rewrite Hty in Hcalc.
  destruct (repToPairMap s) as [|pr prs] eqn:Epairs; [done|].
  rewrite <- Epairs in *. clear pr prs Epairs Hne.
  destruct (maxRepEdge ty (modules s) (repToPairMap s)) as [edgeMax|] eqn:E1; [|done].
  simpl in Hcalc.
  destruct (minAxisOverPairs ty (modules s) edgeMax (repToPairMap s))
    as [axisMin|] eqn:E2; [|done].
  injection Hcalc as <-. simpl.
  apply (runningMax_spec (pairEdge ty (modules s))) in E1.
  2: { intros acc [r y]. unfold pairEdge. simpl.
       by destruct (modules s !! r). }
  apply (runningMax_spec (pairAxis ty (modules s))) in E2.
  2: { intros acc [r y]. unfold pairAxis. simpl.
       destruct (modules s !! r); [|done]. by destruct (modules s !! y). }
  destruct E1 as (Hd1 & Hall1 & Hex1). destruct E2 as (Hd2 & Hall2 & Hex2).
  assert (Hinit : DBL_MIN <= axisMin) by (by eapply Qle_trans).
  destruct (addOne_cases axisMin Hinit) as [[Heq ->]|[Hlt ->]].
  - (* no pair has raised the maximum: the sum rounds to 1.0 *)
    assert (H0 : 1 - 1 == 0) by ring.
    split; [|split; [rewrite H0; apply Qle_refl|by left]].
    intros pair Hpair.
    destruct (Hall1 pair Hpair) as (edge & He & Hle1).
    destruct (Hall2 pair Hpair) as (axis & Ha & Hle2).
    exists edge, axis. rewrite H0. split; [done|]. split; [done|].
    destruct (pairEdge_quarters _ _ _ _ He) as [n Hn].
    destruct (pairAxis_quarters _ _ _ _ Ha) as [n' Hn'].
    split.
    + rewrite Hn. apply quarter_le_DBL_MIN. rewrite <- Hn, <- Heq.
      by eapply Qle_trans.
    + rewrite Hn'. apply quarter_le_DBL_MIN. by rewrite <- Hn', <- Heq.
  - assert (Hshift : axisMin + 1 - 1 == axisMin) by ring.
    assert (Hpos : 0 < DBL_MIN) by reflexivity.
    split; [|split].
    + intros pair Hpair.
      destruct (Hall1 pair Hpair) as (edge & He & Hle1).
      destruct (Hall2 pair Hpair) as (axis & Ha & Hle2).
      exists edge, axis. rewrite Hshift. repeat split; auto.
      by eapply Qle_trans.
    + rewrite Hshift. apply Qlt_le_weak. by eapply Qlt_trans.
    + right. destruct Hex2 as [->|(pair & v & Hpair & Hv & ->)].
      * destruct Hex1 as [->|(pair & v & Hpair & Hv & ->)].
        -- exfalso. by apply (Qlt_irrefl DBL_MIN).
        -- exists pair, v. split; [done|]. split; [by left|]. apply Hshift.
      * exists pair, v. split; [done|]. split; [by right|]. apply Hshift.
Qed.

(** C4, at the failing input: the tree that [buildInitialBStarTree]
    builds for the group with the self-symmetric module c (8×2) and the
    pair (d, d') of 2×2 modules.  The packing puts d at (0, 0) and c on top
    of it at (0, 2).
    The claim takes R over all the representatives: R = 8 and the axis is
    9.  The code takes it over the keys of [repToPairMap]: R = 2 and the
    axis is 3, so that c, centred on the axis, is moved to x = -1 and
    [pack()] returns false. *)
Theorem axis_misses_self_symmetric_representative :
  ∃ s0 s1 s2 computed claimed moduleC,
    buildInitialBStarTree (λ _, true) (λ _, true) exampleWideSelfGroup = Some s0 ∧
    root s0 = mkNode "d" nullptr (mkNode "c" nullptr nullptr) ∧
    packBStarTree heightAt s0 = Some s1 ∧
    modules s1 !! "d" = Some (mkModule 2 2 0 0 false) ∧
    modules s1 !! "c" = Some (mkModule 8 2 0 2 false) ∧
    symmetryAxisPosition <$> calculateSymmetryAxisPosition s1 = Some computed ∧
    specAxisVertical s1 = Some claimed ∧
    (computed == 3)%Q ∧ (claimed == 9)%Q ∧
    pack heightAt s0 = Some (false, s2) ∧
    modules s2 !! "c" = Some moduleC ∧ getX moduleC = (-1)%Z.
Proof.
  eexists _, _, _, _, _, _.
  split; [vm_compute; reflexivity|]. split; [reflexivity|].
  split; [vm_compute; reflexivity|]. split; [vm_compute; reflexivity|].
  split; [vm_compute; reflexivity|]. split; [vm_compute; reflexivity|].
  split; [vm_compute; reflexivity|]. split; [reflexivity|].
  split; [reflexivity|]. split; [vm_compute; reflexivity|].
  split; [vm_compute; reflexivity|]. reflexivity.
Qed.

End Axis.

(** ** What [pack] accepts *)

Section Validation.
Local Open Scope Q_scope.

Lemma Qltb_false_iff (a b : Q) : Qltb a b = false ↔ b <= a.
Proof.
  unfold Qltb. rewrite negb_false_iff. apply Qle_bool_iff.
Qed.

Lemma tolerance_check (e1 e2 : Q) :
  negb (Qltb 1 e1 || Qltb 1 e2) = true ↔ e1 <= 1 ∧ e2 <= 1.
Proof.
  rewrite negb_true_iff, orb_false_iff, !Qltb_false_iff. done.
Qed.

Lemma pairOk_spec ty axis (ms : gmap string ModuleT) repName symName :
  pairOk ty axis ms (repName, symName) = true ↔
  ∀ repModule symModule,
    ms !! repName = Some repModule → ms !! symName = Some symModule →
    pairWithinTolerance ty axis repModule symModule.
Proof.
  unfold pairOk, pairWithinTolerance. cbn [fst snd].
  destruct (ms !! repName) as [r|]; [|by split; [intros _ ? ? [=]|]].
  destruct (ms !! symName) as [y|]; [|by split; [intros _ ? ? _ [=]|]].
  destruct ty; rewrite tolerance_check; split.
  - by intros H ? ? [= <-] [= <-].
  - intros H. by apply H.
  - by intros H ? ? [= <-] [= <-].
  - intros H. by apply H.
Qed.

Lemma selfSymmetricOk_spec ty axis (ms : gmap string ModuleT) name :
  selfSymmetricOk ty axis ms name = true ↔
  ∀ module, ms !! name = Some module → selfWithinTolerance ty axis module.
Proof.
  unfold selfSymmetricOk, selfWithinTolerance.
  destruct (ms !! name) as [m|]; [|by split; [intros _ ? [=]|]].
  destruct ty; rewrite negb_true_iff, Qltb_false_iff; split.
  - by intros H ? [= <-].
  - intros H. by apply H.
  - by intros H ? [= <-].
  - intros H. by apply H.
Qed.

Lemma hasNegativeCoordinates_spec (m : ModuleT) :
  negb (hasNegativeCoordinates m) = true ↔ nonNegative m.
Proof.
  unfold hasNegativeCoordinates, nonNegative.
  rewrite negb_true_iff, orb_false_iff, !Z.ltb_ge. done.
Qed.

Lemma validateSymmetry_spec (s : ASFBStarTree) :
  validateSymmetry s = true ↔
  (∀ name module, modules s !! name = Some module → nonNegative module) ∧
  (∀ repName symName repModule symModule,
     (repName, symName) ∈ repToPairMap s →
     modules s !! repName = Some repModule →
     modules s !! symName = Some symModule →
     pairWithinTolerance (getType (symmetryGroup s))
       (symmetryAxisPosition s) repModule symModule) ∧
  (∀ name module,
     name ∈ selfSymmetricModules s →
     modules s !! name = Some module →
     selfWithinTolerance (getType (symmetryGroup s))
       (symmetryAxisPosition s) module).
Proof.
  unfold validateSymmetry. rewrite !andb_true_iff, !forallb_forall.
  split.
  - intros [[Hneg Hpairs] Hself]. split; [|split].
    + intros name module Hm. apply hasNegativeCoordinates_spec.
      apply (Hneg (name, module)).
      by apply list_elem_of_In, elem_of_map_to_list.
    + intros repName symName repModule symModule Hin.
      apply list_elem_of_In, Hpairs in Hin. revert repModule symModule.
      by apply pairOk_spec.
    + intros name module Hin. apply list_elem_of_In, Hself in Hin.
      revert module. by apply selfSymmetricOk_spec.
  - intros (Hneg & Hpairs & Hself). split; [split|].
    + intros [name module] Hin.
      apply list_elem_of_In, elem_of_map_to_list in Hin.
      apply hasNegativeCoordinates_spec. by eapply Hneg.
    + intros [repName symName] Hin. apply list_elem_of_In in Hin.
      apply pairOk_spec. intros ? ? ? ?. by eapply Hpairs.
    + intros name Hin. apply list_elem_of_In in Hin.
      apply selfSymmetricOk_spec. intros ? ?. by eapply Hself.
Qed.

Lemma pack_result getContourHeight (s s' : ASFBStarTree) (b : bool) :
  pack getContourHeight s = Some (b, s') → b = validateSymmetry s'.
Proof.
  unfold pack. destruct (packBStarTree _ _) as [s1|]; [|done]. simpl.
  destruct (calculateSymmetryAxisPosition s1) as [s2|]; [|done]. simpl.
  destruct (updateSymmetricModulePositions s2) as [s3|]; [|done]. simpl.
  by intros [= <- <-].
Qed.

(** C3. [pack()] returns false whenever a module's final x or y
    coordinate is negative; equivalently, when [pack()] returns true every
    module of the table has x >= 0 and y >= 0. *)
Theorem pack_true_nonnegative getContourHeight (s s' : ASFBStarTree) (b : bool) :
  pack getContourHeight s = Some (b, s') →
  (b = true →
   ∀ name module, modules s' !! name = Some module →
     (0 ≤ getX module)%Z ∧ (0 ≤ getY module)%Z) ∧
  ((∃ name module, modules s' !! name = Some module ∧
      (getX module < 0 ∨ getY module < 0)%Z) →
   b = false).
Proof.
  intros Hp. apply pack_result in Hp as ->. split.
  - intros Hv. apply validateSymmetry_spec in Hv as (Hneg & _ & _). exact Hneg.
  - intros (name & module & Hm & Hlt).
    destruct (validateSymmetry s') eqn:Hv; [|done].
    apply validateSymmetry_spec in Hv as (Hneg & _ & _).
    destruct (Hneg _ _ Hm). lia.
Qed.

Lemma pack_true_nonnegative_witness :
  (0 ≤ getX (mkModule 6 2 6 0 false))%Z ∧ (0 ≤ getY (mkModule 6 2 6 0 false))%Z.
Proof.
  refine (proj1 (pack_true_nonnegative heightAt exampleSelfRoot _ true _)
            eq_refl "c" _ _).
  - vm_compute. reflexivity.
  - vm_compute. reflexivity.
Defined.

(** C1, as the code has it.  [pack()] returns true exactly when the final
    placement passes [validateSymmetry]: every module of the table has
    non-negative coordinates, every pair is within the tolerance 1.0 and
    every self-symmetric module is within 1.0 of the axis.  The interiors
    of the rectangles are not examined. *)
Theorem pack_true_iff_symmetry_valid getContourHeight
    (s s' : ASFBStarTree) (b : bool) :
  pack getContourHeight s = Some (b, s') →
  (b = true ↔
   (∀ name module, modules s' !! name = Some module → nonNegative module) ∧
   (∀ repName symName repModule symModule,
      (repName, symName) ∈ repToPairMap s' →
      modules s' !! repName = Some repModule →
      modules s' !! symName = Some symModule →
      pairWithinTolerance (getType (symmetryGroup s'))
        (symmetryAxisPosition s') repModule symModule) ∧
   (∀ name module,
      name ∈ selfSymmetricModules s' →
      modules s' !! name = Some module →
      selfWithinTolerance (getType (symmetryGroup s'))
        (symmetryAxisPosition s') module)).
Proof.
  intros Hp. apply pack_result in Hp as ->. apply validateSymmetry_spec.
Qed.

Lemma pack_true_iff_symmetry_valid_witness :
  nonNegative (mkModule 2 2 10 0 false).
Proof.
  refine (proj1 (proj1 (pack_true_iff_symmetry_valid heightAt exampleSelfRoot
                          _ true _) eq_refl) "d'" _ _).
  - vm_compute. reflexivity.
  - vm_compute. reflexivity.
Defined.

(** C1, as stated, fails on [exampleSelfRoot]: [pack()] returns true and
    leaves the self-symmetric module c on [6,12) × [0,2) and the pair
    representative d on [6,8) × [0,2). *)
Lemma pack_true_with_overlap :
  ∃ s' c d,
    pack heightAt exampleSelfRoot = Some (true, s') ∧
    modules s' !! "c" = Some c ∧ modules s' !! "d" = Some d ∧
    interiorsOverlap c d.
Proof.
  eexists _, _, _. split; [vm_compute; reflexivity|].
  split; [vm_compute; reflexivity|]. split; [vm_compute; reflexivity|].
  unfold interiorsOverlap. simpl. lia.
Qed.

End Validation.

(** ** Placement of a left child *)

Section LeftChild.
Variable getContourHeight : Contour → Z → Z.

Lemma hasContourOverlap_false (c : Contour) (x y width height : Z) :
  hasContourOverlap getContourHeight c x y width height = false ↔
  ∀ currX, x ≤ currX < x + width → getContourHeight c currX ≤ y.
Proof.
  unfold hasContourOverlap. rewrite <- not_true_iff_false, existsb_exists.
  split.
  - intros Hno currX Hrange.
    destruct (Z.gtb_spec (getContourHeight c currX) y) as [Hgt|Hle]; [|done].
    exfalso. apply Hno. exists currX. split.
    + apply list_elem_of_In, elem_of_seqZ. lia.
    + by apply Z.gtb_lt.
  - intros Hall (currX & Hin & Hgt).
    apply list_elem_of_In, elem_of_seqZ in Hin. apply Z.gtb_lt in Hgt.
    specialize (Hall currX). lia.
Qed.

(** What the packer does with a left child: it goes to
    [x_L = parent.x + parent.width]; its y is the parent's when the
    contour over [[x_L, x_L + w_L)] does not exceed the parent's y, and
    otherwise the contour height at the single abscissa [x_L]. *)
Lemma placeLeftChild_position (name lname : string) (l1 l2 : BStarNode)
    (nodeX nodeY : Z) (s s' : ASFBStarTree) (pushed : list (BStarNode * (Z * Z))) :
  placeLeftChild getContourHeight name nodeX nodeY (mkNode lname l1 l2) s
    = Some (s', pushed) →
  ∃ parent child placed,
    modules s !! name = Some parent ∧
    modules s !! lname = Some child ∧
    modules s' !! lname = Some placed ∧
    getX placed = nodeX + getWidth parent ∧
    ((∀ currX, getX placed ≤ currX < getX placed + getWidth child →
        getContourHeight (contourHead s) currX ≤ nodeY) →
     getY placed = nodeY) ∧
    (¬ (∀ currX, getX placed ≤ currX < getX placed + getWidth child →
          getContourHeight (contourHead s) currX ≤ nodeY) →
     getY placed = getContourHeight (contourHead s) (getX placed)).
Proof.
  unfold placeLeftChild, placeAt.
  destruct (modules s !! name) as [parent|]; [|done]. simpl.
  destruct (modules s !! lname) as [child|] eqn:Ec; [|done]. simpl.
  intros [= <- <-]. exists parent, child. eexists.
  split; [done|]. split; [done|]. simpl. rewrite lookup_insert_eq.
  split; [done|]. simpl. split; [done|].
  unfold leftChildY.
  destruct (hasContourOverlap _ _ _ _ _ _) eqn:Eo; simpl.
  - split; [|done]. intros Hall.
    pose proof (proj2 (hasContourOverlap_false _ _ _ _ (getHeight child)) Hall).
    congruence.
  - split; [done|]. intros Hnot. exfalso. apply Hnot.
    exact (proj1 (hasContourOverlap_false _ _ _ _ _) Eo).
Qed.

End LeftChild.

(** C2, at the failing input [exampleStaggered].  When R1, standing at
    (0,2), is popped, its left child Q (3×1) goes to x = 1.  The contour
    over [1,4) exceeds 2 and its maximum there is 7 (the top of T), but
    the packer places Q at y = 4, the contour height at x = 1 alone: Q lands
    on [1,4) × [4,5), inside T's [2,4) × [2,7).  That state is the one the
    packing loop ends in. *)
Theorem left_child_below_contour_maximum :
  ∃ s4 s5 q t,
    exampleStaggeredAtR1 = Some s4 ∧
    hasContourOverlap heightAt (contourHead s4) 1 2 3 1 = true ∧
    maxHeightOver heightAt (contourHead s4) 1 3 = 7 ∧
    placeLeftChild heightAt "R1" 0 2 nodeQ s4 = Some (s5, [(nodeQ, (1, 4))]) ∧
    placeNodes heightAt exampleStaggered = Some s5 ∧
    modules s5 !! "Q" = Some q ∧ modules s5 !! "T" = Some t ∧
    getY q = 4 ∧ interiorsOverlap q t.
Proof.
  eexists _, _, _, _. split; [vm_compute; reflexivity|].
  split; [vm_compute; reflexivity|]. split; [vm_compute; reflexivity|].
  split; [vm_compute; reflexivity|]. split; [vm_compute; reflexivity|].
  split; [vm_compute; reflexivity|]. split; [vm_compute; reflexivity|].
  split; [reflexivity|]. unfold interiorsOverlap. simpl. lia.
Qed.

(** ** The boundary branch of the initial tree *)

Section Boundary.

Lemma createNodes_lookup (names : list string) (k : string) :
  createNodes names !! k
  = if bool_decide (k ∈ names) then Some (mkCell None None) else None.
Proof.
  unfold createNodes.
  assert (Hgen : ∀ (l : list string) (m : gmap string NodeCell),
            foldl (λ nodeMap name, <[name := mkCell None None]> nodeMap) m l !! k
            = if bool_decide (k ∈ l) then Some (mkCell None None) else m !! k).
  { induction l as [|a l IH]; intros m; simpl; [done|].
    rewrite IH. destruct (decide (k = a)) as [->|Hne].
    - rewrite lookup_insert_eq.
      rewrite (bool_decide_eq_true_2 (a ∈ a :: l)) by (by apply elem_of_cons; left).
      by destruct (bool_decide (a ∈ l)).
    - rewrite lookup_insert_ne by done.
      destruct (bool_decide (k ∈ l)) eqn:E.
      + apply bool_decide_eq_true in E.
        by rewrite bool_decide_eq_true_2 by (by apply elem_of_cons; right).
      + apply bool_decide_eq_false in E.
        rewrite bool_decide_eq_false_2; [done|].
        intros [?|?]%elem_of_cons; done. }
  rewrite Hgen. by destruct (bool_decide _).
Qed.

Lemma nodeMapAt_Some (st : gmap string NodeCell) (name p : string) :
  nodeMapAt st name = Some p → p = name ∧ is_Some (st !! name).
Proof.
  unfold nodeMapAt. destruct (st !! name); [|done]. intros [= <-]. eauto.
Qed.

Lemma setChild_lookup d p q (st st' : gmap string NodeCell) :
  setChild d p q st = Some st' →
  ∃ name cell, p = Some name ∧ st !! name = Some cell ∧
    st' = <[name := match d with
                    | Left => mkCell q (cell_right cell)
                    | Right => mkCell (cell_left cell) q
                    end]> st.
Proof.
  unfold setChild. destruct p as [name|]; [|done]. simpl.
  destruct (st !! name) as [cell|] eqn:E; [|done]. simpl.
  intros [= <-]. eauto.
Qed.

(** Filling an empty child slot keeps every node on its branch. *)
Lemma setChild_onBranch d d' p q (st st' : gmap string NodeCell) r n :
  setChild d' p q st = Some st' →
  (∀ name cell, p = Some name → st !! name = Some cell → child d' cell = None) →
  onBranch d st r n → onBranch d st' r n.
Proof.
  intros Hset Hempty Hb.
  apply setChild_lookup in Hset as (name & cell & -> & Hcell & ->).
  specialize (Hempty name cell eq_refl Hcell).
  induction Hb as [n c Hn|a c n Ha Hb IH].
  - destruct (decide (n = name)) as [->|Hne].
    + eapply onBranch_here. apply lookup_insert_eq.
    + eapply onBranch_here. by rewrite lookup_insert_ne.
  - destruct (decide (a = name)) as [->|Hne].
    + assert (c = cell) as -> by congruence.
      eapply onBranch_step; [apply lookup_insert_eq|].
      destruct d, d'; simpl in *; try done.
      * rewrite Hempty in Hb. inversion Hb.
      * rewrite Hempty in Hb. inversion Hb.
    + eapply onBranch_step; [by rewrite lookup_insert_ne|done].
Qed.

Lemma onBranch_snoc d (st : gmap string NodeCell) r c cell n cell' :
  onBranch d st r c → st !! c = Some cell → child d cell = Some n →
  st !! n = Some cell' → onBranch d st r n.
Proof.
  intros Hb Hc Hchild Hn. induction Hb as [c c0 Hc0|a c0 c Ha Hb IH].
  - eapply onBranch_step; [exact Hc|]. rewrite Hchild. by eapply onBranch_here.
  - eapply onBranch_step; [exact Ha|]. by apply IH.
Qed.

Lemma branchEnd_open fuel d (st : gmap string NodeCell) p last :
  branchEnd fuel d st p = Some last →
  ∃ cell, st !! last = Some cell ∧ child d cell = None.
Proof.
  revert p. induction fuel as [|fuel IH]; intros p; simpl.
  - destruct (st !! p) as [cell|] eqn:E; [|done]. simpl.
    destruct (child d cell) eqn:Ec; [done|]. intros [= <-]. eauto.
  - destruct (st !! p) as [cell|] eqn:E; [|done]. simpl.
    destruct (child d cell) eqn:Ec; [apply IH|]. intros [= <-]. eauto.
Qed.

Lemma findOpenSlot_open fuel d (st : gmap string NodeCell) node target :
  findOpenSlot fuel d st node = Some (Some target) →
  ∃ cell, st !! target = Some cell ∧ child d cell = None.
Proof.
  revert node. induction fuel as [|fuel IH]; intros node; simpl.
  - by destruct node.
  - destruct node as [n|]; [|done].
    destruct (st !! n) as [cell|] eqn:E; [|done]. simpl.
    destruct (child d cell) eqn:Ec.
    + destruct (findOpenSlot fuel d st (child (opposite d) cell)) as [[t|]|] eqn:Ef;
        simpl; [|apply IH|done].
      intros [= <-]. by eapply IH.
    + intros [= <-]. eauto.
Qed.

Local Arguments setChild : simpl never.
Local Arguments branchEnd : simpl never.
Local Arguments findOpenSlot : simpl never.
Local Arguments nodeMapAt : simpl never.

(** The insertion of the non-self-symmetric modules only fills empty
    slots: whatever is on a branch stays on it. *)
Lemma insertNonSelfSymmetric_onBranch d primary root i moduleName currentNode
    (st st' : gmap string NodeCell) currentNode' r n :
  insertNonSelfSymmetric primary root i moduleName currentNode st
    = Some (currentNode', st') →
  onBranch d st r n → onBranch d st' r n.
Proof.
  unfold insertNonSelfSymmetric. intros Hins Hb.
  destruct (i =? 0)%nat.
  - destruct root as [rt|]; [|done]. simpl in Hins.
    destruct (st !! rt) as [rootCell|] eqn:Er; [|done]. simpl in Hins.
    destruct (child primary rootCell) eqn:Ec.
    + destruct (branchEnd _ _ _ _) as [last|] eqn:El; [|done]. simpl in Hins.
      destruct (setChild _ _ _ _) as [st1|] eqn:Es; [|done].
      injection Hins as <- <-.
      eapply setChild_onBranch; [exact Es| |exact Hb].
      intros name cell [= <-] Hcell.
      apply branchEnd_open in El as (cell' & Hc' & Hopen). congruence.
    + destruct (setChild _ _ _ _) as [st1|] eqn:Es; [|done].
      injection Hins as <- <-.
      eapply setChild_onBranch; [exact Es| |exact Hb].
      intros name cell [= <-] Hcell. congruence.
  - destruct currentNode as [c|]; [|done]. simpl in Hins.
    destruct (st !! c) as [currentCell|] eqn:Ecur; [|done]. simpl in Hins.
    destruct (child _ currentCell) eqn:Ec.
    + destruct (findOpenSlot _ _ _ _) as [[target|]|] eqn:Ef; [| |done]; simpl in Hins.
      * destruct (setChild _ _ _ _) as [st1|] eqn:Es; [|done].
        injection Hins as <- <-.
        eapply setChild_onBranch; [exact Es| |exact Hb].
        intros name cell [= <-] Hcell.
        apply findOpenSlot_open in Ef as (cell' & Hc' & Hopen). congruence.
      * by injection Hins as <- <-.
    + destruct (setChild _ _ _ _) as [st1|] eqn:Es; [|done].
      injection Hins as <- <-.
      eapply setChild_onBranch; [exact Es| |exact Hb].
      intros name cell [= <-] Hcell. congruence.
Qed.

Lemma insertAll_onBranch d primary root names : ∀ i currentNode
    (st st' : gmap string NodeCell) currentNode' r n,
  insertAll primary root i names currentNode st = Some (currentNode', st') →
  onBranch d st r n → onBranch d st' r n.
Proof.
  induction names as [|name names IH]; intros i cur st st' cur' r n; simpl.
  - by intros [= <- <-].
  - destruct (insertNonSelfSymmetric _ _ _ _ _ _) as [[cur1 st1]|] eqn:E; [|done].
    simpl. intros Hall Hb. eapply IH; [exact Hall|].
    eapply insertNonSelfSymmetric_onBranch; [exact E|exact Hb].
Qed.

Lemma setChild_dom d p q (st st' : gmap string NodeCell) k :
  setChild d p q st = Some st' → is_Some (st' !! k) ↔ is_Some (st !! k).
Proof.
  intros Hset. apply setChild_lookup in Hset as (name & cell & -> & Hcell & ->).
  destruct (decide (k = name)) as [->|Hne].
  - rewrite lookup_insert_eq, Hcell. split; eauto.
  - by rewrite lookup_insert_ne.
Qed.

(** The chain of the self-symmetric modules: every chained name that has a
    node ends on the boundary branch.  [touched] lists the root and the
    names chained so far; the names still to chain are fresh nodes. *)
Lemma chainSelfSymmetric_onBranch d rootPtr names : ∀ touched currentNode
    (st st' : gmap string NodeCell) currentNode',
  NoDup (touched ++ names) →
  (∀ n, n ∈ touched → is_Some (st !! n) → onBranch d st rootPtr n) →
  (∀ c, currentNode = Some c →
        c ∈ touched ∧ ∃ cell, st !! c = Some cell ∧ child d cell = None) →
  (∀ k cell, k ∉ touched → st !! k = Some cell → child d cell = None) →
  chainSelfSymmetric d names currentNode st = Some (currentNode', st') →
  ∀ n, n ∈ touched ++ names → is_Some (st !! n) → onBranch d st' rootPtr n.
Proof.
  induction names as [|name names IH];
    intros touched cur st st' cur' Hnd Hon Hcur Hfresh; simpl.
  - intros [= <- <-] n. rewrite app_nil_r. apply Hon.
  - destruct (setChild d cur (nodeMapAt st name) st) as [st1|] eqn:Es; [|done].
    simpl. intros Hchain n Hn Hsome.
    pose proof Es as Hset.
    apply setChild_lookup in Hset as (c & cell & -> & Hcell & Hst1).
    destruct (Hcur c eq_refl) as (Hc & cell0 & Hcell0 & Hopen).
    assert (cell0 = cell) as -> by congruence.
    assert (Hname : name ∉ touched).
    { apply NoDup_app in Hnd as (_ & Hdisj & _). intros Hin.
      apply (Hdisj name Hin). by apply elem_of_cons; left. }
    assert (Hne : name ≠ c) by (by intros ->).
    assert (Hkeep : ∀ r m, onBranch d st r m → onBranch d st1 r m).
    { intros r m. eapply setChild_onBranch; [exact Es|].
      intros ? ? [= <-] ?. congruence. }
    apply (IH (touched ++ [name]) (nodeMapAt st name) st1 st' cur').
    + by rewrite <- app_assoc.
    + intros m Hm Hm1. apply (setChild_dom _ _ _ _ _ m Es) in Hm1.
      apply elem_of_app in Hm as [Hm|Hm]; [by apply Hkeep, Hon|].
      apply list_elem_of_singleton in Hm as ->.
      destruct Hm1 as [cellN HcellN].
      assert (Hq : nodeMapAt st name = Some name).
      { unfold nodeMapAt. by rewrite HcellN. }
      eapply (onBranch_snoc d st1 rootPtr c).
      * apply Hkeep, Hon; [done|eauto].
      * rewrite Hst1. apply lookup_insert_eq.
      * rewrite Hq. by destruct d.
      * rewrite Hst1, lookup_insert_ne by done. exact HcellN.
    + intros c' Hc'. apply nodeMapAt_Some in Hc' as [-> [cellN HcellN]].
      split; [apply elem_of_app; right; by apply list_elem_of_singleton|].
      exists cellN. split.
      * by rewrite Hst1, lookup_insert_ne.
      * by eapply Hfresh.
    + intros k cellK Hk. rewrite Hst1.
      assert (k ≠ c) by (intros ->; apply Hk, elem_of_app; by left).
      rewrite lookup_insert_ne by done. apply Hfresh.
      intros Hin. apply Hk, elem_of_app. by left.
    + exact Hchain.
    + by rewrite <- app_assoc.
    + by apply (setChild_dom _ _ _ _ _ n Es).
Qed.

(** A node on a branch of the store is on that branch of the tree read
    from the store. *)
Lemma reify_onBranch d (st : gmap string NodeCell) p n :
  onBranch d st p n →
  ∀ fuel t, reify fuel st p = Some t → n ∈ branchOf d t.
Proof.
  induction 1 as [n cell Hn|a cell n Ha Hb IH]; intros [|fuel] t; simpl; try done.
  - rewrite Hn. simpl.
    destruct (reify fuel st (cell_left cell)) as [l|]; [|done]. simpl.
    destruct (reify fuel st (cell_right cell)) as [r|]; [|done]. simpl.
    intros [= <-]. destruct d; apply list_elem_of_here.
  - rewrite Ha. simpl.
    destruct (reify fuel st (cell_left cell)) as [l|] eqn:El; [|done]. simpl.
    destruct (reify fuel st (cell_right cell)) as [r|] eqn:Er; [|done]. simpl.
    intros [= <-]. destruct d; simpl in *; apply list_elem_of_further.
    + by apply (IH fuel).
    + by apply (IH fuel).
Qed.

Lemma sortByMinorDimension_elem ty (ms : gmap string ModuleT)
    (names sorted : list string) (x : string) :
  sortByMinorDimension ty ms names = Some sorted → x ∈ sorted → x ∈ names.
Proof.
  unfold sortByMinorDimension.
  destruct names as [|n1 [|n2 names]]; try (by intros [= <-]).
  set (l := n1 :: n2 :: names). clearbody l.
  destruct (mapM _ l) as [keyed|] eqn:Em; [|done]. simpl. intros [= <-] Hx.
  apply list_elem_of_fmap in Hx as ([y key] & -> & Hy).
  apply elem_of_sortBy in Hy. apply mapM_Some in Em.
  apply list_elem_of_lookup in Hy as [i Hi].
  destruct (Forall2_lookup_r _ _ _ _ _ Em Hi) as (name & Hname & Hf).
  destruct (ms !! name); [|done]. simpl in Hf. injection Hf as <- _.
  apply list_elem_of_lookup. eauto.
Qed.

Local Arguments reify : simpl never.
Local Arguments chainSelfSymmetric : simpl never.
Local Arguments insertAll : simpl never.

Variable validateTreeStructure : BStarNode → bool.
Variable validateSymmetryConstraints : ASFBStarTree → bool.

(** C6. After [buildInitialBStarTree] completes without error, every
    self-symmetric representative lies on the rightmost branch of the tree
    for a VERTICAL group and on the leftmost branch for a HORIZONTAL group.
    The self-symmetric names of the group are listed once. *)
Theorem initial_tree_boundary_invariant (s s' : ASFBStarTree) :
  NoDup (selfSymmetricModules s) →
  buildInitialBStarTree validateTreeStructure validateSymmetryConstraints s
    = Some s' →
  ∀ name,
    name ∈ selfSymmetricModules s →
    name ∈ representativeModules s →
    match getType (symmetryGroup s) with
    | VERTICAL => name ∈ rightBranch (root s')
    | HORIZONTAL => name ∈ leftBranch (root s')
    end.
Proof.
  intros Hnd Hbuild name Hself Hrep.
  unfold buildInitialBStarTree in Hbuild.
  set (primary := match getType (symmetryGroup s) with
                  | VERTICAL => Right | HORIZONTAL => Left end) in *.
  assert (Hgoal : name ∈ branchOf primary (root s'));
    [|by unfold primary in Hgoal; destruct (getType (symmetryGroup s))].
  remember (representativeModules s) as reps eqn:Ereps in *.
  destruct (sortByMinorDimension _ _ _) as [nonSelf|] eqn:Esort; [|done].
  simpl in Hbuild.
  destruct reps as [|rep0 reps0]; [by apply elem_of_nil in Hrep|].
  set (nodeMap := createNodes (rep0 :: reps0)) in *.
  assert (Hfreshcell : ∀ k cell, nodeMap !! k = Some cell → cell = mkCell None None).
  { intros k cell. unfold nodeMap. rewrite createNodes_lookup.
    destruct (bool_decide _); congruence. }
  assert (Hnode : is_Some (nodeMap !! name)).
  { unfold nodeMap. rewrite createNodes_lookup.
    rewrite bool_decide_eq_true_2 by done. eauto. }
  (* the choice of the root *)
  assert (Hroot : ∃ rootName rest selfSym',
            (match nonSelf, selfSymmetricModules s with
             | n :: r, _ => Some (n, r, selfSymmetricModules s)
             | [], n :: r => Some (n, [], r)
             | [], [] => None
             end) = Some (rootName, rest, selfSym') ∧
            NoDup ([rootName] ++ selfSym') ∧ name ∈ [rootName] ++ selfSym').
  { destruct nonSelf as [|n r].
    - destruct (selfSymmetricModules s) as [|n r]; [by apply elem_of_nil in Hself|].
      exists n, [], r. split; [done|]. split; [exact Hnd|exact Hself].
    - exists n, r, (selfSymmetricModules s). split; [done|]. split.
      + apply NoDup_cons. split; [|done]. intros Hin.
        assert (Hn : n ∈ List.filter (λ name, negb (isSelfSymmetric s name))
                       (rep0 :: reps0)).
        { eapply sortByMinorDimension_elem; [exact Esort|].
          by apply elem_of_cons; left. }
        apply list_elem_of_In, filter_In in Hn as [_ Hn].
        unfold isSelfSymmetric in Hn. apply negb_true_iff in Hn.
        by apply bool_decide_eq_false in Hn.
      + by apply elem_of_cons; right. }
  destruct Hroot as (rootName & rest & selfSym' & Hchoice & Hnd' & Hname').
  rewrite Hchoice in Hbuild. simpl in Hbuild.
  destruct (chainSelfSymmetric primary selfSym' (nodeMapAt nodeMap rootName) nodeMap)
    as [[cur st1]|] eqn:Echain; [|done].
  simpl in Hbuild.
  destruct (insertAll primary (nodeMapAt nodeMap rootName) 0 rest cur st1)
    as [[cur2 st2]|] eqn:Eins; [|done].
  simpl in Hbuild.
  destruct (reify (S (size st2)) st2 (nodeMapAt nodeMap rootName))
    as [t|] eqn:Et; [|done].
  cbn [mbind option_bind] in Hbuild.
  destruct (negb (validateTreeStructure t)); [done|].
  destruct (negb (validateSymmetryConstraints (withRoot t s))); [done|].
  injection Hbuild as <-. simpl.
  eapply reify_onBranch; [|exact Et].
  eapply insertAll_onBranch; [exact Eins|].
  eapply (chainSelfSymmetric_onBranch primary _ selfSym' [rootName]);
    [exact Hnd'| | | |exact Echain|exact Hname'|exact Hnode].
  - intros n Hn [cell Hcell]. apply list_elem_of_singleton in Hn as ->.
    unfold nodeMapAt. rewrite Hcell. by eapply onBranch_here.
  - intros c Hc. apply nodeMapAt_Some in Hc as [-> [cell Hcell]].
    split; [by apply list_elem_of_singleton|]. exists cell. split; [done|].
    rewrite (Hfreshcell _ _ Hcell). by destruct primary.
  - intros k cell _ Hcell. rewrite (Hfreshcell _ _ Hcell). by destruct primary.
Qed.

End Boundary.

Lemma initial_tree_boundary_invariant_witness :
  "c2" ∈ rightBranch
    (root (default (exampleGroup VERTICAL)
             (buildInitialBStarTree (λ _, true) (λ _, true) (exampleGroup VERTICAL)))).
Proof.
  refine (initial_tree_boundary_invariant (λ _, true) (λ _, true)
            (exampleGroup VERTICAL) _ _ eq_refl "c2" _ _).
  - vm_compute. repeat (constructor; [by intros H; repeat (apply elem_of_cons in H as [H|H]; [discriminate H|]); apply elem_of_nil in H|]).
    constructor.
  - vm_compute. apply list_elem_of_further, list_elem_of_here.
  - vm_compute. do 6 apply list_elem_of_further. apply list_elem_of_here.
Defined.

(** ** Two runs of [pack] *)

Section Agreement.

Lemma agree_cases P (ms ms' : gmap string ModuleT) (k : string) :
  agree P ms ms' →
  (ms !! k = None ∧ ms' !! k = None) ∨
  (∃ m m', ms !! k = Some m ∧ ms' !! k = Some m' ∧
           dimsEq m m' ∧ (P k → posEq m m')).
Proof.
  intros H. specialize (H k).
  destruct (ms !! k) as [m|], (ms' !! k) as [m'|]; try done.
  - right. exists m, m'. tauto.
  - by left.
Qed.

Lemma agree_refl P (ms : gmap string ModuleT) : agree P ms ms.
Proof. intros k. by destruct (ms !! k). Qed.

Lemma agree_weaken (P Q : string → Prop) (ms ms' : gmap string ModuleT) :
  (∀ k, Q k → P k) → agree P ms ms' → agree Q ms ms'.
Proof.
  intros HQ H k. specialize (H k).
  destruct (ms !! k), (ms' !! k); try done. destruct H as [Hd Hp]. split; auto.
Qed.

Lemma agree_trans (P Q : string → Prop) (ms1 ms2 ms3 : gmap string ModuleT) :
  agree P ms1 ms2 → agree Q ms2 ms3 → agree (λ k, P k ∧ Q k) ms1 ms3.
Proof.
  intros H1 H2 k. specialize (H1 k). specialize (H2 k).
  destruct (ms1 !! k), (ms2 !! k), (ms3 !! k); try done.
  destruct H1 as [[? ?] Hp1], H2 as [[? ?] Hp2]. split.
  - split; congruence.
  - intros [HP HQ]. destruct (Hp1 HP), (Hp2 HQ). split; congruence.
Qed.

Lemma agree_sym P (ms ms' : gmap string ModuleT) :
  agree P ms ms' → agree P ms' ms.
Proof.
  intros H k. specialize (H k).
  destruct (ms !! k), (ms' !! k); try done.
  destruct H as [[? ?] Hp]. split; [by split|].
  intros HP. destruct (Hp HP). by split.
Qed.

(** The same write on both sides. *)
Lemma agree_insert P (ms ms' : gmap string ModuleT) (k : string) (a a' : ModuleT) :
  agree P ms ms' → dimsEq a a' → posEq a a' →
  agree (λ j, P j ∨ j = k) (<[k := a]> ms) (<[k := a']> ms').
Proof.
  intros H Hd Hp j. destruct (decide (j = k)) as [->|Hne].
  - rewrite !lookup_insert_eq. by split.
  - rewrite !lookup_insert_ne by done. specialize (H j).
    destruct (ms !! j), (ms' !! j); try done. destruct H as [? Hj].
    split; [done|]. intros [?|?]; [auto|done].
Qed.

(** A write on one side. *)
Lemma agree_insert_l P (ms ms' : gmap string ModuleT) (k : string) (m a : ModuleT) :
  agree P ms ms' → ms !! k = Some m → dimsEq m a →
  agree (λ j, P j ∧ j ≠ k) (<[k := a]> ms) ms'.
Proof.
  intros H Hk Hd j. destruct (decide (j = k)) as [->|Hne].
  - rewrite lookup_insert_eq. specialize (H k). rewrite Hk in H.
    destruct (ms' !! k); [|done]. destruct H as [[? ?] _].
    destruct Hd. split; [split; congruence|]. by intros [_ ?].
  - rewrite lookup_insert_ne by done. specialize (H j).
    destruct (ms !! j), (ms' !! j); try done. destruct H as [? Hj].
    split; [done|]. intros [? _]. auto.
Qed.

Lemma noRotation_agree P pairs (ms ms' : gmap string ModuleT) :
  agree P ms ms' → noRotation pairs ms → noRotation pairs ms'.
Proof.
  intros Hag Hno repName symName r' y' Hin Hr Hy.
  destruct (agree_cases _ _ _ repName Hag) as [[_ E]|(r & r1 & Er & Er1 & [Hw Hh] & _)];
    [congruence|].
  destruct (agree_cases _ _ _ symName Hag) as [[_ E]|(y & y1 & Ey & Ey1 & [Hw' Hh'] & _)];
    [congruence|].
  assert (r1 = r') as -> by congruence. assert (y1 = y') as -> by congruence.
  specialize (Hno _ _ _ _ Hin Er Ey). unfold needsRotation in *.
  by rewrite <- Hw, <- Hh, <- Hw', <- Hh'.
Qed.

Lemma optRel_bind {A A' B B'} (R : A → A' → Prop) (R' : B → B' → Prop)
    (o : option A) (o' : option A') (f : A → option B) (f' : A' → option B') :
  optRel R o o' →
  (∀ a a', R a a' → optRel R' (f a) (f' a')) →
  optRel R' (o ≫= f) (o' ≫= f').
Proof.
  destruct o, o'; simpl; try done. intros HR Hf. by apply Hf.
Qed.

Lemma optRel_impl {A A'} (R R' : A → A' → Prop) (o : option A) (o' : option A') :
  optRel R o o' → (∀ a a', R a a' → R' a a') → optRel R' o o'.
Proof. destruct o, o'; simpl; auto. Qed.

(** Two loops over the same list whose bodies keep a relation keep it. *)
Lemma optRel_foldOption {A B B'} (R : B → B' → Prop)
    (f : B → A → option B) (f' : B' → A → option B') (l : list A) :
  (∀ a b b', a ∈ l → R b b' → optRel R (f b a) (f' b' a)) →
  ∀ b b', R b b' → optRel R (foldOption f l b) (foldOption f' l b').
Proof.
  induction l as [|a l IH]; intros Hstep b b' Hb.
  - by rewrite !foldOption_nil.
  - rewrite !foldOption_cons. eapply optRel_bind.
    + apply Hstep; [by apply elem_of_cons; left|done].
    + intros b1 b1' Hb1. apply IH; [|done].
      intros a2 b2 b2' Ha2. apply Hstep. by apply elem_of_cons; right.
Qed.

(** Two loops whose bodies coincide on the elements of the list. *)
Lemma foldOption_ext_in {A B} (f f' : B → A → option B) (l : list A) :
  (∀ a b, a ∈ l → f b a = f' b a) →
  ∀ b, foldOption f l b = foldOption f' l b.
Proof.
  induction l as [|a l IH]; intros Hext b; [done|].
  rewrite !foldOption_cons, Hext by (by apply elem_of_cons; left).
  destruct (f' b a) as [b1|]; [|done]. simpl. apply IH.
  intros a2 b2 Ha2. apply Hext. by apply elem_of_cons; right.
Qed.

Lemma sameGroup_refl s : sameGroup s s.
Proof. by repeat split. Qed.

Lemma sameGroup_trans s t u : sameGroup s t → sameGroup t u → sameGroup s u.
Proof.
  intros (?&?&?&?&?) (?&?&?&?&?). repeat split; congruence.
Qed.

Lemma sameGroup_sym s t : sameGroup s t → sameGroup t s.
Proof. intros (?&?&?&?&?). by repeat split. Qed.

Lemma evolves_refl s : evolves [] s s.
Proof. split; [apply sameGroup_refl|]. split; [done|apply agree_refl]. Qed.

Lemma evolves_trans W1 W2 s t u :
  evolves W1 s t → evolves W2 t u → evolves (W1 ++ W2) s u.
Proof.
  intros (Hg1 & Hx1 & Ha1) (Hg2 & Hx2 & Ha2).
  split; [by eapply sameGroup_trans|]. split; [congruence|].
  eapply agree_weaken; [|by eapply agree_trans].
  intros k Hk. simpl. rewrite elem_of_app in Hk. tauto.
Qed.

Lemma evolves_weaken W W' s t :
  (∀ k, k ∈ W → k ∈ W') → evolves W s t → evolves W' s t.
Proof.
  intros Hsub (Hg & Hx & Ha). split; [done|]. split; [done|].
  eapply agree_weaken; [|exact Ha]. intros k Hk. simpl. auto.
Qed.

End Agreement.

Section PackingRuns.
Variable getContourHeight : Contour → Z → Z.

Lemma related_weaken (P Q : string → Prop) s t :
  (∀ k, Q k → P k) → related P s t → related Q s t.
Proof.
  intros HQ (Hg & Hc & Ha). split; [done|]. split; [done|].
  by eapply agree_weaken.
Qed.

(** *** One run *)

Lemma placeAt_evolves name x y s s' :
  placeAt name x y s = Some s' → evolves [name] s s'.
Proof.
  unfold placeAt. destruct (modules s !! name) as [m|] eqn:E; [|done].
  simpl. intros [= <-]. split; [by repeat split|]. split; [done|]. simpl.
  eapply agree_weaken; [|eapply agree_sym, (agree_insert_l (λ _, True));
                          [apply agree_refl|exact E|done]].
  intros k Hk. simpl. split; [done|]. intros ->. apply Hk, list_elem_of_here.
Qed.

Lemma placeLeftChild_evolves name x y l s s' pushed :
  placeLeftChild getContourHeight name x y l s = Some (s', pushed) →
  evolves (rootNames l) s s' ∧ queueChildren pushed = descendants l.
Proof.
  unfold placeLeftChild. destruct l as [|lname l1 l2].
  - intros [= <- <-]. split; [apply evolves_refl|done].
  - destruct (modules s !! name) as [m|]; [|done]. simpl.
    destruct (modules s !! lname) as [lm|]; [|done]. simpl.
    destruct (placeAt _ _ _ _) as [s1|] eqn:E; [|done]. simpl.
    intros [= <- <-]. split; [by eapply placeAt_evolves|].
    unfold queueChildren. simpl. by rewrite app_nil_r.
Qed.

Lemma placeRightChild_evolves name x y r s s' pushed :
  placeRightChild name x y r s = Some (s', pushed) →
  evolves (rootNames r) s s' ∧ queueChildren pushed = descendants r.
Proof.
  unfold placeRightChild. destruct r as [|rname r1 r2].
  - intros [= <- <-]. split; [apply evolves_refl|done].
  - destruct (modules s !! name) as [m|]; [|done]. simpl.
    destruct (placeAt _ _ _ _) as [s1|] eqn:E; [|done]. simpl.
    intros [= <- <-]. split; [by eapply placeAt_evolves|].
    unfold queueChildren. simpl. by rewrite app_nil_r.
Qed.

Lemma queueChildren_app q1 q2 :
  queueChildren (q1 ++ q2) = queueChildren q1 ++ queueChildren q2.
Proof. unfold queueChildren. by rewrite fmap_app, concat_app. Qed.

Lemma preorder_root t : preorder t = rootNames t ++ descendants t.
Proof. by destruct t. Qed.

(** The names written while a node is processed and its children are
    queued are the names that were still to place. *)
Lemma children_step (name : string) (l r : BStarNode) (xy : Z * Z)
    (queue q1 q2 : list (BStarNode * (Z * Z))) (k : string) :
  queueChildren q1 = descendants l → queueChildren q2 = descendants r →
  k ∈ (rootNames l ++ rootNames r) ++ queueChildren (queue ++ q1 ++ q2) ↔
  k ∈ queueChildren ((mkNode name l r, xy) :: queue).
Proof.
  intros H1 H2. rewrite !queueChildren_app, H1, H2.
  unfold queueChildren at 2. simpl. fold (queueChildren queue).
  rewrite !(preorder_root l), !(preorder_root r), !elem_of_app. tauto.
Qed.

Lemma bfsLoop_evolves fuel : ∀ queue s s',
  bfsLoop getContourHeight fuel queue s = Some s' →
  evolves (queueChildren queue) s s'.
Proof.
  induction fuel as [|fuel IH]; intros [|[node [x y]] queue] s s'; simpl;
    try done; try (intros [= <-]; apply evolves_refl).
  destruct node as [|name l r]; [apply IH|].
  destruct (placeLeftChild _ _ _ _ _ _) as [[s1 q1]|] eqn:E1; [|done]. simpl.
  destruct (placeRightChild _ _ _ _ _) as [[s2 q2]|] eqn:E2; [|done]. simpl.
  intros Hloop.
  apply placeLeftChild_evolves in E1 as [He1 Hq1].
  apply placeRightChild_evolves in E2 as [He2 Hq2].
  apply IH in Hloop.
  eapply evolves_weaken; [|exact (evolves_trans _ _ _ _ _
                                    (evolves_trans _ _ _ _ _ He1 He2) Hloop)].
  intros k. by apply children_step.
Qed.

(** *** Two runs *)

Lemma placeAt_related P name x y s t :
  related P s t →
  optRel (related (λ k, P k ∨ k = name)) (placeAt name x y s) (placeAt name x y t).
Proof.
  intros (Hg & Hc & Ha). unfold placeAt.
  destruct (agree_cases _ _ _ name Ha) as [[-> ->]|(m & m' & -> & -> & [Hw Hh] & _)];
    [done|].
  simpl. split; [by destruct Hg as (?&?&?&?&?); repeat split|].
  split; [by rewrite Hw, Hh, Hc|]. simpl.
  apply agree_insert; [done|by split|by split].
Qed.

Lemma placeLeftChild_related P name x y l s t :
  related P s t →
  optRel (λ r r', r.2 = r'.2 ∧ related (λ k, P k ∨ k ∈ rootNames l) r.1 r'.1)
    (placeLeftChild getContourHeight name x y l s)
    (placeLeftChild getContourHeight name x y l t).
Proof.
  intros Hrel. unfold placeLeftChild. destruct l as [|lname l1 l2].
  - simpl. split; [done|]. eapply related_weaken; [|exact Hrel]. simpl.
    intros k [?|Hk]; [done|]. by apply elem_of_nil in Hk.
  - pose proof Hrel as (Hg & Hc & Ha).
    destruct (agree_cases _ _ _ name Ha) as [[-> ->]|(m & m' & -> & -> & [Hw Hh] & _)];
      [done|].
    simpl.
    destruct (agree_cases _ _ _ lname Ha) as [[-> ->]|(lm & lm' & -> & -> & [Hlw Hlh] & _)];
      [done|].
    simpl. rewrite <- Hw, <- Hlw, <- Hlh, <- Hc.
    eapply optRel_bind; [apply placeAt_related; exact Hrel|].
    intros s1 t1 H1. simpl. split; [done|].
    eapply related_weaken; [|exact H1]. simpl.
    intros k [?|Hk]; [by left|right]. by apply list_elem_of_singleton in Hk.
Qed.

Lemma placeRightChild_related P name x y r s t :
  related P s t →
  optRel (λ r1 r1', r1.2 = r1'.2 ∧ related (λ k, P k ∨ k ∈ rootNames r) r1.1 r1'.1)
    (placeRightChild name x y r s) (placeRightChild name x y r t).
Proof.
  intros Hrel. unfold placeRightChild. destruct r as [|rname r1 r2].
  - simpl. split; [done|]. eapply related_weaken; [|exact Hrel]. simpl.
    intros k [?|Hk]; [done|]. by apply elem_of_nil in Hk.
  - pose proof Hrel as (Hg & Hc & Ha).
    destruct (agree_cases _ _ _ name Ha) as [[-> ->]|(m & m' & -> & -> & [Hw Hh] & _)];
      [done|].
    simpl. rewrite <- Hh.
    eapply optRel_bind; [apply placeAt_related; exact Hrel|].
    intros s1 t1 H1. simpl. split; [done|].
    eapply related_weaken; [|exact H1]. simpl.
    intros k [?|Hk]; [by left|right]. by apply list_elem_of_singleton in Hk.
Qed.

Lemma bfsLoop_related fuel : ∀ queue P s t,
  related P s t →
  optRel (related (λ k, P k ∨ k ∈ queueChildren queue))
    (bfsLoop getContourHeight fuel queue s)
    (bfsLoop getContourHeight fuel queue t).
Proof.
  induction fuel as [|fuel IH]; intros [|[node [x y]] queue] P s t Hrel; simpl;
    try done; try (eapply related_weaken; [|exact Hrel]; simpl;
                   by intros k [?|Hk%elem_of_nil]).
  destruct node as [|name l r].
  { eapply optRel_impl; [by apply IH|]. intros s' t'. apply related_weaken.
    done. }
  pose proof (placeLeftChild_related P name x y l s t Hrel) as H1.
  destruct (placeLeftChild _ _ _ _ _ s) as [[s1 q1]|] eqn:E1,
           (placeLeftChild _ _ _ _ _ t) as [[t1 q1']|] eqn:E1'; try done.
  simpl in H1. destruct H1 as [<- H1]. simpl.
  pose proof (placeRightChild_related _ name x y r s1 t1 H1) as H2.
  destruct (placeRightChild _ _ _ _ s1) as [[s2 q2]|] eqn:E2,
           (placeRightChild _ _ _ _ t1) as [[t2 q2']|] eqn:E2'; try done.
  simpl in H2. destruct H2 as [<- H2]. simpl.
  apply placeLeftChild_evolves in E1 as [_ Hq1].
  apply placeRightChild_evolves in E2 as [_ Hq2].
  eapply optRel_impl; [apply IH; exact H2|].
  intros s' t'. apply related_weaken. intros k [Hk|Hk]; [by left; left; left|].
  apply (children_step name l r (x, y) queue q1 q2 k Hq1 Hq2) in Hk.
  rewrite !elem_of_app in Hk. tauto.
Qed.

End PackingRuns.

Section CompactionRuns.

Lemma writeBack_evolves positions (ms ms' : gmap string ModuleT) :
  writeBack positions ms = Some ms' →
  agree (λ k, positions !! k = None) ms ms'.
Proof.
  unfold writeBack. intros Hw.
  eapply (foldOption_invariant_in _
            (λ b, agree (λ k, positions !! k = None) ms b)) in Hw;
    [exact Hw| |apply agree_refl].
  intros b [name [x y]] b' Hin Hb. apply elem_of_map_to_list in Hin.
  destruct (b !! name) as [m|] eqn:E; [|done]. simpl. intros [= <-].
  apply agree_sym. eapply agree_weaken;
    [|eapply (agree_insert_l _ b ms name m); [by apply agree_sym|done|done]].
  intros k Hk. simpl. split; [done|]. intros ->. congruence.
Qed.

Lemma compactPlacement_evolves s s' :
  compactPlacement s = Some s' → evolves (representativeModules s) s s'.
Proof.
  unfold compactPlacement. intros Hc.
  destruct (collectPositions s) as [[positions0 dimensions]|] eqn:Ecol; [|done].
  simpl in Hc. destruct (writeBack _ _) as [ms|] eqn:Ew; [|done].
  injection Hc as <-. split; [by repeat split|]. split; [done|]. simpl.
  eapply agree_weaken; [|by eapply writeBack_evolves].
  intros k Hk. simpl.
  pose proof (collectPositions_keys _ _ _ _ Ecol Hk) as H0.
  apply translateToOrigin_None in H0.
  destruct (getType (symmetryGroup s)).
  - by apply compactY_None, compactX_None.
  - by apply compactX_None, compactY_None.
Qed.

Lemma collectPositions_related P s t :
  related P s t → (∀ name, name ∈ representativeModules s → P name) →
  collectPositions s = collectPositions t.
Proof.
  intros (Hg & _ & Ha) HP. unfold collectPositions.
  destruct Hg as (_ & <- & _). apply foldOption_ext_in.
  intros name [positions dimensions] Hname.
  destruct (agree_cases _ _ _ name Ha)
    as [[-> ->]|(m & m' & -> & -> & [Hw Hh] & Hp)]; [done|].
  destruct (Hp (HP _ Hname)) as [Hx Hy]. simpl. by rewrite Hw, Hh, Hx, Hy.
Qed.

Lemma writeBack_related P positions (ms ms' : gmap string ModuleT) :
  agree P ms ms' →
  optRel (agree P) (writeBack positions ms) (writeBack positions ms').
Proof.
  unfold writeBack. apply optRel_foldOption.
  intros [name [x y]] b b' _ Hb.
  destruct (agree_cases _ _ _ name Hb)
    as [[-> ->]|(m & m' & -> & -> & Hd & _)]; [done|].
  simpl. eapply agree_weaken; [|apply agree_insert; [exact Hb|exact Hd|done]].
  intros k Hk. by left.
Qed.

Lemma compactPlacement_related P s t :
  related P s t → (∀ name, name ∈ representativeModules s → P name) →
  optRel (related P) (compactPlacement s) (compactPlacement t).
Proof.
  intros Hrel HP. unfold compactPlacement.
  rewrite <- (collectPositions_related P s t Hrel HP).
  destruct Hrel as (Hg & Hc & Ha).
  destruct (collectPositions s) as [[positions0 dimensions]|]; [|done]. simpl.
  assert (Hty : getType (symmetryGroup s) = getType (symmetryGroup t))
    by (by destruct Hg).
  rewrite <- Hty.
  eapply optRel_bind; [by apply writeBack_related|].
  intros ms ms' Hms. simpl. split; [|by split].
  by destruct Hg as (?&?&?&?&?); repeat split.
Qed.

End CompactionRuns.

Section PackTreeRuns.
Variable getContourHeight : Contour → Z → Z.

Lemma placeNodes_evolves s s' :
  placeNodes getContourHeight s = Some s' → evolves (preorder (root s)) s s'.
Proof.
  unfold placeNodes. cbv zeta.
  change (root (withContour clearContour s)) with (root s).
  assert (H0 : evolves [] s (withContour clearContour s))
    by (split; [by repeat split|split; [done|apply agree_refl]]).
  destruct (root s) as [|name l r] eqn:Er.
  - by intros [= <-].
  - destruct (placeAt name 0 0 _) as [s0|] eqn:E0; [|done].
    cbn [mbind option_bind]. intros E1.
    apply placeAt_evolves in E0. apply bfsLoop_evolves in E1.
    pose proof (evolves_trans _ _ _ _ _ (evolves_trans _ _ _ _ _ H0 E0) E1) as H.
    eapply evolves_weaken; [|exact H].
    intros k Hk. unfold queueChildren in Hk. simpl in Hk.
    rewrite app_nil_r in Hk. exact Hk.
Qed.

Lemma placeNodes_related P s t :
  sameGroup s t → agree P (modules s) (modules t) →
  optRel (related (λ k, P k ∨ k ∈ preorder (root s)))
    (placeNodes getContourHeight s) (placeNodes getContourHeight t).
Proof.
  intros Hg Ha. unfold placeNodes. cbv zeta.
  assert (H0 : related P (withContour clearContour s) (withContour clearContour t)).
  { split; [by destruct Hg as (?&?&?&?&?); repeat split|]. by split. }
  assert (Hroot : root s = root t) by (by destruct Hg as (?&?&?&?&?)).
  change (root (withContour clearContour s)) with (root s).
  change (root (withContour clearContour t)) with (root t).
  rewrite <- Hroot. destruct (root s) as [|name l r].
  - eapply related_weaken; [|exact H0]. simpl. by intros k [?|Hk%elem_of_nil].
  - eapply optRel_bind; [by apply placeAt_related|].
    intros s1 t1 H1. eapply optRel_impl; [by apply bfsLoop_related|].
    intros s2 t2. apply related_weaken. intros k [Hk|Hk]; [by left; left|].
    unfold queueChildren. simpl. rewrite app_nil_r.
    simpl in Hk. apply elem_of_cons in Hk as [->|Hk]; [by left; right|by right].
Qed.

Lemma packBStarTree_evolves s s' :
  packBStarTree getContourHeight s = Some s' →
  evolves (preorder (root s) ++ representativeModules s) s s'.
Proof.
  unfold packBStarTree. intros Hp.
  destruct (placeNodes getContourHeight s) as [s1|] eqn:E1; [|done].
  simpl in Hp. apply compactPlacement_evolves in Hp.
  apply placeNodes_evolves in E1.
  assert (Hreps : representativeModules s1 = representativeModules s).
  { destruct E1 as [(_ & -> & _) _]. done. }
  rewrite Hreps in Hp. by eapply evolves_trans.
Qed.

Lemma packBStarTree_related P s t :
  sameGroup s t → agree P (modules s) (modules t) →
  (∀ name, name ∈ representativeModules s → name ∈ preorder (root s)) →
  optRel (related (λ k, P k ∨ k ∈ preorder (root s)))
    (packBStarTree getContourHeight s) (packBStarTree getContourHeight t).
Proof.
  intros Hg Ha Hreps. unfold packBStarTree.
  pose proof (placeNodes_related P s t Hg Ha) as H1.
  destruct (placeNodes getContourHeight s) as [s1|] eqn:E1,
           (placeNodes getContourHeight t) as [t1|] eqn:E1'; try done.
  simpl in *. apply compactPlacement_related; [done|].
  apply placeNodes_evolves in E1 as [(_ & <- & _) _].
  intros name Hname. right. by apply Hreps.
Qed.

End PackTreeRuns.

Section ProjectionRuns.

Lemma axisCoord_posEq ty m m' : posEq m m' → axisCoord ty m = axisCoord ty m'.
Proof. intros [? ?]. by destruct ty. Qed.

Lemma axisExtent_dimsEq ty m m' : dimsEq m m' → axisExtent ty m = axisExtent ty m'.
Proof. intros [? ?]. by destruct ty. Qed.

Lemma maxRepEdge_agree P ty (ms ms' : gmap string ModuleT) pairs :
  agree P ms ms' → (∀ rep sym, (rep, sym) ∈ pairs → P rep) →
  maxRepEdge ty ms pairs = maxRepEdge ty ms' pairs.
Proof.
  intros Ha HP. unfold maxRepEdge. apply foldOption_ext_in.
  intros [rep sym] acc Hin.
  destruct (agree_cases _ _ _ rep Ha) as [[-> ->]|(m & m' & -> & -> & Hd & Hp)];
    [done|].
  simpl. by rewrite (axisCoord_posEq ty m m' (Hp (HP _ _ Hin))),
                    (axisExtent_dimsEq ty m m' Hd).
Qed.

Lemma minAxisOverPairs_agree P ty (ms ms' : gmap string ModuleT) start pairs :
  agree P ms ms' → (∀ rep sym, (rep, sym) ∈ pairs → P rep) →
  minAxisOverPairs ty ms start pairs = minAxisOverPairs ty ms' start pairs.
Proof.
  intros Ha HP. unfold minAxisOverPairs. apply foldOption_ext_in.
  intros [rep sym] acc Hin.
  destruct (agree_cases _ _ _ rep Ha) as [[-> ->]|(m & m' & -> & -> & Hd & Hp)];
    [done|].
  simpl.
  destruct (agree_cases _ _ _ sym Ha) as [[-> ->]|(y & y' & -> & -> & Hdy & _)];
    [done|].
  simpl. unfold minAxisForPositiveCoords.
  by rewrite (axisCoord_posEq ty m m' (Hp (HP _ _ Hin))),
             (axisExtent_dimsEq ty m m' Hd), (axisExtent_dimsEq ty y y' Hdy).
Qed.

Lemma maxRepFarEdge_agree P ty (ms ms' : gmap string ModuleT) reps :
  agree P ms ms' → (∀ name, name ∈ reps → P name) →
  maxRepFarEdge ty ms reps = maxRepFarEdge ty ms' reps.
Proof.
  intros Ha HP. unfold maxRepFarEdge. apply foldOption_ext_in.
  intros name acc Hin.
  destruct (agree_cases _ _ _ name Ha) as [[-> ->]|(m & m' & -> & -> & Hd & Hp)];
    [done|].
  simpl. by rewrite (axisCoord_posEq ty m m' (Hp (HP _ Hin))),
                    (axisExtent_dimsEq ty m m' Hd).
Qed.

Lemma maxSelfSymExtent_agree P ty (ms ms' : gmap string ModuleT) names :
  agree P ms ms' →
  maxSelfSymExtent ty ms names = maxSelfSymExtent ty ms' names.
Proof.
  intros Ha. unfold maxSelfSymExtent. apply foldOption_ext_in.
  intros name acc Hin.
  destruct (agree_cases _ _ _ name Ha) as [[-> ->]|(m & m' & -> & -> & Hd & Hp)];
    [done|].
  simpl. by rewrite (axisExtent_dimsEq ty m m' Hd).
Qed.

(** With the positions of the representatives equal, the two runs compute
    the same axis. *)
Lemma calculateSymmetryAxisPosition_related P s t :
  related P s t →
  (∀ rep sym, (rep, sym) ∈ repToPairMap s → P rep) →
  (∀ name, name ∈ representativeModules s → P name) →
  (repToPairMap s = [] → selfSymmetricModules s = [] →
   symmetryAxisPosition s = symmetryAxisPosition t) →
  optRel (λ s' t', related P s' t' ∧
                   symmetryAxisPosition s' = symmetryAxisPosition t')
    (calculateSymmetryAxisPosition s) (calculateSymmetryAxisPosition t).
Proof.
  intros (Hg & Hc & Ha) Hpairs Hreps Haxis.
  pose proof Hg as (Hty & Hr & Hp & Hs & Hroot).
  unfold calculateSymmetryAxisPosition. rewrite <- Hty, <- Hr, <- Hp, <- Hs.
  assert (Hwith : ∀ a, related P (withAxis a s) (withAxis a t) ∧
                       symmetryAxisPosition (withAxis a s)
                       = symmetryAxisPosition (withAxis a t)).
  { intros a. split; [|done]. split; [by repeat split|]. by split. }
  destruct (repToPairMap s) as [|pr prs] eqn:Epairs.
  - destruct (selfSymmetricModules s) as [|n ns] eqn:Eself.
    + simpl. rewrite <- (Haxis eq_refl eq_refl). apply Hwith.
    + rewrite <- (maxRepFarEdge_agree P _ _ _ _ Ha Hreps).
      destruct (maxRepFarEdge _ _ _); [|done]. simpl.
      rewrite <- (maxSelfSymExtent_agree P _ _ _ _ Ha).
      destruct (maxSelfSymExtent _ _ _); [|done]. simpl. apply Hwith.
  - rewrite <- (maxRepEdge_agree P _ _ _ _ Ha Hpairs).
    destruct (maxRepEdge _ _ _); [|done]. simpl.
    rewrite <- (minAxisOverPairs_agree P _ _ _ _ _ Ha Hpairs).
    destruct (minAxisOverPairs _ _ _ _); [|done]. simpl. apply Hwith.
Qed.

(** *** The pairs *)

Lemma updatePair_evolves ty axis (ms ms' : gmap string ModuleT) repName symName :
  (∀ r y, ms !! repName = Some r → ms !! symName = Some y →
          needsRotation r y = false) →
  updatePair ty axis ms (repName, symName) = Some ms' →
  agree (λ k, k ≠ symName) ms ms'.
Proof.
  intros Hno. unfold updatePair.
  destruct (ms !! repName) as [r|] eqn:Er; [|done]. simpl.
  destruct (ms !! symName) as [y|] eqn:Ey; [|done]. simpl.
  rewrite (Hno r y eq_refl eq_refl). rewrite Er, Ey. simpl.
  set (p := round _).
  set (placed := match ty with
                 | VERTICAL => setPosition p (getY r) y
                 | HORIZONTAL => setPosition (getX r) p y
                 end).
  assert (Hms2 : (match ty with
                  | VERTICAL => <[symName := setPosition p (getY r) y]> ms
                  | HORIZONTAL => <[symName := setPosition (getX r) p y]> ms
                  end) = <[symName := placed]> ms) by (by destruct ty).
  rewrite Hms2. clear Hms2.
  assert (Hd : dimsEq y placed) by (by destruct ty).
  destruct (<[symName := placed]> ms !! repName) as [r2|]; [|done]. simpl.
  rewrite lookup_insert_eq. simpl. intros [= <-].
  intros k. destruct (decide (k = symName)) as [->|Hne].
  - rewrite Ey, lookup_insert_eq. split; [exact Hd|done].
  - rewrite !lookup_insert_ne by done. destruct (ms !! k); [|done]. by split.
Qed.

Lemma updatePair_related P ty axis (ms ms' : gmap string ModuleT) repName symName :
  agree P ms ms' → P repName →
  (∀ r y, ms !! repName = Some r → ms !! symName = Some y →
          needsRotation r y = false) →
  optRel (agree (λ k, P k ∨ k = symName))
    (updatePair ty axis ms (repName, symName))
    (updatePair ty axis ms' (repName, symName)).
Proof.
  intros Ha HP Hno. unfold updatePair.
  destruct (agree_cases _ _ _ repName Ha)
    as [[-> ->]|(r & r' & Er & Er' & Hdr & Hpr)]; [done|].
  rewrite Er, Er'. simpl.
  destruct (agree_cases _ _ _ symName Ha)
    as [[-> ->]|(y & y' & Ey & Ey' & Hdy & _)]; [done|].
  rewrite Ey, Ey'. simpl.
  assert (Hno' : needsRotation r' y' = false).
  { rewrite <- (Hno r y Er Ey). unfold needsRotation.
    destruct Hdr as [<- <-], Hdy as [<- <-]. done. }
  rewrite (Hno r y Er Ey), Hno'. rewrite Er, Er', Ey, Ey'. simpl.
  rewrite <- (axisCoord_posEq ty r r' (Hpr HP)),
          <- (axisExtent_dimsEq ty r r' Hdr), <- (axisExtent_dimsEq ty y y' Hdy).
  set (p := round _).
  destruct (Hpr HP) as [Hx Hy]. rewrite <- Hx, <- Hy.
  set (placed := match ty with
                 | VERTICAL => setPosition p (getY r) y
                 | HORIZONTAL => setPosition (getX r) p y
                 end).
  set (placed' := match ty with
                  | VERTICAL => setPosition p (getY r) y'
                  | HORIZONTAL => setPosition (getX r) p y'
                  end).
  assert (Hms2 : (match ty with
                  | VERTICAL => <[symName := setPosition p (getY r) y]> ms
                  | HORIZONTAL => <[symName := setPosition (getX r) p y]> ms
                  end) = <[symName := placed]> ms) by (by destruct ty).
  assert (Hms2' : (match ty with
                   | VERTICAL => <[symName := setPosition p (getY r) y']> ms'
                   | HORIZONTAL => <[symName := setPosition (getX r) p y']> ms'
                   end) = <[symName := placed']> ms') by (by destruct ty).
  rewrite Hms2, Hms2'. clear Hms2 Hms2'.
  assert (Hd : dimsEq placed placed') by (by destruct ty).
  assert (Hp : posEq placed placed') by (by destruct ty).
  pose proof (agree_insert P ms ms' symName placed placed' Ha Hd Hp) as Ha2.
  destruct (agree_cases _ _ _ repName Ha2)
    as [[-> ->]|(r2 & r2' & -> & -> & _ & _)]; [done|].
  simpl. rewrite !lookup_insert_eq. simpl.
  eapply agree_weaken; [|apply agree_insert; [exact Ha2| |]].
  - simpl. tauto.
  - by destruct Hd.
  - by destruct Hp.
Qed.

Lemma updatePairs_evolves ty axis pairs (ms ms' : gmap string ModuleT) :
  noRotation pairs ms →
  foldOption (updatePair ty axis) pairs ms = Some ms' →
  agree (λ k, k ∉ pairs.*2) ms ms'.
Proof.
  intros Hno Hf.
  eapply (foldOption_invariant_in _ (λ b, agree (λ k, k ∉ pairs.*2) ms b))
    in Hf; [exact Hf| |apply agree_refl].
  intros b [repName symName] b' Hin Hb Hstep.
  apply updatePair_evolves in Hstep.
  - eapply agree_weaken; [|exact (agree_trans _ _ _ _ _ Hb Hstep)].
    intros k Hk. simpl. split; [done|]. intros ->. apply Hk.
    apply list_elem_of_fmap. by exists (repName, symName).
  - intros r y Hr Hy. by eapply (noRotation_agree _ _ _ _ Hb Hno).
Qed.

Lemma updatePairs_related ty axis all pairs : ∀ P (ms ms' : gmap string ModuleT),
  (∀ pair, pair ∈ pairs → pair ∈ all) →
  agree P ms ms' → (∀ rep sym, (rep, sym) ∈ pairs → P rep) →
  noRotation all ms →
  optRel (agree (λ k, P k ∨ k ∈ pairs.*2))
    (foldOption (updatePair ty axis) pairs ms)
    (foldOption (updatePair ty axis) pairs ms').
Proof.
  induction pairs as [|[repName symName] pairs IH]; intros P ms ms' Hsub Ha HP Hno.
  - rewrite !foldOption_nil. simpl. eapply agree_weaken; [|exact Ha].
    simpl. by intros k [?|Hk%elem_of_nil].
  - rewrite !foldOption_cons.
    assert (Hin : (repName, symName) ∈ all)
      by (apply Hsub; by apply elem_of_cons; left).
    assert (Hno1 : ∀ r y, ms !! repName = Some r → ms !! symName = Some y →
                          needsRotation r y = false)
      by (intros r y; by apply Hno).
    pose proof (updatePair_related P ty axis ms ms' repName symName Ha
                  (HP _ _ (list_elem_of_here _ _)) Hno1) as H1.
    destruct (updatePair ty axis ms (repName, symName)) as [ms1|] eqn:E1,
             (updatePair ty axis ms' (repName, symName)) as [ms1'|] eqn:E1';
      try done.
    cbn [optRel] in H1. cbn [mbind option_bind].
    apply updatePair_evolves in E1; [|exact Hno1].
    eapply optRel_impl; [apply (IH (λ k, P k ∨ k = symName) ms1 ms1')|].
    + intros pair Hpair. apply Hsub. by apply elem_of_cons; right.
    + exact H1.
    + intros rep sym Hrs. left. eapply HP. apply elem_of_cons; right. exact Hrs.
    + by eapply noRotation_agree.
    + intros b b'. apply agree_weaken. intros k. rewrite fmap_cons, elem_of_cons.
      simpl. tauto.
Qed.

(** *** The self-symmetric modules *)

Lemma updateSelfSymmetric_evolves ty axis (ms ms' : gmap string ModuleT) name :
  updateSelfSymmetric ty axis ms name = Some ms' →
  agree (λ k, k ≠ name) ms ms'.
Proof.
  unfold updateSelfSymmetric. destruct (ms !! name) as [m|] eqn:E; [|done].
  simpl. intros [= <-]. intros k. destruct (decide (k = name)) as [->|Hne].
  - rewrite E. destruct ty; rewrite lookup_insert_eq; by split.
  - destruct ty; rewrite lookup_insert_ne by done;
      (destruct (ms !! k); [by split|done]).
Qed.

Lemma updateSelfSymmetric_related P ty axis (ms ms' : gmap string ModuleT) name :
  agree P ms ms' → P name →
  optRel (agree P) (updateSelfSymmetric ty axis ms name)
    (updateSelfSymmetric ty axis ms' name).
Proof.
  intros Ha HP. unfold updateSelfSymmetric.
  destruct (agree_cases _ _ _ name Ha)
    as [[-> ->]|(m & m' & -> & -> & Hd & Hp)]; [done|].
  simpl. rewrite <- (axisExtent_dimsEq ty m m' Hd).
  destruct (Hp HP) as [Hx Hy].
  destruct ty; (eapply agree_weaken; [|apply agree_insert; [exact Ha| |]];
                [simpl; tauto|by destruct Hd|by split]).
Qed.

Lemma updateSelfSymmetrics_evolves ty axis names (ms ms' : gmap string ModuleT) :
  foldOption (updateSelfSymmetric ty axis) names ms = Some ms' →
  agree (λ k, k ∉ names) ms ms'.
Proof.
  intros Hf.
  eapply (foldOption_invariant_in _ (λ b, agree (λ k, k ∉ names) ms b))
    in Hf; [exact Hf| |apply agree_refl].
  intros b name b' Hin Hb Hstep. apply updateSelfSymmetric_evolves in Hstep.
  eapply agree_weaken; [|exact (agree_trans _ _ _ _ _ Hb Hstep)].
  intros k Hk. simpl. split; [done|]. by intros ->.
Qed.

(** *** [updateSymmetricModulePositions] *)

Lemma calculateSymmetryAxisPosition_fields s s1 :
  calculateSymmetryAxisPosition s = Some s1 →
  sameGroup s s1 ∧ modules s1 = modules s ∧ contourHead s1 = contourHead s.
Proof.
  intros H. apply calculateSymmetryAxisPosition_withAxis in H as [a ->].
  by repeat split.
Qed.

(** In a group without pairs and without self-symmetric modules the axis is
    left as it is. *)
Lemma calculateSymmetryAxisPosition_no_symmetry s s1 :
  repToPairMap s = [] → selfSymmetricModules s = [] →
  calculateSymmetryAxisPosition s = Some s1 →
  symmetryAxisPosition s1 = symmetryAxisPosition s.
Proof.
  unfold calculateSymmetryAxisPosition. intros -> ->. by intros [= <-].
Qed.

Lemma updateSymmetricModulePositions_evolves s s' :
  noRotation (repToPairMap s) (modules s) →
  updateSymmetricModulePositions s = Some s' →
  sameGroup s s' ∧
  agree (λ k, k ∉ (repToPairMap s).*2 ++ selfSymmetricModules s)
    (modules s) (modules s') ∧
  (repToPairMap s = [] → selfSymmetricModules s = [] →
   symmetryAxisPosition s' = symmetryAxisPosition s).
Proof.
  intros Hno. unfold updateSymmetricModulePositions.
  destruct (if Qltb (symmetryAxisPosition s) 0
            then calculateSymmetryAxisPosition s else Some s)
    as [s1|] eqn:E1; [|done].
  assert (H1 : sameGroup s s1 ∧ modules s1 = modules s ∧
               (repToPairMap s = [] → selfSymmetricModules s = [] →
                symmetryAxisPosition s1 = symmetryAxisPosition s)).
  { destruct (Qltb _ _).
    - destruct (calculateSymmetryAxisPosition_fields _ _ E1) as (? & ? & _).
      split; [done|]. split; [done|].
      intros. by apply calculateSymmetryAxisPosition_no_symmetry.
    - injection E1 as <-. split; [apply sameGroup_refl|done]. }
  destruct H1 as (Hg & Hms & Hax).
  pose proof Hg as (Hty & Hr & Hp & Hs & Hroot).
  cbn [mbind option_bind]. rewrite Hms, <- Hp, <- Hs.
  destruct (foldOption (updatePair _ _) _ _) as [ms1|] eqn:E2; [|done].
  cbn [mbind option_bind].
  destruct (foldOption (updateSelfSymmetric _ _) _ _) as [ms2|] eqn:E3; [|done].
  cbn [mbind option_bind]. intros [= <-].
  apply updatePairs_evolves in E2; [|done].
  apply updateSelfSymmetrics_evolves in E3.
  split; [by destruct Hg as (?&?&?&?&?); repeat split|]. split.
  - simpl. eapply agree_weaken; [|exact (agree_trans _ _ _ _ _ E2 E3)].
    intros k Hk. simpl. rewrite elem_of_app in Hk. tauto.
  - exact Hax.
Qed.

Lemma updateSymmetricModulePositions_related P s t :
  related P s t →
  symmetryAxisPosition s = symmetryAxisPosition t →
  (∀ rep sym, (rep, sym) ∈ repToPairMap s → P rep) →
  (∀ name, name ∈ representativeModules s → P name) →
  (∀ name, name ∈ selfSymmetricModules s → P name) →
  noRotation (repToPairMap s) (modules s) →
  optRel (λ s' t', related (λ k, P k ∨ k ∈ (repToPairMap s).*2) s' t' ∧
                   symmetryAxisPosition s' = symmetryAxisPosition t')
    (updateSymmetricModulePositions s) (updateSymmetricModulePositions t).
Proof.
  intros Hrel Hax Hpairs Hreps Hself Hno. unfold updateSymmetricModulePositions.
  rewrite <- Hax.
  assert (H1 : optRel (λ s1 t1, related P s1 t1 ∧
                 symmetryAxisPosition s1 = symmetryAxisPosition t1 ∧
                 sameGroup s s1 ∧ modules s1 = modules s)
            (if Qltb (symmetryAxisPosition s) 0
             then calculateSymmetryAxisPosition s else Some s)
            (if Qltb (symmetryAxisPosition s) 0
             then calculateSymmetryAxisPosition t else Some t)).
  { destruct (Qltb _ _).
    - pose proof (calculateSymmetryAxisPosition_related P s t Hrel Hpairs Hreps
                    (λ _ _, Hax)) as H.
      destruct (calculateSymmetryAxisPosition s) as [s1|] eqn:E,
               (calculateSymmetryAxisPosition t) as [t1|]; try done.
      simpl in *. destruct H as [? ?].
      destruct (calculateSymmetryAxisPosition_fields _ _ E) as (? & ? & _).
      done.
    - simpl. split; [done|]. split; [done|]. split; [apply sameGroup_refl|done]. }
  eapply optRel_bind; [exact H1|].
  intros s1 t1 ((Hg1 & Hc1 & Ha1) & Hax1 & Hgs & Hms).
  pose proof Hg1 as (Hty & Hr & Hp & Hs & Hroot).
  pose proof Hgs as (Hty' & Hr' & Hp' & Hs' & Hroot').
  rewrite <- Hax1, <- Hty, <- Hp, <- Hs, <- Hp', <- Hs'.
  eapply optRel_bind.
  - apply (updatePairs_related _ _ (repToPairMap s) (repToPairMap s) P);
      [done|exact Ha1|exact Hpairs|by rewrite Hms].
  - intros ms1 ms1' Hms1. eapply optRel_bind.
    + apply (optRel_foldOption
               (agree (λ k, P k ∨ k ∈ (repToPairMap s).*2))); [|exact Hms1].
      intros name b b' Hname Hb. apply updateSelfSymmetric_related; [done|].
      left. by apply Hself.
    + intros ms2 ms2' Hms2. simpl. split; [|done]. split; [|by split].
      by repeat split.
Qed.

End ProjectionRuns.

(** ** The packing loop ends *)

Section PackingTotal.
Variable getContourHeight : Contour → Z → Z.

Lemma agree_is_Some P (ms ms' : gmap string ModuleT) (k : string) :
  agree P ms ms' → is_Some (ms !! k) → is_Some (ms' !! k).
Proof.
  intros Ha [m Hm]. destruct (agree_cases _ _ _ k Ha) as [[E _]|(? & m' & _ & E & _)];
    [congruence|eauto].
Qed.

Lemma placeAt_total name x y s :
  is_Some (modules s !! name) → is_Some (placeAt name x y s).
Proof. intros [m Hm]. unfold placeAt. rewrite Hm. simpl. eauto. Qed.

Lemma queueCount_app q1 q2 : queueCount (q1 ++ q2) = (queueCount q1 + queueCount q2)%nat.
Proof. unfold queueCount. apply sum_list_with_app. Qed.

(** What processing a child pushes on the queue: nothing for a null child,
    the child itself otherwise. *)
Lemma pushed_child (l : BStarNode) (pushed : list (BStarNode * (Z * Z))) :
  (l = nullptr ∧ pushed = []) ∨ (l ≠ nullptr ∧ ∃ xy, pushed = [(l, xy)]) →
  (∀ entry, entry ∈ pushed → entry.1 ≠ nullptr) ∧
  (∀ entry k, entry ∈ pushed → k ∈ preorder entry.1 → k ∈ preorder l) ∧
  queueCount pushed = nodeCount l.
Proof.
  intros [[-> ->]|[Hl [xy ->]]].
  - split; [|split]; [| |done].
    + intros entry He. by apply elem_of_nil in He.
    + intros entry k He. by apply elem_of_nil in He.
  - split; [|split].
    + intros entry He. by apply list_elem_of_singleton in He as ->.
    + intros entry k He. by apply list_elem_of_singleton in He as ->.
    + unfold queueCount. simpl. lia.
Qed.

Lemma placeLeftChild_total name x y l s :
  is_Some (modules s !! name) →
  (∀ k, k ∈ preorder l → is_Some (modules s !! k)) →
  ∃ s' pushed,
    placeLeftChild getContourHeight name x y l s = Some (s', pushed) ∧
    ((l = nullptr ∧ pushed = []) ∨ (l ≠ nullptr ∧ ∃ xy, pushed = [(l, xy)])).
Proof.
  intros [m Hm] Hl. unfold placeLeftChild. destruct l as [|lname l1 l2].
  - exists s, []. split; [done|]. by left.
  - rewrite Hm. simpl. destruct (Hl lname (list_elem_of_here _ _)) as [lm Hlm].
    rewrite Hlm. simpl.
    destruct (placeAt_total lname (x + getWidth m)
                (leftChildY getContourHeight (contourHead s) (x + getWidth m) y
                   (getWidth lm) (getHeight lm)) s) as [s' Hs']; [eauto|].
    rewrite Hs'. simpl. eexists _, _. split; [done|]. right. split; [done|]. eauto.
Qed.

Lemma placeRightChild_total name x y r s :
  is_Some (modules s !! name) →
  (∀ k, k ∈ preorder r → is_Some (modules s !! k)) →
  ∃ s' pushed,
    placeRightChild name x y r s = Some (s', pushed) ∧
    ((r = nullptr ∧ pushed = []) ∨ (r ≠ nullptr ∧ ∃ xy, pushed = [(r, xy)])).
Proof.
  intros [m Hm] Hr. unfold placeRightChild. destruct r as [|rname r1 r2].
  - exists s, []. split; [done|]. by left.
  - rewrite Hm. simpl.
    destruct (placeAt_total rname x (y + getHeight m) s) as [s' Hs'].
    { apply Hr, list_elem_of_here. }
    rewrite Hs'. simpl. eexists _, _. split; [done|]. right. split; [done|]. eauto.
Qed.

(** With every name of the queued subtrees in the module table, a fuel of
    at least the number of queued nodes is enough for the loop to end. *)
Lemma bfsLoop_total fuel : ∀ queue s,
  (∀ entry, entry ∈ queue → entry.1 ≠ nullptr) →
  (∀ entry k, entry ∈ queue → k ∈ preorder entry.1 → is_Some (modules s !! k)) →
  (queueCount queue ≤ fuel)%nat →
  is_Some (bfsLoop getContourHeight fuel queue s).
Proof.
  induction fuel as [|fuel IH]; intros [|[node [x y]] queue] s Hnn Hin Hcount;
    simpl; eauto.
  - exfalso. specialize (Hnn _ (list_elem_of_here _ _)). simpl in Hnn.
    destruct node; [done|]. unfold queueCount in Hcount. simpl in Hcount. lia.
  - destruct node as [|name l r];
      [by specialize (Hnn _ (list_elem_of_here _ _))|].
    assert (Hname : is_Some (modules s !! name)).
    { apply (Hin _ _ (list_elem_of_here _ _)). apply list_elem_of_here. }
    assert (Hl : ∀ k, k ∈ preorder l → is_Some (modules s !! k)).
    { intros k Hk. apply (Hin _ _ (list_elem_of_here _ _)). simpl.
      apply list_elem_of_further, elem_of_app. by left. }
    assert (Hr : ∀ k, k ∈ preorder r → is_Some (modules s !! k)).
    { intros k Hk. apply (Hin _ _ (list_elem_of_here _ _)). simpl.
      apply list_elem_of_further, elem_of_app. by right. }
    destruct (placeLeftChild_total name x y l s Hname Hl) as (s1 & q1 & E1 & Hq1).
    rewrite E1. cbn [mbind option_bind].
    pose proof (placeLeftChild_evolves _ _ _ _ _ _ _ _ E1) as [(_ & _ & Ha1) _].
    destruct (placeRightChild_total name x y r s1) as (s2 & q2 & E2 & Hq2).
    { by eapply agree_is_Some. }
    { intros k Hk. eapply agree_is_Some; [exact Ha1|]. by apply Hr. }
    rewrite E2. cbn [mbind option_bind].
    pose proof (placeRightChild_evolves _ _ _ _ _ _ _ E2) as [(_ & _ & Ha2) _].
    assert (Hkeep : ∀ k, is_Some (modules s !! k) → is_Some (modules s2 !! k)).
    { intros k Hk. by eapply agree_is_Some, agree_is_Some. }
    apply pushed_child in Hq1 as (Hnn1 & Hpre1 & Hc1).
    apply pushed_child in Hq2 as (Hnn2 & Hpre2 & Hc2).
    apply IH.
    + intros entry. rewrite !elem_of_app. intros [He|[He|He]]; [|by auto..].
      apply Hnn. by apply elem_of_cons; right.
    + intros entry k. rewrite !elem_of_app. intros [He|[He|He]] Hk; apply Hkeep.
      * eapply Hin; [|exact Hk]. by apply elem_of_cons; right.
      * eapply Hl, Hpre1; eauto.
      * eapply Hr, Hpre2; eauto.
    + rewrite !queueCount_app, Hc1, Hc2.
      unfold queueCount in Hcount |- *. simpl in Hcount. lia.
Qed.

(** The placement of the nodes returns as soon as every name of the tree
    is in the module table: the fuel [nodeCount (root s)] is enough. *)
Lemma placeNodes_total s :
  (∀ k, k ∈ preorder (root s) → is_Some (modules s !! k)) →
  is_Some (placeNodes getContourHeight s).
Proof.
  intros Hin. unfold placeNodes. cbv zeta.
  change (root (withContour clearContour s)) with (root s).
  destruct (root s) as [|name l r] eqn:Er; [eauto|].
  destruct (placeAt_total name 0 0 (withContour clearContour s)) as [s0 Hs0].
  { apply Hin, list_elem_of_here. }
  rewrite Hs0. cbn [mbind option_bind].
  pose proof (placeAt_evolves _ _ _ _ _ Hs0) as (_ & _ & Ha).
  apply bfsLoop_total.
  - intros entry He. apply list_elem_of_singleton in He as ->. done.
  - intros entry k He Hk. apply list_elem_of_singleton in He as ->.
    apply (agree_is_Some _ _ _ k Ha). by apply Hin.
  - unfold queueCount. simpl. lia.
Qed.

End PackingTotal.

(** ** [pack] twice *)

Section Idempotence.
Variable getContourHeight : Contour → Z → Z.

Lemma centerX_agree m m' : dimsEq m m' → posEq m m' → centerX m = centerX m'.
Proof. intros [Hw _] [Hx _]. unfold centerX. by rewrite Hw, Hx. Qed.

Lemma centerY_agree m m' : dimsEq m m' → posEq m m' → centerY m = centerY m'.
Proof. intros [_ Hh] [_ Hy]. unfold centerY. by rewrite Hh, Hy. Qed.

Lemma validateSymmetry_agree_true s t :
  sameGroup s t → agree (λ _, True) (modules s) (modules t) →
  symmetryAxisPosition s = symmetryAxisPosition t →
  validateSymmetry s = true → validateSymmetry t = true.
Proof.
  intros (Hty & _ & Hp & Hs & _) Ha Hax Hv.
  apply validateSymmetry_spec in Hv as (Hneg & Hpairs & Hself).
  apply validateSymmetry_spec. rewrite <- Hty, <- Hp, <- Hs, <- Hax.
  split; [|split].
  - intros name m' Hm'.
    destruct (agree_cases _ _ _ name Ha) as [[_ E]|(m & m1 & Em & Em1 & _ & Hpos)];
      [congruence|].
    assert (m1 = m') as -> by congruence.
    destruct (Hpos I) as [Hx Hy]. destruct (Hneg _ _ Em) as [? ?].
    unfold nonNegative. by rewrite <- Hx, <- Hy.
  - intros repName symName r' y' Hin Hr' Hy'.
    destruct (agree_cases _ _ _ repName Ha) as [[_ E]|(r & r1 & Er & Er1 & Hdr & Hpr)];
      [congruence|].
    destruct (agree_cases _ _ _ symName Ha) as [[_ E]|(y & y1 & Ey & Ey1 & Hdy & Hpy)];
      [congruence|].
    assert (r1 = r') as -> by congruence. assert (y1 = y') as -> by congruence.
    specialize (Hpairs _ _ _ _ Hin Er Ey). unfold pairWithinTolerance in *.
    by rewrite <- (centerX_agree r r' Hdr (Hpr I)), <- (centerY_agree r r' Hdr (Hpr I)),
               <- (centerX_agree y y' Hdy (Hpy I)), <- (centerY_agree y y' Hdy (Hpy I)).
  - intros name m' Hin Hm'.
    destruct (agree_cases _ _ _ name Ha) as [[_ E]|(m & m1 & Em & Em1 & Hd & Hpos)];
      [congruence|].
    assert (m1 = m') as -> by congruence.
    specialize (Hself _ _ Hin Em). unfold selfWithinTolerance in *.
    by rewrite <- (centerX_agree m m' Hd (Hpos I)), <- (centerY_agree m m' Hd (Hpos I)).
Qed.

Lemma validateSymmetry_agree s t :
  sameGroup s t → agree (λ _, True) (modules s) (modules t) →
  symmetryAxisPosition s = symmetryAxisPosition t →
  validateSymmetry s = validateSymmetry t.
Proof.
  intros Hg Ha Hax. apply eq_true_iff_eq. split.
  - by apply validateSymmetry_agree_true.
  - apply validateSymmetry_agree_true; [by apply sameGroup_sym|by apply agree_sym|done].
Qed.

(** One run of [pack] writes the modules of the tree, the representatives,
    the partners and the self-symmetric modules, and nothing else. *)
Lemma pack_evolves s s' b :
  noRotation (repToPairMap s) (modules s) →
  pack getContourHeight s = Some (b, s') →
  sameGroup s s' ∧
  agree (λ k, k ∉ (preorder (root s) ++ representativeModules s)
                  ++ (repToPairMap s).*2 ++ selfSymmetricModules s)
    (modules s) (modules s') ∧
  (repToPairMap s = [] → selfSymmetricModules s = [] →
   symmetryAxisPosition s' = symmetryAxisPosition s).
Proof.
  intros Hno. unfold pack.
  set (s0 := withTraversals (preorder (root s)) (inorder (root s)) s).
  destruct (packBStarTree getContourHeight s0) as [s1|] eqn:E1; [|done].
  cbn [mbind option_bind].
  destruct (calculateSymmetryAxisPosition s1) as [s2|] eqn:E2; [|done].
  cbn [mbind option_bind].
  destruct (updateSymmetricModulePositions s2) as [s3|] eqn:E3; [|done].
  cbn [mbind option_bind]. intros [= <- <-].
  apply packBStarTree_evolves in E1 as (Hg1 & Hax1 & Ha1).
  change (root s0) with (root s) in Ha1.
  change (representativeModules s0) with (representativeModules s) in Ha1.
  change (modules s0) with (modules s) in Ha1.
  change (symmetryAxisPosition s0) with (symmetryAxisPosition s) in Hax1.
  assert (Hg01 : sameGroup s s1) by exact Hg1.
  pose proof (calculateSymmetryAxisPosition_fields _ _ E2) as (Hg2 & Hms2 & _).
  pose proof Hg01 as (Hty1 & Hr1 & Hp1 & Hs1 & Hroot1).
  pose proof Hg2 as (Hty2 & Hr2 & Hp2 & Hs2 & Hroot2).
  apply updateSymmetricModulePositions_evolves in E3 as (Hg3 & Ha3 & Hax3).
  2: { rewrite <- Hp2, <- Hp1, Hms2. by eapply noRotation_agree. }
  split; [exact (sameGroup_trans _ _ _ (sameGroup_trans _ _ _ Hg01 Hg2) Hg3)|].
  split.
  - rewrite Hms2, <- Hp2, <- Hp1, <- Hs2, <- Hs1 in Ha3.
    eapply agree_weaken; [|exact (agree_trans _ _ _ _ _ Ha1 Ha3)].
    intros k Hk. simpl. rewrite elem_of_app in Hk. tauto.
  - intros Hnp Hns.
    assert (Hnp1 : repToPairMap s1 = []) by congruence.
    assert (Hns1 : selfSymmetricModules s1 = []) by congruence.
    assert (Hnp2 : repToPairMap s2 = []) by congruence.
    assert (Hns2 : selfSymmetricModules s2 = []) by congruence.
    rewrite (Hax3 Hnp2 Hns2).
    rewrite (calculateSymmetryAxisPosition_no_symmetry _ _ Hnp1 Hns1 E2).
    done.
Qed.

(** Two runs of [pack] from states that hold the same group, the same tree
    and modules of the same dimensions end with the same positions for the
    modules of the tree and the partners, and with the same axis. *)
Lemma pack_related s t :
  sameGroup s t → agree (λ _, False) (modules s) (modules t) →
  wellFormedGroup s → noRotation (repToPairMap s) (modules s) →
  (repToPairMap s = [] → selfSymmetricModules s = [] →
   symmetryAxisPosition s = symmetryAxisPosition t) →
  optRel (λ r r', related (λ k, k ∈ preorder (root s) ∨ k ∈ (repToPairMap s).*2)
                    r.2 r'.2 ∧
                  symmetryAxisPosition r.2 = symmetryAxisPosition r'.2)
    (pack getContourHeight s) (pack getContourHeight t).
Proof.
  intros Hg Ha (Hreps & Hkeys & Hself) Hno Hax. unfold pack.
  pose proof Hg as (Hty & Hr & Hp & Hs & Hroot).
  rewrite <- Hroot.
  set (s0 := withTraversals (preorder (root s)) (inorder (root s)) s).
  set (t0 := withTraversals (preorder (root s)) (inorder (root s)) t).
  assert (Hg0 : sameGroup s0 t0) by exact Hg.
  pose proof (packBStarTree_related getContourHeight (λ _, False) s0 t0 Hg0 Ha Hreps)
    as H1.
  change (root s0) with (root s) in H1.
  destruct (packBStarTree getContourHeight s0) as [s1|] eqn:E1,
           (packBStarTree getContourHeight t0) as [t1|] eqn:E1'; try done.
  cbn [optRel] in H1. cbn [mbind option_bind].
  apply packBStarTree_evolves in E1 as (Hgs1 & Haxs1 & Has1).
  apply packBStarTree_evolves in E1' as (Hgt1 & Haxt1 & _).
  pose proof Hgs1 as (Hty1 & Hr1 & Hp1 & Hs1 & Hroot1).
  change (repToPairMap s0) with (repToPairMap s) in Hp1.
  change (selfSymmetricModules s0) with (selfSymmetricModules s) in Hs1.
  change (representativeModules s0) with (representativeModules s) in Hr1.
  change (symmetryAxisPosition s0) with (symmetryAxisPosition s) in Haxs1.
  change (symmetryAxisPosition t0) with (symmetryAxisPosition t) in Haxt1.
  change (modules s0) with (modules s) in Has1.
  assert (Hin1 : ∀ name, name ∈ representativeModules s1 →
                         False ∨ name ∈ preorder (root s)).
  { intros name Hname. right. apply Hreps. by rewrite Hr1. }
  pose proof (calculateSymmetryAxisPosition_related _ s1 t1 H1) as H2.
  destruct (calculateSymmetryAxisPosition s1) as [s2|] eqn:E2.
  2: { destruct (calculateSymmetryAxisPosition t1); [|done].
       exfalso. apply H2; [| |].
       - intros rep sym Hin. apply Hin1. rewrite <- Hr1. eapply Hkeys.
         rewrite Hp1. exact Hin.
       - exact Hin1.
       - intros Hnp Hns. rewrite <- Haxs1, <- Haxt1. apply Hax; congruence. }
  destruct (calculateSymmetryAxisPosition t1) as [t2|] eqn:E2'.
  2: { exfalso. apply H2; [| |].
       - intros rep sym Hin. apply Hin1. rewrite <- Hr1. eapply Hkeys.
         rewrite Hp1. exact Hin.
       - exact Hin1.
       - intros Hnp Hns. rewrite <- Haxs1, <- Haxt1. apply Hax; congruence. }
  cbn [optRel] in H2. cbn [mbind option_bind].
  destruct H2 as [H2 Hax2].
  { intros rep sym Hin. apply Hin1. rewrite <- Hr1. eapply Hkeys.
    rewrite Hp1. exact Hin. }
  { exact Hin1. }
  { intros Hnp Hns. rewrite <- Haxs1, <- Haxt1. apply Hax; congruence. }
  pose proof (calculateSymmetryAxisPosition_fields _ _ E2) as (Hgs2 & Hms2 & _).
  pose proof Hgs2 as (Hty2 & Hr2 & Hp2 & Hs2 & Hroot2).
  eapply optRel_bind.
  - apply (updateSymmetricModulePositions_related _ s2 t2 H2 Hax2).
    + intros rep sym Hin. apply Hin1. rewrite <- Hr1. eapply Hkeys.
      rewrite Hp1, Hp2. exact Hin.
    + intros name Hname. apply Hin1. by rewrite Hr2.
    + intros name Hname. apply Hin1. rewrite <- Hr1. apply Hself.
      by rewrite Hs1, Hs2.
    + rewrite <- Hp2, <- Hp1, Hms2. by eapply noRotation_agree.
  - intros s3 t3 [H3 Hax3]. simpl. split; [|done].
    eapply related_weaken; [|exact H3]. simpl.
    rewrite <- Hp2, <- Hp1. tauto.
Qed.

(** On a well-formed engine state in which no pair partner has to be
    rotated, a second [pack()], with no mutation in between, returns,
    computes the same axis, yields the same boolean result, and leaves
    every module at the position it had after the first call. *)
Lemma second_pack_without_rotation (s s1 : ASFBStarTree) (b1 : bool) :
  wellFormedGroup s →
  noRotation (repToPairMap s) (modules s) →
  pack getContourHeight s = Some (b1, s1) →
  ∃ b2 s2,
    pack getContourHeight s1 = Some (b2, s2) ∧
    symmetryAxisPosition s2 = symmetryAxisPosition s1 ∧
    b2 = b1 ∧
    ∀ name module1,
      modules s1 !! name = Some module1 →
      ∃ module2, modules s2 !! name = Some module2 ∧
                 getX module2 = getX module1 ∧ getY module2 = getY module1.
Proof.
  intros Hwf Hno Hpack.
  destruct (pack_evolves s s1 b1 Hno Hpack) as (Hg & Ha & Hax).
  pose proof Hg as (Hty & Hr & Hp & Hs & Hroot).
  assert (Hrel := pack_related s s1 Hg
                    (agree_weaken _ _ _ _ (λ _ (H : False), False_ind _ H) Ha)
                    Hwf Hno (λ Hnp Hns, eq_sym (Hax Hnp Hns))).
  rewrite Hpack in Hrel.
  destruct (pack getContourHeight s1) as [[b2 s2]|] eqn:Hpack2; [|done].
  cbn [optRel snd] in Hrel. destruct Hrel as [(Hg12 & _ & Ha12) Hax12].
  assert (Hno1 : noRotation (repToPairMap s1) (modules s1)).
  { rewrite <- Hp. by eapply noRotation_agree. }
  destruct (pack_evolves s1 s2 b2 Hno1 Hpack2) as (_ & Hframe & _).
  rewrite <- Hroot, <- Hr, <- Hp, <- Hs in Hframe.
  assert (Hall : agree (λ _, True) (modules s1) (modules s2)).
  { intros k. specialize (Ha12 k). specialize (Hframe k).
    destruct (modules s1 !! k) as [m1|], (modules s2 !! k) as [m2|]; try done.
    destruct Ha12 as [Hd Hpos], Hframe as [_ Hfr]. split; [done|]. intros _.
    destruct (decide (k ∈ preorder (root s) ++ (repToPairMap s).*2)) as [Hin|Hout].
    - apply Hpos. by apply elem_of_app.
    - apply Hfr. destruct Hwf as (Hreps & Hkeys & Hself).
      rewrite !elem_of_app. rewrite elem_of_app in Hout.
      intros [[?|?%Hreps]|[?|?%Hself%Hreps]]; tauto. }
  exists b2, s2. split; [done|]. split; [done|]. split.
  - apply pack_result in Hpack as ->. apply pack_result in Hpack2 as ->.
    symmetry. by apply validateSymmetry_agree.
  - intros name m1 Hm1.
    destruct (agree_cases _ _ _ name Hall) as [[E _]|(m & m2 & Em & Em2 & _ & Hpos)];
      [congruence|].
    assert (m = m1) as -> by congruence.
    exists m2. split; [done|]. destruct (Hpos I). by split.
Qed.

End Idempotence.

(** C9, as stated, fails on [exampleRotation]: the first [pack()] computes
    the axis from the partner's width before it rotates the partner (axis
    3.75, e' at x = 7); the second one sees the rotated partner (axis 2, e'
    at x = 3).  Both calls return true. *)
Lemma pack_twice_moves_rotated_partner :
  ∃ s1 s2 m1 m2,
    pack heightAt exampleRotation = Some (true, s1) ∧
    pack heightAt s1 = Some (true, s2) ∧
    modules s1 !! "e'" = Some m1 ∧ modules s2 !! "e'" = Some m2 ∧
    getX m1 = 7 ∧ getX m2 = 3.
Proof.
  eexists _, _, _, _. split; [vm_compute; reflexivity|].
  split; [vm_compute; reflexivity|]. split; [vm_compute; reflexivity|].
  split; [vm_compute; reflexivity|]. split; reflexivity.
Qed.

(** ** The shape of the contour after an insertion *)

Section ContourShape.

#[local] Instance cp_lt_trans' : Transitive cp_lt.
Proof. intros p q r. unfold cp_lt. lia. Qed.

Lemma skipLeft_elem x c pre curr :
  skipLeft x c = (pre, curr) → StronglySorted cp_lt c →
  c = pre ++ curr ∧
  (∀ p, p ∈ pre ↔ p ∈ c ∧ cp_x p < x) ∧
  (∀ p, p ∈ curr ↔ p ∈ c ∧ x ≤ cp_x p).
Proof.
  intros Hsk Hs. destruct (skipLeft_spec _ _ _ _ Hsk) as (-> & Hpre & Hhd).
  apply StronglySorted_app in Hs as (_ & _ & Hscurr).
  assert (Hcurr : Forall (λ p, x ≤ cp_x p) curr).
  { destruct curr as [|q tl]; [constructor|].
    apply StronglySorted_inv in Hscurr as [_ Hq]. constructor; [done|].
    eapply Forall_impl; [exact Hq|]. unfold cp_lt. simpl. intros; lia. }
  rewrite Forall_forall in Hpre, Hcurr.
  split; [done|]. split; intros p; rewrite elem_of_app; split.
  - intros Hp. split; [by left|by apply Hpre].
  - intros [[Hp|Hp] Hlt]; [done|]. specialize (Hcurr p Hp). lia.
  - intros Hp. split; [by right|by apply Hcurr].
  - intros [[Hp|Hp] Hge]; [|done]. specialize (Hpre p Hp). lia.
Qed.

Lemma dropCovered_elem right top c kept curr :
  dropCovered right top c = (kept, curr) → StronglySorted cp_lt c →
  (∀ p, p ∈ kept ↔ p ∈ c ∧ cp_x p < right ∧ top < cp_height p) ∧
  (∀ p, p ∈ curr ↔ p ∈ c ∧ right ≤ cp_x p).
Proof.
  revert kept curr. induction c as [|q c IH]; intros kept curr; simpl.
  - intros [= <- <-] _. split; intros p; rewrite !elem_of_nil; tauto.
  - intros Hd Hs. apply StronglySorted_inv in Hs as [Hs Hq].
    rewrite Forall_forall in Hq. unfold cp_lt in Hq.
    destruct (Z.ltb_spec (cp_x q) right) as [Hlt|Hge].
    + destruct (dropCovered right top c) as [kept' curr'] eqn:E.
      destruct (IH _ _ eq_refl Hs) as [Hk Hc].
      destruct (Z.leb_spec (cp_height q) top) as [Hle|Hgt];
        injection Hd as <- <-; split; intros p;
        rewrite ?elem_of_cons, ?Hk, ?Hc.
      * split; [tauto|]. intros [[->|Hp] ?]; [lia|tauto].
      * split; [tauto|]. intros [[->|Hp] ?]; [lia|tauto].
      * split; [|tauto]. intros [->|?]; [|tauto]. split; [by left|lia].
      * split; [tauto|]. intros [[->|Hp] ?]; [lia|tauto].
    + injection Hd as <- <-. split; intros p; rewrite ?elem_of_cons, ?elem_of_nil.
      * split; [tauto|]. intros [[->|Hp] [? ?]]; [lia|].
        specialize (Hq p Hp). lia.
      * split; [|tauto]. intros [->|Hp]; [split; [by left|lia]|].
        split; [by right|]. specialize (Hq p Hp). lia.
Qed.

Lemma prevHeight_snoc pre p : prevHeight (pre ++ [p]) = cp_height p.
Proof. unfold prevHeight. by rewrite last_snoc. Qed.

(** The contour after an insertion on a non-empty, sorted contour: the
    points left of the rectangle, the point at its left edge, the higher
    points it does not cover, the point at its right edge, the points right
    of it. *)
(** In the range of [int] the two edges are the exact sums. *)
Lemma updateContour_in_range x y width height c :
  INT_MIN ≤ x + width ≤ INT_MAX → INT_MIN ≤ y + height ≤ INT_MAX →
  updateContour x y width height c
  = match c with
    | [] => [mkContourPoint x (y + height); mkContourPoint (x + width) 0]
    | _ =>
        let '(pre, curr) := skipLeft x c in
        let '(pre1, curr1) := linkLeftEdge x (y + height) pre curr in
        let '(kept, curr2) := dropCovered (x + width) (y + height) curr1 in
        linkRightEdge (x + width) (pre1 ++ kept) curr2
    end.
Proof.
  intros Hr Ht. unfold updateContour. by rewrite !wrapInt_in_range.
Qed.

Lemma updateContour_shape x y width height c :
  0 < width →
  INT_MIN ≤ x + width ≤ INT_MAX → INT_MIN ≤ y + height ≤ INT_MAX →
  StronglySorted cp_lt c → c ≠ [] →
  ∃ pre L kept R post,
    updateContour x y width height c = pre ++ L :: kept ++ R :: post ∧
    cp_x L = x ∧ y + height ≤ cp_height L ∧
    cp_x R = x + width ∧ prevHeight (pre ++ L :: kept) ≤ cp_height R ∧
    (∀ p, p ∈ pre ↔ p ∈ c ∧ cp_x p < x) ∧
    (∀ p, p ∈ kept ↔
          p ∈ c ∧ x < cp_x p < x + width ∧ y + height < cp_height p) ∧
    (∀ p, p ∈ post ↔ p ∈ c ∧ x + width < cp_x p).
Proof.
  intros Hw Hright Htop Hs Hne. rewrite updateContour_in_range by done.
  destruct c as [|p0 c0]; [done|]. clear Hne.
  remember (p0 :: c0) as c eqn:Ec. clear Ec p0 c0.
  destruct (skipLeft x c) as [pre curr] eqn:Esk.
  destruct (skipLeft_elem _ _ _ _ Esk Hs) as (Hc & Hpre & Hcurr).
  assert (Hscurr : StronglySorted cp_lt curr).
  { rewrite Hc in Hs. by apply StronglySorted_app in Hs as (_ & _ & ?). }
  (* the left edge *)
  assert (∃ L curr1,
            linkLeftEdge x (y + height) pre curr = (pre ++ [L], curr1) ∧
            cp_x L = x ∧ y + height ≤ cp_height L ∧
            StronglySorted cp_lt curr1 ∧
            ∀ p, p ∈ curr1 ↔ p ∈ c ∧ x < cp_x p)
    as (L & curr1 & -> & HLx & HLh & Hs1 & Hcurr1).
  { unfold linkLeftEdge. destruct curr as [|q tl].
    - eexists _, _. split; [done|]. split; [done|]. split; [simpl; lia|].
      split; [constructor|]. intros p. split; [by intros ?%elem_of_nil|].
      intros [Hp Hlt]. apply Hcurr. split; [done|lia].
    - assert (Hq : x ≤ cp_x q) by (apply Hcurr; left).
      pose proof Hscurr as Hsq. apply StronglySorted_inv in Hsq as [Hstl Hqtl].
      rewrite Forall_forall in Hqtl. unfold cp_lt in Hqtl.
      destruct (Z.gtb_spec (cp_x q) x) as [Hgt|Hle].
      + eexists _, _. split; [done|]. split; [done|]. split; [simpl; lia|].
        split; [done|]. intros p. split.
        * intros Hp. split; [by apply Hcurr|].
          apply elem_of_cons in Hp as [->|Hp]; [lia|]. specialize (Hqtl p Hp). lia.
        * intros [Hp Hlt]. apply Hcurr. split; [done|lia].
      + destruct (Z.eqb_spec (cp_x q) x) as [Heq|Hn]; [|lia].
        eexists _, _. split; [done|]. split; [done|]. split; [simpl; lia|].
        split; [done|]. intros p. split.
        * intros Hp. split; [apply Hcurr; by right|].
          specialize (Hqtl p Hp). lia.
        * intros [Hp Hlt].
          assert (p ∈ q :: tl) as [->|?]%elem_of_cons
            by (apply Hcurr; split; [done|lia]); [lia|done]. }
  destruct (dropCovered (x + width) (y + height) curr1) as [kept curr2] eqn:Ed.
  destruct (dropCovered_elem _ _ _ _ _ Ed Hs1) as [Hkept Hcurr2].
  destruct (dropCovered_spec _ _ _ _ _ Ed Hs1) as (_ & Hs2 & _ & _).
  (* the right edge *)
  assert (∃ R post,
            linkRightEdge (x + width) ((pre ++ [L]) ++ kept) curr2
            = ((pre ++ [L]) ++ kept) ++ R :: post ∧
            cp_x R = x + width ∧
            prevHeight ((pre ++ [L]) ++ kept) ≤ cp_height R ∧
            ∀ p, p ∈ post ↔ p ∈ c ∧ x + width < cp_x p)
    as (R & post & -> & HRx & HRh & Hpost).
  { assert (Hin2 : ∀ p, p ∈ c → x + width < cp_x p → p ∈ curr2).
    { intros p Hp Hlt. apply Hcurr2. split; [|lia]. apply Hcurr1.
      split; [done|lia]. }
    assert (Hof2 : ∀ p, p ∈ curr2 → p ∈ c).
    { intros p Hp. apply Hcurr2 in Hp as [Hp _]. by apply Hcurr1 in Hp as [? _]. }
    unfold linkRightEdge. destruct curr2 as [|q tl].
    - eexists _, _. split; [done|]. split; [done|]. split; [simpl; lia|].
      intros p. split; [by intros ?%elem_of_nil|]. intros [Hp Hlt]. auto.
    - assert (Hq : x + width ≤ cp_x q) by (apply Hcurr2; left).
      apply StronglySorted_inv in Hs2 as [_ Hqtl].
      rewrite Forall_forall in Hqtl. unfold cp_lt in Hqtl.
      destruct (Z.gtb_spec (cp_x q) (x + width)) as [Hgt|Hle].
      + eexists _, _. split; [done|]. split; [done|]. split; [simpl; lia|].
        intros p. split; [|intros [? ?]; auto].
        intros Hp. split; [auto|].
        apply elem_of_cons in Hp as [->|Hp]; [lia|]. specialize (Hqtl p Hp). lia.
      + destruct (Z.eqb_spec (cp_x q) (x + width)) as [Heq|Hn]; [|lia].
        eexists _, _. split; [done|]. split; [done|]. split; [simpl; lia|].
        intros p. split.
        * intros Hp. split; [apply Hof2; by right|]. specialize (Hqtl p Hp). lia.
        * intros [Hp Hlt].
          assert (p ∈ q :: tl) as [->|?]%elem_of_cons by auto; [lia|done]. }
  exists pre, L, kept, R, post.
  rewrite <- !app_assoc in *. simpl in *.
  split; [done|]. split; [done|]. split; [done|]. split; [done|].
  split; [done|]. split; [done|]. split; [|done].
  intros p. rewrite Hkept, Hcurr1. split.
  - intros ([Hp Hl] & Hr & Hh). auto.
  - intros (Hp & [Hl Hr] & Hh). auto.
Qed.

(** X1. Inserting a rectangle of positive width, whose right edge
    [x + width] and top [y + height] are [int]s, into a sorted contour
    leaves a point at its left edge that is at least as high as its top and
    a point at its right edge; every point strictly between the two edges
    is a point of the old contour that is strictly higher than the top. *)
Theorem updateContour_covers_rectangle (x y width height : Z) (c : Contour) :
  0 < width →
  INT_MIN ≤ x + width ≤ INT_MAX → INT_MIN ≤ y + height ≤ INT_MAX →
  Sorted cp_lt c →
  (∃ L, L ∈ updateContour x y width height c ∧
        cp_x L = x ∧ y + height ≤ cp_height L) ∧
  (∃ R, R ∈ updateContour x y width height c ∧ cp_x R = x + width) ∧
  (∀ p, p ∈ updateContour x y width height c →
        x < cp_x p < x + width → p ∈ c ∧ y + height < cp_height p).
Proof.
  intros Hw Hright Htop Hs. apply Sorted_StronglySorted in Hs; [|apply _].
  destruct c as [|p0 c0].
  { rewrite updateContour_in_range by done. split; [|split].
    - eexists. split; [apply list_elem_of_here|]. simpl. lia.
    - eexists. split; [apply list_elem_of_further, list_elem_of_here|]. done.
    - intros p Hp Hx. exfalso.
      apply elem_of_cons in Hp as [->|Hp]; [simpl in Hx; lia|].
      apply list_elem_of_singleton in Hp as ->. simpl in Hx. lia. }
  destruct (updateContour_shape x y width height (p0 :: c0) Hw Hright Htop Hs)
    as (pre & L & kept & R & post & -> & HLx & HLh & HRx & _ & Hpre & Hkept & Hpost);
    [done|].
  split; [|split].
  - exists L. split; [|done]. apply elem_of_app. right. apply list_elem_of_here.
  - exists R. split; [|done]. apply elem_of_app. right.
    apply list_elem_of_further, elem_of_app. right. apply list_elem_of_here.
  - intros p Hp Hx.
    apply elem_of_app in Hp as [Hp|Hp]; [apply Hpre in Hp; lia|].
    apply elem_of_cons in Hp as [->|Hp]; [lia|].
    apply elem_of_app in Hp as [Hp|Hp]; [apply Hkept in Hp; tauto|].
    apply elem_of_cons in Hp as [->|Hp]; [lia|]. apply Hpost in Hp. lia.
Qed.

Lemma updateContour_covers_rectangle_witness :
  (∃ L, L ∈ updateContour 1 0 3 2
              [mkContourPoint 0 1; mkContourPoint 2 5; mkContourPoint 6 0] ∧
        cp_x L = 1 ∧ 0 + 2 ≤ cp_height L) ∧
  (∃ R, R ∈ updateContour 1 0 3 2
              [mkContourPoint 0 1; mkContourPoint 2 5; mkContourPoint 6 0] ∧
        cp_x R = 1 + 3) ∧
  (∀ p, p ∈ updateContour 1 0 3 2
              [mkContourPoint 0 1; mkContourPoint 2 5; mkContourPoint 6 0] →
        1 < cp_x p < 1 + 3 →
        p ∈ [mkContourPoint 0 1; mkContourPoint 2 5; mkContourPoint 6 0] ∧
        0 + 2 < cp_height p).
Proof.
  apply (updateContour_covers_rectangle 1 0 3 2);
    [lia|unfold INT_MIN, INT_MAX; lia|unfold INT_MIN, INT_MAX; lia|].
  repeat constructor.
Defined.

(** X2. Inserting a rectangle whose right edge [x + width] and top
    [y + height] are [int]s changes the contour only over the span of the
    rectangle: a point strictly left of the left edge or strictly right of
    the right edge is in the new contour exactly when it was in the old
    one. *)
Theorem updateContour_frame (x y width height : Z) (c : Contour) (p : ContourPoint) :
  0 < width →
  INT_MIN ≤ x + width ≤ INT_MAX → INT_MIN ≤ y + height ≤ INT_MAX →
  Sorted cp_lt c →
  cp_x p < x ∨ x + width < cp_x p →
  (p ∈ updateContour x y width height c ↔ p ∈ c).
Proof.
  intros Hw Hright Htop Hs Hout. apply Sorted_StronglySorted in Hs; [|apply _].
  destruct c as [|p0 c0].
  { rewrite updateContour_in_range by done.
    rewrite !elem_of_cons, !elem_of_nil. split; [|tauto].
    intros [->|[->|[]]]; simpl in Hout; lia. }
  destruct (updateContour_shape x y width height (p0 :: c0) Hw Hright Htop Hs)
    as (pre & L & kept & R & post & -> & HLx & HLh & HRx & _ & Hpre & Hkept & Hpost);
    [done|].
  rewrite elem_of_app, elem_of_cons, elem_of_app, elem_of_cons.
  rewrite Hpre, Hkept, Hpost. split.
  - intros [?|[->|[?|[->|?]]]]; try tauto; lia.
  - intros Hp. destruct Hout; [left|right; right; right; right]; done.
Qed.

Lemma updateContour_frame_witness :
  mkContourPoint 6 0 ∈ updateContour 1 0 3 2
      [mkContourPoint 0 1; mkContourPoint 2 5; mkContourPoint 6 0]
  ↔ mkContourPoint 6 0 ∈
      [mkContourPoint 0 1; mkContourPoint 2 5; mkContourPoint 6 0].
Proof.
  apply (updateContour_frame 1 0 3 2);
    [lia|unfold INT_MIN, INT_MAX; lia|unfold INT_MIN, INT_MAX; lia| |simpl; lia].
  repeat constructor.
Defined.

(** X3. On a non-empty contour, and for a rectangle whose right edge
    [x + width] and top [y + height] are [int]s, the point that
    [updateContour] leaves at the right edge of the rectangle is never
    lower than the point before it: it
    carries the height of [prev], which is the left-edge point itself when
    no point is kept in between, and not the height the contour had right
    of the rectangle. *)
Theorem updateContour_right_edge_not_lower (x y width height : Z) (c : Contour) :
  0 < width →
  INT_MIN ≤ x + width ≤ INT_MAX → INT_MIN ≤ y + height ≤ INT_MAX →
  Sorted cp_lt c →
  c ≠ [] →
  ∃ before p q after,
    updateContour x y width height c = before ++ p :: q :: after ∧
    cp_x q = x + width ∧ cp_height p ≤ cp_height q.
Proof.
  intros Hw Hright Htop Hs Hne. apply Sorted_StronglySorted in Hs; [|apply _].
  destruct (updateContour_shape x y width height c Hw Hright Htop Hs Hne)
    as (pre & L & kept & R & post & -> & _ & _ & HRx & HRh & _).
  destruct (exists_last (l := pre ++ L :: kept)) as (before & p & Hl).
  { by destruct pre. }
  rewrite Hl, prevHeight_snoc in HRh.
  exists before, p, R, post. split; [|done].
  change (pre ++ L :: kept ++ R :: post) with (pre ++ (L :: kept) ++ R :: post).
  rewrite app_assoc, Hl, <- app_assoc. done.
Qed.

Lemma updateContour_right_edge_not_lower_witness :
  ∃ before p q after,
    updateContour 0 0 2 3 [mkContourPoint 0 1; mkContourPoint 5 0]
    = before ++ p :: q :: after ∧
    cp_x q = 0 + 2 ∧ cp_height p ≤ cp_height q.
Proof.
  apply (updateContour_right_edge_not_lower 0 0 2 3);
    [lia|unfold INT_MIN, INT_MAX; lia|unfold INT_MIN, INT_MAX; lia| |done].
  repeat constructor.
Defined.

End ContourShape.

(** ** What the projection achieves *)

Section Projection.

Local Arguments round : simpl never.

(** The partner after one iteration of the loop over the pairs. *)
Lemma updatePair_result ty axis ms repName symName ms' :
  repName ≠ symName →
  updatePair ty axis ms (repName, symName) = Some ms' →
  ∃ rm sm0 sm,
    ms !! repName = Some rm ∧ ms !! symName = Some sm0 ∧
    ms' !! symName = Some sm ∧
    (∀ k, k ≠ symName → ms' !! k = ms !! k) ∧
    projectedFrom ty axis rm sm0 sm.
Proof.
  unfold projectedFrom.
  intros Hne. assert (Hne' : symName ≠ repName) by done. unfold updatePair.
  destruct (ms !! repName) as [rm|] eqn:Er; [|done].
  destruct (ms !! symName) as [sm0|] eqn:Es; [|done].
  cbn [mbind option_bind].
  destruct (needsRotation rm sm0) eqn:En.
  - cbv zeta. rewrite (lookup_insert_ne _ _ _ _ Hne'), Er, lookup_insert_eq.
    cbn [mbind option_bind]. intros [= <-].
    exists rm, sm0. destruct ty; eexists;
      (split; [done|]); (split; [done|]);
      (split; [by rewrite lookup_insert_eq|]);
      (split; [intros k Hk; by rewrite !lookup_insert_ne|]).
      all: simpl; rewrite En; done.
  - cbv zeta. rewrite Er, Es. cbn [mbind option_bind].
    destruct ty.
    + rewrite (lookup_insert_ne _ _ _ _ Hne'), Er, lookup_insert_eq.
      cbn [mbind option_bind]. intros [= <-].
      exists rm, sm0. eexists.
      (split; [done|]); (split; [done|]);
      (split; [by rewrite lookup_insert_eq|]);
      (split; [intros k Hk; by rewrite !lookup_insert_ne|]); simpl; rewrite En; done.
    + rewrite (lookup_insert_ne _ _ _ _ Hne'), Er, lookup_insert_eq.
      cbn [mbind option_bind]. intros [= <-].
      exists rm, sm0. eexists.
      (split; [done|]); (split; [done|]);
      (split; [by rewrite lookup_insert_eq|]);
      (split; [intros k Hk; by rewrite !lookup_insert_ne|]); simpl; rewrite En; done.
Qed.


Lemma updatePair_other ty axis ms pair ms' :
  updatePair ty axis ms pair = Some ms' →
  ∀ k, k ≠ pair.2 → ms' !! k = ms !! k.
Proof.
  destruct pair as [repName symName]. unfold updatePair. cbn [snd].
  destruct (ms !! repName) as [rm|]; [|done].
  destruct (ms !! symName) as [sm0|]; [|done].
  cbn [mbind option_bind]. cbv zeta.
  set (ms1 := if needsRotation rm sm0 then _ else _).
  assert (H1 : ∀ k, k ≠ symName → ms1 !! k = ms !! k).
  { intros k Hk. unfold ms1. destruct (needsRotation rm sm0); [|done].
    by rewrite lookup_insert_ne. }
  destruct (ms1 !! repName) as [rm1|]; [|done].
  destruct (ms1 !! symName) as [sm1|]; [|done].
  cbn [mbind option_bind].
  set (ms2 := match ty with VERTICAL => _ | HORIZONTAL => _ end).
  assert (H2 : ∀ k, k ≠ symName → ms2 !! k = ms !! k).
  { intros k Hk. unfold ms2. destruct ty; rewrite lookup_insert_ne by done; auto. }
  destruct (needsRotation rm sm0); [intros [= <-]; exact H2|].
  destruct (ms2 !! repName) as [rm2|]; [|done].
  destruct (ms2 !! symName) as [sm2|]; [|done].
  cbn [mbind option_bind]. intros [= <-] k Hk.
  rewrite lookup_insert_ne by done. auto.
Qed.

Lemma updatePairs_other ty axis pairs ms ms' :
  foldOption (updatePair ty axis) pairs ms = Some ms' →
  ∀ k, k ∉ pairs.*2 → ms' !! k = ms !! k.
Proof.
  intros Hf k Hk.
  apply (foldOption_invariant_in (updatePair ty axis)
           (λ b, b !! k = ms !! k) pairs) with (b := ms); [|done|done].
  intros b pair b' Hin Hb Hstep.
  rewrite (updatePair_other _ _ _ _ _ Hstep); [done|].
  intros ->. apply Hk. apply list_elem_of_fmap. by exists pair.
Qed.

Lemma updateSelfSymmetrics_other ty axis names ms ms' :
  foldOption (updateSelfSymmetric ty axis) names ms = Some ms' →
  ∀ k, k ∉ names → ms' !! k = ms !! k.
Proof.
  intros Hf k Hk.
  apply (foldOption_invariant_in (updateSelfSymmetric ty axis)
           (λ b, b !! k = ms !! k) names) with (b := ms); [|done|done].
  intros b name b' Hin Hb. unfold updateSelfSymmetric.
  destruct (b !! name) as [m|]; [|done]. cbn [mbind option_bind].
  intros [= <-]. destruct ty; rewrite lookup_insert_ne; try done;
    intros ->; done.
Qed.

(** The loop over the pairs, when no name is written twice and no
    representative is written at all. *)
Lemma updatePairs_result ty axis pairs : ∀ ms ms',
  NoDup (pairs.*2) →
  (∀ name, name ∈ pairs.*1 → name ∉ pairs.*2) →
  foldOption (updatePair ty axis) pairs ms = Some ms' →
  ∀ repName symName, (repName, symName) ∈ pairs →
    ∃ rm sm0 sm,
      ms !! repName = Some rm ∧ ms !! symName = Some sm0 ∧
      ms' !! repName = Some rm ∧ ms' !! symName = Some sm ∧
      projectedFrom ty axis rm sm0 sm.
Proof.
  induction pairs as [|[r y] pairs IH]; intros ms ms' Hnd Hdisj Hf rep sym Hin.
  { by apply elem_of_nil in Hin. }
  rewrite foldOption_cons in Hf.
  destruct (updatePair ty axis ms (r, y)) as [ms1|] eqn:E1; [|done].
  cbn [mbind option_bind] in Hf.
  rewrite fmap_cons in Hnd. cbn [snd] in Hnd.
  apply NoDup_cons in Hnd as [Hy Hnd].
  assert (Hry : r ≠ y).
  { intros ->. apply (Hdisj y); rewrite fmap_cons; apply list_elem_of_here. }
  assert (Hdisj' : ∀ name, name ∈ pairs.*1 → name ∉ pairs.*2).
  { intros name Hn Hn2. apply (Hdisj name); rewrite fmap_cons.
    - by apply list_elem_of_further.
    - by apply list_elem_of_further. }
  pose proof (updatePairs_other _ _ _ _ _ Hf) as Hrest.
  pose proof (updatePair_other _ _ _ _ _ E1) as Hstep. cbn [snd] in Hstep.
  apply elem_of_cons in Hin as [[= -> ->]|Hin].
  - destruct (updatePair_result _ _ _ _ _ _ Hry E1)
      as (rm & sm0 & sm & Hr & Hs & Hs' & _ & Hp).
    exists rm, sm0, sm. split; [done|]. split; [done|].
    split; [|split; [|done]].
    + rewrite Hrest, Hstep; [done|done|].
      intros Hn. apply (Hdisj r); rewrite fmap_cons.
      * apply list_elem_of_here.
      * by apply list_elem_of_further.
    + by rewrite Hrest.
  - destruct (IH ms1 ms' Hnd Hdisj' Hf rep sym Hin)
      as (rm & sm0 & sm & Hr & Hs & Hr' & Hs' & Hp).
    exists rm, sm0, sm.
    assert (Hrep : rep ≠ y).
    { intros ->. apply (Hdisj y); rewrite fmap_cons.
      - apply list_elem_of_further, list_elem_of_fmap. by exists (y, sym).
      - apply list_elem_of_here. }
    assert (Hsym : sym ≠ y).
    { intros ->. apply Hy, list_elem_of_fmap. by exists (rep, y). }
    rewrite <- (Hstep rep Hrep), <- (Hstep sym Hsym). done.
Qed.


Lemma updateSymmetricModulePositions_loops (s s' : ASFBStarTree) :
  updateSymmetricModulePositions s = Some s' →
  getType (symmetryGroup s') = getType (symmetryGroup s) ∧
  repToPairMap s' = repToPairMap s ∧
  selfSymmetricModules s' = selfSymmetricModules s ∧
  ∃ ms1,
    foldOption (updatePair (getType (symmetryGroup s)) (symmetryAxisPosition s'))
      (repToPairMap s) (modules s) = Some ms1 ∧
    foldOption (updateSelfSymmetric (getType (symmetryGroup s))
                  (symmetryAxisPosition s'))
      (selfSymmetricModules s) ms1 = Some (modules s').
Proof.
  unfold updateSymmetricModulePositions.
  destruct (if Qltb (symmetryAxisPosition s) 0
            then calculateSymmetryAxisPosition s else Some s)
    as [s1|] eqn:E1; [|done].
  cbn [mbind option_bind].
  assert (H1 : getType (symmetryGroup s1) = getType (symmetryGroup s) ∧
               repToPairMap s1 = repToPairMap s ∧
               selfSymmetricModules s1 = selfSymmetricModules s ∧
               modules s1 = modules s).
  { destruct (Qltb _ _); [|by injection E1 as <-].
    apply calculateSymmetryAxisPosition_withAxis in E1 as [a ->]. done. }
  destruct H1 as (-> & -> & -> & ->).
  destruct (foldOption (updatePair _ _) _ _) as [ms1|] eqn:E2; [|done].
  cbn [mbind option_bind].
  destruct (foldOption (updateSelfSymmetric _ _) _ _) as [ms2|] eqn:E3; [|done].
  cbn [mbind option_bind]. intros [= <-]. cbn.
  destruct (Qltb _ _).
  - apply calculateSymmetryAxisPosition_withAxis in E1 as [a ->]. cbn in *.
    repeat split; try done. by exists ms1.
  - injection E1 as <-. repeat split; try done. by exists ms1.
Qed.

(** Every pair of a group with disjoint roles, after the projection. *)
Lemma projection_pairs (s s' : ASFBStarTree) :
  disjointRoles s →
  updateSymmetricModulePositions s = Some s' →
  ∀ repName symName, (repName, symName) ∈ repToPairMap s →
    ∃ rm sm0 sm,
      modules s !! repName = Some rm ∧ modules s !! symName = Some sm0 ∧
      modules s' !! repName = Some rm ∧ modules s' !! symName = Some sm ∧
      projectedFrom (getType (symmetryGroup s)) (symmetryAxisPosition s')
        rm sm0 sm.
Proof.
  intros (Hnd & Hrp & Hself) Hup repName symName Hin.
  destruct (updateSymmetricModulePositions_loops _ _ Hup)
    as (_ & _ & _ & ms1 & Hp & Hs).
  destruct (updatePairs_result _ _ _ _ _ Hnd Hrp Hp _ _ Hin)
    as (rm & sm0 & sm & Hr & Hy & Hr1 & Hy1 & Hproj).
  exists rm, sm0, sm. split; [done|]. split; [done|].
  pose proof (updateSelfSymmetrics_other _ _ _ _ _ Hs) as Hother.
  split; [|split; [|done]].
  - rewrite Hother; [done|]. intros Hn. apply Hself in Hn as [Hn _].
    apply Hn, list_elem_of_fmap. by exists (repName, symName).
  - rewrite Hother; [done|]. intros Hn. apply Hself in Hn as [_ Hn].
    apply Hn, list_elem_of_fmap. by exists (repName, symName).
Qed.

Lemma projectedFrom_mirrored ty axis rm sm0 sm :
  projectedFrom ty axis rm sm0 sm → pairMirrored ty axis rm sm.
Proof.
  intros (_ & _ & Hc & Hx). unfold pairMirrored.
  pose proof (round_error (2 * axis - axisCenter ty rm
                           - inject_Z (axisExtent ty sm) / 2)%Q) as Hr.
  rewrite <- Hc in Hr. apply Qabs_Qle_condition in Hr.
  destruct ty; (split; [|exact Hx]); apply Qabs_Qle_condition;
    unfold axisCenter, centerX, centerY in *; cbn [axisCoord axisExtent] in *;
    split; lra.
Qed.

Lemma projectedFrom_dims ty axis rm sm0 sm :
  projectedFrom ty axis rm sm0 sm →
  dimsEq rm sm0 ∨ (getWidth rm = getHeight sm0 ∧ getHeight rm = getWidth sm0) →
  dimsEq rm sm.
Proof.
  intros (Hw & Hh & _ & _) Hd. unfold dimsEq. rewrite Hw, Hh.
  unfold needsRotation.
  destruct (Z.eqb_spec (getWidth rm) (getWidth sm0)) as [Ew|Ew];
    destruct (Z.eqb_spec (getHeight rm) (getHeight sm0)) as [Eh|Eh];
    destruct (Z.eqb_spec (getWidth rm) (getHeight sm0)) as [Ewh|Ewh];
    destruct (Z.eqb_spec (getHeight rm) (getWidth sm0)) as [Ehw|Ehw];
    cbn; unfold dimsEq in Hd; try done; lia.
Qed.

Lemma updateSelfSymmetric_centered ty axis ms name ms' :
  updateSelfSymmetric ty axis ms name = Some ms' →
  ∀ n m, ms' !! n = Some m →
    (n = name → (Qabs (axisCenter ty m - axis) <= 1 # 2)%Q) ∧
    (n ≠ name → ms !! n = Some m).
Proof.
  unfold updateSelfSymmetric. destruct (ms !! name) as [module|] eqn:E; [|done].
  cbn [mbind option_bind]. intros [= <-] n m Hn. split.
  - intros ->. destruct ty; rewrite lookup_insert_eq in Hn; injection Hn as <-;
      unfold axisCenter; cbn [axisCoord axisExtent setPosition getX getY
                              getWidth getHeight];
      apply selfSymmetricPosition_centered.
  - intros Hne. destruct ty; by rewrite lookup_insert_ne in Hn.
Qed.

Lemma selfSymmetric_loop_centered ty axis (names : list string) :
  ∀ (processed : list string) ms ms',
    (∀ n m, n ∈ processed → ms !! n = Some m →
            (Qabs (axisCenter ty m - axis) <= 1 # 2)%Q) →
    foldOption (updateSelfSymmetric ty axis) names ms = Some ms' →
    ∀ n m, n ∈ processed ++ names → ms' !! n = Some m →
           (Qabs (axisCenter ty m - axis) <= 1 # 2)%Q.
Proof.
  induction names as [|name names IH]; intros processed ms ms' Hinv.
  - rewrite foldOption_nil. intros [= <-] n m. rewrite app_nil_r. apply Hinv.
  - rewrite foldOption_cons.
    destruct (updateSelfSymmetric ty axis ms name) as [ms1|] eqn:E; [|done].
    cbn [mbind option_bind]. intros Hfold n m Hn.
    apply (IH (processed ++ [name]) ms1 ms'); [|done|by rewrite <- app_assoc].
    intros n1 m1 Hn1 Hm1.
    destruct (updateSelfSymmetric_centered _ _ _ _ _ E n1 m1 Hm1) as [Heq Hne].
    destruct (decide (n1 = name)) as [->|Hd]; [by apply Heq|].
    apply elem_of_app in Hn1 as [Hn1|Hn1].
    + eapply Hinv; [done|]. by apply Hne.
    + apply list_elem_of_singleton in Hn1. done.
Qed.

Lemma projection_selfs (s s' : ASFBStarTree) :
  updateSymmetricModulePositions s = Some s' →
  ∀ name module,
    name ∈ selfSymmetricModules s → modules s' !! name = Some module →
    (Qabs (axisCenter (getType (symmetryGroup s)) module
           - symmetryAxisPosition s') <= 1 # 2)%Q.
Proof.
  intros Hup name module Hin Hm.
  destruct (updateSymmetricModulePositions_loops _ _ Hup)
    as (_ & _ & _ & ms1 & _ & Hs).
  apply (selfSymmetric_loop_centered _ _ _ [] _ _
           (λ _ _ H, False_ind _ (not_elem_of_nil _ H)) Hs name module Hin Hm).
Qed.






(** X6. In a group where every module plays one role, a partner that has
    the dimensions of its representative, as it stands or turned by 90°,
    has exactly the dimensions of its representative after
    [updateSymmetricModulePositions]. *)
Theorem projection_matches_dimensions (s s' : ASFBStarTree) :
  disjointRoles s →
  compatibleDims s →
  updateSymmetricModulePositions s = Some s' →
  ∀ repName symName repModule symModule,
    (repName, symName) ∈ repToPairMap s' →
    modules s' !! repName = Some repModule →
    modules s' !! symName = Some symModule →
    getWidth symModule = getWidth repModule ∧
    getHeight symModule = getHeight repModule.
Proof.
  intros Hroles Hdims Hup repName symName repModule symModule Hin Hr Hy.
  destruct (updateSymmetricModulePositions_loops _ _ Hup) as (_ & Hp & _ & _).
  rewrite Hp in Hin.
  destruct (projection_pairs _ _ Hroles Hup _ _ Hin)
    as (rm & sm0 & sm & Hr0 & Hy0 & Hr' & Hy' & Hproj).
  assert (rm = repModule) as -> by congruence.
  assert (sm = symModule) as -> by congruence.
  destruct (projectedFrom_dims _ _ _ _ _ Hproj (Hdims _ _ _ _ Hin Hr0 Hy0)).
  done.
Qed.

Lemma projection_matches_dimensions_witness :
  getWidth (mkModule 1 10 (-1) 0 true) = getWidth (mkModule 1 10 0 0 false) ∧
  getHeight (mkModule 1 10 (-1) 0 true) = getHeight (mkModule 1 10 0 0 false).
Proof.
  apply (projection_matches_dimensions exampleRotation
           exampleRotationProjected) with (repName := "e") (symName := "e'").
  - split; [|split].
    + vm_compute. repeat constructor. by intros ?%elem_of_nil.
    + intros name Hn. vm_compute in Hn. apply list_elem_of_singleton in Hn as ->.
      vm_compute. intros Hd. by apply list_elem_of_singleton in Hd.
    + intros name Hn. vm_compute in Hn. by apply elem_of_nil in Hn.
  - intros repName symName repModule symModule Hin.
    apply list_elem_of_singleton in Hin. injection Hin as -> ->.
    intros Hr Hy. vm_compute in Hr, Hy. injection Hr as <-. injection Hy as <-.
    right. split; reflexivity.
  - reflexivity.
  - vm_compute. apply list_elem_of_here.
  - vm_compute. reflexivity.
  - vm_compute. reflexivity.
Defined.

(** The tolerances of [validateSymmetry] after the projection. *)
Lemma projection_tolerances (s s' : ASFBStarTree) :
  disjointRoles s →
  compatibleDims s →
  updateSymmetricModulePositions s = Some s' →
  (∀ repName symName repModule symModule,
     (repName, symName) ∈ repToPairMap s' →
     modules s' !! repName = Some repModule →
     modules s' !! symName = Some symModule →
     pairWithinTolerance (getType (symmetryGroup s'))
       (symmetryAxisPosition s') repModule symModule) ∧
  (∀ name module,
     name ∈ selfSymmetricModules s' →
     modules s' !! name = Some module →
     selfWithinTolerance (getType (symmetryGroup s'))
       (symmetryAxisPosition s') module).
Proof.
  intros Hroles Hdims Hup.
  destruct (updateSymmetricModulePositions_loops _ _ Hup) as (Hty & Hp & Hs & _).
  rewrite Hty, Hp, Hs. split.
  - intros repName symName repModule symModule Hin Hr Hy.
    destruct (projection_pairs _ _ Hroles Hup _ _ Hin)
      as (rm & sm0 & sm & Hr0 & Hy0 & Hr' & Hy' & Hproj).
    assert (rm = repModule) as -> by congruence.
    assert (sm = symModule) as -> by congruence.
    destruct (projectedFrom_dims _ _ _ _ _ Hproj (Hdims _ _ _ _ Hin Hr0 Hy0))
      as [Hw Hh].
    apply projectedFrom_mirrored in Hproj. unfold pairMirrored in Hproj.
    unfold pairWithinTolerance.
    destruct (getType (symmetryGroup s)); destruct Hproj as [Hm Hc];
      apply Qabs_Qle_condition in Hm; unfold centerX, centerY in *;
      (split; [apply Qabs_Qle_condition; split; lra|]);
      rewrite ?Hc, ?Hw, ?Hh; apply Qabs_Qle_condition; split; lra.
  - intros name module Hin Hm.
    pose proof (projection_selfs _ _ Hup name module Hin Hm) as H.
    apply Qabs_Qle_condition in H. unfold selfWithinTolerance.
    destruct (getType (symmetryGroup s)); apply Qabs_Qle_condition;
      unfold axisCenter, centerX, centerY in *;
      cbn [axisCoord axisExtent] in H; split; lra.
Qed.



End Projection.

(** ** The axis leaves room for the mirrored modules *)

Section AxisRoom.

Local Arguments round : simpl never.

Lemma round_ge (n : Z) (q : Q) : (inject_Z n <= q)%Q → n ≤ round q.
Proof.
  intros H. pose proof (round_error q) as He.
  apply Qabs_Qle_condition in He as [Hlo _].
  assert (Hlt : (inject_Z (n + -1) < inject_Z (round q))%Q).
  { rewrite inject_Z_plus. change (inject_Z (-1)) with (-1)%Q. lra. }
  rewrite <- Zlt_Qlt in Hlt. lia.
Qed.

(** The axis of a group with pairs is at least one more than the far edge
    of every pair representative and than the least axis of every pair. *)
Lemma axis_bounds_pairs (s s' : ASFBStarTree) :
  repToPairMap s ≠ [] →
  calculateSymmetryAxisPosition s = Some s' →
  (0 < symmetryAxisPosition s')%Q ∧
  ∀ repName symName, (repName, symName) ∈ repToPairMap s →
    ∃ rm sm0,
      modules s !! repName = Some rm ∧ modules s !! symName = Some sm0 ∧
      (inject_Z (axisCoord (getType (symmetryGroup s)) rm
                 + axisExtent (getType (symmetryGroup s)) rm)
       <= symmetryAxisPosition s' - 1)%Q ∧
      (minAxisForPositiveCoords (getType (symmetryGroup s)) rm sm0
       <= symmetryAxisPosition s' - 1)%Q.
Proof.
  intros Hne Hcalc.
  destruct (axis_with_pairs _ s s' eq_refl Hne Hcalc) as (Hall & Hnn & _).
  split; [lra|].
  intros repName symName Hin.
  destruct (Hall _ Hin) as (edge & axis & He & Ha & Hle1 & Hle2).
  unfold pairEdge, pairAxis in He, Ha. cbn [fst snd] in He, Ha.
  destruct (modules s !! repName) as [rm|]; [|done].
  destruct (modules s !! symName) as [sm0|]; [|done].
  injection He as <-. injection Ha as <-.
  exists rm, sm0. done.
Qed.

(** Computing the axis a second time gives the same axis. *)
Lemma calculateSymmetryAxisPosition_again (s s1 : ASFBStarTree) :
  calculateSymmetryAxisPosition s = Some s1 →
  ∃ s2, calculateSymmetryAxisPosition s1 = Some s2 ∧
        symmetryAxisPosition s2 = symmetryAxisPosition s1.
Proof.
  intros Hcalc.
  destruct (calculateSymmetryAxisPosition_withAxis _ _ Hcalc) as [a ->].
  revert Hcalc. unfold calculateSymmetryAxisPosition.
  cbn [repToPairMap selfSymmetricModules representativeModules modules
       symmetryGroup getType withAxis symmetryAxisPosition].
  destruct (repToPairMap s) as [|pr prs].
  - destruct (selfSymmetricModules s) as [|n ns].
    + intros _. eexists. split; [done|]. done.
    + destruct (maxRepFarEdge _ _ _); [|done]. cbn [mbind option_bind].
      destruct (maxSelfSymExtent _ _ _); [|done]. cbn [mbind option_bind].
      intros [= Ha _]. eexists. split; [done|]. cbn. exact Ha.
  - destruct (maxRepEdge _ _ _); [|done]. cbn [mbind option_bind].
    destruct (minAxisOverPairs _ _ _ _); [|done]. cbn [mbind option_bind].
    intros [= Ha _]. eexists. split; [done|]. cbn. exact Ha.
Qed.

(** [pack()] calls the projection right after the axis computation: the
    projection then works with that axis. *)
Lemma projection_after_axis (s s1 s2 : ASFBStarTree) :
  calculateSymmetryAxisPosition s = Some s1 →
  updateSymmetricModulePositions s1 = Some s2 →
  symmetryAxisPosition s2 = symmetryAxisPosition s1.
Proof.
  intros Hcalc. unfold updateSymmetricModulePositions.
  destruct (calculateSymmetryAxisPosition_again _ _ Hcalc) as (s1' & -> & Hax).
  destruct (Qltb (symmetryAxisPosition s1) 0).
  - cbn [mbind option_bind].
    destruct (foldOption (updatePair _ _) _ _); [|done]. cbn [mbind option_bind].
    destruct (foldOption (updateSelfSymmetric _ _) _ _); [|done].
    cbn [mbind option_bind]. by intros [= <-].
  - cbn [mbind option_bind].
    destruct (foldOption (updatePair _ _) _ _); [|done]. cbn [mbind option_bind].
    destruct (foldOption (updateSelfSymmetric _ _) _ _); [|done].
    cbn [mbind option_bind]. by intros [= <-].
Qed.


(** The axis computation followed by the projection, pair by pair. *)
Lemma axis_then_projection_pairs (s s1 s2 : ASFBStarTree) :
  disjointRoles s →
  calculateSymmetryAxisPosition s = Some s1 →
  updateSymmetricModulePositions s1 = Some s2 →
  ∀ repName symName, (repName, symName) ∈ repToPairMap s →
    ∃ rm sm0 sm,
      modules s !! repName = Some rm ∧ modules s !! symName = Some sm0 ∧
      modules s2 !! repName = Some rm ∧ modules s2 !! symName = Some sm ∧
      projectedFrom (getType (symmetryGroup s)) (symmetryAxisPosition s1)
        rm sm0 sm ∧
      (inject_Z (axisCoord (getType (symmetryGroup s)) rm
                 + axisExtent (getType (symmetryGroup s)) rm)
       <= symmetryAxisPosition s1 - 1)%Q ∧
      (minAxisForPositiveCoords (getType (symmetryGroup s)) rm sm0
       <= symmetryAxisPosition s1 - 1)%Q.
Proof.
  intros Hroles Hcalc Hup repName symName Hin.
  assert (Hne : repToPairMap s ≠ []).
  { intros E. rewrite E in Hin. by apply elem_of_nil in Hin. }
  destruct (axis_bounds_pairs _ _ Hne Hcalc) as [_ Hb].
  destruct (Hb _ _ Hin) as (rm & sm0 & Hr & Hy & Hedge & Haxis).
  pose proof (projection_after_axis _ _ _ Hcalc Hup) as Hax.
  destruct (calculateSymmetryAxisPosition_withAxis _ _ Hcalc) as [a ->].
  destruct (projection_pairs (withAxis a s) s2 Hroles Hup _ _ Hin)
    as (rm' & sm0' & sm & Hr0 & Hy0 & Hr2 & Hy2 & Hproj).
  cbn [modules withAxis symmetryGroup getType] in *.
  assert (rm' = rm) as -> by congruence.
  assert (sm0' = sm0) as -> by congruence.
  exists rm, sm0, sm. rewrite Hax in Hproj. done.
Qed.

Lemma needsRotation_true (rm sm0 : ModuleT) :
  needsRotation rm sm0 = true →
  getWidth rm = getHeight sm0 ∧ getHeight rm = getWidth sm0.
Proof.
  unfold needsRotation. rewrite !andb_true_iff.
  intros [[_ Hw] Hh]. split; by apply Z.eqb_eq.
Qed.

Lemma projectedFrom_extent ty axis rm sm0 sm :
  projectedFrom ty axis rm sm0 sm →
  axisExtent ty sm
  = if needsRotation rm sm0 then axisExtent ty rm else axisExtent ty sm0.
Proof.
  intros (Hw & Hh & _ & _).
  destruct (needsRotation rm sm0) eqn:En.
  - apply needsRotation_true in En as [E1 E2].
    destruct ty; cbn [axisExtent]; [rewrite Hw|rewrite Hh]; cbn; congruence.
  - by destruct ty; cbn [axisExtent].
Qed.





End AxisRoom.

(** ** The axis of a group without pairs *)

Section AxisSelfSymmetric.

Local Arguments round : simpl never.

(** A running maximum over [int]s. *)
Lemma runningMaxZ_spec {A : Type} (g : A → option Z) (f : Z → A → option Z) :
  (∀ acc a, f acc a = v ← g a; Some (Z.max acc v)) →
  ∀ (l : list A) init res,
    foldOption f l init = Some res →
    init ≤ res ∧
    (∀ a, a ∈ l → ∃ v, g a = Some v ∧ v ≤ res) ∧
    (res = init ∨ ∃ a v, a ∈ l ∧ g a = Some v ∧ res = v).
Proof.
  intros f_max l. induction l as [|a l IH]; intros init res.
  - rewrite foldOption_nil. intros [= <-]. split; [lia|].
    split; [|by left]. intros a Ha. by apply elem_of_nil in Ha.
  - rewrite foldOption_cons, f_max. destruct (g a) as [v|] eqn:Eg; [|done].
    cbn [mbind option_bind]. intros Hf. destruct (IH _ _ Hf) as (Hle & Hall & Hex).
    split; [lia|]. split.
    + intros a' Ha'. apply elem_of_cons in Ha' as [->|Ha']; [|by apply Hall].
      exists v. split; [done|lia].
    + destruct Hex as [->|(a' & v' & Ha' & Hg' & ->)].
      * destruct (Z.max_spec init v) as [[_ ->]|[_ ->]]; [|by left].
        right. exists a, v. split; [by apply elem_of_cons; left|done].
      * right. exists a', v'. split; [by apply elem_of_cons; right|done].
Qed.

Lemma axis_self_symmetric_only_aux (s s' : ASFBStarTree) :
  repToPairMap s = [] →
  selfSymmetricModules s ≠ [] →
  calculateSymmetryAxisPosition s = Some s' →
  ∃ maxX maxW : Z,
    symmetryAxisPosition s' = (inject_Z maxX + inject_Z maxW / 2 + 1)%Q ∧
    (∀ name, name ∈ representativeModules s →
       ∃ module, modules s !! name = Some module ∧
         axisCoord (getType (symmetryGroup s)) module
         + axisExtent (getType (symmetryGroup s)) module ≤ maxX) ∧
    (∀ name, name ∈ selfSymmetricModules s →
       ∃ module, modules s !! name = Some module ∧
         axisExtent (getType (symmetryGroup s)) module ≤ maxW).
Proof.
  intros Hpairs Hself. unfold calculateSymmetryAxisPosition. rewrite Hpairs.
  destruct (selfSymmetricModules s) as [|n0 ns] eqn:Eself; [done|].
  rewrite <- Eself in *. clear n0 ns Eself Hself.
  set (ty := getType (symmetryGroup s)).
  destruct (maxRepFarEdge ty (modules s) (representativeModules s))
    as [maxX|] eqn:E1; [|done].
  cbn [mbind option_bind].
  destruct (maxSelfSymExtent ty (modules s) (selfSymmetricModules s))
    as [maxW|] eqn:E2; [|done].
  cbn [mbind option_bind]. intros [= <-]. exists maxX, maxW.
  split; [done|].
  apply (runningMaxZ_spec
           (λ name, m ← modules s !! name;
                    Some (axisCoord ty m + axisExtent ty m))) in E1;
    [|intros acc a; by destruct (modules s !! a)].
  apply (runningMaxZ_spec
           (λ name, m ← modules s !! name; Some (axisExtent ty m))) in E2;
    [|intros acc a; by destruct (modules s !! a)].
  destruct E1 as (_ & Hall1 & _). destruct E2 as (_ & Hall2 & _).
  split.
  - intros name Hn. destruct (Hall1 _ Hn) as (v & Hv & Hle).
    destruct (modules s !! name) as [m|]; [|done]. injection Hv as <-.
    by exists m.
  - intros name Hn. destruct (Hall2 _ Hn) as (v & Hv & Hle).
    destruct (modules s !! name) as [m|]; [|done]. injection Hv as <-.
    by exists m.
Qed.



Lemma updateSelfSymmetrics_extent ty axis names : ∀ ms ms',
  foldOption (updateSelfSymmetric ty axis) names ms = Some ms' →
  ∀ n m, ms' !! n = Some m →
    ∃ m0, ms !! n = Some m0 ∧ axisExtent ty m = axisExtent ty m0.
Proof.
  induction names as [|name names IH]; intros ms ms'.
  - rewrite foldOption_nil. intros [= <-] n m Hm. by exists m.
  - rewrite foldOption_cons.
    destruct (updateSelfSymmetric ty axis ms name) as [ms1|] eqn:E; [|done].
    cbn [mbind option_bind]. intros Hf n m Hm.
    destruct (IH _ _ Hf n m Hm) as (m1 & Hm1 & He). rewrite He.
    unfold updateSelfSymmetric in E.
    destruct (ms !! name) as [module|] eqn:Emod; [|done].
    cbn [mbind option_bind] in E. injection E as <-.
    destruct (decide (n = name)) as [->|Hne].
    + exists module. split; [done|].
      destruct ty; rewrite lookup_insert_eq in Hm1; by injection Hm1 as <-.
    + exists m1. split; [|done].
      destruct ty; by rewrite lookup_insert_ne in Hm1.
Qed.



End AxisSelfSymmetric.

(** ** The nodes of the initial tree *)

Section InitialTreeNodes.

Lemma onBranch_reachable d (st : gmap string NodeCell) p n :
  onBranch d st p n → reachable st p n.
Proof.
  induction 1 as [n cell Hn|a cell n Ha Hb IH].
  - by eapply reachable_here.
  - by eapply reachable_step.
Qed.

(** Filling an empty child slot keeps every node reachable. *)
Lemma setChild_reachable d p q (st st' : gmap string NodeCell) r n :
  setChild d p q st = Some st' →
  (∀ name cell, p = Some name → st !! name = Some cell → child d cell = None) →
  reachable st r n → reachable st' r n.
Proof.
  intros Hset Hempty Hb.
  apply setChild_lookup in Hset as (name & cell & -> & Hcell & ->).
  specialize (Hempty name cell eq_refl Hcell).
  induction Hb as [n c Hn|a c d' n Ha Hb IH].
  - destruct (decide (n = name)) as [->|Hne].
    + eapply reachable_here. apply lookup_insert_eq.
    + eapply reachable_here. by rewrite lookup_insert_ne.
  - destruct (decide (a = name)) as [->|Hne].
    + assert (c = cell) as -> by congruence.
      eapply (reachable_step _ _ _ d'); [apply lookup_insert_eq|].
      destruct d, d'; simpl in *; try done.
      * rewrite Hempty in Hb. inversion Hb.
      * rewrite Hempty in Hb. inversion Hb.
    + eapply reachable_step; [by rewrite lookup_insert_ne|done].
Qed.

Lemma reachable_snoc d (st : gmap string NodeCell) r c cell n cell' :
  reachable st r c → st !! c = Some cell → child d cell = Some n →
  st !! n = Some cell' → reachable st r n.
Proof.
  intros Hb Hc Hchild Hn. induction Hb as [c c0 Hc0|a c0 d' c Ha Hb IH].
  - eapply (reachable_step _ _ _ d); [exact Hc|]. rewrite Hchild.
    by eapply reachable_here.
  - eapply reachable_step; [exact Ha|]. by apply IH.
Qed.

Lemma branchEnd_onBranch fuel d (st : gmap string NodeCell) p last :
  branchEnd fuel d st p = Some last → onBranch d st (Some p) last.
Proof.
  revert p. induction fuel as [|fuel IH]; intros p; simpl.
  - destruct (st !! p) as [cell|] eqn:E; [|done]. simpl.
    destruct (child d cell) eqn:Ec; [done|]. intros [= <-].
    by eapply onBranch_here.
  - destruct (st !! p) as [cell|] eqn:E; [|done]. simpl.
    destruct (child d cell) eqn:Ec.
    + intros H. eapply onBranch_step; [exact E|]. rewrite Ec. by apply IH.
    + intros [= <-]. by eapply onBranch_here.
Qed.

Lemma findOpenSlot_reachable fuel d (st : gmap string NodeCell) node target :
  findOpenSlot fuel d st node = Some (Some target) → reachable st node target.
Proof.
  revert node. induction fuel as [|fuel IH]; intros node; simpl.
  - by destruct node.
  - destruct node as [n|]; [|done].
    destruct (st !! n) as [cell|] eqn:E; [|done]. simpl.
    destruct (child d cell) eqn:Ec.
    + destruct (findOpenSlot fuel d st (child (opposite d) cell)) as [[t|]|] eqn:Ef;
        simpl; [| |done].
      * intros [= <-]. eapply reachable_step; [exact E|]. by apply IH.
      * intros H. eapply (reachable_step _ _ _ d); [exact E|]. rewrite Ec.
        by apply IH.
    + intros [= <-]. by eapply reachable_here.
Qed.

(** Started at a node, the search for an open slot does not come back
    empty-handed: it finds a slot or does not come back. *)
Lemma findOpenSlot_found fuel d (st : gmap string NodeCell) n :
  findOpenSlot fuel d st (Some n) ≠ Some None.
Proof.
  revert n. induction fuel as [|fuel IH]; intros n; simpl; [done|].
  destruct (st !! n) as [cell|] eqn:E; [|done]. simpl.
  destruct (child d cell) as [c|] eqn:Ec; [|done].
  destruct (findOpenSlot fuel d st (child (opposite d) cell)) as [[t|]|];
    simpl; [done| |done].
  apply IH.
Qed.

Local Arguments setChild : simpl never.
Local Arguments branchEnd : simpl never.
Local Arguments findOpenSlot : simpl never.
Local Arguments nodeMapAt : simpl never.

(** What one insertion does: it fills an empty [d] slot of a node [target]
    that is reachable from the root with the new node, which becomes
    [currentNode]. *)
Lemma insertNonSelfSymmetric_step primary root i moduleName currentNode
    (st st' : gmap string NodeCell) currentNode' :
  insertNonSelfSymmetric primary root i moduleName currentNode st
    = Some (currentNode', st') →
  (i ≠ 0%nat → ∀ c, currentNode = Some c → reachable st root c) →
  ∃ d target cell,
    reachable st root target ∧ st !! target = Some cell ∧
    child d cell = None ∧
    setChild d (Some target) (nodeMapAt st moduleName) st = Some st' ∧
    currentNode' = nodeMapAt st moduleName.
Proof.
  unfold insertNonSelfSymmetric. intros Hins Hcur.
  destruct (Nat.eqb_spec i 0) as [->|Hi].
  - destruct root as [rt|]; [|done]. simpl in Hins.
    destruct (st !! rt) as [rootCell|] eqn:Er; [|done]. simpl in Hins.
    destruct (child primary rootCell) eqn:Ec.
    + destruct (branchEnd _ _ _ _) as [last|] eqn:El; [|done]. simpl in Hins.
      destruct (setChild _ _ _ _) as [st1|] eqn:Es; [|done].
      injection Hins as <- <-.
      destruct (branchEnd_open _ _ _ _ _ El) as (cell & Hc & Hopen).
      exists primary, last, cell. split; [|done].
      eapply onBranch_reachable, branchEnd_onBranch, El.
    + destruct (setChild _ _ _ _) as [st1|] eqn:Es; [|done].
      injection Hins as <- <-.
      exists primary, rt, rootCell. split; [|done]. by eapply reachable_here.
  - destruct currentNode as [c|]; [|done]. simpl in Hins.
    destruct (st !! c) as [currentCell|] eqn:Ecur; [|done]. simpl in Hins.
    set (d := if Nat.even i then primary else opposite primary) in *.
    destruct (child d currentCell) eqn:Ec.
    + destruct (findOpenSlot _ _ _ _) as [[target|]|] eqn:Ef; [| |done];
        simpl in Hins.
      * destruct (setChild _ _ _ _) as [st1|] eqn:Es; [|done].
        injection Hins as <- <-.
        destruct (findOpenSlot_open _ _ _ _ _ Ef) as (cell & Hc & Hopen).
        exists d, target, cell. split; [|done].
        eapply findOpenSlot_reachable, Ef.
      * exfalso. destruct root as [rt|].
        -- by apply findOpenSlot_found in Ef.
        -- specialize (Hcur Hi c eq_refl). inversion Hcur.
    + destruct (setChild _ _ _ _) as [st1|] eqn:Es; [|done].
      injection Hins as <- <-.
      exists d, c, currentCell. split; [|done]. by apply Hcur.
Qed.


Lemma insertNonSelfSymmetric_outcome primary root i moduleName currentNode
    (st st' : gmap string NodeCell) currentNode' :
  insertNonSelfSymmetric primary root i moduleName currentNode st
    = Some (currentNode', st') →
  (i ≠ 0%nat → ∀ c, currentNode = Some c → reachable st root c) →
  (∀ n, reachable st root n → reachable st' root n) ∧
  (∀ k, is_Some (st' !! k) ↔ is_Some (st !! k)) ∧
  (is_Some (st !! moduleName) →
   currentNode' = Some moduleName ∧ reachable st' root moduleName).
Proof.
  intros Hins Hcur.
  destruct (insertNonSelfSymmetric_step _ _ _ _ _ _ _ _ Hins Hcur)
    as (d & target & cell & Hreach & Hcell & Hopen & Hset & ->).
  assert (Hkeep : ∀ n, reachable st root n → reachable st' root n).
  { intros n. eapply setChild_reachable; [exact Hset|].
    intros ? ? [= <-] ?. congruence. }
  split; [exact Hkeep|]. split.
  { intros k. by eapply setChild_dom. }
  intros [cellN HcellN].
  assert (Hq : nodeMapAt st moduleName = Some moduleName).
  { unfold nodeMapAt. by rewrite HcellN. }
  split; [done|]. rewrite Hq in Hset.
  pose proof Hset as Hst. apply setChild_lookup in Hst
    as (t & cell0 & [= <-] & Hcell0 & ->).
  assert (cell0 = cell) as -> by congruence.
  assert (Hsome : is_Some (<[target := match d with
                     | Left => mkCell (Some moduleName) (cell_right cell)
                     | Right => mkCell (cell_left cell) (Some moduleName)
                     end]> st !! moduleName)).
  { destruct (decide (moduleName = target)) as [->|Hne].
    - rewrite lookup_insert_eq. eauto.
    - rewrite lookup_insert_ne by done. eauto. }
  destruct Hsome as [cellN' HcellN'].
  eapply (reachable_snoc d _ root target); [by apply Hkeep| | |exact HcellN'].
  - apply lookup_insert_eq.
  - by destruct d.
Qed.

Local Arguments insertNonSelfSymmetric : simpl never.

Lemma insertAll_outcome primary root names : ∀ i currentNode
    (st st' : gmap string NodeCell) currentNode',
  insertAll primary root i names currentNode st = Some (currentNode', st') →
  (i ≠ 0%nat → ∀ c, currentNode = Some c → reachable st root c) →
  (∀ n, reachable st root n → reachable st' root n) ∧
  (∀ k, is_Some (st' !! k) ↔ is_Some (st !! k)) ∧
  (∀ n, n ∈ names → is_Some (st !! n) → reachable st' root n).
Proof.
  induction names as [|name names IH]; intros i cur st st' cur'; simpl.
  - intros [= <- <-] _. split; [done|]. split; [done|].
    intros n Hn. by apply elem_of_nil in Hn.
  - destruct (insertNonSelfSymmetric _ _ _ _ _ _) as [[cur1 st1]|] eqn:E; [|done].
    simpl. intros Hall Hcur.
    destruct (insertNonSelfSymmetric_outcome _ _ _ _ _ _ _ _ E Hcur)
      as (Hkeep1 & Hdom1 & Hnew1).
    assert (Hcur1 : S i ≠ 0%nat → ∀ c, cur1 = Some c → reachable st1 root c).
    { intros _ c ->.
      destruct (insertNonSelfSymmetric_step _ _ _ _ _ _ _ _ E Hcur)
        as (_ & _ & _ & _ & _ & _ & _ & Hc).
      symmetry in Hc. apply nodeMapAt_Some in Hc as [-> Hsome].
      by apply Hnew1. }
    destruct (IH _ _ _ _ _ Hall Hcur1) as (Hkeep & Hdom & Hnew).
    split; [auto|]. split.
    { intros k. by rewrite Hdom, Hdom1. }
    intros n Hn Hsome. apply elem_of_cons in Hn as [->|Hn].
    + apply Hkeep. by apply Hnew1.
    + apply Hnew; [done|]. by apply Hdom1.
Qed.

Lemma chainSelfSymmetric_dom d names : ∀ currentNode
    (st st' : gmap string NodeCell) currentNode',
  chainSelfSymmetric d names currentNode st = Some (currentNode', st') →
  ∀ k, is_Some (st' !! k) ↔ is_Some (st !! k).
Proof.
  induction names as [|name names IH]; intros cur st st' cur'; simpl.
  - by intros [= <- <-].
  - destruct (setChild d cur (nodeMapAt st name) st) as [st1|] eqn:Es; [|done].
    simpl. intros Hchain k. rewrite (IH _ _ _ _ Hchain).
    by eapply setChild_dom.
Qed.

(** A node reachable in the store is a node of the tree read from it, and
    every node of that tree has a cell in the store. *)
Lemma reify_reachable (st : gmap string NodeCell) p n :
  reachable st p n →
  ∀ fuel t, reify fuel st p = Some t → n ∈ preorder t.
Proof.
  induction 1 as [n cell Hn|a cell d n Ha Hb IH]; intros [|fuel] t; simpl; try done.
  - rewrite Hn. simpl.
    destruct (reify fuel st (cell_left cell)) as [l|]; [|done]. simpl.
    destruct (reify fuel st (cell_right cell)) as [r|]; [|done]. simpl.
    intros [= <-]. apply list_elem_of_here.
  - rewrite Ha. simpl.
    destruct (reify fuel st (cell_left cell)) as [l|] eqn:El; [|done]. simpl.
    destruct (reify fuel st (cell_right cell)) as [r|] eqn:Er; [|done]. simpl.
    intros [= <-]. simpl. apply list_elem_of_further, elem_of_app.
    destruct d; simpl in *; [left|right]; by apply (IH fuel).
Qed.

Lemma reify_names (st : gmap string NodeCell) fuel : ∀ p t,
  reify fuel st p = Some t → ∀ n, n ∈ preorder t → is_Some (st !! n).
Proof.
  induction fuel as [|fuel IH]; intros [a|] t; simpl; try done.
  - intros [= <-] n Hn. by apply elem_of_nil in Hn.
  - destruct (st !! a) as [cell|] eqn:Ea; [|done]. simpl.
    destruct (reify fuel st (cell_left cell)) as [l|] eqn:El; [|done]. simpl.
    destruct (reify fuel st (cell_right cell)) as [r|] eqn:Er; [|done]. simpl.
    intros [= <-] n Hn. simpl in Hn.
    apply elem_of_cons in Hn as [->|Hn]; [eauto|].
    apply elem_of_app in Hn as [Hn|Hn]; eauto.
  - intros [= <-] n Hn. by apply elem_of_nil in Hn.
Qed.

(** X12. Started at a node, the search for an open slot
    ([findOpenRightSlot], [findOpenLeftSlot]) never comes back with a null
    target: the node it returns is reachable from the start node and has no
    child on the side searched for. *)
Theorem findOpenSlot_spec (fuel : nat) (d : Side) (st : gmap string NodeCell)
    (start : string) (target : option string) :
  findOpenSlot fuel d st (Some start) = Some target →
  ∃ node cell,
    target = Some node ∧ reachable st (Some start) node ∧
    st !! node = Some cell ∧ child d cell = None.
Proof.
  intros Hf. destruct target as [node|].
  - destruct (findOpenSlot_open _ _ _ _ _ Hf) as (cell & Hc & Hopen).
    exists node, cell. split; [done|]. split; [|done].
    by eapply findOpenSlot_reachable.
  - by apply findOpenSlot_found in Hf.
Qed.

Lemma findOpenSlot_spec_witness :
  ∃ node cell,
    Some "b" = Some node ∧ reachable exampleStore (Some "a") node ∧
    exampleStore !! node = Some cell ∧ child Right cell = None.
Proof.
  apply (findOpenSlot_spec 3 Right exampleStore "a" (Some "b")).
  vm_compute. reflexivity.
Defined.


Lemma sortByMinorDimension_elem_2 ty (ms : gmap string ModuleT)
    (names sorted : list string) (x : string) :
  sortByMinorDimension ty ms names = Some sorted → x ∈ names → x ∈ sorted.
Proof.
  unfold sortByMinorDimension.
  destruct names as [|n1 [|n2 names]]; try (by intros [= <-]).
  set (l := n1 :: n2 :: names). clearbody l.
  destruct (mapM _ l) as [keyed|] eqn:Em; [|done]. simpl. intros [= <-] Hx.
  apply mapM_Some in Em.
  apply list_elem_of_lookup in Hx as [i Hi].
  destruct (Forall2_lookup_l _ _ _ _ _ Em Hi) as ([y key] & Hy & Hf).
  destruct (ms !! x); [|done]. simpl in Hf. injection Hf as <- _.
  apply list_elem_of_fmap. exists (x, key). split; [done|].
  apply elem_of_sortBy. apply list_elem_of_lookup. eauto.
Qed.

Lemma insertBy_head {A} (key : A → Z) (a first : A) (l : list A) :
  head (insertBy key a l) = Some first →
  (first = a ∧ ∀ b, head l = Some b → key a ≤ key b) ∨
  (head l = Some first ∧ key first < key a).
Proof.
  destruct l as [|b l]; simpl.
  - intros [= <-]. left. split; [done|]. by intros b [=].
  - destruct (Z.ltb_spec (key b) (key a)) as [Hlt|Hge]; simpl; intros [= <-].
    + right. done.
    + left. split; [done|]. by intros b' [= <-].
Qed.

(** The first element of the sorted vector has the least key. *)
Lemma sortBy_head_min {A} (key : A → Z) (l : list A) (first : A) :
  head (sortBy key l) = Some first → ∀ x, x ∈ l → key first ≤ key x.
Proof.
  revert first. induction l as [|a l IH]; intros first Hh x Hx.
  { by apply elem_of_nil in Hx. }
  change (sortBy key (a :: l)) with (insertBy key a (sortBy key l)) in Hh.
  apply insertBy_head in Hh as [[-> Hmin]|[Hh Hlt]].
  - apply elem_of_cons in Hx as [->|Hx]; [lia|].
    destruct (sortBy key l) as [|b l'] eqn:Es.
    + apply (proj2 (elem_of_sortBy key x l)) in Hx. rewrite Es in Hx.
      by apply elem_of_nil in Hx.
    + specialize (Hmin b eq_refl). specialize (IH b eq_refl x Hx). lia.
  - apply elem_of_cons in Hx as [->|Hx]; [lia|]. by apply IH.
Qed.

Lemma sortByMinorDimension_head ty (ms : gmap string ModuleT)
    (names : list string) (n : string) (r : list string) :
  sortByMinorDimension ty ms names = Some (n :: r) →
  ∀ x m, x ∈ names → ms !! x = Some m →
    ∃ rm, ms !! n = Some rm ∧ minorDimension ty rm ≤ minorDimension ty m.
Proof.
  unfold sortByMinorDimension.
  destruct names as [|n1 [|n2 names]].
  - done.
  - intros [= <- <-] x m Hx Hm. apply list_elem_of_singleton in Hx as ->.
    exists m. split; [done|lia].
  - set (l := n1 :: n2 :: names). clearbody l.
    destruct (mapM _ l) as [keyed|] eqn:Em; [|done]. simpl.
    intros [= Hs] x m Hx Hm. apply mapM_Some in Em.
    destruct (sortBy snd keyed) as [|[n' kn] rest] eqn:Esort; [done|].
    simpl in Hs. injection Hs as -> _.
    assert (Hhead : (n, kn) ∈ keyed).
    { apply (elem_of_sortBy snd). rewrite Esort. apply list_elem_of_here. }
    apply list_elem_of_lookup in Hhead as [i Hi].
    destruct (Forall2_lookup_r _ _ _ _ _ Em Hi) as (name & Hname & Hf).
    destruct (ms !! name) as [rm|] eqn:Erm; [|done]. simpl in Hf.
    injection Hf as -> <-. exists rm. split; [done|].
    apply list_elem_of_lookup in Hx as [j Hj].
    destruct (Forall2_lookup_l _ _ _ _ _ Em Hj) as ([y key] & Hy & Hg).
    rewrite Hm in Hg. simpl in Hg. injection Hg as <- <-.
    assert (Hmin := sortBy_head_min snd keyed (n, minorDimension ty rm)).
    rewrite Esort in Hmin. specialize (Hmin eq_refl (x, minorDimension ty m)).
    apply Hmin. apply list_elem_of_lookup. eauto.
Qed.

Local Arguments reify : simpl never.
Local Arguments chainSelfSymmetric : simpl never.
Local Arguments insertAll : simpl never.

Variable validateTreeStructure : BStarNode → bool.
Variable validateSymmetryConstraints : ASFBStarTree → bool.

(** The stages of a completed run of [buildInitialBStarTree]. *)
Lemma buildInitialBStarTree_stages (s s' : ASFBStarTree) :
  buildInitialBStarTree validateTreeStructure validateSymmetryConstraints s
    = Some s' →
  (representativeModules s = [] ∧ root s' = nullptr) ∨
  ∃ nonSelf rootName rest selfSym' cur st1 cur2 st2,
    representativeModules s ≠ [] ∧
    sortByMinorDimension (getType (symmetryGroup s)) (modules s)
      (List.filter (λ name, negb (isSelfSymmetric s name))
         (representativeModules s)) = Some nonSelf ∧
    match nonSelf, selfSymmetricModules s with
    | n :: r, _ => Some (n, r, selfSymmetricModules s)
    | [], n :: r => Some (n, [], r)
    | [], [] => None
    end = Some (rootName, rest, selfSym') ∧
    chainSelfSymmetric (boundarySide (getType (symmetryGroup s))) selfSym'
      (nodeMapAt (createNodes (representativeModules s)) rootName)
      (createNodes (representativeModules s)) = Some (cur, st1) ∧
    insertAll (boundarySide (getType (symmetryGroup s)))
      (nodeMapAt (createNodes (representativeModules s)) rootName)
      0 rest cur st1 = Some (cur2, st2) ∧
    reify (S (size st2)) st2
      (nodeMapAt (createNodes (representativeModules s)) rootName)
    = Some (root s').
Proof.
  unfold buildInitialBStarTree, boundarySide. intros Hbuild.
  destruct (sortByMinorDimension _ _ _) as [nonSelf|] eqn:Esort; [|done].
  cbn [mbind option_bind] in Hbuild.
  destruct (representativeModules s) as [|rep0 reps0] eqn:Ereps.
  - left. split; [done|]. cbn [mbind option_bind] in Hbuild.
    destruct (reify _ _ None) as [t|] eqn:Et; [|done].
    cbn [mbind option_bind] in Hbuild.
    destruct (negb (validateTreeStructure t)); [done|].
    destruct (negb (validateSymmetryConstraints (withRoot t s))); [done|].
    injection Hbuild as <-. cbn. unfold reify in Et. by injection Et as <-.
  - right.
    destruct (match nonSelf, selfSymmetricModules s with
              | n :: r, _ => Some (n, r, selfSymmetricModules s)
              | [], n :: r => Some (n, [], r)
              | [], [] => None
              end) as [[[rootName rest] selfSym']|] eqn:Echoice; [|done].
    cbn [mbind option_bind] in Hbuild.
    destruct (chainSelfSymmetric _ selfSym' _ _) as [[cur st1]|] eqn:Echain; [|done].
    cbn [mbind option_bind] in Hbuild.
    destruct (insertAll _ _ 0 rest cur st1) as [[cur2 st2]|] eqn:Eins; [|done].
    cbn [mbind option_bind] in Hbuild.
    destruct (reify (S (size st2)) st2 _) as [t|] eqn:Et; [|done].
    cbn [mbind option_bind] in Hbuild.
    destruct (negb (validateTreeStructure t)); [done|].
    destruct (negb (validateSymmetryConstraints (withRoot t s))); [done|].
    injection Hbuild as <-. cbn.
    exists nonSelf, rootName, rest, selfSym', cur, st1, cur2, st2. done.
Qed.

(** X13. Every node of the tree built by [buildInitialBStarTree] is the
    node of a representative module. *)
Theorem initial_tree_nodes_are_representatives (s s' : ASFBStarTree) :
  buildInitialBStarTree validateTreeStructure validateSymmetryConstraints s
    = Some s' →
  ∀ name, name ∈ preorder (root s') → name ∈ representativeModules s.
Proof.
  intros Hbuild name Hname.
  destruct (buildInitialBStarTree_stages _ _ Hbuild)
    as [[_ Hroot]|(nonSelf & rootName & rest & selfSym' & cur & st1 & cur2 & st2
                   & _ & _ & _ & Hchain & Hins & Hreify)].
  { rewrite Hroot in Hname. by apply elem_of_nil in Hname. }
  pose proof (reify_names _ _ _ _ Hreify _ Hname) as Hsome.
  destruct (insertAll_outcome _ _ _ _ _ _ _ _ Hins) as (_ & Hdom & _); [done|].
  apply Hdom in Hsome. apply (chainSelfSymmetric_dom _ _ _ _ _ _ Hchain) in Hsome.
  rewrite createNodes_lookup in Hsome.
  destruct (bool_decide (name ∈ representativeModules s)) eqn:E.
  - by apply bool_decide_eq_true in E.
  - by destruct Hsome.
Qed.

(** X14. When the self-symmetric names of the group are listed once, the
    tree built by [buildInitialBStarTree] holds a node for every
    representative module: no representative is left out. *)
Theorem initial_tree_contains_representatives (s s' : ASFBStarTree) :
  NoDup (selfSymmetricModules s) →
  buildInitialBStarTree validateTreeStructure validateSymmetryConstraints s
    = Some s' →
  ∀ name, name ∈ representativeModules s → name ∈ preorder (root s').
Proof.
  intros Hnd Hbuild name Hrep.
  destruct (buildInitialBStarTree_stages _ _ Hbuild)
    as [[Hreps _]|(nonSelf & rootName & rest & selfSym' & cur & st1 & cur2 & st2
                   & _ & Hsort & Hchoice & Hchain & Hins & Hreify)].
  { rewrite Hreps in Hrep. by apply elem_of_nil in Hrep. }
  set (nodeMap := createNodes (representativeModules s)) in *.
  set (primary := boundarySide (getType (symmetryGroup s))) in *.
  set (rootPtr := nodeMapAt nodeMap rootName) in *.
  assert (Hfreshcell : ∀ k cell, nodeMap !! k = Some cell → cell = mkCell None None).
  { intros k cell. unfold nodeMap. rewrite createNodes_lookup.
    destruct (bool_decide _); congruence. }
  assert (Hnode : is_Some (nodeMap !! name)).
  { unfold nodeMap. rewrite createNodes_lookup.
    rewrite bool_decide_eq_true_2 by done. eauto. }
  assert (Hnode1 : is_Some (st1 !! name)).
  { by apply (chainSelfSymmetric_dom _ _ _ _ _ _ Hchain). }
  destruct (insertAll_outcome _ _ _ _ _ _ _ _ Hins) as (Hkeep & Hdom & Hnew);
    [done|].
  eapply reify_reachable; [|exact Hreify].
  (* the root and the chained names *)
  assert (Hchained : NoDup ([rootName] ++ selfSym') →
                     name ∈ [rootName] ++ selfSym' →
                     reachable st2 rootPtr name).
  { intros Hnd' Hname'. apply Hkeep. eapply (onBranch_reachable primary).
    eapply (chainSelfSymmetric_onBranch primary _ selfSym' [rootName]);
      [exact Hnd'| | | |exact Hchain|exact Hname'|exact Hnode].
    - intros n Hn [cell Hcell]. apply list_elem_of_singleton in Hn as ->.
      unfold rootPtr, nodeMapAt. rewrite Hcell. by eapply onBranch_here.
    - intros c Hc. apply nodeMapAt_Some in Hc as [-> [cell Hcell]].
      split; [by apply list_elem_of_singleton|]. exists cell. split; [done|].
      rewrite (Hfreshcell _ _ Hcell). by destruct primary.
    - intros k cell _ Hcell. rewrite (Hfreshcell _ _ Hcell). by destruct primary. }
  destruct nonSelf as [|n r].
  - (* every representative is self-symmetric *)
    assert (Hself : name ∈ selfSymmetricModules s).
    { destruct (decide (name ∈ selfSymmetricModules s)) as [|Hno]; [done|].
      exfalso.
      assert (Hin : name ∈ List.filter (λ name, negb (isSelfSymmetric s name))
                      (representativeModules s)).
      { apply list_elem_of_In, filter_In. split; [by apply list_elem_of_In|].
        unfold isSelfSymmetric. by rewrite bool_decide_eq_false_2. }
      eapply sortByMinorDimension_elem_2 in Hin; [|exact Hsort].
      by apply elem_of_nil in Hin. }
    destruct (selfSymmetricModules s) as [|n r] eqn:Eself; [done|].
    injection Hchoice as <- <- <-. by apply Hchained.
  - injection Hchoice as <- <- <-.
    assert (Hn : n ∉ selfSymmetricModules s).
    { intros Hin.
      assert (Hn : n ∈ List.filter (λ name, negb (isSelfSymmetric s name))
                     (representativeModules s)).
      { eapply sortByMinorDimension_elem; [exact Hsort|].
        by apply elem_of_cons; left. }
      apply list_elem_of_In, filter_In in Hn as [_ Hn].
      unfold isSelfSymmetric in Hn. apply negb_true_iff in Hn.
      by apply bool_decide_eq_false in Hn. }
    assert (Hnd' : NoDup ([n] ++ selfSymmetricModules s)).
    { apply NoDup_cons. by split. }
    destruct (decide (name ∈ selfSymmetricModules s)) as [Hself|Hno].
    + apply Hchained; [done|]. by apply elem_of_cons; right.
    + assert (Hin : name ∈ List.filter (λ name, negb (isSelfSymmetric s name))
                      (representativeModules s)).
      { apply list_elem_of_In, filter_In. split; [by apply list_elem_of_In|].
        unfold isSelfSymmetric. by rewrite bool_decide_eq_false_2. }
      eapply sortByMinorDimension_elem_2 in Hin; [|exact Hsort].
      apply elem_of_cons in Hin as [->|Hin].
      * apply Hchained; [done|]. by apply elem_of_cons; left.
      * by apply Hnew.
Qed.

(** X15. When the group has a representative that is not self-symmetric,
    the root of the tree built by [buildInitialBStarTree] is such a
    representative, and none of them has a smaller height (VERTICAL) or
    width (HORIZONTAL). *)
Theorem initial_tree_root_minimal (s s' : ASFBStarTree) :
  buildInitialBStarTree validateTreeStructure validateSymmetryConstraints s
    = Some s' →
  ∀ name module,
    name ∈ representativeModules s →
    name ∉ selfSymmetricModules s →
    modules s !! name = Some module →
    ∃ rootName l r rootModule,
      root s' = mkNode rootName l r ∧
      rootName ∈ representativeModules s ∧
      (rootName ∉ selfSymmetricModules s) ∧
      modules s !! rootName = Some rootModule ∧
      minorDimension (getType (symmetryGroup s)) rootModule
      ≤ minorDimension (getType (symmetryGroup s)) module.
Proof.
  intros Hbuild name module Hrep Hno Hm.
  destruct (buildInitialBStarTree_stages _ _ Hbuild)
    as [[Hreps _]|(nonSelf & rootName & rest & selfSym' & cur & st1 & cur2 & st2
                   & _ & Hsort & Hchoice & Hchain & Hins & Hreify)].
  { rewrite Hreps in Hrep. by apply elem_of_nil in Hrep. }
  assert (Hin : name ∈ List.filter (λ name, negb (isSelfSymmetric s name))
                  (representativeModules s)).
  { apply list_elem_of_In, filter_In. split; [by apply list_elem_of_In|].
    unfold isSelfSymmetric. by rewrite bool_decide_eq_false_2. }
  pose proof (sortByMinorDimension_elem_2 _ _ _ _ _ Hsort Hin) as Hsorted.
  destruct nonSelf as [|n r]; [by apply elem_of_nil in Hsorted|].
  injection Hchoice as <- <- <-.
  assert (Hn : n ∈ List.filter (λ name, negb (isSelfSymmetric s name))
                 (representativeModules s)).
  { eapply sortByMinorDimension_elem; [exact Hsort|]. apply list_elem_of_here. }
  apply list_elem_of_In, filter_In in Hn as [Hnrep Hnself].
  apply list_elem_of_In in Hnrep.
  unfold isSelfSymmetric in Hnself. apply negb_true_iff in Hnself.
  apply bool_decide_eq_false in Hnself.
  destruct (sortByMinorDimension_head _ _ _ _ _ Hsort _ _ Hin Hm)
    as (rm & Hrm & Hle).
  assert (Hptr : nodeMapAt (createNodes (representativeModules s)) n = Some n).
  { unfold nodeMapAt. rewrite createNodes_lookup.
    by rewrite bool_decide_eq_true_2. }
  rewrite Hptr in Hreify. unfold reify in Hreify. fold reify in Hreify.
  destruct (st2 !! n) as [cell|]; [|done]. cbn [mbind option_bind] in Hreify.
  destruct (reify (size st2) st2 (cell_left cell)) as [l|]; [|done].
  cbn [mbind option_bind] in Hreify.
  destruct (reify (size st2) st2 (cell_right cell)) as [r'|]; [|done].
  cbn [mbind option_bind] in Hreify. injection Hreify as Hroot.
  exists n, l, r', rm. done.
Qed.

End InitialTreeNodes.

Lemma initial_tree_nodes_are_representatives_witness :
  "c2" ∈ representativeModules (exampleGroup VERTICAL).
Proof.
  refine (initial_tree_nodes_are_representatives (λ _, true) (λ _, true)
            (exampleGroup VERTICAL)
            (default (exampleGroup VERTICAL)
               (buildInitialBStarTree (λ _, true) (λ _, true)
                  (exampleGroup VERTICAL))) eq_refl "c2" _).
  vm_compute.
  repeat first [apply list_elem_of_here | apply list_elem_of_further].
Defined.

Lemma initial_tree_contains_representatives_witness :
  "g" ∈ preorder
    (root (default (exampleGroup HORIZONTAL)
             (buildInitialBStarTree (λ _, true) (λ _, true)
                (exampleGroup HORIZONTAL)))).
Proof.
  refine (initial_tree_contains_representatives (λ _, true) (λ _, true)
            (exampleGroup HORIZONTAL) _ _ eq_refl "g" _).
  - vm_compute. repeat (constructor; [by intros H; repeat (apply elem_of_cons in H as [H|H]; [discriminate H|]); apply elem_of_nil in H|]).
    constructor.
  - vm_compute.
    repeat first [apply list_elem_of_here | apply list_elem_of_further].
Defined.

Lemma initial_tree_root_minimal_witness :
  ∃ rootName l r rootModule,
    root (default (exampleGroup VERTICAL)
            (buildInitialBStarTree (λ _, true) (λ _, true)
               (exampleGroup VERTICAL)))
    = mkNode rootName l r ∧
    rootName ∈ representativeModules (exampleGroup VERTICAL) ∧
    (rootName ∉ selfSymmetricModules (exampleGroup VERTICAL)) ∧
    modules (exampleGroup VERTICAL) !! rootName = Some rootModule ∧
    minorDimension (getType (symmetryGroup (exampleGroup VERTICAL))) rootModule
    ≤ minorDimension (getType (symmetryGroup (exampleGroup VERTICAL)))
        (mkModule 5 5 0 0 false).
Proof.
  refine (initial_tree_root_minimal (λ _, true) (λ _, true)
            (exampleGroup VERTICAL) _ eq_refl "h" _ _ _ _).
  - vm_compute.
    repeat first [apply list_elem_of_here | apply list_elem_of_further].
  - vm_compute. intros H.
    repeat (apply elem_of_cons in H as [H|H]; [discriminate H|]).
    by apply elem_of_nil in H.
  - vm_compute. reflexivity.
Defined.

(** ** The geometry of the packing loop *)

Section PackingGeometry.
Variable getContourHeight : Contour → Z → Z.

Lemma evolves_keep W s s' k m :
  evolves W s s' → k ∉ W → modules s !! k = Some m →
  ∃ m', modules s' !! k = Some m' ∧ dimsEq m m' ∧ posEq m m'.
Proof.
  intros (_ & _ & Ha) Hk Hm. specialize (Ha k). rewrite Hm in Ha.
  destruct (modules s' !! k) as [m'|]; [|done].
  destruct Ha as [Hd Hp]. exists m'. auto.
Qed.

Lemma evolves_dims W s s' k m :
  evolves W s s' → modules s !! k = Some m →
  ∃ m', modules s' !! k = Some m' ∧ dimsEq m m'.
Proof.
  intros (_ & _ & Ha) Hm. specialize (Ha k). rewrite Hm in Ha.
  destruct (modules s' !! k) as [m'|]; [|done].
  destruct Ha as [Hd _]. exists m'. auto.
Qed.

Lemma placeLeftChild_result name x y lname l1 l2 s s1 q1 :
  placeLeftChild getContourHeight name x y (mkNode lname l1 l2) s
    = Some (s1, q1) →
  ∃ m lm leftY,
    modules s !! name = Some m ∧ modules s !! lname = Some lm ∧
    q1 = [(mkNode lname l1 l2, (x + getWidth m, leftY))] ∧
    modules s1 = <[lname := setPosition (x + getWidth m) leftY lm]> (modules s).
Proof.
  unfold placeLeftChild.
  destruct (modules s !! name) as [m|] eqn:Em; [|done]. cbn [mbind option_bind].
  destruct (modules s !! lname) as [lm|] eqn:El; [|done]. cbn [mbind option_bind].
  unfold placeAt. rewrite El. cbn [mbind option_bind].
  intros [= <- <-]. by eexists m, lm, _.
Qed.

Lemma placeRightChild_result name x y rname r1 r2 s s2 q2 :
  placeRightChild name x y (mkNode rname r1 r2) s = Some (s2, q2) →
  ∃ m rm,
    modules s !! name = Some m ∧ modules s !! rname = Some rm ∧
    q2 = [(mkNode rname r1 r2, (x, y + getHeight m))] ∧
    modules s2 = <[rname := setPosition x (y + getHeight m) rm]> (modules s).
Proof.
  unfold placeRightChild.
  destruct (modules s !! name) as [m|] eqn:Em; [|done]. cbn [mbind option_bind].
  unfold placeAt.
  destruct (modules s !! rname) as [rm|] eqn:Er; [|done]. cbn [mbind option_bind].
  intros [= <- <-]. by eexists m, rm.
Qed.

Lemma queueNames_app q1 q2 : queueNames (q1 ++ q2) = queueNames q1 ++ queueNames q2.
Proof. unfold queueNames. by rewrite fmap_app, concat_app. Qed.

Lemma queueNames_cons node xy queue :
  queueNames ((node, xy) :: queue) = preorder node ++ queueNames queue.
Proof. done. Qed.

Lemma queueChildren_names queue k : k ∈ queueChildren queue → k ∈ queueNames queue.
Proof.
  induction queue as [|[node xy] queue IH].
  - done.
  - change (queueChildren ((node, xy) :: queue))
      with (descendants node ++ queueChildren queue).
    rewrite queueNames_cons, preorder_root, !elem_of_app. tauto.
Qed.

Lemma queueNames_elem queue node xy k :
  (node, xy) ∈ queue → k ∈ preorder node → k ∈ queueNames queue.
Proof.
  induction queue as [|[node' xy'] queue IH]; intros Hin Hk.
  { by apply elem_of_nil in Hin. }
  rewrite queueNames_cons, elem_of_app.
  apply elem_of_cons in Hin as [[= <- <-]|Hin]; [by left|right; by apply IH].
Qed.

(** With distinct names, the root of a queued subtree is not among the
    names still to place. *)
Lemma queue_root_not_child queue name l r xy :
  NoDup (queueNames queue) → (mkNode name l r, xy) ∈ queue →
  name ∉ queueChildren queue.
Proof.
  induction queue as [|[node xy'] queue IH]; intros Hnd Hin.
  { by apply elem_of_nil in Hin. }
  rewrite queueNames_cons in Hnd. apply NoDup_app in Hnd as (Hn1 & Hdisj & Hn2).
  change (queueChildren ((node, xy') :: queue))
    with (descendants node ++ queueChildren queue).
  rewrite elem_of_app. apply elem_of_cons in Hin as [[= <- <-]|Hin].
  - simpl in Hn1. apply NoDup_cons in Hn1 as [Hnot _].
    intros [Hd|Hq]; [done|].
    apply (Hdisj name); [apply list_elem_of_here|by apply queueChildren_names].
  - intros [Hd|Hq]; [|by apply IH].
    apply (Hdisj name).
    + rewrite preorder_root, elem_of_app. by right.
    + eapply queueNames_elem; [exact Hin|]. apply list_elem_of_here.
Qed.


Lemma placeLeftChild_geometry name x y l s s1 q1 :
  placeLeftChild getContourHeight name x y l s = Some (s1, q1) →
  queueNames q1 = preorder l ∧ queuePlaced q1 (modules s1) ∧
  match l with
  | nullptr => q1 = []
  | mkNode _ _ _ =>
      ∃ m leftY, modules s !! name = Some m ∧ q1 = [(l, (x + getWidth m, leftY))]
  end.
Proof.
  destruct l as [|lname l1 l2].
  - intros [= <- <-]. split; [done|]. split; [|done].
    intros ? ? ? ? ? Hin. by apply elem_of_nil in Hin.
  - intros H. apply placeLeftChild_result in H
      as (m & lm & leftY & Hm & Hlm & -> & Hs1).
    split; [unfold queueNames; simpl; by rewrite app_nil_r|]. split.
    + intros n l r x' y' Hin. apply list_elem_of_singleton in Hin.
      injection Hin as -> -> -> -> ->. rewrite Hs1, lookup_insert_eq.
      by eexists.
    + by exists m, leftY.
Qed.

Lemma placeRightChild_geometry name x y r s s2 q2 :
  placeRightChild name x y r s = Some (s2, q2) →
  queueNames q2 = preorder r ∧ queuePlaced q2 (modules s2) ∧
  match r with
  | nullptr => q2 = []
  | mkNode _ _ _ =>
      ∃ m, modules s !! name = Some m ∧ q2 = [(r, (x, y + getHeight m))]
  end.
Proof.
  destruct r as [|rname r1 r2].
  - intros [= <- <-]. split; [done|]. split; [|done].
    intros ? ? ? ? ? Hin. by apply elem_of_nil in Hin.
  - intros H. apply placeRightChild_result in H as (m & rm & Hm & Hrm & -> & Hs2).
    split; [unfold queueNames; simpl; by rewrite app_nil_r|]. split.
    + intros n l r x' y' Hin. apply list_elem_of_singleton in Hin.
      injection Hin as -> -> -> -> ->. rewrite Hs2, lookup_insert_eq.
      by eexists.
    + by exists m.
Qed.

Lemma queuePlaced_evolves W queue s s' :
  evolves W s s' →
  (∀ name l r xy, (mkNode name l r, xy) ∈ queue → name ∉ W) →
  queuePlaced queue (modules s) → queuePlaced queue (modules s').
Proof.
  intros Hev HW Hq name l r x y Hin.
  destruct (Hq _ _ _ _ _ Hin) as (m & Hm & Hx & Hy).
  destruct (evolves_keep _ _ _ name m Hev) as (m' & Hm' & _ & [Hpx Hpy]);
    [by eapply HW|done|].
  exists m'. split; [done|]. split; congruence.
Qed.

Lemma queuePlaced_app q1 q2 ms :
  queuePlaced q1 ms → queuePlaced q2 ms → queuePlaced (q1 ++ q2) ms.
Proof.
  intros H1 H2 name l r x y Hin. apply elem_of_app in Hin as [Hin|Hin]; eauto.
Qed.

Lemma rootNames_preorder t k : k ∈ rootNames t → k ∈ preorder t.
Proof. rewrite preorder_root, elem_of_app. by left. Qed.

Lemma dimsEq_trans m1 m2 m3 : dimsEq m1 m2 → dimsEq m2 m3 → dimsEq m1 m3.
Proof. intros [? ?] [? ?]. split; congruence. Qed.

(** The invariant of the packing loop: the queued nodes stand where they
    were queued, and every node popped from the queue gets its children
    placed beside it. *)
Lemma bfsLoop_geometry fuel : ∀ queue s s',
  bfsLoop getContourHeight fuel queue s = Some s' →
  NoDup (queueNames queue) →
  queuePlaced queue (modules s) →
  queuePlaced queue (modules s') ∧
  ∀ node xy t, (node, xy) ∈ queue → t ∈ subtrees node →
               childrenPlaced (modules s') t.
Proof.
  induction fuel as [|fuel IH]; intros queue s s' Hloop Hnd Hq.
  { destruct queue as [|[node [x y]] queue]; [|done]. injection Hloop as <-.
    split; [done|]. intros ? ? ? Hin. by apply elem_of_nil in Hin. }
  assert (Hplaced : queuePlaced queue (modules s')).
  { eapply queuePlaced_evolves; [by eapply bfsLoop_evolves| |done].
    intros name l r xy Hin. by eapply queue_root_not_child. }
  split; [exact Hplaced|].
  destruct queue as [|[node [x y]] queue].
  { intros ? ? ? Hin. by apply elem_of_nil in Hin. }
  cbn [bfsLoop] in Hloop. rewrite queueNames_cons in Hnd.
  assert (Hq' : queuePlaced queue (modules s)).
  { intros n l r x' y' Hin. eapply Hq. by apply list_elem_of_further. }
  destruct node as [|name l r].
  { destruct (IH _ _ _ Hloop Hnd Hq') as [_ Hc].
    intros node xy t Hin Ht. apply elem_of_cons in Hin as [[= -> _]|Hin].
    - by apply elem_of_nil in Ht.
    - by eapply Hc. }
  destruct (placeLeftChild _ _ _ _ _ _) as [[s1 q1]|] eqn:E1; [|done].
  cbn [mbind option_bind] in Hloop.
  destruct (placeRightChild _ _ _ _ _) as [[s2 q2]|] eqn:E2; [|done].
  cbn [mbind option_bind] in Hloop.
  destruct (placeLeftChild_evolves _ _ _ _ _ _ _ _ E1) as [He1 _].
  destruct (placeRightChild_evolves _ _ _ _ _ _ _ E2) as [He2 _].
  destruct (placeLeftChild_geometry _ _ _ _ _ _ _ E1) as (Hn1 & Hp1 & Hl).
  destruct (placeRightChild_geometry _ _ _ _ _ _ _ E2) as (Hn2 & Hp2 & Hr).
  pose proof (bfsLoop_evolves _ _ _ _ _ Hloop) as He3.
  cbn [preorder] in Hnd. rewrite <- app_comm_cons in Hnd.
  apply NoDup_cons in Hnd as [Hname Hnd].
  pose proof Hnd as Hnd0.
  apply NoDup_app in Hnd0 as (Hndlr & Hdisj & _).
  apply NoDup_app in Hndlr as (_ & Hdisjlr & _).
  assert (Hndnew : NoDup (queueNames (queue ++ q1 ++ q2))).
  { rewrite !queueNames_app, Hn1, Hn2.
    rewrite (Permutation_app_comm (queueNames queue) (preorder l ++ preorder r)).
    exact Hnd. }
  assert (Hqnew : queuePlaced (queue ++ q1 ++ q2) (modules s2)).
  { apply queuePlaced_app; [|apply queuePlaced_app; [|done]].
    - eapply (queuePlaced_evolves _ _ s1 s2); [exact He2| |].
      + intros n l' r' xy Hin Hk. apply (Hdisj n).
        * apply elem_of_app. right. by apply rootNames_preorder.
        * eapply queueNames_elem; [exact Hin|]. apply list_elem_of_here.
      + eapply (queuePlaced_evolves _ _ s s1); [exact He1| |done].
        intros n l' r' xy Hin Hk. apply (Hdisj n).
        * apply elem_of_app. left. by apply rootNames_preorder.
        * eapply queueNames_elem; [exact Hin|]. apply list_elem_of_here.
    - eapply (queuePlaced_evolves _ _ s1 s2); [exact He2| |done].
      intros n l' r' xy Hin Hk. apply (Hdisjlr n).
      + rewrite <- Hn1. eapply queueNames_elem; [exact Hin|].
        apply list_elem_of_here.
      + by apply rootNames_preorder. }
  destruct (IH _ _ _ Hloop Hndnew Hqnew) as [HpN HcN].
  intros node xy t Hin Ht. apply elem_of_cons in Hin as [[= -> _]|Hin].
  2: { eapply HcN; [|exact Ht]. apply elem_of_app. by left. }
  cbn [subtrees] in Ht. apply elem_of_cons in Ht as [->|Ht].
  2: { apply elem_of_app in Ht as [Ht|Ht].
       - destruct l as [|lname l1 l2]; [by apply elem_of_nil in Ht|].
         destruct Hl as (m0 & leftY & _ & ->).
         eapply HcN; [|exact Ht]. apply elem_of_app. right.
         apply elem_of_app. left. apply list_elem_of_here.
       - destruct r as [|rname r1 r2]; [by apply elem_of_nil in Ht|].
         destruct Hr as (m1 & _ & ->).
         eapply HcN; [|exact Ht]. apply elem_of_app. right.
         apply elem_of_app. right. apply list_elem_of_here. }
  (* the popped node itself *)
  destruct (Hplaced name l r x y) as (m' & Hm' & Hx & Hy);
    [apply list_elem_of_here|].
  assert (Hdims : ∀ k (ma mb : ModuleT),
            (modules s !! k = Some ma ∨ modules s1 !! k = Some ma) →
            modules s' !! k = Some mb → dimsEq ma mb).
  { intros k ma mb Hma Hmb.
    assert (∃ m1, modules s1 !! k = Some m1 ∧ dimsEq ma m1) as (m1 & Hm1 & Hd1).
    { destruct Hma as [Hma|Hma]; [by eapply evolves_dims|].
      exists ma. split; [done|]. by split. }
    destruct (evolves_dims _ _ _ _ _ He2 Hm1) as (m2 & Hm2 & Hd2).
    destruct (evolves_dims _ _ _ _ _ He3 Hm2) as (m3 & Hm3 & Hd3).
    assert (m3 = mb) as -> by congruence.
    eauto using dimsEq_trans. }
  cbn [childrenPlaced]. exists m'. split; [done|]. split.
  - destruct r as [|rname r1 r2]; [done|].
    destruct Hr as (m1 & Hm1 & ->).
    destruct (HpN rname r1 r2 x (y + getHeight m1)) as (rm & Hrm & Hrx & Hry).
    { apply elem_of_app. right. apply elem_of_app. right. apply list_elem_of_here. }
    exists rm. split; [done|].
    destruct (Hdims name m1 m' (or_intror Hm1) Hm') as [_ Hh]. lia.
  - destruct l as [|lname l1 l2]; [done|].
    destruct Hl as (m0 & leftY & Hm0 & ->).
    destruct (HpN lname l1 l2 (x + getWidth m0) leftY) as (lm & Hlm & Hlx & Hly).
    { apply elem_of_app. right. apply elem_of_app. left. apply list_elem_of_here. }
    exists lm. split; [done|].
    destruct (Hdims name m0 m' (or_introl Hm0) Hm') as [Hw _]. lia.
Qed.

Lemma placeNodes_geometry (s s' : ASFBStarTree) :
  placeNodes getContourHeight s = Some s' →
  NoDup (preorder (root s)) →
  queuePlaced [(root s, (0, 0))] (modules s') ∧
  ∀ t, t ∈ subtrees (root s) → childrenPlaced (modules s') t.
Proof.
  unfold placeNodes. change (root (withContour clearContour s)) with (root s).
  destruct (root s) as [|name l r] eqn:Eroot.
  { intros _ _. split.
    - intros ? ? ? ? ? Hin. apply list_elem_of_singleton in Hin. done.
    - intros t Ht. by apply elem_of_nil in Ht. }
  destruct (placeAt name 0 0 _) as [s1|] eqn:E1; [|done].
  cbn [mbind option_bind]. intros Hloop Hnd.
  destruct (bfsLoop_geometry _ _ _ _ Hloop) as [Hp Hc].
  - unfold queueNames. simpl. by rewrite app_nil_r.
  - intros n l' r' x y Hin. apply list_elem_of_singleton in Hin.
    injection Hin as -> -> -> -> ->.
    unfold placeAt in E1. cbn [modules withContour] in E1.
    destruct (modules s !! name) as [m|]; [|done].
    cbn [mbind option_bind] in E1. injection E1 as <-.
    cbn [modules withContour withModules]. rewrite lookup_insert_eq.
    by eexists.
  - split; [done|]. intros t Ht. eapply Hc; [|exact Ht]. apply list_elem_of_here.
Qed.

(** X16. [packBStarTree] places the root of a tree with distinct node names
    at the origin: when the packing loop ends, before compaction, the
    module of the root stands at (0, 0). *)
Theorem root_placed_at_origin (s s' : ASFBStarTree) (name : string)
    (l r : BStarNode) (module : ModuleT) :
  NoDup (preorder (root s)) →
  placeNodes getContourHeight s = Some s' →
  root s = mkNode name l r →
  modules s' !! name = Some module →
  getX module = 0 ∧ getY module = 0.
Proof.
  intros Hnd Hplace Hroot Hm.
  destruct (placeNodes_geometry _ _ Hplace Hnd) as [Hp _].
  destruct (Hp name l r 0 0) as (m & Hm' & Hx & Hy).
  { rewrite Hroot. apply list_elem_of_here. }
  assert (m = module) as -> by congruence. done.
Qed.



End PackingGeometry.

Lemma root_placed_at_origin_witness :
  getX (mkModule 2 2 0 0 false) = 0 ∧ getY (mkModule 2 2 0 0 false) = 0.
Proof.
  apply (root_placed_at_origin heightAt exampleStaggered
           (default exampleStaggered (placeNodes heightAt exampleStaggered))
           "r" nodeL1 nodeR1).
  - vm_compute. repeat (constructor; [by intros H; repeat (apply elem_of_cons in H as [H|H]; [discriminate H|]); apply elem_of_nil in H|]).
    constructor.
  - vm_compute. reflexivity.
  - reflexivity.
  - vm_compute. reflexivity.
Defined.



(** ** Compaction moves towards the origin *)

Section CompactionMoves.

Lemma compacted_refl pos : compacted pos pos.
Proof.
  intros k. destruct (pos !! k) as [[x y]|]; [|done]. split; by left.
Qed.

Lemma compacted_trans p1 p2 p3 :
  compacted p1 p2 → compacted p2 p3 → compacted p1 p3.
Proof.
  intros H1 H2 k. specialize (H1 k). specialize (H2 k).
  destruct (p1 !! k) as [[x1 y1]|], (p2 !! k) as [[x2 y2]|],
    (p3 !! k) as [[x3 y3]|]; try done.
  destruct H1 as [Hx1 Hy1], H2 as [Hx2 Hy2]. split; lia.
Qed.

Lemma compacted_insert pos c x y x' y' :
  pos !! c = Some (x, y) →
  (x' = x ∨ 0 ≤ x' < x) → (y' = y ∨ 0 ≤ y' < y) →
  compacted pos (<[c := (x', y')]> pos).
Proof.
  intros Hc Hx Hy k. destruct (decide (k = c)) as [->|Hne].
  - by rewrite Hc, lookup_insert_eq.
  - rewrite lookup_insert_ne by done. apply compacted_refl.
Qed.

(** The running minimum of the shift never exceeds its start value. *)
Lemma foldl_shrinks {A} (f : Z → A → Z) :
  (∀ acc a, f acc a ≤ acc) → ∀ l init, foldl f init l ≤ init.
Proof.
  intros Hf l. induction l as [|a l IH]; intros init; simpl; [lia|].
  etrans; [apply IH|]. apply Hf.
Qed.

Lemma shiftLeft_compacted dimensions positions prevs currModule :
  is_Some (positions !! currModule) →
  compacted positions (shiftLeft dimensions positions prevs currModule).
Proof.
  intros [[x y] Hc]. unfold shiftLeft.
  rewrite (lookup_total_correct _ _ _ Hc).
  destruct (dimensions !!! currModule) as [currWidth currHeight].
  match goal with |- context [foldl ?f x prevs] =>
    assert (Hle : foldl f x prevs ≤ x); [|set (sh := foldl f x prevs) in *] end.
  { apply foldl_shrinks. intros acc p.
    destruct (positions !!! p) as [prevX prevY].
    destruct (dimensions !!! p) as [prevWidth prevHeight].
    destruct (negb _); lia. }
  destruct (Z.gtb_spec sh 0) as [Hpos|Hno]; [|apply compacted_refl].
  eapply compacted_insert; [exact Hc| |by left]. right. lia.
Qed.

Lemma shiftDown_compacted dimensions positions prevs currModule :
  is_Some (positions !! currModule) →
  compacted positions (shiftDown dimensions positions prevs currModule).
Proof.
  intros [[x y] Hc]. unfold shiftDown.
  rewrite (lookup_total_correct _ _ _ Hc).
  destruct (dimensions !!! currModule) as [currWidth currHeight].
  match goal with |- context [foldl ?f y prevs] =>
    assert (Hle : foldl f y prevs ≤ y); [|set (sh := foldl f y prevs) in *] end.
  { apply foldl_shrinks. intros acc p.
    destruct (positions !!! p) as [prevX prevY].
    destruct (dimensions !!! p) as [prevWidth prevHeight].
    destruct (negb _); lia. }
  destruct (Z.gtb_spec sh 0) as [Hpos|Hno]; [|apply compacted_refl].
  eapply compacted_insert; [exact Hc|by left|]. right. lia.
Qed.

Lemma compacted_is_Some orig pos k :
  compacted orig pos → is_Some (orig !! k) → is_Some (pos !! k).
Proof.
  intros H [[x y] Hk]. specialize (H k). rewrite Hk in H.
  destruct (pos !! k); [eauto|done].
Qed.

Section ScanMoves.
Variable shift :
  gmap string (Z * Z) → list string → string → gmap string (Z * Z).
Hypothesis shift_compacted : ∀ positions prevs currModule,
  is_Some (positions !! currModule) →
  compacted positions (shift positions prevs currModule).

Lemma compactLoop_compacted todo : ∀ prevs positions,
  (∀ c, c ∈ todo → is_Some (positions !! c)) →
  compacted positions (compactLoop shift prevs todo positions).
Proof.
  induction todo as [|c todo IH]; intros prevs positions Hdom; simpl.
  { apply compacted_refl. }
  assert (Hstep : compacted positions (shift positions prevs c)).
  { apply shift_compacted, Hdom, list_elem_of_here. }
  eapply compacted_trans; [exact Hstep|]. apply IH.
  intros c' Hc'. eapply compacted_is_Some; [exact Hstep|].
  apply Hdom. by apply list_elem_of_further.
Qed.

Lemma compactScan_compacted order positions :
  (∀ c, c ∈ order → is_Some (positions !! c)) →
  compacted positions (compactScan shift order positions).
Proof.
  destruct order as [|first rest]; simpl; [intros; apply compacted_refl|].
  intros Hdom. apply compactLoop_compacted.
  intros c Hc. apply Hdom. by apply list_elem_of_further.
Qed.
End ScanMoves.

Lemma compactX_compacted dimensions positions :
  compacted positions (compactX dimensions positions).
Proof.
  unfold compactX. apply compactScan_compacted.
  - apply shiftLeft_compacted.
  - intros c Hc. by apply elem_of_sortBy, elem_of_keys in Hc.
Qed.

Lemma compactY_compacted dimensions positions :
  compacted positions (compactY dimensions positions).
Proof.
  unfold compactY. apply compactScan_compacted.
  - apply shiftDown_compacted.
  - intros c Hc. by apply elem_of_sortBy, elem_of_keys in Hc.
Qed.

(** On non-negative positions the translation is a move towards the
    origin as well. *)
Lemma translateToOrigin_compacted positions :
  (∀ k x y, positions !! k = Some (x, y) → 0 ≤ x ∧ 0 ≤ y) →
  compacted positions (translateToOrigin positions).
Proof.
  intros Hnn. unfold translateToOrigin.
  pose proof (minXY_spec positions) as Hspec.
  destruct (minXY positions) as [minX minY].
  destruct Hspec as (_ & Hall & HminX & HminY).
  destruct (_ || _); [|apply compacted_refl].
  assert (0 ≤ minX).
  { destruct HminX as [->|(k & x & y & Hk & ->)]; [done|].
    by destruct (Hnn _ _ _ Hk). }
  assert (0 ≤ minY).
  { destruct HminY as [->|(k & x & y & Hk & ->)]; [done|].
    by destruct (Hnn _ _ _ Hk). }
  intros k. rewrite lookup_fmap.
  destruct (positions !! k) as [[x y]|] eqn:Ek; [|done]. simpl.
  destruct (Hall _ _ _ Ek). split; lia.
Qed.

Lemma collectPositions_lookup s positions dimensions :
  collectPositions s = Some (positions, dimensions) →
  ∀ k, k ∈ representativeModules s →
    ∃ m, modules s !! k = Some m ∧ positions !! k = Some (getX m, getY m).
Proof.
  unfold collectPositions.
  generalize (∅ : gmap string (Z * Z)) at 1 as p0.
  generalize (∅ : gmap string (Z * Z)) as d0.
  induction (representativeModules s) as [|name names IH]; intros d0 p0 Hc k Hk.
  { by apply elem_of_nil in Hk. }
  rewrite foldOption_cons in Hc.
  destruct (modules s !! name) as [m|] eqn:Em; [|done].
  cbn [mbind option_bind] in Hc.
  destruct (decide (k ∈ names)) as [Hin|Hno]; [by eapply IH|].
  apply elem_of_cons in Hk as [->|Hk]; [|done].
  exists m. split; [done|].
  eapply (foldOption_invariant_in _
            (λ pd : gmap string (Z * Z) * gmap string (Z * Z),
               pd.1 !! name = Some (getX m, getY m))) in Hc; [exact Hc| |].
  - intros [p d] a b' Ha Hb. destruct (modules s !! a); [|done].
    simpl. intros [= <-]. simpl in *. rewrite lookup_insert_ne; [done|].
    by intros ->.
  - simpl. apply lookup_insert_eq.
Qed.

(** [writeBack] gives every module with an entry the position of its
    entry. *)
Lemma writeBack_lookup positions ms ms' :
  writeBack positions ms = Some ms' →
  ∀ k x y, positions !! k = Some (x, y) →
    ∃ m, ms !! k = Some m ∧ ms' !! k = Some (setPosition x y m).
Proof.
  unfold writeBack.
  assert (Hgen : ∀ (l : list (string * (Z * Z))) (ms ms' : gmap string ModuleT),
            NoDup l.*1 →
            foldOption (λ ms' '(moduleName, (x, y)),
                          m ← ms' !! moduleName;
                          Some (<[moduleName := setPosition x y m]> ms')) l ms
            = Some ms' →
            (∀ k, k ∉ l.*1 → ms' !! k = ms !! k) ∧
            ∀ k x y, (k, (x, y)) ∈ l →
              ∃ m, ms !! k = Some m ∧ ms' !! k = Some (setPosition x y m)).
  { clear. induction l as [|[name [x0 y0]] l IH]; intros ms ms' Hnd Hf.
    - rewrite foldOption_nil in Hf. injection Hf as <-. split; [done|].
      intros ? ? ? Hin. by apply elem_of_nil in Hin.
    - rewrite foldOption_cons in Hf.
      destruct (ms !! name) as [m|] eqn:Em; [|done].
      cbn [mbind option_bind] in Hf.
      rewrite fmap_cons in Hnd. apply NoDup_cons in Hnd as [Hname Hnd].
      destruct (IH _ _ Hnd Hf) as [Hother Hin]. split.
      + intros k Hk. rewrite fmap_cons in Hk.
        apply not_elem_of_cons in Hk as [Hne Hk].
        rewrite Hother by done. by rewrite lookup_insert_ne.
      + intros k x y [[= -> -> ->]|Hk]%elem_of_cons.
        * exists m. split; [done|]. rewrite Hother by done.
          apply lookup_insert_eq.
        * destruct (Hin _ _ _ Hk) as (m' & Hm' & Hres).
          assert (Hne : k ≠ name).
          { intros ->. apply Hname. apply list_elem_of_fmap.
            by exists (name, (x, y)). }
          rewrite lookup_insert_ne in Hm' by done. by exists m'. }
  intros Hw k x y Hk.
  destruct (Hgen _ _ _ (NoDup_fst_map_to_list positions) Hw) as [_ Hin].
  apply Hin. by apply elem_of_map_to_list.
Qed.

(** The positions before and after [compactPlacement]. *)
Lemma compactPlacement_stages (s s' : ASFBStarTree) :
  compactPlacement s = Some s' →
  ∃ positions0 dimensions positions2,
    collectPositions s = Some (positions0, dimensions) ∧
    positions2
    = (let positions1 := translateToOrigin positions0 in
       match getType (symmetryGroup s) with
       | VERTICAL => compactY dimensions (compactX dimensions positions1)
       | HORIZONTAL => compactX dimensions (compactY dimensions positions1)
       end) ∧
    writeBack positions2 (modules s) = Some (modules s').
Proof.
  unfold compactPlacement.
  destruct (collectPositions s) as [[positions0 dimensions]|] eqn:Ecol; [|done].
  cbn [mbind option_bind].
  destruct (writeBack _ _) as [ms|] eqn:Ew; [|done].
  intros [= <-]. by eexists _, _, _.
Qed.


(** The positions that [compactPlacement] works on and writes back. *)
Lemma compactPlacement_compacted (s s' : ASFBStarTree) :
  (∀ name module, name ∈ representativeModules s →
     modules s !! name = Some module → 0 ≤ getX module ∧ 0 ≤ getY module) →
  compactPlacement s = Some s' →
  ∃ positions0 positions1 positions2,
    (∀ k, k ∈ representativeModules s →
       ∃ m, modules s !! k = Some m ∧ positions0 !! k = Some (getX m, getY m)) ∧
    (∀ k, k ∉ representativeModules s → positions0 !! k = None) ∧
    positions1 = translateToOrigin positions0 ∧
    compacted positions0 positions1 ∧ compacted positions1 positions2 ∧
    (∀ k x y, positions2 !! k = Some (x, y) →
       ∃ m, modules s !! k = Some m ∧ modules s' !! k = Some (setPosition x y m)) ∧
    (∀ k, positions2 !! k = None → modules s' !! k = modules s !! k).
Proof.
  intros Hnn Hc.
  destruct (compactPlacement_stages _ _ Hc)
    as (positions0 & dimensions & positions2 & Hcol & -> & Hw).
  cbv zeta in Hw.
  exists positions0, (translateToOrigin positions0).
  exists (match getType (symmetryGroup s) with
          | VERTICAL =>
              compactY dimensions (compactX dimensions (translateToOrigin positions0))
          | HORIZONTAL =>
              compactX dimensions (compactY dimensions (translateToOrigin positions0))
          end).
  split; [by eapply collectPositions_lookup|].
  split; [intros k Hk; by eapply collectPositions_keys|].
  split; [done|]. split; [|split].
  - apply translateToOrigin_compacted. intros k x y Hk.
    destruct (decide (k ∈ representativeModules s)) as [Hin|Hno].
    + destruct (collectPositions_lookup _ _ _ Hcol _ Hin) as (m & Hm & Hp).
      rewrite Hp in Hk. injection Hk as <- <-. by eapply Hnn.
    + by rewrite (collectPositions_keys _ _ _ _ Hcol Hno) in Hk.
  - destruct (getType (symmetryGroup s)).
    + eapply compacted_trans; [apply compactX_compacted|apply compactY_compacted].
    + eapply compacted_trans; [apply compactY_compacted|apply compactX_compacted].
  - split; [by apply writeBack_lookup|].
    intros k Hk. by eapply writeBack_other.
Qed.

(** X19. Compaction only moves representatives towards the origin: when
    every representative has non-negative coordinates, [compactPlacement]
    leaves each one with coordinates between 0 and its previous ones, and
    with its dimensions. *)
Theorem compaction_moves_towards_origin (s s' : ASFBStarTree) :
  (∀ name module, name ∈ representativeModules s →
     modules s !! name = Some module → 0 ≤ getX module ∧ 0 ≤ getY module) →
  compactPlacement s = Some s' →
  ∀ name module module',
    name ∈ representativeModules s →
    modules s !! name = Some module →
    modules s' !! name = Some module' →
    0 ≤ getX module' ≤ getX module ∧ 0 ≤ getY module' ≤ getY module ∧
    getWidth module' = getWidth module ∧ getHeight module' = getHeight module.
Proof.
  intros Hnn Hc name module module' Hrep Hm Hm'.
  destruct (compactPlacement_compacted _ _ Hnn Hc)
    as (p0 & p1 & p2 & Hrepk & _ & _ & H01 & H12 & Hwb & _).
  destruct (Hrepk _ Hrep) as (m & Hm0 & Hp0).
  assert (m = module) as -> by congruence.
  destruct (Hnn _ _ Hrep Hm) as [Hx0 Hy0].
  pose proof (compacted_trans _ _ _ H01 H12 name) as H02. rewrite Hp0 in H02.
  destruct (p2 !! name) as [[x y]|] eqn:Ep2; [|done].
  destruct (Hwb _ _ _ Ep2) as (m & Hm1 & Hres).
  assert (m = module) as -> by congruence.
  rewrite Hres in Hm'. injection Hm' as <-. simpl. lia.
Qed.

Lemma compaction_moves_towards_origin_witness :
  0 ≤ getX (mkModule 2 2 6 0 false) ≤ getX (mkModule 2 2 6 0 false) ∧
  0 ≤ getY (mkModule 2 2 6 0 false) ≤ getY (mkModule 2 2 6 0 false) ∧
  getWidth (mkModule 2 2 6 0 false) = getWidth (mkModule 2 2 6 0 false) ∧
  getHeight (mkModule 2 2 6 0 false) = getHeight (mkModule 2 2 6 0 false).
Proof.
  apply (compaction_moves_towards_origin exampleSelfRootPacked
           exampleSelfRootCompacted) with (name := "d").
  - intros name module Hn.
    apply elem_of_cons in Hn as [->|Hn];
      [|apply list_elem_of_singleton in Hn as ->];
      intros Hm; vm_compute in Hm; injection Hm as <-; simpl; lia.
  - vm_compute. reflexivity.
  - vm_compute. apply list_elem_of_further, list_elem_of_here.
  - vm_compute. reflexivity.
  - vm_compute. reflexivity.
Defined.

(** X20. When the group has a representative and every representative has
    coordinates in [0, INT_MAX], the placement left by [compactPlacement]
    touches both axes: some representative has x = 0 and some
    representative has y = 0. *)
Theorem compaction_touches_axes (s s' : ASFBStarTree) :
  representativeModules s ≠ [] →
  (∀ name module, name ∈ representativeModules s →
     modules s !! name = Some module →
     0 ≤ getX module ≤ INT_MAX ∧ 0 ≤ getY module ≤ INT_MAX) →
  compactPlacement s = Some s' →
  (∃ name module, name ∈ representativeModules s ∧
     modules s' !! name = Some module ∧ getX module = 0) ∧
  (∃ name module, name ∈ representativeModules s ∧
     modules s' !! name = Some module ∧ getY module = 0).
Proof.
  intros Hne Hrange Hc.
  assert (Hnn : ∀ name module, name ∈ representativeModules s →
            modules s !! name = Some module → 0 ≤ getX module ∧ 0 ≤ getY module).
  { intros name module Hn Hm. destruct (Hrange _ _ Hn Hm). lia. }
  destruct (compactPlacement_compacted _ _ Hnn Hc)
    as (p0 & p1 & p2 & Hrepk & Hother & Hp1 & H01 & H12 & Hwb & _).
  (* the positions are not empty, non-negative and in range *)
  assert (Hp0 : ∀ k x y, p0 !! k = Some (x, y) →
            k ∈ representativeModules s ∧ 0 ≤ x ≤ INT_MAX ∧ 0 ≤ y ≤ INT_MAX).
  { intros k x y Hk.
    destruct (decide (k ∈ representativeModules s)) as [Hin|Hno].
    - destruct (Hrepk _ Hin) as (m & Hm & Hp). rewrite Hp in Hk.
      injection Hk as <- <-. split; [done|]. by eapply Hrange.
    - by rewrite (Hother _ Hno) in Hk. }
  assert (Hne0 : p0 ≠ ∅).
  { destruct (representativeModules s) as [|r0 rs] eqn:Er; [done|].
    destruct (Hrepk r0) as (m & _ & Hp); [apply list_elem_of_here|].
    intros E. by rewrite E in Hp. }
  (* after the translation both minima are 0 *)
  assert (Hmin : minXY p1 = (0, 0)).
  { pose proof (minXY_spec p0) as Hspec.
    destruct (minXY p0) as [minX minY] eqn:Emin.
    destruct Hspec as (_ & Hall & HminX & HminY).
    destruct (map_choose _ Hne0) as (k0 & [x0 y0] & Hk0).
    destruct (Z.gtb_spec minX 0) as [Hx|Hx].
    { rewrite Hp1. apply translateToOrigin_min_zero; [done| |rewrite Emin; by left].
      intros k x y Hk. destruct (Hp0 _ _ _ Hk). lia. }
    destruct (Z.gtb_spec minY 0) as [Hy|Hy].
    { rewrite Hp1. apply translateToOrigin_min_zero; [done| |rewrite Emin; by right].
      intros k x y Hk. destruct (Hp0 _ _ _ Hk). lia. }
    assert (Hid : p1 = p0).
    { rewrite Hp1. unfold translateToOrigin. rewrite Emin.
      destruct (Z.gtb_spec minX 0); [lia|]. destruct (Z.gtb_spec minY 0); [lia|].
      done. }
    rewrite Hid, Emin.
    assert (0 ≤ minX).
    { destruct HminX as [->|(k & x & y & Hk & ->)]; [done|].
      destruct (Hp0 _ _ _ Hk). lia. }
    assert (0 ≤ minY).
    { destruct HminY as [->|(k & x & y & Hk & ->)]; [done|].
      destruct (Hp0 _ _ _ Hk). lia. }
    f_equal; lia. }
  pose proof (minXY_spec p1) as Hspec1. rewrite Hmin in Hspec1.
  destruct Hspec1 as (_ & _ & HminX & HminY).
  assert (Hfinal : ∀ k x y, p1 !! k = Some (x, y) →
            ∃ x2 y2 m, k ∈ representativeModules s ∧
              modules s' !! k = Some (setPosition x2 y2 m) ∧
              (x = 0 → x2 = 0) ∧ (y = 0 → y2 = 0)).
  { intros k x y Hk. pose proof (H12 k) as Hk2. rewrite Hk in Hk2.
    destruct (p2 !! k) as [[x2 y2]|] eqn:Ek2; [|done].
    destruct (Hwb _ _ _ Ek2) as (m & _ & Hres).
    exists x2, y2, m. split.
    { pose proof (H01 k) as Hk0. rewrite Hk in Hk0.
      destruct (p0 !! k) as [[x0 y0]|] eqn:Ek0; [|done].
      by destruct (Hp0 _ _ _ Ek0). }
    split; [done|]. split; lia. }
  split.
  - destruct HminX as [?|(k & x & y & Hk & Hx)]; [done|].
    destruct (Hfinal _ _ _ Hk) as (x2 & y2 & m & Hin & Hres & Hx2 & _).
    exists k, (setPosition x2 y2 m). split; [done|]. split; [done|].
    simpl. by apply Hx2.
  - destruct HminY as [?|(k & x & y & Hk & Hy)]; [done|].
    destruct (Hfinal _ _ _ Hk) as (x2 & y2 & m & Hin & Hres & _ & Hy2).
    exists k, (setPosition x2 y2 m). split; [done|]. split; [done|].
    simpl. by apply Hy2.
Qed.

Lemma compaction_touches_axes_witness :
  (∃ name module, name ∈ representativeModules exampleSelfRootPacked ∧
     modules exampleSelfRootCompacted !! name = Some module ∧ getX module = 0) ∧
  (∃ name module, name ∈ representativeModules exampleSelfRootPacked ∧
     modules exampleSelfRootCompacted !! name = Some module ∧ getY module = 0).
Proof.
  apply (compaction_touches_axes exampleSelfRootPacked exampleSelfRootCompacted).
  - discriminate.
  - intros name module Hn.
    apply elem_of_cons in Hn as [->|Hn];
      [|apply list_elem_of_singleton in Hn as ->];
      intros Hm; vm_compute in Hm; injection Hm as <-; vm_compute;
      repeat split; discriminate.
  - vm_compute. reflexivity.
Defined.

End CompactionMoves.

(** ** Compaction creates no overlap *)

Section CompactionOverlap.

Lemma compacted_dom orig pos k :
  compacted orig pos → (is_Some (pos !! k) ↔ is_Some (orig !! k)).
Proof.
  intros H. specialize (H k).
  destruct (orig !! k) as [[x0 y0]|], (pos !! k) as [[x y]|]; try done;
    split; intros [? ?]; done || eauto.
Qed.

(** A running bound: the loop value only moves one way, and passes the
    value of every element that is taken into account. *)
Lemma foldl_bound_elem {A} (R : Z → Z → Prop) `{!PreOrder R}
    (f : Z → A → Z) (p : A) (v : Z) :
  (∀ acc a, R (f acc a) acc) → (∀ acc, R (f acc p) v) →
  ∀ l init, p ∈ l → R (foldl f init l) v.
Proof.
  intros Hf Hp l. induction l as [|a l IH]; intros init Hin; simpl.
  { by apply elem_of_nil in Hin. }
  apply elem_of_cons in Hin as [->|Hin]; [|by apply IH].
  transitivity (f init a); [|apply Hp].
  clear -Hf PreOrder0. generalize (f init a) as i.
  induction l as [|b l IH]; intros i; simpl; [reflexivity|].
  transitivity (f i b); [apply IH|apply Hf].
Qed.

(** Moving one rectangle to the left creates no overlap, when it stays
    right of the rectangles of [prevs] that share a y range with it and no
    other rectangle starts left of it. *)
Lemma moveLeft_noOverlap dimensions positions (prevs : list string) c x y x' :
  noOverlap dimensions positions → positiveDims dimensions positions →
  positions !! c = Some (x, y) → x' ≤ x →
  (∀ b pb, b ∈ prevs → b ≠ c → positions !! b = Some pb →
     pb.2 + (dimensions !!! b).2 ≤ y ∨ y + (dimensions !!! c).2 ≤ pb.2 ∨
     pb.1 + (dimensions !!! b).1 ≤ x') →
  (∀ b pb, b ≠ c → b ∉ prevs → positions !! b = Some pb → x ≤ pb.1) →
  noOverlap dimensions (<[c := (x', y)]> positions).
Proof.
  intros Hno Hpos Hc Hle Hprev Hlater.
  assert (Hone : ∀ b pb, b ≠ c → positions !! b = Some pb →
            ¬ rectsOverlap (x', y) (dimensions !!! c) pb (dimensions !!! b)).
  { intros b pb Hne Hb Hov.
    pose proof (Hno c b _ _ (not_eq_sym Hne) Hc Hb) as Hold.
    destruct (Hpos b) as [Hw Hh]; [eauto|].
    unfold rectsOverlap in *. simpl in *.
    destruct (decide (b ∈ prevs)) as [Hin|Hout].
    - destruct (Hprev _ _ Hin Hne Hb) as [?|[?|?]]; lia.
    - pose proof (Hlater _ _ Hne Hout Hb). apply Hold. lia. }
  intros a b pa pb Hab Ha Hb.
  destruct (decide (a = c)) as [->|Hac].
  - rewrite lookup_insert_eq in Ha. injection Ha as <-.
    rewrite lookup_insert_ne in Hb by done. by apply Hone.
  - rewrite lookup_insert_ne in Ha by done.
    destruct (decide (b = c)) as [->|Hbc].
    + rewrite lookup_insert_eq in Hb. injection Hb as <-.
      intros Hov. apply (Hone a pa Hac Ha).
      unfold rectsOverlap in *. tauto.
    + rewrite lookup_insert_ne in Hb by done. by apply Hno.
Qed.

Lemma moveDown_noOverlap dimensions positions (prevs : list string) c x y y' :
  noOverlap dimensions positions → positiveDims dimensions positions →
  positions !! c = Some (x, y) → y' ≤ y →
  (∀ b pb, b ∈ prevs → b ≠ c → positions !! b = Some pb →
     pb.1 + (dimensions !!! b).1 ≤ x ∨ x + (dimensions !!! c).1 ≤ pb.1 ∨
     pb.2 + (dimensions !!! b).2 ≤ y') →
  (∀ b pb, b ≠ c → b ∉ prevs → positions !! b = Some pb → y ≤ pb.2) →
  noOverlap dimensions (<[c := (x, y')]> positions).
Proof.
  intros Hno Hpos Hc Hle Hprev Hlater.
  assert (Hone : ∀ b pb, b ≠ c → positions !! b = Some pb →
            ¬ rectsOverlap (x, y') (dimensions !!! c) pb (dimensions !!! b)).
  { intros b pb Hne Hb Hov.
    pose proof (Hno c b _ _ (not_eq_sym Hne) Hc Hb) as Hold.
    destruct (Hpos b) as [Hw Hh]; [eauto|].
    unfold rectsOverlap in *. simpl in *.
    destruct (decide (b ∈ prevs)) as [Hin|Hout].
    - destruct (Hprev _ _ Hin Hne Hb) as [?|[?|?]]; lia.
    - pose proof (Hlater _ _ Hne Hout Hb). apply Hold. lia. }
  intros a b pa pb Hab Ha Hb.
  destruct (decide (a = c)) as [->|Hac].
  - rewrite lookup_insert_eq in Ha. injection Ha as <-.
    rewrite lookup_insert_ne in Hb by done. by apply Hone.
  - rewrite lookup_insert_ne in Ha by done.
    destruct (decide (b = c)) as [->|Hbc].
    + rewrite lookup_insert_eq in Hb. injection Hb as <-.
      intros Hov. apply (Hone a pa Hac Ha).
      unfold rectsOverlap in *. tauto.
    + rewrite lookup_insert_ne in Hb by done. by apply Hno.
Qed.

Lemma shiftLeft_noOverlap dimensions positions prevs c :
  noOverlap dimensions positions → positiveDims dimensions positions →
  is_Some (positions !! c) →
  (∀ b pb pc, b ≠ c → b ∉ prevs →
     positions !! b = Some pb → positions !! c = Some pc → pc.1 ≤ pb.1) →
  noOverlap dimensions (shiftLeft dimensions positions prevs c).
Proof.
  intros Hno Hpos [[x y] Hc] Hlater. unfold shiftLeft.
  rewrite (lookup_total_correct _ _ _ Hc).
  destruct (dimensions !!! c) as [currWidth currHeight] eqn:Ed.
  match goal with |- context [foldl ?f x prevs] =>
    set (step := f); set (sh := foldl step x prevs) end.
  assert (Hshrink : ∀ acc p, step acc p ≤ acc).
  { intros acc p. unfold step.
    destruct (positions !!! p) as [prevX prevY].
    destruct (dimensions !!! p) as [prevWidth prevHeight].
    destruct (negb _); lia. }
  destruct (Z.gtb_spec sh 0) as [Hsh|Hsh]; [|done].
  eapply (moveLeft_noOverlap _ _ prevs); try done.
  - lia.
  - intros b [bx by_] Hin Hne Hb. rewrite Ed. cbn [fst snd].
    destruct (dimensions !!! b) as [bw bh] eqn:Edb. cbn [fst snd].
    destruct (decide (by_ + bh ≤ y)) as [|Hn1]; [by left|].
    destruct (decide (y + currHeight ≤ by_)) as [|Hn2]; [by right; left|].
    right. right.
    assert (Hb' : sh ≤ x - (bx + bw)); [|lia].
    apply (foldl_bound_elem Z.le step b); [done| |done].
    intros acc. unfold step. rewrite (lookup_total_correct _ _ _ Hb), Edb.
    destruct (Z.leb_spec (by_ + bh) y); [lia|].
    destruct (Z.leb_spec (y + currHeight) by_); [lia|]. simpl. lia.
  - intros b pb Hne Hout Hb. by apply (Hlater b pb (x, y)).
Qed.

Lemma shiftDown_noOverlap dimensions positions prevs c :
  noOverlap dimensions positions → positiveDims dimensions positions →
  is_Some (positions !! c) →
  (∀ b pb pc, b ≠ c → b ∉ prevs →
     positions !! b = Some pb → positions !! c = Some pc → pc.2 ≤ pb.2) →
  noOverlap dimensions (shiftDown dimensions positions prevs c).
Proof.
  intros Hno Hpos [[x y] Hc] Hlater. unfold shiftDown.
  rewrite (lookup_total_correct _ _ _ Hc).
  destruct (dimensions !!! c) as [currWidth currHeight] eqn:Ed.
  match goal with |- context [foldl ?f y prevs] =>
    set (step := f); set (sh := foldl step y prevs) end.
  assert (Hshrink : ∀ acc p, step acc p ≤ acc).
  { intros acc p. unfold step.
    destruct (positions !!! p) as [prevX prevY].
    destruct (dimensions !!! p) as [prevWidth prevHeight].
    destruct (negb _); lia. }
  destruct (Z.gtb_spec sh 0) as [Hsh|Hsh]; [|done].
  eapply (moveDown_noOverlap _ _ prevs); try done.
  - lia.
  - intros b [bx by_] Hin Hne Hb. rewrite Ed. cbn [fst snd].
    destruct (dimensions !!! b) as [bw bh] eqn:Edb. cbn [fst snd].
    destruct (decide (bx + bw ≤ x)) as [|Hn1]; [by left|].
    destruct (decide (x + currWidth ≤ bx)) as [|Hn2]; [by right; left|].
    right. right.
    assert (Hb' : sh ≤ y - (by_ + bh)); [|lia].
    apply (foldl_bound_elem Z.le step b); [done| |done].
    intros acc. unfold step. rewrite (lookup_total_correct _ _ _ Hb), Edb.
    destruct (Z.leb_spec (bx + bw) x); [lia|].
    destruct (Z.leb_spec (x + currWidth) bx); [lia|]. simpl. lia.
  - intros b pb Hne Hout Hb. by apply (Hlater b pb (x, y)).
Qed.


Lemma insertBy_Permutation {A} (key : A → Z) (a : A) (l : list A) :
  insertBy key a l ≡ₚ a :: l.
Proof.
  induction l as [|b l IH]; simpl; [done|].
  destruct (key b <? key a); [|done]. rewrite IH. apply Permutation_swap.
Qed.

Lemma sortBy_Permutation {A} (key : A → Z) (l : list A) : sortBy key l ≡ₚ l.
Proof.
  unfold sortBy. induction l as [|a l IH]; simpl; [done|].
  by rewrite insertBy_Permutation, IH.
Qed.

Lemma insertBy_sorted {A} (key : A → Z) (a : A) (l : list A) :
  StronglySorted (λ u v, key u ≤ key v) l →
  StronglySorted (λ u v, key u ≤ key v) (insertBy key a l).
Proof.
  induction l as [|b l IH]; intros Hs; simpl.
  { repeat constructor. }
  apply StronglySorted_inv in Hs as [Hs Hb].
  destruct (Z.ltb_spec (key b) (key a)) as [Hlt|Hge].
  - constructor; [by apply IH|].
    apply Forall_forall. intros u Hu. apply elem_of_insertBy in Hu as [->|Hu].
    + lia.
    + rewrite Forall_forall in Hb. by apply Hb.
  - constructor; [by constructor|]. constructor; [done|].
    eapply Forall_impl; [exact Hb|]. simpl. intros; lia.
Qed.

(** [std::sort] leaves the vector in non-decreasing key order. *)
Lemma sortBy_sorted {A} (key : A → Z) (l : list A) :
  StronglySorted (λ u v, key u ≤ key v) (sortBy key l).
Proof.
  unfold sortBy. induction l as [|a l IH]; simpl; [constructor|].
  by apply insertBy_sorted.
Qed.

Lemma StronglySorted_ext_in {A} (R R' : A → A → Prop) (l : list A) :
  (∀ a b, a ∈ l → b ∈ l → R a b → R' a b) →
  StronglySorted R l → StronglySorted R' l.
Proof.
  intros Himp Hs. induction Hs as [|a l Hl IH Ha]; constructor.
  - apply IH. intros u v Hu Hv. apply Himp; by apply list_elem_of_further.
  - apply Forall_forall. intros u Hu. rewrite Forall_forall in Ha.
    apply Himp; [apply list_elem_of_here|by apply list_elem_of_further|by apply Ha].
Qed.

Lemma positiveDims_compacted dimensions orig pos :
  compacted orig pos → positiveDims dimensions orig → positiveDims dimensions pos.
Proof. intros Hc Hp k Hk. apply Hp. by apply (compacted_dom _ _ _ Hc). Qed.

Section ScanOverlap.
Variable dimensions : gmap string (Z * Z).
Variable key : Z * Z → Z.
Variable shift :
  gmap string (Z * Z) → list string → string → gmap string (Z * Z).
Hypothesis shift_other : ∀ positions prevs currModule k,
  k ≠ currModule → shift positions prevs currModule !! k = positions !! k.
Hypothesis shift_compacted : ∀ positions prevs currModule,
  is_Some (positions !! currModule) →
  compacted positions (shift positions prevs currModule).
Hypothesis shift_noOverlap : ∀ positions prevs c,
  noOverlap dimensions positions → positiveDims dimensions positions →
  is_Some (positions !! c) →
  (∀ b pb pc, b ≠ c → b ∉ prevs →
     positions !! b = Some pb → positions !! c = Some pc → key pc ≤ key pb) →
  noOverlap dimensions (shift positions prevs c).

Lemma compactLoop_noOverlap todo : ∀ prevs positions,
  NoDup (prevs ++ todo) →
  (∀ k, is_Some (positions !! k) → k ∈ prevs ++ todo) →
  (∀ c, c ∈ todo → is_Some (positions !! c)) →
  StronglySorted (λ a b, key (positions !!! a) ≤ key (positions !!! b)) todo →
  positiveDims dimensions positions → noOverlap dimensions positions →
  noOverlap dimensions (compactLoop shift prevs todo positions).
Proof.
  induction todo as [|c todo IH]; intros prevs positions Hnd Hdom Htodo Hs Hpos Hno;
    simpl; [done|].
  apply StronglySorted_inv in Hs as [Hs Hc].
  assert (Hcsome : is_Some (positions !! c)) by apply Htodo, list_elem_of_here.
  pose proof (shift_compacted positions prevs c Hcsome) as Hcomp.
  assert (Hcnot : (c ∉ todo) ∧ (c ∉ prevs)).
  { apply NoDup_app in Hnd as (_ & Hdisj & Hnd).
    apply NoDup_cons in Hnd as [? _]. split; [done|].
    intros Hin. apply (Hdisj c Hin), list_elem_of_here. }
  destruct Hcnot as [Hct Hcp].
  apply IH.
  - by rewrite <- app_assoc.
  - intros k Hk. rewrite <- app_assoc. apply Hdom.
    by apply (compacted_dom _ _ _ Hcomp).
  - intros c' Hc'. apply (compacted_dom _ _ _ Hcomp).
    apply Htodo. by apply list_elem_of_further.
  - eapply StronglySorted_ext_in; [|exact Hs]. intros a b Ha Hb Hab.
    assert (Hac : a ≠ c) by (by intros ->).
    assert (Hbc : b ≠ c) by (by intros ->).
    unfold lookup_total, map_lookup_total in *.
    by rewrite !shift_other.
  - by eapply positiveDims_compacted.
  - apply shift_noOverlap; try done.
    intros b pb pc Hne Hout Hb Hpc.
    assert (Hin : b ∈ todo).
    { assert (Hb' : b ∈ prevs ++ c :: todo) by (apply Hdom; eauto).
      apply elem_of_app in Hb' as [?|Hb']; [done|].
      by apply elem_of_cons in Hb' as [?|?]. }
    rewrite Forall_forall in Hc. specialize (Hc b Hin).
    by rewrite (lookup_total_correct _ _ _ Hb), (lookup_total_correct _ _ _ Hpc) in Hc.
Qed.

Lemma compactScan_noOverlap order positions :
  NoDup order →
  (∀ k, is_Some (positions !! k) ↔ k ∈ order) →
  StronglySorted (λ a b, key (positions !!! a) ≤ key (positions !!! b)) order →
  positiveDims dimensions positions → noOverlap dimensions positions →
  noOverlap dimensions (compactScan shift order positions).
Proof.
  intros Hnd Hdom Hs Hpos Hno. destruct order as [|first rest]; simpl; [done|].
  apply StronglySorted_inv in Hs as [Hs _].
  apply compactLoop_noOverlap; try done.
  - intros k Hk. by apply Hdom.
  - intros c Hc. apply Hdom. by apply list_elem_of_further.
Qed.

End ScanOverlap.

Lemma keys_order (key : string → Z) (positions : gmap string (Z * Z)) :
  NoDup (sortBy key (map_to_list positions).*1) ∧
  (∀ k, is_Some (positions !! k) ↔ k ∈ sortBy key (map_to_list positions).*1).
Proof.
  split.
  - rewrite sortBy_Permutation. apply NoDup_fst_map_to_list.
  - intros k. by rewrite elem_of_sortBy, elem_of_keys.
Qed.

Lemma compactX_noOverlap dimensions positions :
  positiveDims dimensions positions → noOverlap dimensions positions →
  noOverlap dimensions (compactX dimensions positions).
Proof.
  intros Hpos Hno. unfold compactX.
  destruct (keys_order (λ a, (positions !!! a).1) positions) as [Hnd Hdom].
  apply (compactScan_noOverlap dimensions fst); try done.
  - apply shiftLeft_other.
  - apply shiftLeft_compacted.
  - intros. by apply shiftLeft_noOverlap.
  - apply (sortBy_sorted (λ a, (positions !!! a).1)).
Qed.

Lemma compactY_noOverlap dimensions positions :
  positiveDims dimensions positions → noOverlap dimensions positions →
  noOverlap dimensions (compactY dimensions positions).
Proof.
  intros Hpos Hno. unfold compactY.
  destruct (keys_order (λ a, (positions !!! a).2) positions) as [Hnd Hdom].
  apply (compactScan_noOverlap dimensions snd); try done.
  - apply shiftDown_other.
  - apply shiftDown_compacted.
  - intros. by apply shiftDown_noOverlap.
  - apply (sortBy_sorted (λ a, (positions !!! a).2)).
Qed.

(** The translation moves every rectangle by the same vector. *)
Lemma translateToOrigin_noOverlap dimensions positions :
  noOverlap dimensions positions →
  noOverlap dimensions (translateToOrigin positions).
Proof.
  intros Hno. unfold translateToOrigin.
  destruct (minXY positions) as [minX minY].
  destruct (_ || _); [|done].
  intros a b pa pb Hab. rewrite !lookup_fmap.
  destruct (positions !! a) as [[xa ya]|] eqn:Ea; [|done].
  destruct (positions !! b) as [[xb yb]|] eqn:Eb; [|done].
  simpl. intros [= <-] [= <-] Hov. apply (Hno a b _ _ Hab Ea Eb).
  unfold rectsOverlap in *. simpl in *. lia.
Qed.

Lemma translateToOrigin_dom positions k :
  is_Some (translateToOrigin positions !! k) ↔ is_Some (positions !! k).
Proof.
  unfold translateToOrigin. destruct (minXY positions) as [minX minY].
  destruct (_ || _); [|done]. rewrite lookup_fmap.
  destruct (positions !! k); simpl; split; intros [? ?]; done || eauto.
Qed.

Lemma collectPositions_dimensions s positions dimensions :
  collectPositions s = Some (positions, dimensions) →
  ∀ k, k ∈ representativeModules s →
    ∃ m, modules s !! k = Some m ∧
         dimensions !!! k = (getWidth m, getHeight m).
Proof.
  unfold collectPositions.
  generalize (∅ : gmap string (Z * Z)) at 1 as p0.
  generalize (∅ : gmap string (Z * Z)) as d0.
  induction (representativeModules s) as [|name names IH]; intros d0 p0 Hc k Hk.
  { by apply elem_of_nil in Hk. }
  rewrite foldOption_cons in Hc.
  destruct (modules s !! name) as [m|] eqn:Em; [|done].
  cbn [mbind option_bind] in Hc.
  destruct (decide (k ∈ names)) as [Hin|Hno]; [by eapply IH|].
  apply elem_of_cons in Hk as [->|Hk]; [|done].
  exists m. split; [done|]. apply lookup_total_correct.
  eapply (foldOption_invariant_in _
            (λ pd : gmap string (Z * Z) * gmap string (Z * Z),
               pd.2 !! name = Some (getWidth m, getHeight m))) in Hc; [exact Hc| |].
  - intros [p d] a b' Ha Hb. destruct (modules s !! a); [|done].
    simpl. intros [= <-]. simpl in *. rewrite lookup_insert_ne; [done|].
    by intros ->.
  - simpl. apply lookup_insert_eq.
Qed.


End CompactionOverlap.


(** ** [optimizeModulePositions] *)

Section Optimize.

Lemma minXYModules_spec (ms : gmap string ModuleT) :
  let '(minX, minY) := minXYModules ms in
  (∀ k m, ms !! k = Some m → minX ≤ getX m ∧ minY ≤ getY m) ∧
  (minX = INT_MAX ∨ ∃ k m, ms !! k = Some m ∧ minX = getX m) ∧
  (minY = INT_MAX ∨ ∃ k m, ms !! k = Some m ∧ minY = getY m).
Proof.
  unfold minXYModules.
  assert (Hgen : ∀ l : list (string * ModuleT),
            let '(minX, minY) :=
              foldr (λ '(_, module) '(minX, minY),
                       (Z.min minX (getX module), Z.min minY (getY module)))
                    (INT_MAX, INT_MAX) l in
            (∀ k m, (k, m) ∈ l → minX ≤ getX m ∧ minY ≤ getY m) ∧
            (minX = INT_MAX ∨ ∃ k m, (k, m) ∈ l ∧ minX = getX m) ∧
            (minY = INT_MAX ∨ ∃ k m, (k, m) ∈ l ∧ minY = getY m)).
  { induction l as [|[k m] l IH]; simpl.
    - split; [|by split; left]. intros ? ? H. by apply elem_of_nil in H.
    - destruct (foldr _ _ l) as [minX minY].
      destruct IH as (Hall & HminX & HminY). split; [|split].
      + intros k' m' [[= -> ->]|Hin]%elem_of_cons; [lia|].
        destruct (Hall _ _ Hin). lia.
      + destruct (Z.min_spec minX (getX m)) as [[_ ->]|[_ ->]].
        * destruct HminX as [?|(k' & m' & Hin & ->)]; [by left|right].
          exists k', m'. split; [by apply elem_of_cons; right|done].
        * right. exists k, m. split; [by apply elem_of_cons; left|done].
      + destruct (Z.min_spec minY (getY m)) as [[_ ->]|[_ ->]].
        * destruct HminY as [?|(k' & m' & Hin & ->)]; [by left|right].
          exists k', m'. split; [by apply elem_of_cons; right|done].
        * right. exists k, m. split; [by apply elem_of_cons; left|done]. }
  specialize (Hgen (map_to_list ms)).
  destruct (foldr _ _ (map_to_list ms)) as [minX minY].
  destruct Hgen as (Hall & HminX & HminY). split; [|split].
  - intros k m Hk. apply (Hall k). by apply elem_of_map_to_list.
  - destruct HminX as [?|(k & m & Hin & ->)]; [by left|right].
    exists k, m. split; [by apply elem_of_map_to_list|done].
  - destruct HminY as [?|(k & m & Hin & ->)]; [by left|right].
    exists k, m. split; [by apply elem_of_map_to_list|done].
Qed.

(** On a placement that fits, the first step moves every module by one
    vector, after which no module has a negative coordinate. *)
Lemma shiftToPositive_spec (ms : gmap string ModuleT) :
  shiftFits ms →
  ∃ shiftX shiftY,
    0 ≤ shiftX ∧ 0 ≤ shiftY ∧
    (∀ k, shiftToPositive ms !! k
          = (λ module, setPosition (getX module + shiftX)
                                   (getY module + shiftY) module) <$> ms !! k) ∧
    (∀ k m, ms !! k = Some m → 0 ≤ getX m + shiftX ∧ 0 ≤ getY m + shiftY).
Proof.
  intros Hfits.
  unfold shiftToPositive. pose proof (minXYModules_spec ms) as Hspec.
  destruct (minXYModules ms) as [minX minY].
  destruct Hspec as (Hall & HminX & HminY).
  destruct ((minX <? 0) || (minY <? 0)) eqn:Eg.
  - assert (HnegX : wrapInt (- minX) = - minX).
    { apply wrapInt_in_range. unfold INT_MIN.
      destruct HminX as [->|(k & m & Hk & ->)]; [unfold INT_MAX; lia|].
      destruct (Hfits _ _ _ _ Hk Hk) as (? & _). unfold INT_MAX in *. lia. }
    assert (HnegY : wrapInt (- minY) = - minY).
    { apply wrapInt_in_range. unfold INT_MIN.
      destruct HminY as [->|(k & m & Hk & ->)]; [unfold INT_MAX; lia|].
      destruct (Hfits _ _ _ _ Hk Hk) as (_ & ? & _). unfold INT_MAX in *. lia. }
    rewrite HnegX, HnegY.
    exists (Z.max 0 (- minX)), (Z.max 0 (- minY)).
    split; [lia|]. split; [lia|].
    assert (Hnn : ∀ k m, ms !! k = Some m →
              0 ≤ getX m + Z.max 0 (- minX) ∧ 0 ≤ getY m + Z.max 0 (- minY)).
    { intros k m Hk. destruct (Hall _ _ Hk). lia. }
    split; [|exact Hnn].
    intros k. rewrite lookup_fmap. destruct (ms !! k) as [m|] eqn:Hk; [|done].
    cbn [fmap option_fmap option_map]. f_equal.
    destruct (Hnn _ _ Hk) as [Hx Hy].
    destruct (Hfits _ _ _ _ Hk Hk) as (Hmx & Hmy & _).
    rewrite !wrapInt_in_range; [done| |].
    + split; [unfold INT_MIN; lia|].
      destruct (Z.max_spec 0 (- minY)) as [[_ ->]|[_ ->]]; [|lia].
      destruct HminY as [->|(k' & m' & Hk' & ->)]; [unfold INT_MAX in *; lia|].
      destruct (Hfits _ _ _ _ Hk Hk') as (_ & _ & _ & ?). lia.
    + split; [unfold INT_MIN; lia|].
      destruct (Z.max_spec 0 (- minX)) as [[_ ->]|[_ ->]]; [|lia].
      destruct HminX as [->|(k' & m' & Hk' & ->)]; [unfold INT_MAX in *; lia|].
      destruct (Hfits _ _ _ _ Hk Hk') as (_ & _ & ? & _). lia.
  - exists 0, 0. split; [done|]. split; [done|]. split.
    + intros k. destruct (ms !! k) as [[w h x y r]|]; [|done]. simpl.
      unfold setPosition. simpl. by rewrite !Z.add_0_r.
    + intros k m Hk. destruct (Hall _ _ Hk).
      apply orb_false_iff in Eg. rewrite !Z.ltb_ge in Eg. lia.
Qed.

(** The first step moves nothing when no coordinate is negative. *)
Lemma shiftToPositive_nonneg (ms : gmap string ModuleT) :
  (∀ k m, ms !! k = Some m → 0 ≤ getX m ∧ 0 ≤ getY m) →
  shiftToPositive ms = ms.
Proof.
  intros Hnn.
  unfold shiftToPositive. pose proof (minXYModules_spec ms) as Hspec.
  destruct (minXYModules ms) as [minX minY].
  destruct Hspec as (Hall & HminX & HminY).
  destruct ((minX <? 0) || (minY <? 0)) eqn:Eg; [|done].
  exfalso. apply orb_true_iff in Eg. rewrite !Z.ltb_lt in Eg.
  destruct Eg as [Hx|Hy].
  - destruct HminX as [->|(k & m & Hk & ->)]; [done|].
    destruct (Hnn _ _ Hk). lia.
  - destruct HminY as [->|(k & m & Hk & ->)]; [done|].
    destruct (Hnn _ _ Hk). lia.
Qed.

Lemma foldl_grows {A} (f : Z → A → Z) :
  (∀ acc a, acc ≤ f acc a) → ∀ l init, init ≤ foldl f init l.
Proof.
  intros Hf l. induction l as [|a l IH]; intros init; simpl; [lia|].
  etrans; [apply Hf|apply IH].
Qed.

Lemma foldl_reaches {A} (f : Z → A → Z) (p : A) (v : Z) :
  (∀ acc a, acc ≤ f acc a) → (∀ acc, v ≤ f acc p) →
  ∀ l init, p ∈ l → v ≤ foldl f init l.
Proof.
  intros Hf Hp l. induction l as [|a l IH]; intros init Hin; simpl.
  { by apply elem_of_nil in Hin. }
  apply elem_of_cons in Hin as [->|Hin]; [|by apply IH].
  etrans; [apply Hp|]. by apply foldl_grows.
Qed.

Lemma pullLeft_other dimensions positions prevs currModule k :
  k ≠ currModule →
  pullLeft dimensions positions prevs currModule !! k = positions !! k.
Proof.
  intros Hne. unfold pullLeft. cbv zeta.
  destruct (_ <? _); [|done]. by rewrite lookup_insert_ne.
Qed.

Lemma pullDown_other dimensions positions prevs currModule k :
  k ≠ currModule →
  pullDown dimensions positions prevs currModule !! k = positions !! k.
Proof.
  intros Hne. unfold pullDown. cbv zeta.
  destruct (_ <? _); [|done]. by rewrite lookup_insert_ne.
Qed.

Lemma pullLeft_compacted dimensions positions prevs currModule :
  is_Some (positions !! currModule) →
  compacted positions (pullLeft dimensions positions prevs currModule).
Proof.
  intros [[x y] Hc]. unfold pullLeft. cbv zeta.
  rewrite (lookup_total_correct _ _ _ Hc). cbn [fst snd].
  match goal with |- context [foldl ?f 0 prevs] =>
    assert (Hge : 0 ≤ foldl f 0 prevs); [|set (mx := foldl f 0 prevs) in *] end.
  { apply foldl_grows. intros acc p. destruct (negb _); lia. }
  destruct (Z.ltb_spec mx x) as [Hlt|Hno]; [|apply compacted_refl].
  eapply compacted_insert; [exact Hc| |by left]. right. lia.
Qed.

Lemma pullDown_compacted dimensions positions prevs currModule :
  is_Some (positions !! currModule) →
  compacted positions (pullDown dimensions positions prevs currModule).
Proof.
  intros [[x y] Hc]. unfold pullDown. cbv zeta.
  rewrite (lookup_total_correct _ _ _ Hc). cbn [fst snd].
  match goal with |- context [foldl ?f 0 prevs] =>
    assert (Hge : 0 ≤ foldl f 0 prevs); [|set (mx := foldl f 0 prevs) in *] end.
  { apply foldl_grows. intros acc p. destruct (negb _); lia. }
  destruct (Z.ltb_spec mx y) as [Hlt|Hno]; [|apply compacted_refl].
  eapply compacted_insert; [exact Hc|by left|]. right. lia.
Qed.

Lemma pullLeft_noOverlap dimensions positions prevs c :
  noOverlap dimensions positions → positiveDims dimensions positions →
  is_Some (positions !! c) →
  (∀ b pb pc, b ≠ c → b ∉ prevs →
     positions !! b = Some pb → positions !! c = Some pc → pc.1 ≤ pb.1) →
  noOverlap dimensions (pullLeft dimensions positions prevs c).
Proof.
  intros Hno Hpos [[x y] Hc] Hlater. unfold pullLeft. cbv zeta.
  rewrite (lookup_total_correct _ _ _ Hc). cbn [fst snd].
  match goal with |- context [foldl ?f 0 prevs] =>
    set (step := f); set (mx := foldl step 0 prevs) end.
  assert (Hgrow : ∀ acc p, acc ≤ step acc p).
  { intros acc p. unfold step. destruct (negb _); lia. }
  destruct (Z.ltb_spec mx x) as [Hlt|Hge]; [|done].
  eapply (moveLeft_noOverlap _ _ prevs); try done.
  - lia.
  - intros b [bx by_] Hin Hne Hb. cbn [fst snd].
    destruct (decide (by_ + (dimensions !!! b).2 ≤ y)) as [|Hn1]; [by left|].
    destruct (decide (y + (dimensions !!! c).2 ≤ by_)) as [|Hn2]; [by right; left|].
    right. right.
    apply (foldl_reaches step b); [done| |done].
    intros acc. unfold step. rewrite (lookup_total_correct _ _ _ Hb). cbn [fst snd].
    destruct (Z.leb_spec (by_ + (dimensions !!! b).2) y); [lia|].
    destruct (Z.leb_spec (y + (dimensions !!! c).2) by_); [lia|]. simpl. lia.
  - intros b pb Hne Hout Hb. by apply (Hlater b pb (x, y)).
Qed.

Lemma pullDown_noOverlap dimensions positions prevs c :
  noOverlap dimensions positions → positiveDims dimensions positions →
  is_Some (positions !! c) →
  (∀ b pb pc, b ≠ c → b ∉ prevs →
     positions !! b = Some pb → positions !! c = Some pc → pc.2 ≤ pb.2) →
  noOverlap dimensions (pullDown dimensions positions prevs c).
Proof.
  intros Hno Hpos [[x y] Hc] Hlater. unfold pullDown. cbv zeta.
  rewrite (lookup_total_correct _ _ _ Hc). cbn [fst snd].
  match goal with |- context [foldl ?f 0 prevs] =>
    set (step := f); set (mx := foldl step 0 prevs) end.
  assert (Hgrow : ∀ acc p, acc ≤ step acc p).
  { intros acc p. unfold step. destruct (negb _); lia. }
  destruct (Z.ltb_spec mx y) as [Hlt|Hge]; [|done].
  eapply (moveDown_noOverlap _ _ prevs); try done.
  - lia.
  - intros b [bx by_] Hin Hne Hb. cbn [fst snd].
    destruct (decide (bx + (dimensions !!! b).1 ≤ x)) as [|Hn1]; [by left|].
    destruct (decide (x + (dimensions !!! c).1 ≤ bx)) as [|Hn2]; [by right; left|].
    right. right.
    apply (foldl_reaches step b); [done| |done].
    intros acc. unfold step. rewrite (lookup_total_correct _ _ _ Hb). cbn [fst snd].
    destruct (Z.leb_spec (bx + (dimensions !!! b).1) x); [lia|].
    destruct (Z.leb_spec (x + (dimensions !!! c).1) bx); [lia|]. simpl. lia.
  - intros b pb Hne Hout Hb. by apply (Hlater b pb (x, y)).
Qed.


(** The positions that [optimizeModulePositions] works on and writes
    back. *)
Lemma optimizeModulePositions_stages (s s' : ASFBStarTree) :
  optimizeModulePositions s = Some s' →
  ∃ positions0 dimensions positions1 positions2,
    collectPositions (withModules (shiftToPositive (modules s)) s)
    = Some (positions0, dimensions) ∧
    positions1
    = compactScan (pullLeft dimensions)
        (sortBy (λ a, (positions0 !!! a).1) (representativeModules s))
        positions0 ∧
    positions2
    = compactScan (pullDown dimensions)
        (sortBy (λ a, (positions1 !!! a).2) (representativeModules s))
        positions1 ∧
    compacted positions0 positions1 ∧ compacted positions1 positions2 ∧
    (∀ k, is_Some (positions0 !! k) ↔ k ∈ representativeModules s) ∧
    writeBack positions2 (shiftToPositive (modules s)) = Some (modules s').
Proof.
  unfold optimizeModulePositions. cbv zeta.
  destruct (collectPositions _) as [[positions0 dimensions]|] eqn:Ecol; [|done].
  cbn [mbind option_bind].
  destruct (writeBack _ _) as [ms|] eqn:Ew; [|done].
  intros [= <-]. eexists _, _, _, _. split; [done|]. split; [done|].
  split; [done|].
  assert (Hdom : ∀ k, is_Some (positions0 !! k) ↔ k ∈ representativeModules s).
  { intros k. split.
    - intros Hk. destruct (decide (k ∈ representativeModules s)); [done|].
      rewrite (collectPositions_keys _ _ _ _ Ecol) in Hk by done. by destruct Hk.
    - intros Hk. destruct (collectPositions_lookup _ _ _ Ecol k Hk) as (m & _ & Hp).
      eauto. }
  assert (H01 : compacted positions0
                  (compactScan (pullLeft dimensions)
                     (sortBy (λ a, (positions0 !!! a).1) (representativeModules s))
                     positions0)).
  { apply compactScan_compacted; [apply pullLeft_compacted|].
    intros c Hc. apply Hdom. by apply elem_of_sortBy in Hc. }
  split; [exact H01|]. split; [|split; [exact Hdom|exact Ew]].
  apply compactScan_compacted; [apply pullDown_compacted|].
  intros c Hc. apply (compacted_dom _ _ _ H01), Hdom.
  by apply elem_of_sortBy in Hc.
Qed.

(** X22. On a placement that can be shifted inside the range of [int]
    (every coordinate between [-INT_MAX] and [INT_MAX], no two modules more
    than [INT_MAX] apart in x or in y), [optimizeModulePositions] leaves no
    module of the table at a negative coordinate. *)
Theorem optimize_leaves_no_negative_coordinate (s s' : ASFBStarTree) :
  shiftFits (modules s) →
  optimizeModulePositions s = Some s' →
  ∀ name module, modules s' !! name = Some module →
    0 ≤ getX module ∧ 0 ≤ getY module.
Proof.
  intros Hfits Hopt name module Hm.
  destruct (optimizeModulePositions_stages _ _ Hopt)
    as (p0 & dims & p1 & p2 & Hcol & _ & _ & H01 & H12 & Hdom & Hw).
  destruct (shiftToPositive_spec (modules s) Hfits)
    as (dx & dy & _ & _ & Hshift & Hnn).
  assert (Hms1 : ∀ k m, shiftToPositive (modules s) !! k = Some m →
            0 ≤ getX m ∧ 0 ≤ getY m).
  { intros k m. rewrite Hshift. destruct (modules s !! k) as [m0|] eqn:E; [|done].
    simpl. intros [= <-]. simpl. by eapply Hnn. }
  destruct (p2 !! name) as [[x y]|] eqn:Ep2.
  - destruct (writeBack_lookup _ _ _ Hw _ _ _ Ep2) as (m0 & Hm0 & Hres).
    rewrite Hres in Hm. injection Hm as <-. simpl.
    pose proof (compacted_trans _ _ _ H01 H12 name) as H02. rewrite Ep2 in H02.
    destruct (p0 !! name) as [[x0 y0]|] eqn:Ep0; [|done].
    assert (Hrep : name ∈ representativeModules s) by (apply Hdom; eauto).
    destruct (collectPositions_lookup _ _ _ Hcol name Hrep) as (m1 & Hm1 & Hp).
    cbn [modules withModules] in Hm1. rewrite Hp in Ep0. injection Ep0 as <- <-.
    destruct (Hms1 _ _ Hm1). lia.
  - rewrite (writeBack_other _ _ _ _ Hw Ep2) in Hm. by eapply Hms1.
Qed.

Lemma exampleScattered_fits : shiftFits (modules exampleScattered).
Proof.
  intros k m k' m' Hk Hk'.
  assert (Hin : (k, m) ∈ map_to_list (modules exampleScattered))
    by (by apply elem_of_map_to_list).
  assert (Hin' : (k', m') ∈ map_to_list (modules exampleScattered))
    by (by apply elem_of_map_to_list).
  clear Hk Hk'. vm_compute in Hin, Hin'.
  repeat (apply elem_of_cons in Hin as [[= -> ->]|Hin]);
    try (by apply elem_of_nil in Hin);
    repeat (apply elem_of_cons in Hin' as [[= -> ->]|Hin']);
    try (by apply elem_of_nil in Hin');
    unfold INT_MAX; simpl; lia.
Qed.

Lemma optimize_leaves_no_negative_coordinate_witness :
  0 ≤ getX (mkModule 2 2 0 0 false) ∧ 0 ≤ getY (mkModule 2 2 0 0 false).
Proof.
  apply (optimize_leaves_no_negative_coordinate exampleScattered
           exampleScatteredOptimized) with (name := "a").
  - apply exampleScattered_fits.
  - vm_compute. reflexivity.
  - vm_compute. reflexivity.
Defined.



(** X24. On a placement without negative coordinates,
    [optimizeModulePositions] moves no module away from the origin: a
    module that is not a representative is left as it is, and a
    representative ends with coordinates between 0 and its previous
    ones. *)
Theorem optimize_moves_towards_origin (s s' : ASFBStarTree) :
  (∀ name module, modules s !! name = Some module →
     0 ≤ getX module ∧ 0 ≤ getY module) →
  optimizeModulePositions s = Some s' →
  (∀ name, name ∉ representativeModules s →
     modules s' !! name = modules s !! name) ∧
  (∀ name module module',
     name ∈ representativeModules s →
     modules s !! name = Some module →
     modules s' !! name = Some module' →
     0 ≤ getX module' ≤ getX module ∧ 0 ≤ getY module' ≤ getY module).
Proof.
  intros Hnn Hopt.
  destruct (optimizeModulePositions_stages _ _ Hopt)
    as (p0 & dims & p1 & p2 & Hcol & _ & _ & H01 & H12 & Hdom & Hw).
  rewrite (shiftToPositive_nonneg _ Hnn) in Hw, Hcol.
  pose proof (compacted_trans _ _ _ H01 H12) as H02.
  split.
  - intros name Hname. eapply writeBack_other; [exact Hw|].
    destruct (p2 !! name) eqn:E; [|done]. exfalso. apply Hname, Hdom.
    apply (compacted_dom _ _ _ H02). eauto.
  - intros name module module' Hrep Hm Hm'.
    destruct (collectPositions_lookup _ _ _ Hcol name Hrep) as (m1 & Hm1 & Hp).
    cbn [modules withModules] in Hm1.
    assert (m1 = module) as -> by congruence.
    specialize (H02 name). rewrite Hp in H02.
    destruct (p2 !! name) as [[x y]|] eqn:Ep2; [|done].
    destruct (writeBack_lookup _ _ _ Hw _ _ _ Ep2) as (m0 & Hm0 & Hres).
    rewrite Hres in Hm'. injection Hm' as <-. simpl.
    destruct (Hnn _ _ Hm). lia.
Qed.

Lemma optimize_moves_towards_origin_witness :
  (∀ name, name ∉ representativeModules exampleSelfRootPacked →
     modules exampleSelfRootOptimized !! name
     = modules exampleSelfRootPacked !! name) ∧
  (∀ name module module',
     name ∈ representativeModules exampleSelfRootPacked →
     modules exampleSelfRootPacked !! name = Some module →
     modules exampleSelfRootOptimized !! name = Some module' →
     0 ≤ getX module' ≤ getX module ∧ 0 ≤ getY module' ≤ getY module).
Proof.
  apply (optimize_moves_towards_origin exampleSelfRootPacked
           exampleSelfRootOptimized).
  - intros name module Hm.
    assert (Hin : (name, module) ∈ map_to_list (modules exampleSelfRootPacked))
      by (by apply elem_of_map_to_list).
    vm_compute in Hin.
    repeat (apply elem_of_cons in Hin as [[= -> ->]|Hin]; [simpl; lia|]).
    by apply elem_of_nil in Hin.
  - vm_compute. reflexivity.
Defined.

End Optimize.

(** ** [pack] completes *)

Section PackCompletes.
Variable getContourHeight : Contour → Z → Z.

(** A loop whose body succeeds under an invariant succeeds. *)
Lemma foldOption_total {A B} (f : B → A → option B) (Inv : B → Prop)
    (l : list A) :
  (∀ b a, a ∈ l → Inv b → ∃ b', f b a = Some b' ∧ Inv b') →
  ∀ b, Inv b → ∃ b', foldOption f l b = Some b' ∧ Inv b'.
Proof.
  induction l as [|a l IH]; intros Hstep b Hb.
  - exists b. by rewrite foldOption_nil.
  - rewrite foldOption_cons.
    destruct (Hstep b a) as (b1 & -> & Hb1); [apply list_elem_of_here|done|].
    cbn [mbind option_bind]. apply IH; [|done].
    intros b2 a2 Ha2. apply Hstep. by apply list_elem_of_further.
Qed.

(** [loop_total l Inv res Hres Hinv]: the loop over [l] in the goal
    succeeds with a result [res] that satisfies [Inv]; the first goal left
    is the step condition, the second one the invariant at the start. *)
Ltac loop_total l Inv res Hres Hinv :=
  match goal with
  | |- context [foldOption ?f l ?b] =>
      let H := fresh in
      assert (H : ∃ b', foldOption f l b = Some b' ∧ Inv b');
      [apply (foldOption_total f Inv l)|destruct H as (res & Hres & Hinv)]
  end.

Lemma collectPositions_total s :
  (∀ k, k ∈ representativeModules s → is_Some (modules s !! k)) →
  is_Some (collectPositions s).
Proof.
  intros Hreps. unfold collectPositions.
  loop_total (representativeModules s)
    (λ _ : gmap string (Z * Z) * gmap string (Z * Z), True) res Hres Hinv.
  - intros [p d] name Hname _. destruct (Hreps _ Hname) as [m ->].
    cbn [mbind option_bind]. eauto.
  - done.
  - rewrite Hres. eauto.
Qed.

Lemma writeBack_total positions (ms : gmap string ModuleT) :
  (∀ k, is_Some (positions !! k) → is_Some (ms !! k)) →
  is_Some (writeBack positions ms).
Proof.
  intros Hdom. unfold writeBack.
  loop_total (map_to_list positions)
    (λ b : gmap string ModuleT, ∀ k, is_Some (ms !! k) → is_Some (b !! k))
    res Hres Hinv.
  - intros b [name [x y]] Hin Hb. apply elem_of_map_to_list in Hin.
    destruct (Hb name) as [m Hm]; [apply Hdom; eauto|].
    rewrite Hm. cbn [mbind option_bind]. eexists. split; [done|].
    intros k Hk. apply lookup_insert_is_Some'. right. by apply Hb.
  - done.
  - rewrite Hres. eauto.
Qed.

Lemma compactPlacement_total s :
  (∀ k, k ∈ representativeModules s → is_Some (modules s !! k)) →
  is_Some (compactPlacement s).
Proof.
  intros Hreps. unfold compactPlacement.
  destruct (collectPositions_total s Hreps) as [[p0 dims] Hcol]. rewrite Hcol.
  cbn [mbind option_bind].
  match goal with |- context [writeBack ?p _] => set (p2 := p) end.
  destruct (writeBack_total p2 (modules s)) as [ms ->]; [|by eexists].
  intros k Hk. apply Hreps.
  assert (H0 : is_Some (p0 !! k)).
  { apply translateToOrigin_dom. unfold p2 in Hk.
    destruct (getType (symmetryGroup s)).
    - apply (compacted_dom _ _ _ (compactX_compacted dims _)).
      by apply (compacted_dom _ _ _ (compactY_compacted dims _)).
    - apply (compacted_dom _ _ _ (compactY_compacted dims _)).
      by apply (compacted_dom _ _ _ (compactX_compacted dims _)). }
  destruct (decide (k ∈ representativeModules s)) as [|Hno]; [done|].
  rewrite (collectPositions_keys _ _ _ _ Hcol Hno) in H0. by destruct H0.
Qed.

Lemma evolves_is_Some W s s' k :
  evolves W s s' → is_Some (modules s !! k) → is_Some (modules s' !! k).
Proof. intros (_ & _ & Ha). by eapply agree_is_Some. Qed.

Lemma packBStarTree_total s :
  (∀ k, k ∈ preorder (root s) → is_Some (modules s !! k)) →
  (∀ k, k ∈ representativeModules s → is_Some (modules s !! k)) →
  is_Some (packBStarTree getContourHeight s).
Proof.
  intros Htree Hreps. unfold packBStarTree.
  destruct (placeNodes_total getContourHeight s Htree) as [s1 Hs1].
  rewrite Hs1. cbn [mbind option_bind].
  pose proof (placeNodes_evolves _ _ _ Hs1) as Hev.
  apply compactPlacement_total. intros k Hk.
  destruct Hev as ((_ & Hr & _) & _ & Ha). rewrite <- Hr in Hk.
  eapply agree_is_Some; [exact Ha|]. by apply Hreps.
Qed.

Lemma calculateSymmetryAxisPosition_total s :
  (∀ k, k ∈ representativeModules s → is_Some (modules s !! k)) →
  (∀ repName symName, (repName, symName) ∈ repToPairMap s →
     is_Some (modules s !! repName) ∧ is_Some (modules s !! symName)) →
  (∀ k, k ∈ selfSymmetricModules s → is_Some (modules s !! k)) →
  is_Some (calculateSymmetryAxisPosition s).
Proof.
  intros Hreps Hpairs Hself. unfold calculateSymmetryAxisPosition.
  destruct (repToPairMap s) as [|pr prs] eqn:Ep.
  - destruct (selfSymmetricModules s) as [|n ns] eqn:Es; [eauto|].
    rewrite <- Es in *. unfold maxRepFarEdge, maxSelfSymExtent.
    loop_total (representativeModules s) (λ _ : Z, True) maxX HmaxX Hi1.
    { intros b name Hname _. destruct (Hreps _ Hname) as [m ->].
      cbn [mbind option_bind]. eauto. }
    { done. }
    rewrite HmaxX. cbn [mbind option_bind].
    loop_total (selfSymmetricModules s) (λ _ : Z, True) maxW HmaxW Hi2.
    { intros b name Hname _. destruct (Hself _ Hname) as [m ->].
      cbn [mbind option_bind]. eauto. }
    { done. }
    rewrite HmaxW. cbn [mbind option_bind]. eauto.
  - rewrite <- Ep in *. unfold maxRepEdge, minAxisOverPairs.
    loop_total (repToPairMap s) (λ _ : Q, True) edge Hedge Hi1.
    { intros b [r y] Hin _. destruct (Hpairs _ _ Hin) as [[m ->] _].
      cbn [mbind option_bind]. eauto. }
    { done. }
    rewrite Hedge. cbn [mbind option_bind].
    loop_total (repToPairMap s) (λ _ : Q, True) ax Hax Hi2.
    { intros b [r y] Hin _. destruct (Hpairs _ _ Hin) as [[m ->] [m' ->]].
      cbn [mbind option_bind]. eauto. }
    { done. }
    rewrite Hax. cbn [mbind option_bind]. eauto.
Qed.

Lemma updatePair_total ty axis (ms : gmap string ModuleT) repName symName :
  is_Some (ms !! repName) → is_Some (ms !! symName) →
  ∃ ms', updatePair ty axis ms (repName, symName) = Some ms' ∧
         ∀ k, is_Some (ms !! k) → is_Some (ms' !! k).
Proof.
  intros [rm Hr] [sm Hs]. unfold updatePair. rewrite Hr, Hs.
  cbn [mbind option_bind]. cbv zeta.
  set (ms1 := if needsRotation rm sm then <[symName := rotate sm]> ms else ms).
  assert (H1 : ∀ k, is_Some (ms !! k) → is_Some (ms1 !! k)).
  { intros k Hk. unfold ms1. destruct (needsRotation rm sm); [|done].
    apply lookup_insert_is_Some'. by right. }
  destruct (H1 repName) as [rm1 Hr1]; [eauto|].
  destruct (H1 symName) as [sm1 Hs1]; [eauto|].
  rewrite Hr1, Hs1. cbn [mbind option_bind].
  set (ms2 := match ty with VERTICAL => _ | HORIZONTAL => _ end).
  assert (H2 : ∀ k, is_Some (ms !! k) → is_Some (ms2 !! k)).
  { intros k Hk. unfold ms2.
    destruct ty; apply lookup_insert_is_Some'; right; by apply H1. }
  destruct (needsRotation rm sm); [by eexists|].
  destruct (H2 repName) as [rm2 Hr2]; [eauto|].
  destruct (H2 symName) as [sm2 Hs2]; [eauto|].
  rewrite Hr2, Hs2. cbn [mbind option_bind]. eexists. split; [done|].
  intros k Hk. apply lookup_insert_is_Some'. right. by apply H2.
Qed.

Lemma updateSymmetricModulePositions_total s :
  (∀ k, k ∈ representativeModules s → is_Some (modules s !! k)) →
  (∀ repName symName, (repName, symName) ∈ repToPairMap s →
     is_Some (modules s !! repName) ∧ is_Some (modules s !! symName)) →
  (∀ k, k ∈ selfSymmetricModules s → is_Some (modules s !! k)) →
  is_Some (updateSymmetricModulePositions s).
Proof.
  intros Hreps Hpairs Hself. unfold updateSymmetricModulePositions.
  assert (∃ s1, (if Qltb (symmetryAxisPosition s) 0
                 then calculateSymmetryAxisPosition s else Some s) = Some s1 ∧
                modules s1 = modules s ∧ repToPairMap s1 = repToPairMap s ∧
                selfSymmetricModules s1 = selfSymmetricModules s)
    as (s1 & -> & Hm & Hp & Hs).
  { destruct (Qltb _ _); [|by exists s].
    destruct (calculateSymmetryAxisPosition_total s Hreps Hpairs Hself) as [s1 Hs1].
    exists s1. split; [done|].
    apply calculateSymmetryAxisPosition_withAxis in Hs1 as [a ->]. done. }
  cbn [mbind option_bind]. rewrite Hm, Hp, Hs.
  loop_total (repToPairMap s)
    (λ b : gmap string ModuleT,
       ∀ k, is_Some (modules s !! k) → is_Some (b !! k)) ms1 Hms1 Hdom1.
  { intros b [r y] Hin Hb. destruct (Hpairs _ _ Hin) as [Hr Hy].
    destruct (updatePair_total (getType (symmetryGroup s1))
                (symmetryAxisPosition s1) b r y) as (b' & Hb' & Hdom);
      [by apply Hb|by apply Hb|].
    exists b'. split; [done|]. intros k Hk. by apply Hdom, Hb. }
  { done. }
  rewrite Hms1. cbn [mbind option_bind].
  loop_total (selfSymmetricModules s)
    (λ b : gmap string ModuleT,
       ∀ k, is_Some (modules s !! k) → is_Some (b !! k)) ms2 Hms2 Hdom2.
  { intros b name Hin Hb. unfold updateSelfSymmetric.
    destruct (Hb name) as [m ->]; [by apply Hself|].
    cbn [mbind option_bind]. eexists. split; [done|].
    intros k Hk. destruct (getType (symmetryGroup s1));
      apply lookup_insert_is_Some'; right; by apply Hb. }
  { done. }
  rewrite Hms2. cbn [mbind option_bind]. eauto.
Qed.

(** X25. [pack()] runs to completion, without dereferencing a null
    module pointer, whenever every name used by the tree and by the group
    (tree nodes, representatives, the two modules of every pair, the
    self-symmetric modules) has a module in the table. *)
Theorem pack_completes (s : ASFBStarTree) :
  (∀ k, k ∈ preorder (root s) → is_Some (modules s !! k)) →
  (∀ k, k ∈ representativeModules s → is_Some (modules s !! k)) →
  (∀ repName symName, (repName, symName) ∈ repToPairMap s →
     is_Some (modules s !! repName) ∧ is_Some (modules s !! symName)) →
  (∀ k, k ∈ selfSymmetricModules s → is_Some (modules s !! k)) →
  ∃ result s', pack getContourHeight s = Some (result, s').
Proof.
  intros Htree Hreps Hpairs Hself. unfold pack. cbv zeta.
  set (s0 := withTraversals (preorder (root s)) (inorder (root s)) s).
  destruct (packBStarTree_total s0) as [s1 Hs1]; [done|done|].
  rewrite Hs1. cbn [mbind option_bind].
  pose proof (packBStarTree_evolves _ _ _ Hs1) as Hev.
  pose proof Hev as ((_ & Hr1 & Hp1 & Hs1' & _) & _ & _).
  cbn [representativeModules repToPairMap selfSymmetricModules s0
       withTraversals] in Hr1, Hp1, Hs1'.
  assert (Hdom1 : ∀ k, is_Some (modules s !! k) → is_Some (modules s1 !! k)).
  { intros k Hk. by eapply (evolves_is_Some _ s0 s1). }
  destruct (calculateSymmetryAxisPosition_total s1) as [s2 Hs2].
  { intros k Hk. rewrite <- Hr1 in Hk. auto. }
  { intros r y Hin. rewrite <- Hp1 in Hin. destruct (Hpairs _ _ Hin). auto. }
  { intros k Hk. rewrite <- Hs1' in Hk. auto. }
  rewrite Hs2. cbn [mbind option_bind].
  destruct (calculateSymmetryAxisPosition_withAxis _ _ Hs2) as [a ->].
  destruct (updateSymmetricModulePositions_total (withAxis a s1)) as [s3 Hs3].
  { intros k Hk. cbn in *. rewrite <- Hr1 in Hk. auto. }
  { intros r y Hin. cbn in *. rewrite <- Hp1 in Hin.
    destruct (Hpairs _ _ Hin). auto. }
  { intros k Hk. cbn in *. rewrite <- Hs1' in Hk. auto. }
  rewrite Hs3. cbn [mbind option_bind]. eauto.
Qed.

(** The dimensions of the pairs still match after the representatives
    have been packed. *)
Lemma compatibleDims_evolves W (s s' : ASFBStarTree) :
  evolves W s s' → compatibleDims s → compatibleDims s'.
Proof.
  intros ((_ & _ & Hp & _) & _ & Ha) Hc repName symName rm sm Hin Hr Hy.
  rewrite <- Hp in Hin.
  pose proof (Ha repName) as Har. pose proof (Ha symName) as Hay.
  rewrite Hr in Har. rewrite Hy in Hay.
  destruct (modules s !! repName) as [rm0|] eqn:Er; [|done].
  destruct (modules s !! symName) as [sm0|] eqn:Ey; [|done].
  destruct Har as [[Hw1 Hh1] _]. destruct Hay as [[Hw2 Hh2] _].
  destruct (Hc _ _ _ _ Hin Er Ey) as [[? ?]|[? ?]]; [left|right]; split; congruence.
Qed.


End PackCompletes.

Lemma pack_completes_witness :
  ∃ result s', pack heightAt exampleSelfRoot = Some (result, s').
Proof.
  apply (pack_completes heightAt exampleSelfRoot).
  - intros k Hk. vm_compute in Hk.
    repeat (apply elem_of_cons in Hk as [->|Hk]; [vm_compute; eauto|]).
    by apply elem_of_nil in Hk.
  - intros k Hk. vm_compute in Hk.
    repeat (apply elem_of_cons in Hk as [->|Hk]; [vm_compute; eauto|]).
    by apply elem_of_nil in Hk.
  - intros r y Hin. vm_compute in Hin.
    repeat (apply elem_of_cons in Hin as [[= -> ->]|Hin];
            [split; vm_compute; eauto|]).
    by apply elem_of_nil in Hin.
  - intros k Hk. vm_compute in Hk.
    repeat (apply elem_of_cons in Hk as [->|Hk]; [vm_compute; eauto|]).
    by apply elem_of_nil in Hk.
Defined.


(** ** Packing stays in the first quadrant *)

(** The spec's [heightAt] returns 0 or the height of a point of the
    contour. *)
Lemma heightAt_point (c : Contour) (x : Z) :
  heightAt c x = 0 ∨ ∃ p, p ∈ c ∧ heightAt c x = cp_height p.
Proof.
  induction c as [|p c IH]; simpl; [by left|].
  destruct c as [|q c]; [by left|].
  destruct (_ && _).
  - right. exists p. split; [apply list_elem_of_here|done].
  - destruct IH as [->|(p' & Hp' & ->)]; [by left|].
    right. exists p'. split; [by apply list_elem_of_further|done].
Qed.

Lemma sumOver_app f l1 l2 : sumOver f (l1 ++ l2) = sumOver f l1 + sumOver f l2.
Proof. induction l1 as [|a l1 IH]; simpl; [done|]. rewrite IH. lia. Qed.

Lemma sumOver_cons f a l : sumOver f (a :: l) = f a + sumOver f l.
Proof. done. Qed.

Lemma sumOver_nonneg f l : (∀ k, 0 ≤ f k) → 0 ≤ sumOver f l.
Proof.
  intros Hf. induction l as [|a l IH]; simpl; [done|]. specialize (Hf a). lia.
Qed.

Section PackingQuadrant.
Variable getContourHeight : Contour → Z → Z.
Hypothesis getContourHeight_point : ∀ c x,
  getContourHeight c x = 0 ∨ ∃ p, p ∈ c ∧ getContourHeight c x = cp_height p.

Lemma getContourHeight_within bound c x :
  0 ≤ bound → contourWithin bound c → 0 ≤ getContourHeight c x ≤ bound.
Proof.
  intros Hb Hc. destruct (getContourHeight_point c x) as [->|(p & Hp & ->)]; [lia|].
  unfold contourWithin in Hc. rewrite Forall_forall in Hc. by apply Hc.
Qed.

Lemma skipLeft_Forall (P : ContourPoint → Prop) x c pre curr :
  skipLeft x c = (pre, curr) → Forall P c → Forall P pre ∧ Forall P curr.
Proof.
  intros Hsk Hc. apply skipLeft_spec in Hsk as (-> & _ & _).
  by apply Forall_app in Hc.
Qed.

Lemma dropCovered_Forall (P : ContourPoint → Prop) right top c kept curr :
  dropCovered right top c = (kept, curr) → Forall P c →
  Forall P kept ∧ Forall P curr.
Proof.
  revert kept curr. induction c as [|p c IH]; intros kept curr; simpl.
  - intros [= <- <-] _. split; constructor.
  - intros Hd Hc. pose proof Hc as Hpc. apply Forall_cons in Hc as [Hp Hc].
    destruct (cp_x p <? right).
    + destruct (dropCovered right top c) as [kept' curr'] eqn:E.
      destruct (IH _ _ eq_refl Hc) as [Hk Hcu].
      destruct (cp_height p <=? top); injection Hd as <- <-; split; auto.
    + injection Hd as <- <-. split; [constructor|done].
Qed.

Lemma prevHeight_within bound (pre : Contour) :
  0 ≤ bound → contourWithin bound pre → 0 ≤ prevHeight pre ≤ bound.
Proof.
  intros Hb Hp. unfold prevHeight. destruct (last pre) as [p|] eqn:E; [|lia].
  apply last_Some in E as [l' ->]. apply Forall_app in Hp as [_ Hp].
  by apply Forall_cons in Hp as [? _].
Qed.

(** A rectangle whose top is an [int] between 0 and [bound] leaves the
    heights of the contour between 0 and [bound]. *)
Lemma updateContour_within bound (x y width height : Z) (c : Contour) :
  contourWithin bound c → 0 ≤ y + height ≤ bound → bound ≤ INT_MAX →
  contourWithin bound (updateContour x y width height c).
Proof.
  intros Hc Htop Hmax. unfold updateContour.
  rewrite (wrapInt_in_range (y + height)) by (unfold INT_MIN; lia).
  set (right := wrapInt (x + width)). unfold contourWithin in *.
  assert (Hb : 0 ≤ bound) by lia.
  destruct c as [|p0 c0]; [repeat constructor; simpl; lia|].
  remember (p0 :: c0) as c eqn:Ec. clear Ec p0 c0.
  destruct (skipLeft x c) as [pre curr] eqn:Esk.
  destruct (skipLeft_Forall _ _ _ _ _ Esk Hc) as [Hpre Hcurr].
  destruct (linkLeftEdge x (y + height) pre curr) as [pre1 curr1] eqn:El.
  assert (Hl : Forall (λ p, 0 ≤ cp_height p ≤ bound) pre1 ∧
               Forall (λ p, 0 ≤ cp_height p ≤ bound) curr1).
  { unfold linkLeftEdge in El. destruct curr as [|q tl].
    - injection El as <- <-. split; [|constructor].
      apply Forall_app. split; [done|]. repeat constructor; simpl; lia.
    - apply Forall_cons in Hcurr as [Hq Htl].
      destruct (cp_x q >? x).
      + injection El as <- <-. split; [|by constructor].
        apply Forall_app. split; [done|]. repeat constructor; simpl; lia.
      + destruct (cp_x q =? x); injection El as <- <-.
        * split; [|done]. apply Forall_app. split; [done|].
          repeat constructor; simpl; lia.
        * split; [done|by constructor]. }
  destruct Hl as [Hpre1 Hcurr1].
  destruct (dropCovered right (y + height) curr1) as [kept curr2] eqn:Ed.
  destruct (dropCovered_Forall _ _ _ _ _ _ Ed Hcurr1) as [Hkept Hcurr2].
  assert (Hpk : Forall (λ p, 0 ≤ cp_height p ≤ bound) (pre1 ++ kept)).
  { apply Forall_app. by split. }
  pose proof (prevHeight_within bound _ Hb Hpk) as Hprev.
  unfold linkRightEdge. destruct curr2 as [|q tl].
  - apply Forall_app. split; [done|]. repeat constructor; simpl; lia.
  - apply Forall_cons in Hcurr2 as [Hq Htl].
    destruct (cp_x q >? right).
    + apply Forall_app. split; [done|]. constructor; [simpl; lia|by constructor].
    + destruct (cp_x q =? right).
      * apply Forall_app. split; [done|]. constructor; [simpl; lia|done].
      * apply Forall_app. split; [done|by constructor].
Qed.

Lemma contourWithin_mono bound bound' c :
  bound ≤ bound' → contourWithin bound c → contourWithin bound' c.
Proof.
  intros Hle Hc. eapply Forall_impl; [exact Hc|]. intros p. simpl. lia.
Qed.

Section Dimensions.
Variables w h : string → Z.
Hypothesis w_nonneg : ∀ k, 0 ≤ w k.
Hypothesis h_nonneg : ∀ k, 0 ≤ h k.

Lemma sumOver_root_le (f : string → Z) (t : BStarNode) :
  (∀ k, 0 ≤ f k) → sumOver f (rootNames t) ≤ sumOver f (preorder t).
Proof.
  intros Hf. rewrite preorder_root, sumOver_app.
  pose proof (sumOver_nonneg f (descendants t) Hf). lia.
Qed.

(** Placing a module at a position that fits. *)
Lemma placeAt_in_range name x y s s' bound :
  placeAt name x y s = Some s' →
  dimsAs w h s →
  0 ≤ x → x + w name ≤ INT_MAX → 0 ≤ y → y + h name ≤ bound →
  bound ≤ INT_MAX →
  contourWithin bound (contourHead s) →
  dimsAs w h s' ∧ contourWithin bound (contourHead s') ∧
  ∀ k, k = name ∨ placedInRange s k → placedInRange s' k.
Proof.
  unfold placeAt. destruct (modules s !! name) as [m|] eqn:Em; [|done].
  cbn [mbind option_bind]. intros [= <-] Hd Hx Hxw Hy Hyh Hmax Hc.
  destruct (Hd _ _ Em) as [Hwm Hhm].
  cbn [contourHead modules withContour withModules]. split; [|split].
  - intros k mk. cbn [modules withContour withModules].
    destruct (decide (k = name)) as [->|Hne].
    + rewrite lookup_insert_eq. intros [= <-]. simpl. done.
    + rewrite lookup_insert_ne by done. apply Hd.
  - apply updateContour_within; [done| |done]. simpl. rewrite Hhm.
    specialize (h_nonneg name). lia.
  - intros k Hk mk. cbn [modules withContour withModules].
    destruct (decide (k = name)) as [->|Hne].
    + rewrite lookup_insert_eq. intros [= <-]. simpl. rewrite Hwm, Hhm. lia.
    + rewrite lookup_insert_ne by done. destruct Hk as [?|Hk]; [done|].
      apply Hk.
Qed.

Lemma placeLeftChild_in_range name x y l s s1 q1 bound :
  placeLeftChild getContourHeight name x y l s = Some (s1, q1) →
  dimsAs w h s →
  0 ≤ x → x + w name + sumOver w (preorder l) ≤ INT_MAX →
  0 ≤ y ≤ bound →
  bound + sumOver h (rootNames l) ≤ INT_MAX →
  contourWithin bound (contourHead s) →
  dimsAs w h s1 ∧
  contourWithin (bound + sumOver h (rootNames l)) (contourHead s1) ∧
  (∀ node x' y', (node, (x', y')) ∈ q1 →
     0 ≤ x' ∧ x' + sumOver w (preorder node) ≤ INT_MAX ∧
     0 ≤ y' ∧ y' + sumOver h (rootNames node) ≤ bound + sumOver h (rootNames l)) ∧
  ∀ k, k ∈ rootNames l ∨ placedInRange s k → placedInRange s1 k.
Proof.
  unfold placeLeftChild. destruct l as [|lname l1 l2].
  - intros [= <- <-] Hd _ _ _ _ Hc. split; [done|]. split.
    { eapply contourWithin_mono; [|exact Hc]. simpl. lia. }
    split.
    + intros ? ? ? Hin. by apply elem_of_nil in Hin.
    + intros k [Hk|Hk]; [by apply elem_of_nil in Hk|done].
  - destruct (modules s !! name) as [m|] eqn:Em; [|done]. cbn [mbind option_bind].
    destruct (modules s !! lname) as [lm|] eqn:El; [|done]. cbn [mbind option_bind].
    destruct (placeAt _ _ _ _) as [s'|] eqn:Ep; [|done]. cbn [mbind option_bind].
    intros [= <- <-] Hd Hx Hxw Hy Hmax Hc.
    destruct (Hd _ _ Em) as [Hwm _]. destruct (Hd _ _ El) as [Hwl Hhl].
    rewrite Hwm, Hwl, Hhl in *.
    set (leftY := leftChildY getContourHeight (contourHead s) (x + w name) y
                    (w lname) (h lname)) in *.
    assert (HleftY : 0 ≤ leftY ≤ bound).
    { unfold leftY, leftChildY. destruct (negb _); [done|].
      apply getContourHeight_within; [lia|done]. }
    pose proof (sumOver_root_le w (mkNode lname l1 l2) w_nonneg) as Hroot.
    cbn [rootNames sumOver foldr] in Hroot, Hmax |- *.
    pose proof (w_nonneg name). pose proof (h_nonneg lname).
    destruct (placeAt_in_range _ _ _ _ _ (bound + (h lname + 0)) Ep Hd)
      as (Hd1 & Hc1 & Hn1); try lia.
    { eapply contourWithin_mono; [|exact Hc]. lia. }
    split; [done|]. split; [done|]. split.
    + intros node x' y' Hin. apply list_elem_of_singleton in Hin.
      injection Hin as -> -> ->. cbn [rootNames sumOver foldr]. lia.
    + intros k [Hk|Hk]; apply Hn1; [left|by right].
      by apply list_elem_of_singleton in Hk.
Qed.

Lemma placeRightChild_in_range name x y r s s2 q2 bound :
  placeRightChild name x y r s = Some (s2, q2) →
  dimsAs w h s →
  0 ≤ x → x + sumOver w (preorder r) ≤ INT_MAX →
  0 ≤ y → y + h name ≤ bound →
  bound + sumOver h (rootNames r) ≤ INT_MAX →
  contourWithin bound (contourHead s) →
  dimsAs w h s2 ∧
  contourWithin (bound + sumOver h (rootNames r)) (contourHead s2) ∧
  (∀ node x' y', (node, (x', y')) ∈ q2 →
     0 ≤ x' ∧ x' + sumOver w (preorder node) ≤ INT_MAX ∧
     0 ≤ y' ∧ y' + sumOver h (rootNames node) ≤ bound + sumOver h (rootNames r)) ∧
  ∀ k, k ∈ rootNames r ∨ placedInRange s k → placedInRange s2 k.
Proof.
  unfold placeRightChild. destruct r as [|rname r1 r2].
  - intros [= <- <-] Hd _ _ _ _ _ Hc. split; [done|]. split.
    { eapply contourWithin_mono; [|exact Hc]. simpl. lia. }
    split.
    + intros ? ? ? Hin. by apply elem_of_nil in Hin.
    + intros k [Hk|Hk]; [by apply elem_of_nil in Hk|done].
  - destruct (modules s !! name) as [m|] eqn:Em; [|done]. cbn [mbind option_bind].
    destruct (placeAt _ _ _ _) as [s'|] eqn:Ep; [|done]. cbn [mbind option_bind].
    intros [= <- <-] Hd Hx Hxw Hy Hyh Hmax Hc.
    destruct (Hd _ _ Em) as [_ Hhm]. rewrite Hhm in *.
    pose proof (sumOver_root_le w (mkNode rname r1 r2) w_nonneg) as Hroot.
    cbn [rootNames sumOver foldr] in Hroot, Hmax |- *.
    pose proof (h_nonneg name). pose proof (h_nonneg rname).
    destruct (placeAt_in_range _ _ _ _ _ (bound + (h rname + 0)) Ep Hd)
      as (Hd1 & Hc1 & Hn1); try lia.
    { eapply contourWithin_mono; [|exact Hc]. lia. }
    split; [done|]. split; [done|]. split.
    + intros node x' y' Hin. apply list_elem_of_singleton in Hin.
      injection Hin as -> -> ->. cbn [rootNames sumOver foldr]. lia.
    + intros k [Hk|Hk]; apply Hn1; [left|by right].
      by apply list_elem_of_singleton in Hk.
Qed.

(** The packing loop writes positions of the first quadrant that fit in
    an [int]: [bound] is at least every height of the contour and every
    top of a queued module, and leaves room for the heights of the modules
    still to place. *)
Lemma bfsLoop_in_range fuel : ∀ queue s s' bound,
  bfsLoop getContourHeight fuel queue s = Some s' →
  dimsAs w h s →
  0 ≤ bound →
  bound + sumOver h (queueChildren queue) ≤ INT_MAX →
  contourWithin bound (contourHead s) →
  (∀ node x y, (node, (x, y)) ∈ queue →
     0 ≤ x ∧ x + sumOver w (preorder node) ≤ INT_MAX ∧
     0 ≤ y ∧ y + sumOver h (rootNames node) ≤ bound) →
  dimsAs w h s' ∧
  ∀ k, k ∈ queueChildren queue ∨ placedInRange s k → placedInRange s' k.
Proof.
  induction fuel as [|fuel IH]; intros queue s s' bound Hloop Hd Hb Hpot Hc Hq.
  { destruct queue as [|[node [x y]] queue]; [|done]. injection Hloop as <-.
    split; [done|]. intros k [Hk|Hk]; [by apply elem_of_nil in Hk|done]. }
  destruct queue as [|[node [x y]] queue].
  { injection Hloop as <-.
    split; [done|]. intros k [Hk|Hk]; [by apply elem_of_nil in Hk|done]. }
  cbn [bfsLoop] in Hloop.
  assert (Hq' : ∀ node x y, (node, (x, y)) ∈ queue →
            0 ≤ x ∧ x + sumOver w (preorder node) ≤ INT_MAX ∧
            0 ≤ y ∧ y + sumOver h (rootNames node) ≤ bound).
  { intros ? ? ? Hin. eapply Hq. by apply list_elem_of_further. }
  change (queueChildren ((node, (x, y)) :: queue))
    with (descendants node ++ queueChildren queue) in *.
  rewrite sumOver_app in Hpot.
  destruct node as [|name l r].
  { eapply IH; [exact Hloop|done|done| |done|done]. simpl in Hpot. lia. }
  destruct (Hq _ _ _ (list_elem_of_here _ _)) as (Hx & Hxw & Hy & Hyh).
  cbn [preorder rootNames descendants] in Hxw, Hyh, Hpot.
  rewrite sumOver_cons, sumOver_app in Hxw. rewrite sumOver_cons in Hyh.
  change (sumOver h []) with 0 in Hyh.
  rewrite sumOver_app, (preorder_root l), (preorder_root r), !sumOver_app in Hpot.
  pose proof (sumOver_nonneg w (preorder l) w_nonneg).
  pose proof (sumOver_nonneg w (preorder r) w_nonneg).
  pose proof (sumOver_nonneg h (rootNames l) h_nonneg).
  pose proof (sumOver_nonneg h (rootNames r) h_nonneg).
  pose proof (sumOver_nonneg h (descendants l) h_nonneg).
  pose proof (sumOver_nonneg h (descendants r) h_nonneg).
  pose proof (sumOver_nonneg h (queueChildren queue) h_nonneg).
  pose proof (w_nonneg name). pose proof (h_nonneg name).
  destruct (placeLeftChild _ _ _ _ _ _) as [[s1 q1]|] eqn:E1; [|done].
  cbn [mbind option_bind] in Hloop.
  destruct (placeRightChild _ _ _ _ _) as [[s2 q2]|] eqn:E2; [|done].
  cbn [mbind option_bind] in Hloop.
  destruct (placeLeftChild_in_range _ _ _ _ _ _ _ bound E1 Hd)
    as (Hd1 & Hc1 & Hq1 & Hn1); try done; try lia.
  set (bound1 := bound + sumOver h (rootNames l)) in *.
  destruct (placeRightChild_in_range _ _ _ _ _ _ _ bound1 E2 Hd1)
    as (Hd2 & Hc2 & Hq2 & Hn2); try done; try (unfold bound1; lia).
  set (bound2 := bound1 + sumOver h (rootNames r)) in *.
  destruct (placeLeftChild_evolves _ _ _ _ _ _ _ _ E1) as [_ Hch1].
  destruct (placeRightChild_evolves _ _ _ _ _ _ _ E2) as [_ Hch2].
  destruct (IH _ _ _ bound2 Hloop Hd2) as [Hd' Hn']; try done.
  - unfold bound2, bound1. lia.
  - rewrite !queueChildren_app, !sumOver_app, Hch1, Hch2.
    unfold bound2, bound1. lia.
  - intros node x' y' Hin.
    apply elem_of_app in Hin as [Hin|Hin].
    { destruct (Hq' _ _ _ Hin) as (? & ? & ? & ?). unfold bound2, bound1. lia. }
    apply elem_of_app in Hin as [Hin|Hin].
    + destruct (Hq1 _ _ _ Hin) as (? & ? & ? & ?). unfold bound2. lia.
    + by apply Hq2.
  - split; [done|]. intros k Hk. apply Hn'. destruct Hk as [Hk|Hk].
    + apply (children_step name l r (x, y) queue q1 q2 k Hch1 Hch2) in Hk.
      apply elem_of_app in Hk as [Hk|Hk]; [|by left]. right.
      apply elem_of_app in Hk as [Hk|Hk].
      * apply Hn2. right. apply Hn1. by left.
      * apply Hn2. by left.
    + right. apply Hn2. right. apply Hn1. by right.
Qed.

Lemma placeNodes_in_range (s s' : ASFBStarTree) :
  placeNodes getContourHeight s = Some s' →
  dimsAs w h s →
  sumOver w (preorder (root s)) ≤ INT_MAX →
  sumOver h (preorder (root s)) ≤ INT_MAX →
  dimsAs w h s' ∧ ∀ k, k ∈ preorder (root s) → placedInRange s' k.
Proof.
  unfold placeNodes. cbv zeta.
  change (root (withContour clearContour s)) with (root s).
  destruct (root s) as [|name l r] eqn:Eroot.
  { intros [= <-] Hd _ _. split; [done|]. intros k Hk. by apply elem_of_nil in Hk. }
  destruct (placeAt name 0 0 _) as [s0|] eqn:E0; [|done].
  cbn [mbind option_bind]. intros Hloop Hd Hws Hhs.
  cbn [preorder] in Hws, Hhs. rewrite sumOver_cons, sumOver_app in Hws, Hhs.
  pose proof (sumOver_nonneg w (preorder l) w_nonneg).
  pose proof (sumOver_nonneg w (preorder r) w_nonneg).
  pose proof (sumOver_nonneg h (preorder l) h_nonneg).
  pose proof (sumOver_nonneg h (preorder r) h_nonneg).
  pose proof (w_nonneg name). pose proof (h_nonneg name).
  destruct (placeAt_in_range _ _ _ _ _ (h name) E0) as (Hd0 & Hc0 & Hn0);
    try done; try lia.
  { constructor. }
  destruct (bfsLoop_in_range _ _ _ _ (h name) Hloop Hd0) as [Hd' Hn']; try done.
  - unfold queueChildren. cbn [fmap list_fmap concat fst descendants].
    rewrite app_nil_r, sumOver_app. lia.
  - intros node x y Hin. apply list_elem_of_singleton in Hin.
    injection Hin as -> -> ->. cbn [preorder rootNames].
    rewrite !sumOver_cons, sumOver_app. change (sumOver h []) with 0. lia.
  - split; [done|]. intros k Hk. apply Hn'.
    cbn [preorder] in Hk. apply elem_of_cons in Hk as [->|Hk].
    + right. apply Hn0. by left.
    + left. unfold queueChildren. simpl. by rewrite app_nil_r.
Qed.

End Dimensions.

(** X27. When no module has a negative width or height, the widths of
    the modules of the tree add up to at most [INT_MAX] and so do their
    heights, the contour height at an abscissa is 0 or the height of a
    point of the contour, and every representative has a node in the
    tree, [packBStarTree] (packing followed by compaction) leaves every
    module of the tree in the first quadrant and inside the range of
    [int]: [0 ≤ x], [x + width ≤ INT_MAX], [0 ≤ y] and
    [y + height ≤ INT_MAX]. *)
Theorem packing_leaves_no_negative_coordinate (s s' : ASFBStarTree) :
  nonNegativeDims s →
  sumOver (widthOf (modules s)) (preorder (root s)) ≤ INT_MAX →
  sumOver (heightOf (modules s)) (preorder (root s)) ≤ INT_MAX →
  (∀ name, name ∈ representativeModules s → name ∈ preorder (root s)) →
  packBStarTree getContourHeight s = Some s' →
  ∀ name module,
    name ∈ preorder (root s) → modules s' !! name = Some module →
    0 ≤ getX module ∧ getX module + getWidth module ≤ INT_MAX ∧
    0 ≤ getY module ∧ getY module + getHeight module ≤ INT_MAX.
Proof.
  intros Hdims Hws Hhs Hreps Hpack name module Hname Hm.
  unfold packBStarTree in Hpack.
  destruct (placeNodes getContourHeight s) as [s1|] eqn:E1; [|done].
  cbn [mbind option_bind] in Hpack.
  assert (Hw0 : ∀ k, 0 ≤ widthOf (modules s) k).
  { intros k. unfold widthOf. destruct (modules s !! k) as [m|] eqn:E; [|done].
    simpl. by destruct (Hdims _ _ E). }
  assert (Hh0 : ∀ k, 0 ≤ heightOf (modules s) k).
  { intros k. unfold heightOf. destruct (modules s !! k) as [m|] eqn:E; [|done].
    simpl. by destruct (Hdims _ _ E). }
  assert (Hd : dimsAs (widthOf (modules s)) (heightOf (modules s)) s).
  { intros k m Hk. unfold widthOf, heightOf. by rewrite Hk. }
  destruct (placeNodes_in_range _ _ Hw0 Hh0 _ _ E1 Hd Hws Hhs) as [_ Hn1].
  pose proof (placeNodes_evolves _ _ _ E1) as ((_ & Hr & _) & _ & _).
  assert (Hnn : ∀ k m, k ∈ representativeModules s1 →
            modules s1 !! k = Some m → 0 ≤ getX m ∧ 0 ≤ getY m).
  { intros k m Hk Hkm. rewrite <- Hr in Hk.
    destruct (Hn1 k (Hreps _ Hk) m Hkm) as (? & _ & ? & _). done. }
  destruct (compactPlacement_compacted _ _ Hnn Hpack)
    as (p0 & p1 & p2 & Hrepk & Hother & _ & H01 & H12 & Hwb & Hkeep).
  destruct (p2 !! name) as [[x y]|] eqn:Ep2.
  - destruct (Hwb _ _ _ Ep2) as (m0 & Hm0 & Hres).
    rewrite Hres in Hm. injection Hm as <-. simpl.
    pose proof (compacted_trans _ _ _ H01 H12 name) as H02. rewrite Ep2 in H02.
    destruct (p0 !! name) as [[x0 y0]|] eqn:Ep0; [|done].
    destruct (decide (name ∈ representativeModules s1)) as [Hin|Hno].
    + destruct (Hrepk _ Hin) as (m1 & Hm1 & Hp). rewrite Hp in Ep0.
      injection Ep0 as <- <-.
      assert (m1 = m0) as -> by congruence.
      destruct (Hn1 name Hname m0 Hm0) as (? & ? & ? & ?). lia.
    + by rewrite (Hother _ Hno) in Ep0.
  - rewrite (Hkeep _ Ep2) in Hm. by apply (Hn1 name).
Qed.

End PackingQuadrant.

Lemma packing_leaves_no_negative_coordinate_witness :
  0 ≤ getX (mkModule 3 1 0 4 false) ∧
  getX (mkModule 3 1 0 4 false) + getWidth (mkModule 3 1 0 4 false) ≤ INT_MAX ∧
  0 ≤ getY (mkModule 3 1 0 4 false) ∧
  getY (mkModule 3 1 0 4 false) + getHeight (mkModule 3 1 0 4 false) ≤ INT_MAX.
Proof.
  apply (packing_leaves_no_negative_coordinate heightAt heightAt_point
           exampleStaggered exampleStaggeredPacked) with (name := "Q").
  - intros name module Hm.
    assert (Hin : (name, module) ∈ map_to_list (modules exampleStaggered))
      by (by apply elem_of_map_to_list).
    vm_compute in Hin.
    repeat (apply elem_of_cons in Hin as [[= -> ->]|Hin]; [simpl; lia|]).
    by apply elem_of_nil in Hin.
  - by vm_compute.
  - by vm_compute.
  - intros name Hn. cbn [representativeModules exampleStaggered] in Hn.
    repeat (apply elem_of_cons in Hn as [->|Hn];
            [vm_compute;
             repeat first [apply list_elem_of_here | apply list_elem_of_further]|]).
    by apply elem_of_nil in Hn.
  - vm_compute. reflexivity.
  - vm_compute.
    repeat first [apply list_elem_of_here | apply list_elem_of_further].
  - vm_compute. reflexivity.
Defined.

(** ** The projection touches symmetric modules only *)

(** X28. [updateSymmetricModulePositions] changes nothing but the partners
    of the pairs and the self-symmetric modules: every other module of the
    table, in particular a pair representative that is not itself
    self-symmetric or the partner of a pair, keeps its position,
    dimensions and rotation. *)
Theorem projection_moves_only_symmetric_modules (s s' : ASFBStarTree)
    (name : string) :
  updateSymmetricModulePositions s = Some s' →
  name ∉ (repToPairMap s).*2 → name ∉ selfSymmetricModules s →
  modules s' !! name = modules s !! name.
Proof.
  intros Hup Hpair Hself.
  destruct (updateSymmetricModulePositions_loops _ _ Hup)
    as (_ & _ & _ & ms1 & Hpairs & Hselfs).
  rewrite (updateSelfSymmetrics_other _ _ _ _ _ Hselfs _ Hself).
  by rewrite (updatePairs_other _ _ _ _ _ Hpairs _ Hpair).
Qed.

Lemma projection_moves_only_symmetric_modules_witness :
  modules exampleHorizontalProjected !! "d"
  = modules exampleHorizontalPacked !! "d".
Proof.
  apply (projection_moves_only_symmetric_modules exampleHorizontalPacked).
  - vm_compute. reflexivity.
  - cbn [repToPairMap exampleHorizontalPacked fmap list_fmap snd].
    intros Hin. apply list_elem_of_singleton in Hin. discriminate Hin.
  - cbn [selfSymmetricModules exampleHorizontalPacked].
    intros Hin. apply list_elem_of_singleton in Hin. discriminate Hin.
Defined.

(** ** [pack] twice, with rotated partners *)

Section AgreementOn.

Lemma agreeOn_cases D P (ms ms' : gmap string ModuleT) (k : string) :
  agreeOn D P ms ms' →
  (ms !! k = None ∧ ms' !! k = None) ∨
  (∃ m m', ms !! k = Some m ∧ ms' !! k = Some m' ∧
           (D k → dimsEq m m') ∧ (P k → posEq m m')).
Proof.
  intros H. specialize (H k).
  destruct (ms !! k) as [m|], (ms' !! k) as [m'|]; try done.
  - right. exists m, m'. tauto.
  - by left.
Qed.

Lemma agreeOn_weaken (D D' P P' : string → Prop) (ms ms' : gmap string ModuleT) :
  (∀ k, D' k → D k) → (∀ k, P' k → P k) →
  agreeOn D P ms ms' → agreeOn D' P' ms ms'.
Proof.
  intros HD HP H k. specialize (H k).
  destruct (ms !! k), (ms' !! k); try done. destruct H as [Hd Hp]. split; auto.
Qed.

Lemma agree_agreeOn D P (ms ms' : gmap string ModuleT) :
  agree P ms ms' → agreeOn D P ms ms'.
Proof.
  intros H k. specialize (H k).
  destruct (ms !! k), (ms' !! k); try done. destruct H as [Hd Hp]. by split.
Qed.

Lemma agreeOn_agree P (ms ms' : gmap string ModuleT) :
  agreeOn (λ _, True) P ms ms' → agree P ms ms'.
Proof.
  intros H k. specialize (H k).
  destruct (ms !! k), (ms' !! k); try done. destruct H as [Hd Hp]. split; auto.
Qed.

(** The same write on both sides. *)
Lemma agreeOn_insert D P (ms ms' : gmap string ModuleT) (k : string)
    (a a' : ModuleT) :
  agreeOn D P ms ms' → (D k → dimsEq a a') → posEq a a' →
  agreeOn D (λ j, P j ∨ j = k) (<[k := a]> ms) (<[k := a']> ms').
Proof.
  intros H Hd Hp j. destruct (decide (j = k)) as [->|Hne].
  - rewrite !lookup_insert_eq. by split.
  - rewrite !lookup_insert_ne by done. specialize (H j).
    destruct (ms !! j), (ms' !! j); try done. destruct H as [? Hj].
    split; [done|]. intros [?|?]; [auto|done].
Qed.

Lemma relatedOn_weaken (D P P' : string → Prop) s t :
  (∀ k, P' k → P k) → relatedOn D P s t → relatedOn D P' s t.
Proof.
  intros HP (Hg & Hc & Ha). split; [done|]. split; [done|].
  by eapply agreeOn_weaken.
Qed.

End AgreementOn.

(** Two runs of the packing whose tables agree on the dimensions of the
    modules of the tree: the runs never read another module. *)
Section PackingRunsOn.
Variable getContourHeight : Contour → Z → Z.
Variable D : string → Prop.

Lemma placeAt_relatedOn P name x y s t :
  relatedOn D P s t → D name →
  optRel (relatedOn D (λ k, P k ∨ k = name))
    (placeAt name x y s) (placeAt name x y t).
Proof.
  intros (Hg & Hc & Ha) HD. unfold placeAt.
  destruct (agreeOn_cases _ _ _ _ name Ha)
    as [[-> ->]|(m & m' & -> & -> & Hd & _)]; [done|].
  destruct (Hd HD) as [Hw Hh].
  simpl. split; [by destruct Hg as (?&?&?&?&?); repeat split|].
  split; [by rewrite Hw, Hh, Hc|]. simpl.
  apply agreeOn_insert; [done|by split|by split].
Qed.

Lemma placeLeftChild_relatedOn P name x y l s t :
  relatedOn D P s t → D name → (∀ k, k ∈ rootNames l → D k) →
  optRel (λ r r', r.2 = r'.2 ∧ relatedOn D (λ k, P k ∨ k ∈ rootNames l) r.1 r'.1)
    (placeLeftChild getContourHeight name x y l s)
    (placeLeftChild getContourHeight name x y l t).
Proof.
  intros Hrel HD HDl. unfold placeLeftChild. destruct l as [|lname l1 l2].
  - simpl. split; [done|]. eapply relatedOn_weaken; [|exact Hrel]. simpl.
    intros k [?|Hk]; [done|]. by apply elem_of_nil in Hk.
  - pose proof Hrel as (Hg & Hc & Ha).
    destruct (agreeOn_cases _ _ _ _ name Ha)
      as [[-> ->]|(m & m' & -> & -> & Hd & _)]; [done|].
    destruct (Hd HD) as [Hw Hh]. simpl.
    destruct (agreeOn_cases _ _ _ _ lname Ha)
      as [[-> ->]|(lm & lm' & -> & -> & Hdl & _)]; [done|].
    destruct (Hdl (HDl lname (list_elem_of_here _ _))) as [Hlw Hlh].
    simpl. rewrite <- Hw, <- Hlw, <- Hlh, <- Hc.
    eapply optRel_bind.
    + apply placeAt_relatedOn; [exact Hrel|]. apply HDl, list_elem_of_here.
    + intros s1 t1 H1. simpl. split; [done|].
      eapply relatedOn_weaken; [|exact H1]. simpl.
      intros k [?|Hk]; [by left|right]. by apply list_elem_of_singleton in Hk.
Qed.

Lemma placeRightChild_relatedOn P name x y r s t :
  relatedOn D P s t → D name → (∀ k, k ∈ rootNames r → D k) →
  optRel (λ r1 r1', r1.2 = r1'.2 ∧
                    relatedOn D (λ k, P k ∨ k ∈ rootNames r) r1.1 r1'.1)
    (placeRightChild name x y r s) (placeRightChild name x y r t).
Proof.
  intros Hrel HD HDr. unfold placeRightChild. destruct r as [|rname r1 r2].
  - simpl. split; [done|]. eapply relatedOn_weaken; [|exact Hrel]. simpl.
    intros k [?|Hk]; [done|]. by apply elem_of_nil in Hk.
  - pose proof Hrel as (Hg & Hc & Ha).
    destruct (agreeOn_cases _ _ _ _ name Ha)
      as [[-> ->]|(m & m' & -> & -> & Hd & _)]; [done|].
    destruct (Hd HD) as [Hw Hh]. simpl. rewrite <- Hh.
    eapply optRel_bind.
    + apply placeAt_relatedOn; [exact Hrel|]. apply HDr, list_elem_of_here.
    + intros s1 t1 H1. simpl. split; [done|].
      eapply relatedOn_weaken; [|exact H1]. simpl.
      intros k [?|Hk]; [by left|right]. by apply list_elem_of_singleton in Hk.
Qed.

Lemma bfsLoop_relatedOn fuel : ∀ queue P s t,
  relatedOn D P s t →
  (∀ k, k ∈ queueNames queue → D k) →
  optRel (relatedOn D (λ k, P k ∨ k ∈ queueChildren queue))
    (bfsLoop getContourHeight fuel queue s)
    (bfsLoop getContourHeight fuel queue t).
Proof.
  induction fuel as [|fuel IH]; intros [|[node [x y]] queue] P s t Hrel HD; simpl;
    try done; try (eapply relatedOn_weaken; [|exact Hrel]; simpl;
                   by intros k [?|Hk%elem_of_nil]).
  rewrite queueNames_cons in HD.
  destruct node as [|name l r].
  { eapply optRel_impl; [apply IH; [done|]|].
    - intros k Hk. apply HD. rewrite elem_of_app. by right.
    - intros s' t'. apply relatedOn_weaken. done. }
  assert (HDn : D name).
  { apply HD. rewrite elem_of_app. left. apply list_elem_of_here. }
  assert (HDl : ∀ k, k ∈ preorder l → D k).
  { intros k Hk. apply HD. rewrite elem_of_app. left. simpl.
    apply list_elem_of_further. rewrite elem_of_app. by left. }
  assert (HDr : ∀ k, k ∈ preorder r → D k).
  { intros k Hk. apply HD. rewrite elem_of_app. left. simpl.
    apply list_elem_of_further. rewrite elem_of_app. by right. }
  pose proof (placeLeftChild_relatedOn P name x y l s t Hrel HDn
                (λ k Hk, HDl k (rootNames_preorder _ _ Hk))) as H1.
  destruct (placeLeftChild _ _ _ _ _ s) as [[s1 q1]|] eqn:E1,
           (placeLeftChild _ _ _ _ _ t) as [[t1 q1']|] eqn:E1'; try done.
  simpl in H1. destruct H1 as [<- H1]. simpl.
  pose proof (placeRightChild_relatedOn _ name x y r s1 t1 H1 HDn
                (λ k Hk, HDr k (rootNames_preorder _ _ Hk))) as H2.
  destruct (placeRightChild _ _ _ _ s1) as [[s2 q2]|] eqn:E2,
           (placeRightChild _ _ _ _ t1) as [[t2 q2']|] eqn:E2'; try done.
  simpl in H2. destruct H2 as [<- H2]. simpl.
  assert (Hn1 : ∀ k, k ∈ queueNames q1 → k ∈ preorder l).
  { revert E1. unfold placeLeftChild. destruct l as [|ln l1 l2].
    - intros [= _ <-] k Hk. by apply elem_of_nil in Hk.
    - destruct (modules s !! name); [|done]. cbn [mbind option_bind].
      destruct (modules s !! ln); [|done]. cbn [mbind option_bind].
      destruct (placeAt _ _ _ _); [|done]. cbn [mbind option_bind].
      intros [= _ <-] k Hk. rewrite queueNames_cons in Hk.
      by rewrite app_nil_r in Hk. }
  assert (Hn2 : ∀ k, k ∈ queueNames q2 → k ∈ preorder r).
  { revert E2. unfold placeRightChild. destruct r as [|rn r1 r2].
    - intros [= _ <-] k Hk. by apply elem_of_nil in Hk.
    - destruct (modules s1 !! name); [|done]. cbn [mbind option_bind].
      destruct (placeAt _ _ _ _); [|done]. cbn [mbind option_bind].
      intros [= _ <-] k Hk. rewrite queueNames_cons in Hk.
      by rewrite app_nil_r in Hk. }
  apply placeLeftChild_evolves in E1 as [_ Hq1].
  apply placeRightChild_evolves in E2 as [_ Hq2].
  eapply optRel_impl; [apply IH; [exact H2|]|].
  - intros k. rewrite !queueNames_app, !elem_of_app.
    intros [Hk|[Hk|Hk]]; [apply HD; rewrite elem_of_app; by right|auto|auto].
  - intros s' t'. apply relatedOn_weaken. intros k [Hk|Hk]; [by left; left; left|].
    apply (children_step name l r (x, y) queue q1 q2 k Hq1 Hq2) in Hk.
    rewrite !elem_of_app in Hk. tauto.
Qed.

Lemma collectPositions_relatedOn P s t :
  relatedOn D P s t →
  (∀ name, name ∈ representativeModules s → D name ∧ P name) →
  collectPositions s = collectPositions t.
Proof.
  intros (Hg & _ & Ha) HP. unfold collectPositions.
  destruct Hg as (_ & <- & _). apply foldOption_ext_in.
  intros name [positions dimensions] Hname.
  destruct (agreeOn_cases _ _ _ _ name Ha)
    as [[-> ->]|(m & m' & -> & -> & Hd & Hp)]; [done|].
  destruct (HP _ Hname) as [HDn HPn].
  destruct (Hd HDn) as [Hw Hh]. destruct (Hp HPn) as [Hx Hy].
  simpl. by rewrite Hw, Hh, Hx, Hy.
Qed.

Lemma writeBack_relatedOn P positions (ms ms' : gmap string ModuleT) :
  agreeOn D P ms ms' →
  optRel (agreeOn D P) (writeBack positions ms) (writeBack positions ms').
Proof.
  unfold writeBack. apply optRel_foldOption.
  intros [name [x y]] b b' _ Hb.
  destruct (agreeOn_cases _ _ _ _ name Hb)
    as [[-> ->]|(m & m' & -> & -> & Hd & _)]; [done|].
  simpl. eapply agreeOn_weaken; [done| |apply agreeOn_insert; [exact Hb| |done]].
  - intros k Hk. by left.
  - intros HDn. by destruct (Hd HDn).
Qed.

Lemma compactPlacement_relatedOn P s t :
  relatedOn D P s t →
  (∀ name, name ∈ representativeModules s → D name ∧ P name) →
  optRel (relatedOn D P) (compactPlacement s) (compactPlacement t).
Proof.
  intros Hrel HP. unfold compactPlacement.
  rewrite <- (collectPositions_relatedOn P s t Hrel HP).
  destruct Hrel as (Hg & Hc & Ha).
  destruct (collectPositions s) as [[positions0 dimensions]|]; [|done]. simpl.
  assert (Hty : getType (symmetryGroup s) = getType (symmetryGroup t))
    by (by destruct Hg).
  rewrite <- Hty.
  eapply optRel_bind; [by apply writeBack_relatedOn|].
  intros ms ms' Hms. simpl. split; [|by split].
  by destruct Hg as (?&?&?&?&?); repeat split.
Qed.

Lemma placeNodes_relatedOn P s t :
  sameGroup s t → agreeOn D P (modules s) (modules t) →
  (∀ k, k ∈ preorder (root s) → D k) →
  optRel (relatedOn D (λ k, P k ∨ k ∈ preorder (root s)))
    (placeNodes getContourHeight s) (placeNodes getContourHeight t).
Proof.
  intros Hg Ha HD. unfold placeNodes. cbv zeta.
  assert (H0 : relatedOn D P (withContour clearContour s)
                 (withContour clearContour t)).
  { split; [by destruct Hg as (?&?&?&?&?); repeat split|]. by split. }
  assert (Hroot : root s = root t) by (by destruct Hg as (?&?&?&?&?)).
  change (root (withContour clearContour s)) with (root s).
  change (root (withContour clearContour t)) with (root t).
  rewrite <- Hroot. destruct (root s) as [|name l r] eqn:Er.
  - eapply relatedOn_weaken; [|exact H0]. simpl. by intros k [?|Hk%elem_of_nil].
  - eapply optRel_bind.
    { apply placeAt_relatedOn; [done|]. apply HD, list_elem_of_here. }
    intros s1 t1 H1. eapply optRel_impl.
    { apply bfsLoop_relatedOn; [exact H1|].
      intros k Hk. rewrite queueNames_cons, app_nil_r in Hk. by apply HD. }
    intros s2 t2. apply relatedOn_weaken. intros k [Hk|Hk]; [by left; left|].
    unfold queueChildren. simpl. rewrite app_nil_r.
    simpl in Hk. apply elem_of_cons in Hk as [->|Hk]; [by left; right|by right].
Qed.

Lemma packBStarTree_relatedOn P s t :
  sameGroup s t → agreeOn D P (modules s) (modules t) →
  (∀ name, name ∈ representativeModules s → name ∈ preorder (root s)) →
  (∀ k, k ∈ preorder (root s) → D k) →
  optRel (relatedOn D (λ k, P k ∨ k ∈ preorder (root s)))
    (packBStarTree getContourHeight s) (packBStarTree getContourHeight t).
Proof.
  intros Hg Ha Hreps HD. unfold packBStarTree.
  pose proof (placeNodes_relatedOn P s t Hg Ha HD) as H1.
  destruct (placeNodes getContourHeight s) as [s1|] eqn:E1,
           (placeNodes getContourHeight t) as [t1|] eqn:E1'; try done.
  simpl in *. apply compactPlacement_relatedOn; [done|].
  apply placeNodes_evolves in E1 as [(_ & <- & _) _].
  intros name Hname. split; [by apply HD, Hreps|]. right. by apply Hreps.
Qed.

End PackingRunsOn.

Section PackTwice.
Variable getContourHeight : Contour → Z → Z.

Lemma needsRotation_dims r r' y y' :
  dimsEq r r' → dimsEq y y' → needsRotation r y = needsRotation r' y'.
Proof. intros [Hw Hh] [Hw' Hh']. unfold needsRotation. by rewrite Hw, Hh, Hw', Hh'. Qed.

(** Once the partner has been rotated to match, the dimension check asks
    for no further rotation. *)
Lemma rotation_settles (rm sm0 sm : ModuleT) :
  getWidth sm = getWidth (if needsRotation rm sm0 then rotate sm0 else sm0) →
  getHeight sm = getHeight (if needsRotation rm sm0 then rotate sm0 else sm0) →
  needsRotation rm sm = false.
Proof.
  unfold needsRotation at 3. intros Hw Hh.
  destruct (needsRotation rm sm0) eqn:E.
  - unfold needsRotation in E. simpl in Hw, Hh. rewrite Hw, Hh.
    apply andb_prop in E as [E Eh']. apply andb_prop in E as [_ Ew'].
    apply Z.eqb_eq in Ew', Eh'. rewrite Ew', Eh', !Z.eqb_refl. done.
  - unfold needsRotation in E. by rewrite Hw, Hh.
Qed.

(** The projection of a partner that has already been projected from the
    same representative and the same axis leaves it where it is. *)
Lemma projected_again ty axis (rm rm' sm0 sm sm0' sm' : ModuleT) :
  projectedFrom ty axis rm sm0 sm →
  dimsEq rm rm' → posEq rm rm' → dimsEq sm sm0' →
  projectedFrom ty axis rm' sm0' sm' →
  dimsEq sm sm' ∧ posEq sm sm'.
Proof.
  intros (Hw & Hh & Hax & Hcr) Hdr Hpr Hdy (Hw' & Hh' & Hax' & Hcr').
  assert (Hno : needsRotation rm' sm0' = false).
  { rewrite <- (needsRotation_dims rm rm' sm sm0' Hdr Hdy).
    by apply (rotation_settles rm sm0 sm). }
  rewrite Hno in Hw', Hh'. destruct Hdy as [Hdw Hdh].
  assert (Hd : dimsEq sm sm') by (split; congruence).
  split; [done|].
  assert (Hext : axisExtent ty sm' = axisExtent ty sm).
  { destruct Hd as [? ?]. by destruct ty. }
  assert (Hcen : axisCenter ty rm' = axisCenter ty rm).
  { unfold axisCenter. destruct Hdr as [? ?], Hpr as [? ?].
    destruct ty; simpl; congruence. }
  rewrite Hext, Hcen, <- Hax in Hax'.
  assert (Hcr2 : crossCoord ty sm' = crossCoord ty sm).
  { rewrite Hcr', Hcr. destruct Hpr as [? ?]. by destruct ty. }
  destruct ty; simpl in *; split; congruence.
Qed.

Lemma updateSelfSymmetrics_present ty axis names : ∀ (ms ms' : gmap string ModuleT),
  foldOption (updateSelfSymmetric ty axis) names ms = Some ms' →
  ∀ n, n ∈ names → is_Some (ms !! n).
Proof.
  induction names as [|a names IH]; intros ms ms' Hf n Hn.
  { by apply elem_of_nil in Hn. }
  rewrite foldOption_cons in Hf.
  destruct (updateSelfSymmetric ty axis ms a) as [ms1|] eqn:E1; [|done].
  cbn [mbind option_bind] in Hf.
  apply elem_of_cons in Hn as [->|Hn].
  - unfold updateSelfSymmetric in E1. destruct (ms !! a); [eauto|done].
  - apply updateSelfSymmetric_evolves in E1.
    eapply agree_is_Some; [apply agree_sym; exact E1|]. by eapply IH.
Qed.

Lemma updateSymmetricModulePositions_sameGroup s s' :
  updateSymmetricModulePositions s = Some s' → sameGroup s s'.
Proof.
  unfold updateSymmetricModulePositions.
  destruct (if Qltb (symmetryAxisPosition s) 0
            then calculateSymmetryAxisPosition s else Some s)
    as [s1|] eqn:E1; [|done].
  assert (Hg : sameGroup s s1).
  { destruct (Qltb _ _).
    - by destruct (calculateSymmetryAxisPosition_fields _ _ E1).
    - injection E1 as <-. apply sameGroup_refl. }
  cbn [mbind option_bind].
  destruct (foldOption (updatePair _ _) _ _) as [ms1|]; [|done].
  cbn [mbind option_bind].
  destruct (foldOption (updateSelfSymmetric _ _) _ _) as [ms2|]; [|done].
  cbn [mbind option_bind]. intros [= <-].
  destruct Hg as (?&?&?&?&?). by repeat split.
Qed.

Lemma packBStarTree_reps_present s s' :
  packBStarTree getContourHeight s = Some s' →
  ∀ k, k ∈ representativeModules s → is_Some (modules s' !! k).
Proof.
  unfold packBStarTree. intros Hp k Hk.
  destruct (placeNodes getContourHeight s) as [s1|] eqn:E1; [|done].
  cbn [mbind option_bind] in Hp.
  pose proof (placeNodes_evolves _ _ _ E1) as ((_ & Hr & _) & _ & _).
  pose proof (compactPlacement_evolves _ _ Hp) as (_ & _ & Ha).
  eapply agree_is_Some; [exact Ha|].
  unfold compactPlacement in Hp.
  destruct (collectPositions s1) as [[p d]|] eqn:Ec; [|done].
  rewrite Hr in Hk.
  destruct (collectPositions_lookup _ _ _ Ec k Hk) as (m & -> & _). eauto.
Qed.

(** With every module in one role and the partners outside the tree, a
    second [pack()] returns and, when it arrives at the same axis, ends in
    a table that agrees with the one after the first call on every
    dimension and position. *)
Lemma pack_twice_same_axis (s s1 : ASFBStarTree) (b1 : bool) :
  wellFormedGroup s → disjointRoles s → partnersOutsideTree s →
  pack getContourHeight s = Some (b1, s1) →
  ∃ b2 s2,
    pack getContourHeight s1 = Some (b2, s2) ∧
    (symmetryAxisPosition s2 = symmetryAxisPosition s1 →
     b2 = b1 ∧ agree (λ _, True) (modules s1) (modules s2)).
Proof.
  intros (Hreps & Hkeys & Hself) (Hnd & Hrp & Hsp) Hout Hpack.
  unfold pack in Hpack. cbv zeta in Hpack.
  set (s0 := withTraversals (preorder (root s)) (inorder (root s)) s) in *.
  destruct (packBStarTree getContourHeight s0) as [sp|] eqn:E1; [|done].
  cbn [mbind option_bind] in Hpack.
  destruct (calculateSymmetryAxisPosition sp) as [sa|] eqn:E2; [|done].
  cbn [mbind option_bind] in Hpack.
  destruct (updateSymmetricModulePositions sa) as [s3|] eqn:E3; [|done].
  cbn [mbind option_bind] in Hpack. injection Hpack as <- <-.
  (* the first run *)
  pose proof (packBStarTree_evolves _ _ _ E1) as (Hg1 & _ & Ha1).
  change (modules s0) with (modules s) in Ha1.
  change (root s0) with (root s) in Ha1.
  change (representativeModules s0) with (representativeModules s) in Ha1.
  pose proof (calculateSymmetryAxisPosition_fields _ _ E2) as (Hg2 & Hms2 & _).
  pose proof (updateSymmetricModulePositions_sameGroup _ _ E3) as Hg3.
  assert (Hg03 : sameGroup s0 s3).
  { exact (sameGroup_trans _ _ _ (sameGroup_trans _ _ _ Hg1 Hg2) Hg3). }
  pose proof Hg03 as (Hty3 & Hr3 & Hp3 & Hs3 & Hroot3).
  cbn [s0 withTraversals symmetryGroup representativeModules repToPairMap
       selfSymmetricModules root] in Hty3, Hr3, Hp3, Hs3, Hroot3.
  assert (Hga : sameGroup s0 sa) by exact (sameGroup_trans _ _ _ Hg1 Hg2).
  pose proof Hga as (Htya & Hra & Hpa & Hsa & Hroota).
  cbn [s0 withTraversals symmetryGroup representativeModules repToPairMap
       selfSymmetricModules root] in Htya, Hra, Hpa, Hsa, Hroota.
  destruct (updateSymmetricModulePositions_loops _ _ E3)
    as (_ & _ & _ & ms1 & Hloop1 & Hloop2).
  rewrite <- Htya, <- Hpa, Hms2 in Hloop1. rewrite <- Htya, <- Hsa in Hloop2.
  set (ty := getType (symmetryGroup s)) in *.
  pose proof (updatePairs_result _ _ _ _ _ Hnd Hrp Hloop1) as HresA.
  pose proof (updatePairs_other _ _ _ _ _ Hloop1) as HothA.
  pose proof (updateSelfSymmetrics_other _ _ _ _ _ Hloop2) as HselfA.
  pose proof (updateSelfSymmetrics_evolves _ _ _ _ _ Hloop2) as HevA.
  assert (Hpartner : ∀ k, k ∈ (repToPairMap s).*2 →
            ∃ rep, (rep, k) ∈ repToPairMap s).
  { intros k Hk. apply list_elem_of_fmap in Hk as ([rep k'] & -> & Hin).
    by exists rep. }
  assert (Hnotself : ∀ k, k ∈ (repToPairMap s).*2 → k ∉ selfSymmetricModules s).
  { intros k Hk Hin. by destruct (Hsp _ Hin) as [_ ?]. }
  (* the tables before the first run and after it *)
  assert (Hstart : agreeOn (λ k, k ∉ (repToPairMap s).*2) (λ _, False)
                     (modules s) (modules s3)).
  { intros k. specialize (Ha1 k). specialize (HevA k).
    destruct (decide (k ∈ (repToPairMap s).*2)) as [Hk|Hk].
    - destruct (Hpartner _ Hk) as [rep Hin].
      destruct (HresA _ _ Hin) as (rm & sm0 & sm & _ & Hsm0 & _ & Hsm & _).
      rewrite Hsm0 in Ha1. rewrite Hsm in HevA.
      destruct (modules s !! k); [|done].
      destruct (modules s3 !! k); [|done]. split; [done|]. done.
    - rewrite (HothA _ Hk) in HevA.
      destruct (modules s !! k), (modules sp !! k), (modules s3 !! k); try done.
      destruct Ha1 as [[? ?] _], HevA as [[? ?] _].
      split; [|done]. intros _. split; congruence. }
  (* the second run: the packing *)
  unfold pack. cbv zeta.
  set (t0 := withTraversals (preorder (root s3)) (inorder (root s3)) s3).
  assert (Hg0 : sameGroup s0 t0) by exact Hg03.
  pose proof (packBStarTree_relatedOn getContourHeight
                (λ k, k ∉ (repToPairMap s).*2) (λ _, False) s0 t0 Hg0 Hstart Hreps)
    as Hrel1.
  rewrite E1 in Hrel1.
  destruct (packBStarTree getContourHeight t0) as [tp|] eqn:E1'.
  2: { exfalso. apply Hrel1. intros k Hk Hin. by apply (Hout k). }
  cbn [optRel] in Hrel1. cbn [mbind option_bind].
  destruct Hrel1 as (Hgp & _ & Hagp).
  { intros k Hk Hin. by apply (Hout k). }
  change (root s0) with (root s) in Hagp.
  pose proof (packBStarTree_evolves _ _ _ E1') as (Hg1' & _ & Ha1').
  change (modules t0) with (modules s3) in Ha1'.
  change (root t0) with (root s3) in Ha1'.
  change (representativeModules t0) with (representativeModules s3) in Ha1'.
  rewrite <- Hroot3, <- Hr3 in Ha1'.
  (* presence of the modules that the second run reads *)
  assert (Hdom : ∀ k, is_Some (modules sp !! k) → is_Some (modules tp !! k)).
  { intros k Hk. specialize (Hagp k). destruct Hk as [m Hm]. rewrite Hm in Hagp.
    destruct (modules tp !! k); [eauto|done]. }
  assert (HrepsP : ∀ k, k ∈ representativeModules tp → is_Some (modules tp !! k)).
  { intros k Hk. apply Hdom.
    apply (packBStarTree_reps_present s0 sp E1).
    destruct Hgp as (_ & Hr & _). destruct Hg1 as (_ & Hr' & _).
    by rewrite Hr', Hr. }
  assert (HpairsP : ∀ repName symName, (repName, symName) ∈ repToPairMap tp →
            is_Some (modules tp !! repName) ∧ is_Some (modules tp !! symName)).
  { intros r y Hin.
    assert (Hin' : (r, y) ∈ repToPairMap s).
    { destruct Hgp as (_ & _ & Hp & _). destruct Hg1 as (_ & _ & Hp' & _).
      cbn [s0 withTraversals repToPairMap] in Hp'. by rewrite Hp', Hp. }
    destruct (HresA _ _ Hin') as (rm & sm0 & sm & Hrm & Hsm0 & _).
    split; apply Hdom; eauto. }
  assert (HselfP : ∀ k, k ∈ selfSymmetricModules tp → is_Some (modules tp !! k)).
  { intros k Hk.
    assert (Hk' : k ∈ selfSymmetricModules s).
    { destruct Hgp as (_ & _ & _ & Hs & _). destruct Hg1 as (_ & _ & _ & Hs' & _).
      cbn [s0 withTraversals selfSymmetricModules] in Hs'. by rewrite Hs', Hs. }
    apply Hdom.
    pose proof (updateSelfSymmetrics_present _ _ _ _ _ Hloop2 k Hk') as Hk1.
    assert (Hnp : k ∉ (repToPairMap s).*2) by (by destruct (Hsp _ Hk')).
    by rewrite (HothA _ Hnp) in Hk1. }
  destruct (calculateSymmetryAxisPosition_total tp HrepsP HpairsP HselfP)
    as [ta E2'].
  rewrite E2'. cbn [mbind option_bind].
  pose proof (calculateSymmetryAxisPosition_fields _ _ E2') as (Hg2' & Hms2' & _).
  destruct (updateSymmetricModulePositions_total ta) as [t3 E3'].
  { destruct Hg2' as (_ & <- & _). rewrite Hms2'. exact HrepsP. }
  { destruct Hg2' as (_ & _ & <- & _). rewrite Hms2'. exact HpairsP. }
  { destruct Hg2' as (_ & _ & _ & <- & _). rewrite Hms2'. exact HselfP. }
  rewrite E3'. cbn [mbind option_bind].
  exists (validateSymmetry t3), t3. split; [done|].
  (* the second run: the projection, at the same axis *)
  intros Hax.
  pose proof (updateSymmetricModulePositions_sameGroup _ _ E3') as Hg3'.
  assert (Hgb : sameGroup s0 ta).
  { exact (sameGroup_trans _ _ _ (sameGroup_trans _ _ _ Hg1 Hgp) Hg2'). }
  pose proof Hgb as (Htyb & Hrb & Hpb & Hsb & Hrootb).
  cbn [s0 withTraversals symmetryGroup representativeModules repToPairMap
       selfSymmetricModules root] in Htyb, Hrb, Hpb, Hsb, Hrootb.
  destruct (updateSymmetricModulePositions_loops _ _ E3')
    as (_ & _ & _ & ms1' & Hloop1' & Hloop2').
  rewrite <- Htyb, <- Hpb, Hms2', Hax in Hloop1'.
  rewrite <- Htyb, <- Hsb, Hax in Hloop2'.
  fold ty in Hloop1', Hloop2'.
  pose proof (updatePairs_result _ _ _ _ _ Hnd Hrp Hloop1') as HresB.
  pose proof (updatePairs_other _ _ _ _ _ Hloop1') as HothB.
  assert (Hmid : agree (λ _, True) ms1 ms1').
  { intros k. destruct (decide (k ∈ (repToPairMap s).*2)) as [Hk|Hk].
    - destruct (Hpartner _ Hk) as [rep Hin].
      destruct (HresA _ _ Hin) as (rm & sm0 & sm & Hrm & Hsm0 & _ & Hsm & HprA).
      destruct (HresB _ _ Hin) as (rm' & sm0' & sm' & Hrm' & Hsm0' & _ & Hsm' & HprB).
      rewrite Hsm, Hsm'.
      assert (Hrep : rep ∈ preorder (root s)) by (eapply Hreps, Hkeys; exact Hin).
      assert (Hrepnp : rep ∉ (repToPairMap s).*2).
      { apply Hrp. apply list_elem_of_fmap. by exists (rep, k). }
      pose proof (Hagp rep) as Hr. rewrite Hrm, Hrm' in Hr.
      destruct Hr as [Hdr Hpr].
      assert (Hktree : k ∉ preorder (root s) ++ representativeModules s).
      { rewrite elem_of_app. intros [?|?%Hreps]; by apply (Hout k). }
      pose proof (Ha1' k) as Hk3. rewrite Hsm0' in Hk3.
      rewrite (HselfA _ (Hnotself _ Hk)), Hsm in Hk3.
      destruct Hk3 as [Hdy _].
      destruct (projected_again _ _ _ _ _ _ _ _ HprA (Hdr Hrepnp)
                  (Hpr (or_intror Hrep)) Hdy HprB) as [Hd Hp].
      split; [done|]. done.
    - rewrite (HothA _ Hk), (HothB _ Hk).
      pose proof (Hagp k) as Hkk.
      destruct (modules sp !! k) as [m|] eqn:Em, (modules tp !! k) as [m'|] eqn:Em';
        try done.
      destruct Hkk as [Hd Hp]. split; [by apply Hd|]. intros _.
      destruct (decide (k ∈ preorder (root s))) as [Ht|Ht]; [apply Hp; by right|].
      assert (Hktree : k ∉ preorder (root s) ++ representativeModules s).
      { rewrite elem_of_app. intros [?|?%Hreps]; done. }
      assert (Hkself : k ∉ selfSymmetricModules s).
      { intros Hin. apply Ht. by apply Hreps, Hself. }
      pose proof (Ha1' k) as Hk3. rewrite Em' in Hk3.
      rewrite (HselfA _ Hkself), (HothA _ Hk), Em in Hk3.
      destruct Hk3 as [_ Hpk]. by apply Hpk. }
  assert (Hend : agree (λ _, True) (modules s3) (modules t3)).
  { pose proof (optRel_foldOption (agree (λ _, True))
                  (updateSelfSymmetric ty (symmetryAxisPosition s3))
                  (updateSelfSymmetric ty (symmetryAxisPosition s3))
                  (selfSymmetricModules s)) as Hrel.
    specialize (Hrel (λ name b b' _ Hb,
                        updateSelfSymmetric_related _ ty _ b b' name Hb I)
                     ms1 ms1' Hmid).
    rewrite Hloop2, Hloop2' in Hrel. exact Hrel. }
  split; [|done].
  symmetry. apply validateSymmetry_agree; [|done|by symmetry].
  eapply sameGroup_trans; [apply sameGroup_sym; exact Hg03|].
  exact (sameGroup_trans _ _ _ Hgb Hg3').
Qed.

(** C9, as the code has it.  [pack()] is idempotent whenever the second
    call arrives at the axis of the first.  On a well-formed engine state
    in which no partner has to be rotated, or in which every module plays
    one role and no partner has a node in the tree, a second [pack()],
    with no mutation in between, returns; when it computes the same axis
    as the first call (as it does when no partner has to be rotated), it
    yields the same boolean result and leaves every module at the position
    it had after the first call. *)
Theorem pack_idempotent (s s1 : ASFBStarTree) (b1 : bool) :
  wellFormedGroup s →
  (noRotation (repToPairMap s) (modules s) ∨
   (disjointRoles s ∧ partnersOutsideTree s)) →
  pack getContourHeight s = Some (b1, s1) →
  ∃ b2 s2,
    pack getContourHeight s1 = Some (b2, s2) ∧
    (noRotation (repToPairMap s) (modules s) →
     symmetryAxisPosition s2 = symmetryAxisPosition s1) ∧
    (symmetryAxisPosition s2 = symmetryAxisPosition s1 →
     b2 = b1 ∧
     ∀ name module1,
       modules s1 !! name = Some module1 →
       ∃ module2, modules s2 !! name = Some module2 ∧
                  getX module2 = getX module1 ∧ getY module2 = getY module1).
Proof.
  intros Hwf [Hno|[Hroles Hout]] Hpack.
  - destruct (second_pack_without_rotation getContourHeight s s1 b1 Hwf Hno Hpack)
      as (b2 & s2 & Hp2 & Hax & Hb & Hpos).
    exists b2, s2. split; [done|]. split; [done|]. intros _. by split.
  - destruct (pack_twice_same_axis s s1 b1 Hwf Hroles Hout Hpack)
      as (b2 & s2 & Hp2 & Hsame).
    exists b2, s2. split; [done|]. split.
    + intros Hno.
      destruct (second_pack_without_rotation getContourHeight s s1 b1 Hwf Hno Hpack)
        as (b2' & s2' & Hp2' & Hax & _).
      rewrite Hp2 in Hp2'. by injection Hp2' as _ <-.
    + intros Hax. destruct (Hsame Hax) as [Hb Hag]. split; [done|].
      intros name m1 Hm1.
      destruct (agree_cases _ _ _ name Hag)
        as [[E _]|(m & m2 & Em & Em2 & _ & Hpos)]; [congruence|].
      assert (m = m1) as -> by congruence.
      exists m2. split; [done|]. destruct (Hpos I). by split.
Qed.

End PackTwice.

Lemma pack_idempotent_witness :
  ∃ b2 s2,
    pack heightAt
      (default exampleRotationKept (snd <$> pack heightAt exampleRotationKept))
    = Some (b2, s2) ∧
    (noRotation (repToPairMap exampleRotationKept) (modules exampleRotationKept) →
     symmetryAxisPosition s2
     = symmetryAxisPosition
         (default exampleRotationKept
            (snd <$> pack heightAt exampleRotationKept))) ∧
    (symmetryAxisPosition s2
     = symmetryAxisPosition
         (default exampleRotationKept
            (snd <$> pack heightAt exampleRotationKept)) →
     b2 = true ∧
     ∀ name module1,
       modules (default exampleRotationKept
                  (snd <$> pack heightAt exampleRotationKept)) !! name
       = Some module1 →
       ∃ module2, modules s2 !! name = Some module2 ∧
                  getX module2 = getX module1 ∧ getY module2 = getY module1).
Proof.
  apply (pack_idempotent heightAt exampleRotationKept).
  - split; [|split].
    + intros name Hname. exact Hname.
    + intros repName symName Hin.
      apply list_elem_of_singleton in Hin. injection Hin as -> ->.
      apply list_elem_of_here.
    + intros name Hin. by apply elem_of_nil in Hin.
  - right. split; [split; [|split]|].
    + vm_compute. repeat constructor. by intros ?%elem_of_nil.
    + intros name Hn. vm_compute in Hn. apply list_elem_of_singleton in Hn as ->.
      vm_compute. intros Hd. by apply list_elem_of_singleton in Hd.
    + intros name Hn. by apply elem_of_nil in Hn.
    + intros name Hn. vm_compute in Hn. apply list_elem_of_singleton in Hn as ->.
      vm_compute. intros Hd. by apply list_elem_of_singleton in Hd.
  - vm_compute. reflexivity.
Defined.

(** On [exampleRotationKept] the first [pack()] rotates the partner e'
    (3×2 becomes 2×3) and sets the axis to 3, one more than the right edge
    of e; the second [pack()] arrives at the same axis and leaves e' at
    x = 4. *)
Lemma pack_twice_keeps_rotated_partner :
  ∃ s1 s2 m1 m2,
    needsRotation (mkModule 2 3 0 0 false) (mkModule 3 2 0 0 false) = true ∧
    pack heightAt exampleRotationKept = Some (true, s1) ∧
    pack heightAt s1 = Some (true, s2) ∧
    symmetryAxisPosition s2 = symmetryAxisPosition s1 ∧
    modules s1 !! "e'" = Some m1 ∧ modules s2 !! "e'" = Some m2 ∧
    getX m1 = 4 ∧ getX m2 = 4.
Proof.
  eexists _, _, _, _. split; [reflexivity|].
  split; [vm_compute; reflexivity|]. split; [vm_compute; reflexivity|].
  split; [vm_compute; reflexivity|]. split; [vm_compute; reflexivity|].
  split; [vm_compute; reflexivity|]. split; reflexivity.
Qed.
